(** * GreyCodeChimera: a shallow embedding of the cyclic Gray code counter

    The C program counts cyclic Gray codes of [NUM_DIGITS] binary digits.
    This file embeds the parts of GreyCodeChimera.c, GreyCodeTypes.h,
    ThreadSequenceCheckers.c, SequenceHashTable.c and GMPHashTable.c that the
    specification talks about, and proves properties of them.

    Conventions of the embedding:
    - C arrays are lists; a pointer into an array is an index (a [nat]).
      Every read and write is bounds checked and the embedding returns
      [None] where the C code would leave its array.
    - [stepMask] (unsigned short), [step] (unsigned char), [int] and
      [unsigned long] values are integers in [Z]; the conversions that can
      lose bits are written out ([to_step], [shl_mask]).
    - [mpz_t] values are integers in [Z].
    - loops whose trip count is not known in advance take a fuel argument
      and return [None] when it runs out. *)

From Stdlib Require Import ZArith Lia Znumtheory Factorial.
From stdpp Require Import base numbers option list.

Local Open Scope Z_scope.

(** ** Arrays *)

(** [arr[i] = x] *)
Definition wr {A} (arr : list A) (i : nat) (x : A) : option (list A) :=
  if (i <? length arr)%nat then Some (<[i:=x]> arr) else None.

(** [memcpy(dst + d, src + s, cnt * sizeof(A))] *)
Definition memcpy {A} (dst : list A) (d : nat) (src : list A) (s : nat)
    (cnt : nat) : option (list A) :=
  if ((d + cnt <=? length dst) && (s + cnt <=? length src))%nat
  then Some (take d dst ++ take cnt (drop s src) ++ drop (d + cnt) dst)
  else None.

(** ** GreyCodeTypes.h *)

(** [typedef unsigned short stepMask]: the value stored after [x <<= 1]. *)
Definition shl_mask (x : Z) : Z := (x * 2) mod 65536.

(** [typedef unsigned char step]: the value stored when an [unsigned int] is
    assigned to a [step]. *)
Definition to_step (x : Z) : Z := x mod 256.

(** [__builtin_ctz], used as [log2] on step masks. *)
Fixpoint ctz_pos (p : positive) : Z :=
  match p with
  | xO p' => 1 + ctz_pos p'
  | _ => 0
  end.

Definition log2 (x : Z) : Z :=
  match x with
  | Zpos p => ctz_pos p
  | _ => 0
  end.

Section Chimera.

(** [NUM_DIGITS] is a compile time constant of the C program. *)
Variable NUM_DIGITS : nat.

(** [#define len (1 << NUM_DIGITS)] *)
Definition len : nat := 2 ^ NUM_DIGITS.

(** [#define LAST_DIGIT_STEP (1 << (NUM_DIGITS - 1))] *)
Definition LAST_DIGIT_STEP : Z := 2 ^ (Z.of_nat NUM_DIGITS - 1).

(** ** The skeleton ("lowest") sequence, built at the start of [main] *)

(** One round of the doubling loop; [init] is the offset [init - lowest]. *)
Definition lowest_round (st : list Z * nat) : option (list Z * nat) :=
  let '(lowest, init) := st in
  lowest ← memcpy lowest init lowest 0 init;
  let init := (init + init - 1)%nat in
  x ← lowest !! init;
  lowest ← wr lowest init (shl_mask x);
  Some (lowest, S init).

Fixpoint lowest_rounds (i : nat) (st : list Z * nat) : option (list Z * nat) :=
  match i with
  | O => Some st
  | S i' => st' ← lowest_round st; lowest_rounds i' st'
  end.

(** The global [lowest], after the initialisation in [main]. *)
Definition make_lowest : option (list Z) :=
  lowest ← wr (replicate len 0) 0 1;
  st ← lowest_rounds NUM_DIGITS (lowest, 1%nat);
  x ← st.1 !! (len - 1)%nat;
  wr st.1 (len - 1)%nat (Z.shiftr x 1).

(** ** Sequence numbers and swaps *)

Fixpoint getSequenceNumber_loop (limit : nat) (sequence : list Z) (rtn : Z)
    : option Z :=
  match limit with
  | O => Some rtn
  | S limit' =>
    match sequence with
    | s :: sequence' =>
        getSequenceNumber_loop limit' sequence' (rtn * Z.of_nat NUM_DIGITS + s)
    | [] => None
    end
  end.

Definition getSequenceNumber (sequence : list Z) : option Z :=
  getSequenceNumber_loop len sequence 0.

(** The body of the loop of [swap] and of [swapMasks]. *)
Definition swap_one (a b x : Z) : Z :=
  if x =? a then b else if x =? b then a else x.

Fixpoint swap (seq : list Z) (a b : Z) (limit : nat) : option (list Z) :=
  match limit with
  | O => Some seq
  | S limit' =>
    match seq with
    | x :: seq' => rest ← swap seq' a b limit'; Some (swap_one a b x :: rest)
    | [] => None
    end
  end.

Definition swapMasks := swap.

(** ** isLower *)

Fixpoint isLower_loop (limit : nat) (beingTested original : list Z)
    : option bool :=
  match limit with
  | O => Some false
  | S limit' =>
    match beingTested, original with
    | b :: beingTested', o :: original' =>
        if b =? o then isLower_loop limit' beingTested' original'
        else Some (b <? o)
    | _, _ => None
    end
  end.

(** The two arguments are the arrays from the pointed-to step onwards. *)
Definition isLower (beingTested original : list Z) : option bool :=
  isLower_loop len beingTested original.

End Chimera.

(** ** The permutation queue *)

(** [typedef unsigned short stepMask]: the value stored when an
    [unsigned int] is assigned to a [stepMask]. *)
Definition to_mask (x : Z) : Z := x mod 65536.

Section AddQueueSwaps.

(** [addQueueSwaps] and [addQueueSwapsMasks] have the same body; they differ
    in the element type of the queue, hence in the conversion [conv] applied
    when an index is stored. *)
Variable conv : Z → Z.

(** The [for] loop; [recurse] is the recursive call for one digit less and
    the state is [currentIndexToAddFrom], the queue and [recursiveIndices]. *)
Fixpoint addQueueSwaps_for
    (recurse : nat → list (Z * Z) → list Z → option (nat * list (Z * Z)))
    (indicesToSwap : list Z) (i : nat)
    (cur : nat) (queue : list (Z * Z)) (recursiveIndices : list Z)
    : option (nat * list (Z * Z) * list Z) :=
  match i with
  | O => Some (cur, queue, recursiveIndices)
  | S i' =>
    r ← recurse cur queue recursiveIndices;
    let cur := (cur + r.1)%nat in
    a ← indicesToSwap !! i;
    b ← indicesToSwap !! i';
    queue ← wr r.2 cur (conv a, conv b);
    recursiveIndices ← wr recursiveIndices i' a;
    addQueueSwaps_for recurse indicesToSwap i' (S cur) queue recursiveIndices
  end.

Fixpoint addQueueSwaps_gen (n : nat) (queueIndexToAddFrom : nat)
    (queue : list (Z * Z)) (indicesToSwap : list Z)
    : option (nat * list (Z * Z)) :=
  match n with
  | 0%nat | 1%nat => Some (0%nat, queue)
  | 2%nat =>
    a ← indicesToSwap !! 0%nat;
    b ← indicesToSwap !! 1%nat;
    queue ← wr queue queueIndexToAddFrom (conv a, conv b);
    Some (1%nat, queue)
  | S n' =>
    if (n' <=? length indicesToSwap)%nat then
      st ← addQueueSwaps_for (addQueueSwaps_gen n') indicesToSwap n'
             queueIndexToAddFrom queue (take n' indicesToSwap);
      r ← addQueueSwaps_gen n' st.1.1 st.1.2 st.2;
      Some ((st.1.1 + r.1 - queueIndexToAddFrom)%nat, r.2)
    else None
  end.

End AddQueueSwaps.

Definition addQueueSwaps := addQueueSwaps_gen to_step.
Definition addQueueSwapsMasks := addQueueSwaps_gen to_mask.

(** ** ThreadSequenceCheckers.c

    A checker gets the array and the index its pointer argument points to.
    [&&] and [||] evaluate their right operand only when needed. *)

(** [stepPtr[off]] for an offset that may be negative. *)
Definition at_off (a : list Z) (p : nat) (off : Z) : option Z :=
  if Z.of_nat p + off <? 0 then None else a !! Z.to_nat (Z.of_nat p + off).

(** [stepPtr[i] == stepPtr[j]] *)
Definition same (a : list Z) (p : nat) (i j : Z) : option bool :=
  x ← at_off a p i; y ← at_off a p j; Some (x =? y).

Definition and_then (c : option bool) (d : option bool) : option bool :=
  b ← c; if b : bool then d else Some false.

Definition or_else (c : option bool) (d : option bool) : option bool :=
  b ← c; if b : bool then Some true else d.

Definition differ (a : list Z) (p : nat) (i j : Z) : option bool :=
  negb <$> same a p i j.

Definition checkStepsIn01020 (a : list Z) (p : nat) : option bool :=
  and_then (same a p 0 2) (same a p 2 4).

Definition checkStepsIn01021 (a : list Z) (p : nat) : option bool :=
  and_then (same a p 0 2) (same a p 1 4).

Definition checkStepsIn01023 (a : list Z) (p : nat) : option bool :=
  and_then (and_then (same a p 0 2) (differ a p 4 0)) (differ a p 4 1).

Definition checkStepsIn0120 (a : list Z) (p : nat) : option bool :=
  same a p 0 3.

Definition checkStepsIn0123 (a : list Z) (p : nat) : option bool :=
  and_then (and_then (differ a p 0 2) (differ a p 3 0)) (differ a p 3 1).

Definition checkStepsForLower01021 (a : list Z) (p : nat) : option bool :=
  and_then (same a p (-4) (-2)) (same a p (-2) 0).

Definition checkStepsForLower01023 (a : list Z) (p : nat) : option bool :=
  and_then (same a p (-4) (-2))
           (or_else (same a p 0 (-4)) (same a p 0 (-3))).

Definition checkStepsForLower0120 (a : list Z) (p : nat) : option bool :=
  same a p (-2) 0.

Definition checkStepsForLower0123 (a : list Z) (p : nat) : option bool :=
  or_else (same a p (-3) (-1)) (same a p (-3) 0).

(** ** GMPHashTable.c *)

Record GMPHashTable := {
  GMP_nodes : list Z;
  GMP_occupied : list bool;
  GMP_size : nat;
  GMP_count : Z;
}.

(** [size_t] and [unsigned long long] arithmetic wraps at 2^64. *)
Definition wrap64 (x : Z) : Z := x mod 2 ^ 64.

(** [mpz_fdiv_ui(key, d)]: the remainder of the floor division; GMP raises a
    division by zero for [d = 0]. *)
Definition mpz_fdiv_ui (key : Z) (d : Z) : option nat :=
  if d =? 0 then None else Some (Z.to_nat (key mod d)).

Definition GMPhash1 (key : Z) (table_size : nat) : option nat :=
  mpz_fdiv_ui key (Z.of_nat table_size).

Definition createGMPTable (size : nat) : GMPHashTable :=
  {| GMP_nodes := replicate size 0;
     GMP_occupied := replicate size false;
     GMP_size := size;
     GMP_count := 0 |}.

Definition emptyGMPTable (table : GMPHashTable) : GMPHashTable :=
  {| GMP_nodes := GMP_nodes table;
     GMP_occupied := replicate (GMP_size table) false;
     GMP_size := GMP_size table;
     GMP_count := 0 |}.

(** [while(table->occupied[index]) index = (index + step) % table->size;] *)
Fixpoint GMPHashInsert_probe (fuel : nat) (table : GMPHashTable)
    (step index : nat) : option nat :=
  match fuel with
  | O => None
  | S fuel' =>
    o ← GMP_occupied table !! index;
    if o : bool then
      GMPHashInsert_probe fuel' table step ((index + step) mod GMP_size table)%nat
    else Some index
  end.

(** The [while] loop of [GMPHashContains]. *)
Fixpoint GMPHashContains_probe (fuel : nat) (table : GMPHashTable) (key : Z)
    (step index : nat) : option bool :=
  match fuel with
  | O => None
  | S fuel' =>
    o ← GMP_occupied table !! index;
    if o : bool then
      k ← GMP_nodes table !! index;
      if k =? key then Some true
      else GMPHashContains_probe fuel' table key step
             ((index + step) mod GMP_size table)%nat
    else Some false
  end.

Section Extrapolation.

Variable NUM_DIGITS : nat.

Definition GMPhash2 (key : Z) : option nat :=
  r ← mpz_fdiv_ui key (Z.of_nat NUM_DIGITS - 1); Some (r + 1)%nat.

Definition GMPHashInsert (fuel : nat) (table : GMPHashTable) (key : Z)
    : option GMPHashTable :=
  index ← GMPhash1 key (GMP_size table);
  o ← GMP_occupied table !! index;
  index ← (if o : bool then
             step ← GMPhash2 key; GMPHashInsert_probe fuel table step index
           else Some index);
  nodes ← wr (GMP_nodes table) index key;
  occupied ← wr (GMP_occupied table) index true;
  Some {| GMP_nodes := nodes;
          GMP_occupied := occupied;
          GMP_size := GMP_size table;
          GMP_count := wrap64 (GMP_count table + 1) |}.

Definition GMPHashContains (fuel : nat) (table : GMPHashTable) (key : Z)
    : option bool :=
  index ← GMPhash1 key (GMP_size table);
  o ← GMP_occupied table !! index;
  if o : bool then
    k ← GMP_nodes table !! index;
    if k =? key then Some true
    else
      step ← GMPhash2 key;
      GMPHashContains_probe fuel table key step
        ((index + step) mod GMP_size table)%nat
  else Some false.

(** ** The tables built in [main] *)

(** [queueSize = 1; for(i = NUM_DIGITS; i > 1; i--) queueSize *= i;] *)
Fixpoint factorial_loop (i : nat) (acc : Z) : Z :=
  match i with
  | O => acc
  | S i' => if (1 <? i)%nat then factorial_loop i' (wrap64 (acc * Z.of_nat i))
            else acc
  end.

Definition make_queueSize : Z := factorial_loop NUM_DIGITS 1.

(** The full permutation queue: entry 0 is the swap of 99 with 99. *)
Definition make_queue : option (list (Z * Z)) :=
  queue ← wr (replicate (Z.to_nat make_queueSize) (0, 0)) 0 (99, 99);
  r ← addQueueSwaps NUM_DIGITS 1 queue (Z.of_nat <$> seq 0 NUM_DIGITS);
  Some r.2.

(** The quick rotation lookup table: [multiplesTable[f] = f * (n^len - 1)]. *)
Fixpoint multiplesTable_fill (k : nat) (i : nat) (table : list Z)
    : option (list Z) :=
  match k with
  | O => Some table
  | S k' =>
    x ← table !! 1%nat;
    table ← wr table i (x * Z.of_nat i);
    multiplesTable_fill k' (S i) table
  end.

Definition make_multiplesTable : option (list Z) :=
  table ← wr (replicate NUM_DIGITS 0) 0 0;
  table ← wr table 1 1;
  table ← Nat.iter (len NUM_DIGITS) (λ t, t ← t; x ← t !! 1%nat;
                             wr t 1 (x * Z.of_nat NUM_DIGITS)) (Some table);
  x ← table !! 1%nat;
  table ← wr table 1 (x - 1);
  multiplesTable_fill (NUM_DIGITS - 2) 2 table.

(** ** extrapolateSeeds *)

(** The conversion of an [unsigned long long] to [int]. *)
Definition to_int (x : Z) : Z := (x + 2 ^ 31) mod 2 ^ 32 - 2 ^ 31.

(** [__builtin_ctz] takes an [unsigned int]. *)
Definition builtin_ctz (x : Z) : Z := log2 (x mod 2 ^ 32).

Definition numHalves (queueSize : Z) : nat :=
  Z.to_nat (builtin_ctz queueSize + 1).

(** [halves[i] = (queueSize >> (numHalves - 1 - i))] *)
Definition make_halves (queueSize : Z) : list Z :=
  (λ i : nat, to_int (Z.shiftr queueSize
                        (Z.of_nat (numHalves queueSize - 1 - i))))
    <$> seq 0 (numHalves queueSize).

(** The two statements that rotate the numeral: multiply by [NUM_DIGITS] and
    subtract the table entry of the step [f] that is rotated out. *)
Definition next_rotation (multiplesTable : list Z) (currentRotation f : Z)
    : option Z :=
  m ← multiplesTable !! Z.to_nat f;
  Some (currentRotation * Z.of_nat NUM_DIGITS - m).

(** The rotation loop
    [do { if(contains) goto notUniquePermutation; rotate } while(cur != orig)].
    [rest] is [localSequence] from [stepPtr] onwards; the result tells
    whether some rotation was found in the table. *)
Fixpoint rotation_loop (multiplesTable : list Z) (table : GMPHashTable)
    (originalRotation currentRotation : Z) (rest : list Z) : option bool :=
  c ← GMPHashContains (GMP_size table) table currentRotation;
  if c : bool then Some true
  else
    match rest with
    | [] => None
    | f :: rest' =>
      currentRotation ← next_rotation multiplesTable currentRotation f;
      if currentRotation =? originalRotation then Some false
      else rotation_loop multiplesTable table originalRotation
             currentRotation rest'
    end.

(** The state of the loop over the queue for one seed. *)
Record ExtrapolateState := {
  ex_localSequence : list Z;
  ex_table : GMPHashTable;
  ex_currentNextHalf : nat;
  ex_qPtr : nat;
}.

(** The swap, the rotations and the insertion of one pass of the loop. *)
Definition swap_and_record (queue : list (Z * Z)) (multiplesTable : list Z)
    (st : ExtrapolateState) : option ExtrapolateState :=
  q ← queue !! ex_qPtr st;
  localSequence ← swap (ex_localSequence st) q.1 q.2 (len NUM_DIGITS);
  originalRotation ← getSequenceNumber NUM_DIGITS localSequence;
  found ← rotation_loop multiplesTable (ex_table st) originalRotation
            originalRotation localSequence;
  table ← (if found : bool then Some (ex_table st)
           else GMPHashInsert (GMP_size (ex_table st)) (ex_table st)
                  originalRotation);
  Some {| ex_localSequence := localSequence;
          ex_table := table;
          ex_currentNextHalf := ex_currentNextHalf st;
          ex_qPtr := S (ex_qPtr st) |}.

Definition set_count (table : GMPHashTable) (c : Z) : GMPHashTable :=
  {| GMP_nodes := GMP_nodes table;
     GMP_occupied := GMP_occupied table;
     GMP_size := GMP_size table;
     GMP_count := c |}.

(** The code after the label [notUniquePermutation]: [inl] continues the
    loop, [inr] leaves it with [break]. *)
Definition milestones (queueSize : Z) (halves : list Z)
    (st : ExtrapolateState) : option (ExtrapolateState + ExtrapolateState) :=
  h ← wrap64 <$> halves !! ex_currentNextHalf st;
  let count := GMP_count (ex_table st) in
  if count <? h then Some (inl st)
  else if h <? count then
    let next := S (ex_currentNextHalf st) in
    h' ← wrap64 <$> halves !! next;
    let st' := {| ex_localSequence := ex_localSequence st;
                  ex_table := ex_table st;
                  ex_currentNextHalf := next;
                  ex_qPtr := ex_qPtr st |} in
    if h' =? queueSize then
      Some (inr {| ex_localSequence := ex_localSequence st;
                   ex_table := set_count (ex_table st) queueSize;
                   ex_currentNextHalf := next;
                   ex_qPtr := ex_qPtr st |})
    else Some (inl st')
  else if wrap64 (queueSize - Z.of_nat (ex_qPtr st)) <? h then Some (inr st)
  else Some (inl st).

(** [while(qPtr - threadStruct->queueStepPointer < queueSize) { ... }] *)
Fixpoint queue_loop (fuel : nat) (queueSize : Z) (queue : list (Z * Z))
    (multiplesTable halves : list Z) (st : ExtrapolateState)
    : option ExtrapolateState :=
  match fuel with
  | O => None
  | S fuel' =>
    if Z.of_nat (ex_qPtr st) <? queueSize then
      st ← swap_and_record queue multiplesTable st;
      r ← milestones queueSize halves st;
      match r with
      | inl st => queue_loop fuel' queueSize queue multiplesTable halves st
      | inr st => Some st
      end
    else Some st
  end.

(** [memcmp(localSequence, localSequence + (len/2), sizeof(step) * len/2) == 0] *)
Definition rotationallySymmetric (localSequence : list Z) : bool :=
  bool_decide (take (len NUM_DIGITS / 2) localSequence
               = take (len NUM_DIGITS / 2)
                   (drop (len NUM_DIGITS / 2) localSequence)).

(** One pass of the loop over the seeds; the result is the table (reused
    for the next seed) and the new value of [numGreyCodes]. *)
Definition extrapolateSeed (queueSize : Z) (queue : list (Z * Z))
    (multiplesTable halves : list Z) (table : GMPHashTable)
    (numGreyCodes : Z) (seed : list Z) : option (GMPHashTable * Z) :=
  localSequence ← (if (len NUM_DIGITS <=? length seed)%nat
                   then Some (take (len NUM_DIGITS) seed) else None);
  let sym := rotationallySymmetric localSequence in
  st ← queue_loop (S (Z.to_nat queueSize)) queueSize queue multiplesTable
         halves
         {| ex_localSequence := localSequence;
            ex_table := emptyGMPTable table;
            ex_currentNextHalf := 0;
            ex_qPtr := 0 |};
  Some (ex_table st,
        wrap64 (numGreyCodes
                + wrap64 (GMP_count (ex_table st)
                          * Z.of_nat (if sym then len NUM_DIGITS / 2
                                     else len NUM_DIGITS)))).

Fixpoint seeds_loop (queueSize : Z) (queue : list (Z * Z))
    (multiplesTable halves : list Z) (seeds : list (list Z))
    (numSeedsToExtrapolate : nat) (seedPtr : nat)
    (table : GMPHashTable) (numGreyCodes : Z) : option Z :=
  match numSeedsToExtrapolate with
  | O => Some numGreyCodes
  | S k =>
    seed ← seeds !! seedPtr;
    r ← extrapolateSeed queueSize queue multiplesTable halves table
          numGreyCodes seed;
    seeds_loop queueSize queue multiplesTable halves seeds k (S seedPtr)
      r.1 r.2
  end.

(** The result is [threadStruct->numGreyCodes]. *)
Definition extrapolateSeeds (queueSize : Z) (queue : list (Z * Z))
    (multiplesTable : list Z) (seeds : list (list Z))
    (numSeedsToExtrapolate : nat) : option Z :=
  let uniquePermutations :=
    createGMPTable (Z.to_nat (wrap64 (queueSize * 2 + 1))) in
  seeds_loop queueSize queue multiplesTable (make_halves queueSize) seeds
    numSeedsToExtrapolate 0 uniquePermutations 0.

End Extrapolation.

(** ** calculateCodesWithSetStart *)

Record CodeSearchThreadStruct := {
  cs_count : nat;
  cs_setSteps : list Z;
  cs_checkStepsLower : option (list Z → nat → option bool);
  cs_stepsBack : nat;
  cs_checkStepsIn : list Z → nat → option bool;
  cs_queueStepPointer : list (Z * Z);
  cs_queueLen : Z;
}.

(** The local variables of the search that change. [sr_sptr] is the offset
    of [sptr] in [test], [sr_bptr] the offset of [bptr] in [bffr] (so that
    [buf] is offset 1 and [bufEndPtr] is offset [len]). *)
Record SearchState := {
  sr_test : list Z;
  sr_bffr : list Z;
  sr_flags : list bool;
  sr_sptr : nat;
  sr_bptr : nat;
  sr_seeds : list (list Z);
}.

(** The places where control can be between two steps of the search. *)
Inductive Label :=
| AtOuterLoop      (* the test of the loop on [limitStep] *)
| AtDescend        (* the top of the [while(true)] loop *)
| AtValid          (* after the [break] of the [while(true)] loop *)
| AtSkipAdding     (* the label [skipAdding] *)
| AtIncrement      (* the label [increment] *)
| AtReturn.        (* after the outer loop *)

Section CodeSearch.

Variable NUM_DIGITS : nat.
Variable lowest : list Z.
Variable threadStruct : CodeSearchThreadStruct.

Definition numSetSteps : nat := cs_count threadStruct.

(** [--bptr; flags[bptr[0]] = false] *)
Definition unflag (st : SearchState) : option SearchState :=
  match sr_bptr st with
  | O => None
  | S bptr =>
    v ← sr_bffr st !! bptr;
    flags ← wr (sr_flags st) (Z.to_nat v) false;
    Some {| sr_test := sr_test st; sr_bffr := sr_bffr st; sr_flags := flags;
            sr_sptr := sr_sptr st; sr_bptr := bptr; sr_seeds := sr_seeds st |}
  end.

(** [sptr -= k] *)
Definition sptr_back (k : nat) (st : SearchState) : option SearchState :=
  if (k <=? sr_sptr st)%nat then
    Some {| sr_test := sr_test st; sr_bffr := sr_bffr st;
            sr_flags := sr_flags st; sr_sptr := (sr_sptr st - k)%nat;
            sr_bptr := sr_bptr st; sr_seeds := sr_seeds st |}
  else None.

(** [bptr[0] = bptr[-1] ^ sptr[0]]; the result is the state and the new
    value. *)
Definition next_value (st : SearchState) : option (SearchState * Z) :=
  match sr_bptr st with
  | O => None
  | S prev =>
    p ← sr_bffr st !! prev;
    s ← sr_test st !! sr_sptr st;
    let v := Z.lxor p s in
    bffr ← wr (sr_bffr st) (sr_bptr st) v;
    Some ({| sr_test := sr_test st; sr_bffr := bffr; sr_flags := sr_flags st;
             sr_sptr := sr_sptr st; sr_bptr := sr_bptr st;
             sr_seeds := sr_seeds st |}, v)
  end.

(** [flags[bptr[0]] = true; sptr++; bptr++;] *)
Definition mark_and_advance (st : SearchState) (v : Z) : option SearchState :=
  flags ← wr (sr_flags st) (Z.to_nat v) true;
  Some {| sr_test := sr_test st; sr_bffr := sr_bffr st; sr_flags := flags;
          sr_sptr := S (sr_sptr st); sr_bptr := S (sr_bptr st);
          sr_seeds := sr_seeds st |}.

(** The loop over the set steps before the search starts. *)
Fixpoint set_start_loop (fuel : nat) (st : SearchState) : option SearchState :=
  match fuel with
  | O => None
  | S fuel' =>
    if (sr_sptr st <? numSetSteps)%nat then
      r ← next_value st;
      st ← mark_and_advance r.1 r.2;
      set_start_loop fuel' st
    else Some st
  end.

(** The state when the outer loop is reached for the first time. *)
Definition initial_state : option SearchState :=
  let stepsBack := cs_stepsBack threadStruct in
  let n := len NUM_DIGITS in
  test ← memcpy (replicate (n + stepsBack) 0) 0
           (cs_setSteps threadStruct) 0 numSetSteps;
  test ← memcpy test numSetSteps lowest 0 (n - numSetSteps);
  test ← memcpy test n (cs_setSteps threadStruct) 0 stepsBack;
  set_start_loop (S numSetSteps)
    {| sr_test := test; sr_bffr := replicate (S n) 0;
       sr_flags := replicate n false; sr_sptr := 0; sr_bptr := 1;
       sr_seeds := [] |}.

(** [limitStepValue = threadStruct->setSteps[numSetSteps - 1]] *)
Definition limitStepValue : option Z :=
  match numSetSteps with
  | O => None
  | S k => cs_setSteps threadStruct !! k
  end.

(** [while(testCopyPtr < testEnd) if(checkStepsLower(testCopyPtr++)) goto
    skipAdding;]: the result tells whether the [goto] is taken. *)
Fixpoint wrap_checks (check : list Z → nat → option bool) (test : list Z)
    (k : nat) (testCopyPtr : nat) : option bool :=
  match k with
  | O => Some false
  | S k' =>
    c ← check test testCopyPtr;
    if c : bool then Some true
    else wrap_checks check test k' (S testCopyPtr)
  end.

(** The [for] loop that swaps a rotation until it starts with the set
    steps of the thread. *)
Fixpoint align_loop (k : nat) (setStepsCounter : nat) (permPtr : nat)
    (sequenceCopy : list Z) : option (list Z) :=
  match k with
  | O => Some sequenceCopy
  | S k' =>
    x ← sequenceCopy !! (permPtr + setStepsCounter)%nat;
    y ← cs_setSteps threadStruct !! setStepsCounter;
    sequenceCopy ← (if x =? y then Some sequenceCopy
                    else swapMasks sequenceCopy x y (len NUM_DIGITS * 2));
    align_loop k' (S setStepsCounter) permPtr sequenceCopy
  end.

(** The loop over the extra swaps of the reduced queue; [inl] is
    [goto skipAdding], [inr] the array after the loop. *)
Fixpoint extra_swaps_loop (fuel : nat) (qPtr : nat) (permPtr : nat)
    (test sequenceCopy : list Z) : option (unit + list Z) :=
  match fuel with
  | O => None
  | S fuel' =>
    if Z.of_nat qPtr <? cs_queueLen threadStruct then
      q ← cs_queueStepPointer threadStruct !! qPtr;
      sequenceCopy ← swapMasks sequenceCopy q.1 q.2 (len NUM_DIGITS * 2);
      lower ← isLower NUM_DIGITS (drop permPtr sequenceCopy) test;
      if lower : bool then Some (inl ())
      else extra_swaps_loop fuel' (S qPtr) permPtr test sequenceCopy
    else Some (inr sequenceCopy)
  end.

(** [while(permPtr - sequenceCopy < len)]: the result tells whether a lower
    permutation was found ([goto skipAdding]). *)
Fixpoint rotations_loop (k : nat) (permPtr : nat) (test sequenceCopy : list Z)
    : option bool :=
  match k with
  | O => Some false
  | S k' =>
    c ← cs_checkStepsIn threadStruct sequenceCopy permPtr;
    if c : bool then
      sequenceCopy ← align_loop numSetSteps 0 permPtr sequenceCopy;
      lower ← isLower NUM_DIGITS (drop permPtr sequenceCopy) test;
      if lower : bool then Some true
      else
        r ← extra_swaps_loop (S (Z.to_nat (cs_queueLen threadStruct))) 1
              permPtr test sequenceCopy;
        match r with
        | inl _ => Some true
        | inr sequenceCopy => rotations_loop k' (S permPtr) test sequenceCopy
        end
    else rotations_loop k' (S permPtr) test sequenceCopy
  end.

(** Is [test] the lowest of its relevant rotations and swaps? *)
Definition has_lower_permutation (test : list Z) : option bool :=
  let n := len NUM_DIGITS in
  sequenceCopy ← memcpy (replicate (n * 2) 0) 0 test 0 n;
  sequenceCopy ← memcpy sequenceCopy n sequenceCopy 0 n;
  rotations_loop n 0 test sequenceCopy.

(** One step of the search from a label to the next. *)
Definition search_step (limit : Z) (l : Label) (st : SearchState)
    : option (Label * SearchState) :=
  let n := len NUM_DIGITS in
  match l with
  | AtOuterLoop =>
    match numSetSteps with
    | O => None
    | S k =>
      x ← sr_test st !! k;
      if x =? limit then Some (AtDescend, st) else Some (AtReturn, st)
    end
  | AtDescend =>
    c ← match cs_checkStepsLower threadStruct with
        | Some check => check (sr_test st) (sr_sptr st)
        | None => Some false
        end;
    if c : bool then Some (AtIncrement, st)
    else
      r ← next_value st;
      let '(st, v) := r in
      if v =? 0 then
        if (sr_bptr st <? n)%nat then Some (AtIncrement, st)
        else Some (AtValid, st)
      else
        f ← sr_flags st !! Z.to_nat v;
        if f : bool then Some (AtIncrement, st)
        else st ← mark_and_advance st v; Some (AtDescend, st)
  | AtValid =>
    c ← match cs_checkStepsLower threadStruct with
        | Some check =>
            wrap_checks check (sr_test st)
              (n + cs_stepsBack threadStruct - sr_sptr st) (sr_sptr st)
        | None => Some false
        end;
    if c : bool then Some (AtSkipAdding, st)
    else
      lower ← has_lower_permutation (sr_test st);
      if lower : bool then Some (AtSkipAdding, st)
      else
        (if (n <=? length (sr_test st))%nat then
          Some (AtSkipAdding,
                {| sr_test := sr_test st; sr_bffr := sr_bffr st;
                   sr_flags := sr_flags st; sr_sptr := sr_sptr st;
                   sr_bptr := sr_bptr st;
                   sr_seeds := sr_seeds st ++ [log2 <$> take n (sr_test st)] |})
        else None)
  | AtSkipAdding =>
    st ← sptr_back 3 st;
    st ← unflag st;
    st ← unflag st;
    st ← unflag st;
    Some (AtIncrement, st)
  | AtIncrement =>
    x ← sr_test st !! sr_sptr st;
    if Z.land x (LAST_DIGIT_STEP NUM_DIGITS) =? 0 then
      test ← wr (sr_test st) (sr_sptr st) (shl_mask x);
      match sr_sptr st with
      | O => None
      | S prev =>
        p ← test !! prev;
        if shl_mask x =? p then
          Some (AtIncrement,
                {| sr_test := test; sr_bffr := sr_bffr st;
                   sr_flags := sr_flags st; sr_sptr := sr_sptr st;
                   sr_bptr := sr_bptr st; sr_seeds := sr_seeds st |})
        else
          test ← (if (S (sr_sptr st) <=? n)%nat then
                    memcpy test (S (sr_sptr st)) lowest 0 (n - 1 - sr_sptr st)
                  else None);
          Some (AtOuterLoop,
                {| sr_test := test; sr_bffr := sr_bffr st;
                   sr_flags := sr_flags st; sr_sptr := sr_sptr st;
                   sr_bptr := sr_bptr st; sr_seeds := sr_seeds st |})
      end
    else
      st ← sptr_back 1 st;
      st ← unflag st;
      Some (AtIncrement, st)
  | AtReturn => None
  end.

Fixpoint search_run (fuel : nat) (limit : Z) (l : Label) (st : SearchState)
    : option SearchState :=
  match l with
  | AtReturn => Some st
  | _ =>
    match fuel with
    | O => None
    | S fuel' =>
      r ← search_step limit l st;
      search_run fuel' limit r.1 r.2
    end
  end.

(** The result is [threadStruct->seeds]; the returned [count] is its
    length. *)
Definition calculateCodesWithSetStart (fuel : nat) : option (list (list Z)) :=
  limit ← limitStepValue;
  st ← initial_state;
  st ← search_run fuel limit AtOuterLoop st;
  Some (sr_seeds st).

End CodeSearch.

(** ** main *)

Section Main.

Variable NUM_DIGITS : nat.

(** [indicesToSwapMinus3] (for [k = 3]) and [indicesToSwapMinus4] (for
    [k = 4]): the masks of the digits [NUM_DIGITS - 1] down to [k]. *)
Definition mask_indices (k : nat) : list Z :=
  (λ j : nat, 2 ^ Z.of_nat (NUM_DIGITS - 1 - j)) <$> seq 0 (NUM_DIGITS - k).

(** [queueMinus3] (for [k = 3]) and [queueMinus4] (for [k = 4]) with their
    lengths [nMinus3Factorial] and [nMinus4Factorial]. *)
Definition make_reduced_queue (k : nat) : option (Z * list (Z * Z)) :=
  let fact := factorial_loop (NUM_DIGITS - k) 1 in
  queue ← wr (replicate (Z.to_nat fact) (0, 0)) 0 (99, 99);
  if (k + 1 <? NUM_DIGITS)%nat then
    r ← addQueueSwapsMasks (NUM_DIGITS - k) 1 queue (mask_indices k);
    Some (fact, r.2)
  else Some (fact, queue).

(** [stepMask setSteps[len]] initialised with the given steps. *)
Definition set_steps (l : list Z) : list Z :=
  l ++ replicate (len NUM_DIGITS - length l) 0.

Definition threadVals (queueMinus3 queueMinus4 : Z * list (Z * Z))
    : list CodeSearchThreadStruct :=
  [ {| cs_count := 5; cs_setSteps := set_steps [1; 2; 1; 4; 1];
       cs_checkStepsLower := None; cs_stepsBack := 0;
       cs_checkStepsIn := checkStepsIn01020;
       cs_queueStepPointer := queueMinus3.2; cs_queueLen := queueMinus3.1 |};
    {| cs_count := 5; cs_setSteps := set_steps [1; 2; 1; 4; 2];
       cs_checkStepsLower := Some checkStepsForLower01021; cs_stepsBack := 4;
       cs_checkStepsIn := checkStepsIn01021;
       cs_queueStepPointer := queueMinus3.2; cs_queueLen := queueMinus3.1 |};
    {| cs_count := 5; cs_setSteps := set_steps [1; 2; 1; 4; 8];
       cs_checkStepsLower := Some checkStepsForLower01023; cs_stepsBack := 4;
       cs_checkStepsIn := checkStepsIn01023;
       cs_queueStepPointer := queueMinus4.2; cs_queueLen := queueMinus4.1 |};
    {| cs_count := 4; cs_setSteps := set_steps [1; 2; 4; 1];
       cs_checkStepsLower := Some checkStepsForLower0120; cs_stepsBack := 2;
       cs_checkStepsIn := checkStepsIn0120;
       cs_queueStepPointer := queueMinus3.2; cs_queueLen := queueMinus3.1 |};
    {| cs_count := 4; cs_setSteps := set_steps [1; 2; 4; 8];
       cs_checkStepsLower := Some checkStepsForLower0123; cs_stepsBack := 3;
       cs_checkStepsIn := checkStepsIn0123;
       cs_queueStepPointer := queueMinus4.2; cs_queueLen := queueMinus4.1 |} ].

(** The seed lists of the five search threads. *)
Definition search_all (fuel : nat) : option (list (list (list Z))) :=
  lowest ← make_lowest NUM_DIGITS;
  queueMinus3 ← make_reduced_queue 3;
  queueMinus4 ← make_reduced_queue 4;
  mapM (λ t, calculateCodesWithSetStart NUM_DIGITS lowest t fuel)
       (threadVals queueMinus3 queueMinus4).

(** Stage 2: the threads 4 down to 1 are joined and their seeds are
    extrapolated by the main thread. *)
Fixpoint stage2 (queueSize : Z) (queue : list (Z * Z)) (multiplesTable : list Z)
    (found : list (list (list Z))) (k : nat) (i : nat) (totals : Z * Z)
    : option (Z * Z) :=
  match k with
  | O => Some totals
  | S k' =>
    seeds ← found !! i;
    let count := length seeds in
    g ← extrapolateSeeds NUM_DIGITS queueSize queue multiplesTable seeds count;
    stage2 queueSize queue multiplesTable found k' (i - 1)%nat
      (wrap64 (totals.1 + Z.of_nat count), wrap64 (totals.2 + g))
  end.

(** Stage 3: the seeds of thread 0 are split over four extrapolation
    threads. *)
Fixpoint stage3 (queueSize : Z) (queue : list (Z * Z)) (multiplesTable : list Z)
    (seeds : list (list Z)) (seedsPerThread : nat) (k : nat) (i : nat)
    (totalNumGreyCodes : Z) : option Z :=
  match k with
  | O => Some totalNumGreyCodes
  | S k' =>
    let num := if (i =? 3)%nat then (length seeds - seedsPerThread * 3)%nat
               else seedsPerThread in
    g ← extrapolateSeeds NUM_DIGITS queueSize queue multiplesTable
          (drop (seedsPerThread * i) seeds) num;
    stage3 queueSize queue multiplesTable seeds seedsPerThread k' (S i)
      (wrap64 (totalNumGreyCodes + g))
  end.

(** The two numbers printed by [main]: [totalNumSeeds] and
    [totalNumGreyCodes]. *)
Definition main (fuel : nat) : option (Z * Z) :=
  let queueSize := make_queueSize NUM_DIGITS in
  queue ← make_queue NUM_DIGITS;
  multiplesTable ← make_multiplesTable NUM_DIGITS;
  found ← search_all fuel;
  totals ← stage2 queueSize queue multiplesTable found 4 4 (0, 0);
  seeds0 ← found !! 0%nat;
  let totalNumSeeds := wrap64 (totals.1 + Z.of_nat (length seeds0)) in
  let seedsPerThread := (length seeds0 / 4)%nat in
  totalNumGreyCodes ← stage3 queueSize queue multiplesTable seeds0
                        seedsPerThread 4 0 totals.2;
  Some (totalNumSeeds, totalNumGreyCodes).

End Main.

(** ** SequenceHashTable.c *)

Record SeqHashTable := {
  Seq_nodes : list (list Z);
  Seq_occupied : list bool;
  Seq_size : Z;
  Seq_count : Z;
  Seq_modMask : Z;
}.

(** [memcmp(a, b, cnt * sizeof(step)) == 0] *)
Definition memcmp_eq (a b : list Z) (cnt : nat) : option bool :=
  if ((cnt <=? length a) && (cnt <=? length b))%nat
  then Some (bool_decide (take cnt a = take cnt b))
  else None.

Section SequenceHashTable.

Variable NUM_DIGITS : nat.

(** The loop of both hash functions: [k] steps of [key] from [stepPtr] on
    are folded into [hash] with the given prime and mask. *)
Fixpoint seqHash_loop (prime modMask : Z) (k : nat) (key : list Z)
    (stepPtr : nat) (hash : Z) : option Z :=
  match k with
  | O => Some hash
  | S k' =>
    s ← key !! stepPtr;
    seqHash_loop prime modMask k' key (S stepPtr)
      (Z.land (wrap64 (hash * prime + s)) modMask)
  end.

(** [HASH_PRIME] is 5. *)
Definition seqHash1 (key : list Z) (modMask : Z) : option nat :=
  Z.to_nat <$> seqHash_loop 5 modMask (len NUM_DIGITS) key 0 0.

(** [DOUBLE_HASH_PRIME] is 7. *)
Definition seqHash2 (key : list Z) (modMask : Z) : option nat :=
  let modMask := Z.shiftr modMask 1 in
  hash ← seqHash_loop 7 modMask (len NUM_DIGITS - len NUM_DIGITS / 2) key
           (len NUM_DIGITS / 2) 0;
  Some (Z.to_nat (wrap64 (hash + 1 + Z.land hash 1))).

(** [1 << exponent] is an [int]; the shift is undefined from 31 on. *)
Definition createSeqTable (exponent : Z) : option SeqHashTable :=
  if (0 <=? exponent) && (exponent <? 31) then
    let size := 2 ^ exponent in
    Some {| Seq_nodes := replicate (Z.to_nat size)
                           (replicate (len NUM_DIGITS) 0);
            Seq_occupied := replicate (Z.to_nat size) false;
            Seq_size := size;
            Seq_count := 0;
            Seq_modMask := size - 1 |}
  else None.

(** [index = (index + doubleHash) & modMask] *)
Definition seq_next (modMask : Z) (index doubleHash : nat) : nat :=
  Z.to_nat (Z.land (wrap64 (Z.of_nat index + Z.of_nat doubleHash)) modMask).

(** The probing loops of [resizeTable] and [seqHashInsert]: step until the
    bucket is free. *)
Fixpoint seq_probe_free (fuel : nat) (occupied : list bool) (modMask : Z)
    (doubleHash index : nat) : option nat :=
  match fuel with
  | O => None
  | S fuel' =>
    o ← occupied !! index;
    if o : bool then
      seq_probe_free fuel' occupied modMask doubleHash
        (seq_next modMask index doubleHash)
    else Some index
  end.

(** [while(!*occPtr) occPtr++;] over the old [occupied] array. *)
Fixpoint next_occupied (occupied : list bool) (occPtr : nat) : option nat :=
  match occupied with
  | [] => None
  | o :: occupied' =>
    if o : bool then Some occPtr else next_occupied occupied' (S occPtr)
  end.

(** The [while(rehashesLeft)] loop of [resizeTable]. *)
Fixpoint rehash_loop (fuel : nat) (rehashesLeft : nat) (table : SeqHashTable)
    (modMask : Z) (occPtr : nat) (newBuckets : list (list Z))
    (newOccupied : list bool) : option (list (list Z) * list bool) :=
  match rehashesLeft with
  | O => Some (newBuckets, newOccupied)
  | S rehashesLeft' =>
    occPtr ← next_occupied (drop occPtr (Seq_occupied table)) occPtr;
    beingRehashed ← Seq_nodes table !! occPtr;
    index ← seqHash1 beingRehashed modMask;
    o ← newOccupied !! index;
    index ← (if o : bool then
               doubleHash ← seqHash2 beingRehashed modMask;
               seq_probe_free fuel newOccupied modMask doubleHash
                 (seq_next modMask index doubleHash)
             else Some index);
    newBuckets ← wr newBuckets index (take (len NUM_DIGITS) beingRehashed);
    newOccupied ← wr newOccupied index true;
    rehash_loop fuel rehashesLeft' table modMask (S occPtr) newBuckets
      newOccupied
  end.

Definition resizeTable (fuel : nat) (table : SeqHashTable)
    : option SeqHashTable :=
  let size := wrap64 (Seq_size table * 8) in
  let modMask := size - 1 in
  r ← rehash_loop fuel (Z.to_nat (Seq_count table)) table modMask 0
        (replicate (Z.to_nat size) (replicate (len NUM_DIGITS) 0))
        (replicate (Z.to_nat size) false);
  Some {| Seq_nodes := r.1; Seq_occupied := r.2; Seq_size := size;
          Seq_count := Seq_count table; Seq_modMask := modMask |}.

(** [((double)table->count)/table->size > SIZE_LIMIT_FRACTION]. The size is
    a power of two, so the quotient is exact in a [double] (for counts below
    2^53), and the [double] nearest to 1/3 is the largest one below 1/3:
    the comparison holds exactly when [3 * count > size]. *)
Definition over_limit (table : SeqHashTable) : bool :=
  Seq_size table <? 3 * Seq_count table.

Definition resize_if_needed (fuel : nat) (table : SeqHashTable)
    : option SeqHashTable :=
  if over_limit table then resizeTable fuel table else Some table.

(** The code after the label [insertFunctionAddToTable]. *)
Definition seq_add (table : SeqHashTable) (index : nat) (key : list Z)
    : option SeqHashTable :=
  key ← (if (len NUM_DIGITS <=? length key)%nat
         then Some (take (len NUM_DIGITS) key) else None);
  nodes ← wr (Seq_nodes table) index key;
  occupied ← wr (Seq_occupied table) index true;
  Some {| Seq_nodes := nodes; Seq_occupied := occupied;
          Seq_size := Seq_size table;
          Seq_count := wrap64 (Seq_count table + 1);
          Seq_modMask := Seq_modMask table |}.

Definition seqHashInsert (fuel : nat) (table : SeqHashTable) (key : list Z)
    : option SeqHashTable :=
  table ← resize_if_needed fuel table;
  index ← seqHash1 key (Seq_modMask table);
  o ← Seq_occupied table !! index;
  index ← (if o : bool then
             doubleHash ← seqHash2 key (Seq_modMask table);
             seq_probe_free fuel (Seq_occupied table) (Seq_modMask table)
               doubleHash (seq_next (Seq_modMask table) index doubleHash)
           else Some index);
  seq_add table index key.

(** The [while] loops of [seqHashInsertIfNotContains] and
    [seqHashContains]: [inl index] is a free bucket, [inr ()] the key. *)
Fixpoint seq_probe_key (fuel : nat) (table : SeqHashTable) (key : list Z)
    (doubleHash index : nat) : option (nat + unit) :=
  match fuel with
  | O => None
  | S fuel' =>
    o ← Seq_occupied table !! index;
    if o : bool then
      node ← Seq_nodes table !! index;
      same ← memcmp_eq node key (len NUM_DIGITS);
      if same : bool then Some (inr ())
      else seq_probe_key fuel' table key doubleHash
             (seq_next (Seq_modMask table) index doubleHash)
    else Some (inl index)
  end.

(** The search shared by [seqHashInsertIfNotContains] and
    [seqHashContains]: the first bucket, then the loop. *)
Definition seq_find (fuel : nat) (table : SeqHashTable) (key : list Z)
    : option (nat + unit) :=
  index ← seqHash1 key (Seq_modMask table);
  o ← Seq_occupied table !! index;
  if o : bool then
    node ← Seq_nodes table !! index;
    same ← memcmp_eq node key (len NUM_DIGITS);
    if same : bool then Some (inr ())
    else
      doubleHash ← seqHash2 key (Seq_modMask table);
      seq_probe_key fuel table key doubleHash
        (seq_next (Seq_modMask table) index doubleHash)
  else Some (inl index).

(** The result is the table and the returned flag. *)
Definition seqHashInsertIfNotContains (fuel : nat) (table : SeqHashTable)
    (key : list Z) : option (SeqHashTable * bool) :=
  table ← resize_if_needed fuel table;
  r ← seq_find fuel table key;
  match r with
  | inr _ => Some (table, false)
  | inl index => table ← seq_add table index key; Some (table, true)
  end.

Definition seqHashContains (fuel : nat) (table : SeqHashTable) (key : list Z)
    : option bool :=
  r ← seq_find fuel table key;
  match r with
  | inr _ => Some true
  | inl _ => Some false
  end.

End SequenceHashTable.
(** ** markForRemoval *)

(** The inner [while] loop of [markForRemoval], which runs as long as the
    steps at [inToMark] and at [inSeqs] are the same: [r] is [len] minus
    the offset of [inToMark] in [seqToMark], the two lists are the arrays
    from the two pointers on. The result is [None] when the loop reaches
    the end of the sequence (the sequences match), and otherwise tells
    whether the step at [inToMark] is greater than the step at [inSeqs] at
    the first difference. *)
Fixpoint markForRemoval_compare (r : nat) (inToMark inSeqs : list Z)
    : option (option bool) :=
  match inToMark, inSeqs with
  | x :: inToMark', y :: inSeqs' =>
    if x =? y then
      if (r <=? 1)%nat then Some None
      else markForRemoval_compare (r - 1) inToMark' inSeqs'
    else Some (Some (y <? x))
  | _, _ => None
  end.

(** The [while(low <= size)] loop. [memory] holds the sequences and [seqs]
    the pointers to them; the result is the memory and the returned value.
    [low], [mid] and [size] are [int]s. *)
Fixpoint markForRemoval_loop (NUM_DIGITS : nat) (fuel : nat)
    (memory : list (list Z)) (seqs : list nat) (low size : Z)
    (seqToMark : list Z) : option (list (list Z) * bool) :=
  match fuel with
  | O => None
  | S fuel' =>
    if low <=? size then
      let mid := low + Z.shiftr (size - low) 1 in
      ptr ← (if 0 <=? mid then seqs !! Z.to_nat mid else None);
      inSeqs ← memory !! ptr;
      c ← markForRemoval_compare (len NUM_DIGITS - 2) (drop 2 seqToMark)
             (drop 2 inSeqs);
      match c with
      | None =>
        marked ← wr inSeqs 0 1;
        memory ← wr memory ptr marked;
        Some (memory, true)
      | Some true =>
        if mid + 1 <? 2 ^ 31 then
          markForRemoval_loop NUM_DIGITS fuel' memory seqs (mid + 1) size
            seqToMark
        else None
      | Some false =>
        markForRemoval_loop NUM_DIGITS fuel' memory seqs low (mid - 1)
          seqToMark
      end
    else Some (memory, false)
  end.

Definition markForRemoval (NUM_DIGITS : nat) (fuel : nat)
    (memory : list (list Z)) (seqs : list nat) (size : Z)
    (seqToMark : list Z) : option (list (list Z) * bool) :=
  markForRemoval_loop NUM_DIGITS fuel memory seqs 0 size seqToMark.


(** * Vocabulary of the properties *)

(** A step mask of the program: one bit, for a digit below [n]. *)
Definition valid_mask (n : nat) (m : Z) : Prop :=
  ∃ d : nat, (d < n)%nat ∧ m = 2 ^ Z.of_nat d.

(** The digit form of a list of step masks, as [calculateCodesWithSetStart]
    stores a seed. *)
Definition digit_form (masks : list Z) : list Z := log2 <$> masks.

(** A list of steps in digit form: every step is below [n]. *)
Definition digits (n : nat) (l : list Z) : Prop :=
  Forall (λ d, 0 ≤ d < Z.of_nat n) l.

(** The base-[n] numeral read from a list of digits. *)
Definition value (n : nat) (l : list Z) : Z :=
  fold_left (λ a d, a * Z.of_nat n + d) l 0.

(** The entry of the rotation table for the step [f]. *)
Definition multiple (n : nat) (f : Z) : Z :=
  f * (Z.of_nat n ^ Z.of_nat (len n) - 1).

(** The sequence [s] rotated left by [k] positions. *)
Definition rotate_left (k : nat) (s : list Z) : list Z := drop k s ++ take k s.

(** The running numeral of the rotation loop after it has rotated out the
    given steps, one [next_rotation] per step. *)
Fixpoint rotations (n : nat) (multiplesTable : list Z) (currentRotation : Z)
    (steps : list Z) : option Z :=
  match steps with
  | [] => Some currentRotation
  | f :: steps' =>
    c ← next_rotation n multiplesTable currentRotation f;
    rotations n multiplesTable c steps'
  end.

(** The bucket probed after [j] steps of stride [s] from [i0]. *)
Definition probe_at (M i0 s j : nat) : nat := ((i0 + j * s) mod M)%nat.

(** The two hash values as numbers. *)
Definition hash1 (M : nat) (key : Z) : nat := Z.to_nat (key mod Z.of_nat M).
Definition hash2 (n : nat) (key : Z) : nat :=
  (Z.to_nat (key mod (Z.of_nat n - 1)) + 1)%nat.

(** The bucket that the [j]-th probe for [key] looks at. *)
Definition probe (n M : nat) (key : Z) (j : nat) : nat :=
  probe_at M (hash1 M key) (hash2 n key) j.

(** A table that holds exactly the keys of [keys]. *)
Record TableInv (n M : nat) (table : GMPHashTable) (keys : list Z) : Prop := {
  inv_size : GMP_size table = M;
  inv_occupied_length : length (GMP_occupied table) = M;
  inv_nodes_length : length (GMP_nodes table) = M;
  inv_count : GMP_count table = Z.of_nat (length keys);
  inv_room : (length keys < M)%nat;
  inv_filled :
    length (filter (λ o, o = true) (GMP_occupied table)) = length keys;
  inv_sound : ∀ p, GMP_occupied table !! p = Some true →
                   ∃ k, k ∈ keys ∧ GMP_nodes table !! p = Some k;
  inv_complete : ∀ k, k ∈ keys →
    ∃ j, (j < M)%nat ∧
         GMP_occupied table !! probe n M k j = Some true ∧
         GMP_nodes table !! probe n M k j = Some k ∧
         ∀ i, (i < j)%nat → GMP_occupied table !! probe n M k i = Some true;
}.

(** n! as an integer. *)
Fixpoint factZ (n : nat) : Z :=
  match n with
  | O => 1
  | S k => Z.of_nat (S k) * factZ k
  end.

(** The array [q] with the entries of [l] written from index [i] on. *)
Definition overwrite {A} (q : list A) (i : nat) (l : list A) : list A :=
  take i q ++ l ++ drop (i + length l) q.

Section SwapList.

Variable conv : Z → Z.

(** The swaps that the [for] loop and the last recursive call of
    [addQueueSwaps] write, block by block. *)
Fixpoint swap_blocks (recurse : list Z → list (Z * Z)) (ind : list Z)
    (i : nat) (rec : list Z) : list (Z * Z) :=
  match i with
  | O => recurse rec
  | S i' =>
    recurse rec
    ++ (conv (nth i ind 0), conv (nth i' ind 0))
       :: swap_blocks recurse ind i' (<[i' := nth i ind 0]> rec)
  end.

(** The swaps that [addQueueSwaps n] writes for the indices [ind]. *)
Fixpoint swap_list (n : nat) (ind : list Z) : list (Z * Z) :=
  match n with
  | 0%nat | 1%nat => []
  | 2%nat => [(conv (nth 0 ind 0), conv (nth 1 ind 0))]
  | S n' => swap_blocks (swap_list n') ind n' (take n' ind)
  end.

End SwapList.

(** One swap of the queue applied to the whole array [s]. *)
Definition apply_swap (s : list Z) (q : Z * Z) : list Z :=
  swap_one q.1 q.2 <$> s.

(** The arrays seen after each swap of [sw], starting from [s]. *)
Fixpoint visit (s : list Z) (sw : list (Z * Z)) : list (list Z) :=
  match sw with
  | [] => []
  | q :: sw' => apply_swap s q :: visit (apply_swap s q) sw'
  end.

(** The array after all swaps. *)
Definition final (s : list Z) (sw : list (Z * Z)) : list Z :=
  fold_left apply_swap sw s.

(** [v] is a rearrangement of [s] that moved only the values of [ind]. *)
Definition Fixes (s ind v : list Z) : Prop :=
  v ≡ₚ s ∧ ∀ i x, s !! i = Some x → x ∉ ind → v !! i = Some x.

(** The swaps [sw] take [s] through pairwise different rearrangements that
    move only the values of [ind]. *)
Definition Visits (s ind : list Z) (sw : list (Z * Z)) : Prop :=
  NoDup (s :: visit s sw) ∧ ∀ v, v ∈ s :: visit s sw → Fixes s ind v.

(** The arrays seen when the swaps of [sw] are applied one after another
    with [swap], the first being [s] itself. *)
Fixpoint visits (s : list Z) (sw : list (Z * Z)) : option (list (list Z)) :=
  match sw with
  | [] => Some [s]
  | q :: sw' =>
    s' ← swap s q.1 q.2 (length s);
    rest ← visits s' sw';
    Some (s :: rest)
  end.

(** The table made by [createSeqTable(0)] and one insertion of [key]. *)
Definition one_bucket_table (key : list Z) : SeqHashTable :=
  {| Seq_nodes := [key]; Seq_occupied := [true]; Seq_size := 1;
     Seq_count := 1; Seq_modMask := 0 |}.

(** ** Rotations, relabellings and classes of sequences *)

(** The sequence numbers of all rotations of [s]. *)
Definition rotation_values (n : nat) (s : list Z) : list Z :=
  (λ i, value n (rotate_left i s)) <$> seq 0 (len n).

(** Some rotation of [s] has its sequence number among [keys]. *)
Definition known (n : nat) (keys : list Z) (s : list Z) : Prop :=
  Exists (λ v, v ∈ keys) (rotation_values n s).

(** The keys after the sequence [s] has been looked up and, if none of its
    rotations is known, recorded. *)
Definition record (n : nat) (keys : list Z) (s : list Z) : list Z :=
  if decide (known n keys s) then keys else value n s :: keys.

(** The arrangement [0; 1; ...; n-1]. *)
Definition identity (n : nat) : list Z := Z.of_nat <$> seq 0 n.

(** The sequence [s] with every digit [d] replaced by [V[d]]. *)
Definition act (V : list Z) (s : list Z) : list Z :=
  (λ d, nth (Z.to_nat d) V 0) <$> s.

(** An arrangement of the digits: a permutation of [identity n]. *)
Definition arrangement (n : nat) (V : list Z) : Prop := V ≡ₚ identity n.

(** [b] is a rotation of [a]. *)
Definition rot_equiv (n : nat) (a b : list Z) : Prop :=
  b ∈ ((λ i, rotate_left i a) <$> seq 0 (len n)).

Global Instance rot_equiv_dec n a b : Decision (rot_equiv n a b).
Proof. unfold rot_equiv. apply _. Defined.

Section ClassCount.

Context {A : Type} (rel : A → A → Prop) `{∀ x y, Decision (rel x y)}.

(** How many elements of [L] are related to [r]. *)
Definition members (L : list A) (r : A) : nat := length (filter (rel r) L).

(** The members of all representatives together. *)
Definition total_members (L reps : list A) : nat :=
  sum_list (members L <$> reps).

(** How many representatives an element is related to. *)
Definition owners (reps : list A) (x : A) : nat :=
  length (filter (λ r, rel r x) reps).

End ClassCount.

(** A sequence of the right length in digit form. *)
Definition wf_seq (n : nat) (s : list Z) : Prop :=
  digits n s ∧ length s = len n.

(** The representatives after the sequence [s] has been looked at. *)
Definition record_seq (n : nat) (reps : list (list Z)) (s : list Z)
    : list (list Z) :=
  if decide (Exists (rot_equiv n s) reps) then reps else s :: reps.

(** The representatives chosen from the sequences of [L], in order. *)
Definition reps_of (n : nat) (L : list (list Z)) : list (list Z) :=
  fold_left (record_seq n) L [].

(** No two representatives are rotations of each other. *)
Fixpoint inequiv (n : nat) (reps : list (list Z)) : Prop :=
  match reps with
  | [] => True
  | R :: reps' => Forall (λ R', ¬ rot_equiv n R R') reps' ∧ inequiv n reps'
  end.

(** ** The loop over the queue in [extrapolateSeeds] *)

(** The queue of [main]: the swap of 99 with 99, then the swaps written by
    [addQueueSwaps]. *)
Definition full_queue (n : nat) : list (Z * Z) :=
  (99, 99) :: swap_list to_step n (identity n).

(** The sequences that the loop looks at for a seed, in order. *)
Definition processed (n : nat) (seed : list Z) : list (list Z) :=
  visit seed (full_queue n).

(** The capacity of the table of [extrapolateSeeds]. *)
Definition capacity (n : nat) : nat := Z.to_nat (2 * factZ n + 1).

(** A table of the capacity of [extrapolateSeeds]. *)
Definition table_shape (n : nat) (table : GMPHashTable) : Prop :=
  GMP_size table = capacity n ∧ length (GMP_nodes table) = capacity n.

(** The number of classes of rotations among the relabelled seeds. *)
Definition orbit_count (n : nat) (seed : list Z) : nat :=
  length (reps_of n (processed n seed)).

(** A variant of the loop of [extrapolateSeeds] without the code after the
    label [notUniquePermutation]: every entry of the queue is processed. *)
Fixpoint naive_queue_loop (n : nat) (fuel : nat) (queueSize : Z)
    (queue : list (Z * Z)) (multiplesTable : list Z)
    (st : ExtrapolateState) : option ExtrapolateState :=
  match fuel with
  | O => None
  | S fuel' =>
    if Z.of_nat (ex_qPtr st) <? queueSize then
      st ← swap_and_record n queue multiplesTable st;
      naive_queue_loop n fuel' queueSize queue multiplesTable st
    else Some st
  end.


(** The number of classes among the first [k] processed sequences. *)
Definition seen_count (n : nat) (seed : list Z) (k : nat) : nat :=
  length (reps_of n (take k (processed n seed))).

(** What holds whenever the test of the loop over the queue is reached. *)
Definition Inv (n : nat) (seed : list Z) (st : ExtrapolateState) : Prop :=
  (ex_qPtr st ≤ fact n)%nat ∧
  ex_localSequence st = final seed (take (ex_qPtr st) (full_queue n)) ∧
  TableInv n (capacity n) (ex_table st)
    (value n <$> reps_of n (take (ex_qPtr st) (processed n seed))).

(** What holds in addition in the loop of the program, where [n!] is
    [2 ^ v * q] and the entry [i] of the halves is [2 ^ i * q]: the next
    half is below [n!] and not below the number of classes seen. *)
Definition InvH (n : nat) (seed : list Z) (v : nat) (q : Z)
    (st : ExtrapolateState) : Prop :=
  Inv n seed st ∧ (ex_currentNextHalf st < v)%nat ∧
  Z.of_nat (seen_count n seed (ex_qPtr st))
  ≤ 2 ^ Z.of_nat (ex_currentNextHalf st) * q.

(** The state in which the loop over the queue is entered for a seed. *)
Definition seed_start (n : nat) (table : GMPHashTable) (seed : list Z)
    : ExtrapolateState :=
  {| ex_localSequence := take (len n) seed;
     ex_table := emptyGMPTable table;
     ex_currentNextHalf := 0;
     ex_qPtr := 0 |}.

(** [extrapolateSeed] with the loop that has no early exit. *)
Definition extrapolateSeed_naive (n : nat) (queueSize : Z)
    (queue : list (Z * Z)) (multiplesTable : list Z) (table : GMPHashTable)
    (numGreyCodes : Z) (seed : list Z) : option (GMPHashTable * Z) :=
  localSequence ← (if (len n <=? length seed)%nat
                   then Some (take (len n) seed) else None);
  let sym := rotationallySymmetric n localSequence in
  st ← naive_queue_loop n (S (Z.to_nat queueSize)) queueSize queue
         multiplesTable (seed_start n table seed);
  Some (ex_table st,
        wrap64 (numGreyCodes
                + wrap64 (GMP_count (ex_table st)
                          * Z.of_nat (if sym then len n / 2 else len n)))).

(** The size of the part of a seed that is compared with the other part. *)
Definition half_len (n : nat) : nat := 2 ^ (n - 1).

(** The loop over the seeds with the pass that has no early exit. *)
Fixpoint seeds_loop_naive (n : nat) (queueSize : Z) (queue : list (Z * Z))
    (multiplesTable : list Z) (seeds : list (list Z))
    (numSeedsToExtrapolate : nat) (seedPtr : nat)
    (table : GMPHashTable) (numGreyCodes : Z) : option Z :=
  match numSeedsToExtrapolate with
  | O => Some numGreyCodes
  | S k =>
    seed ← seeds !! seedPtr;
    r ← extrapolateSeed_naive n queueSize queue multiplesTable table
          numGreyCodes seed;
    seeds_loop_naive n queueSize queue multiplesTable seeds k (S seedPtr)
      r.1 r.2
  end.

(** [extrapolateSeeds] with the pass that has no early exit. *)
Definition extrapolateSeeds_naive (n : nat) (queueSize : Z)
    (queue : list (Z * Z)) (multiplesTable : list Z) (seeds : list (list Z))
    (numSeedsToExtrapolate : nat) : option Z :=
  let uniquePermutations :=
    createGMPTable (Z.to_nat (wrap64 (queueSize * 2 + 1))) in
  seeds_loop_naive n queueSize queue multiplesTable seeds
    numSeedsToExtrapolate 0 uniquePermutations 0.

(** What a seed adds to the total. *)
Definition seed_total (n : nat) (seed : list Z) : Z :=
  Z.of_nat (orbit_count n seed)
  * Z.of_nat (if bool_decide (take (half_len n) seed = drop (half_len n) seed)
              then half_len n else len n).

(** What a list of seeds adds to the total. *)
Definition seeds_total (n : nat) (seeds : list (list Z)) : Z :=
  foldr (λ seed acc, seed_total n seed + acc) 0 seeds.

(** ** Clients and vocabulary of the further properties *)

(** A run of [GMPHashInsert] calls, one per key, in the order of the list. *)
Fixpoint GMPHashInsert_all (n fuel : nat) (table : GMPHashTable)
    (keys : list Z) : option GMPHashTable :=
  match keys with
  | [] => Some table
  | key :: keys' =>
    table ← GMPHashInsert n fuel table key;
    GMPHashInsert_all n fuel table keys'
  end.

(** The steps of the binary reflected Gray code of [i] digits, without the
    step that closes the cycle. *)
Fixpoint ruler (i : nat) : list Z :=
  match i with
  | O => []
  | S i' => ruler i' ++ [2 ^ Z.of_nat i'] ++ ruler i'
  end.

(** The values reached from [v] by the steps, one after another: each step
    is the mask that is XORed to the value, as in the buffer of
    [calculateCodesWithSetStart]. *)
Fixpoint walk (v : Z) (steps : list Z) : list Z :=
  match steps with
  | [] => []
  | m :: steps' => Z.lxor v m :: walk (Z.lxor v m) steps'
  end.

(** A cyclic Gray code of [n] digits in step masks: [2 ^ n] steps, each the
    mask of a digit, that reach [2 ^ n] different values from 0, the last
    of them 0 again. *)
Definition gray_cycle (n : nat) (masks : list Z) : Prop :=
  length masks = len n ∧ Forall (valid_mask n) masks ∧
  NoDup (walk 0 masks) ∧ last (walk 0 masks) = Some 0.

(** The bucket of the probe [j] for [key] in a table of [2 ^ e] buckets. *)
Definition seq_probe (n e : nat) (key : list Z) (j : nat) : nat :=
  probe_at (2 ^ e)
    (default 0%nat (seqHash1 n key (2 ^ Z.of_nat e - 1)))
    (default 1%nat (seqHash2 n key (2 ^ Z.of_nat e - 1))) j.

(** The arrays of a table of [2 ^ e] buckets hold the keys [keys]: every
    occupied bucket holds one of them, and every one of them is found by
    its probes before a free bucket is. *)
Record SeqArrays (n e : nat) (nodes : list (list Z)) (occupied : list bool)
    (keys : list (list Z)) : Prop := {
  sa_nodes : length nodes = (2 ^ e)%nat;
  sa_occupied : length occupied = (2 ^ e)%nat;
  sa_filled : length (filter (λ o, o = true) occupied) = length keys;
  sa_steps : Forall (λ node, length node = len n) nodes;
  sa_sound : ∀ p, occupied !! p = Some true →
                  ∃ k, k ∈ keys ∧ nodes !! p = Some k;
  sa_complete : ∀ k, k ∈ keys →
    ∃ j, (j < 2 ^ e)%nat ∧
         occupied !! seq_probe n e k j = Some true ∧
         nodes !! seq_probe n e k j = Some k ∧
         ∀ i, (i < j)%nat → occupied !! seq_probe n e k i = Some true;
}.

(** The table has [2 ^ e] buckets and holds the keys [keys], one bucket per
    insertion; the load is what the test before an insertion leaves. *)
Record SeqInv (n e : nat) (table : SeqHashTable) (keys : list (list Z))
    : Prop := {
  si_size : Seq_size table = 2 ^ Z.of_nat e;
  si_mask : Seq_modMask table = 2 ^ Z.of_nat e - 1;
  si_count : Seq_count table = Z.of_nat (length keys);
  si_load : 3 * (Z.of_nat (length keys) - 1) ≤ 2 ^ Z.of_nat e;
  si_arrays : SeqArrays n e (Seq_nodes table) (Seq_occupied table) keys;
}.

(** A call of one of the three functions that take a key. *)
Inductive SeqCall :=
  | CallInsert (key : list Z)
  | CallInsertIfNotContains (key : list Z)
  | CallContains (key : list Z).

Definition call_key (c : SeqCall) : list Z :=
  match c with
  | CallInsert key | CallInsertIfNotContains key | CallContains key => key
  end.

(** The calls are made in order on one table; the result is the table and
    the values returned by the calls that return one. *)
Fixpoint seq_calls (n fuel : nat) (table : SeqHashTable) (calls : list SeqCall)
    : option (SeqHashTable * list bool) :=
  match calls with
  | [] => Some (table, [])
  | CallInsert key :: calls =>
    table ← seqHashInsert n fuel table key;
    seq_calls n fuel table calls
  | CallInsertIfNotContains key :: calls =>
    r ← seqHashInsertIfNotContains n fuel table key;
    r' ← seq_calls n fuel r.1 calls;
    Some (r'.1, r.2 :: r'.2)
  | CallContains key :: calls =>
    b ← seqHashContains n fuel table key;
    r' ← seq_calls n fuel table calls;
    Some (r'.1, b :: r'.2)
  end.

(** What the calls are to give on a collection of sequences [keys]: the
    sequences held afterwards (one entry for every stored copy) and the
    returned values. A key stands for its first [len n] steps. *)
Fixpoint calls_expected (n : nat) (keys : list (list Z)) (calls : list SeqCall)
    : list (list Z) * list bool :=
  match calls with
  | [] => (keys, [])
  | CallInsert key :: calls =>
    calls_expected n (take (len n) key :: keys) calls
  | CallInsertIfNotContains key :: calls =>
    let present := bool_decide (take (len n) key ∈ keys) in
    let r := calls_expected n
               (if present then keys else take (len n) key :: keys) calls in
    (r.1, negb present :: r.2)
  | CallContains key :: calls =>
    let r := calls_expected n keys calls in
    (r.1, bool_decide (take (len n) key ∈ keys) :: r.2)
  end.

(** A stored seed: the digit form of a cyclic Gray code. *)
Definition gray_seed (n : nat) (seed : list Z) : Prop :=
  ∃ masks, gray_cycle n masks ∧ seed = digit_form masks.

(** The state of the search between two steps, [k] entries of the buffer
    ahead of [sptr]: the buffer holds the values reached by the steps of
    [test] so far, all different and flagged, and the seeds stored so far
    are cyclic Gray codes. *)
Record SearchInv (n k : nat) (st : SearchState) : Prop := {
  sv_valid : Forall (valid_mask n) (take (len n) (sr_test st));
  sv_bffr : length (sr_bffr st) = S (len n);
  sv_bptr : sr_bptr st = S (sr_sptr st + k);
  sv_depth : (sr_sptr st + k ≤ len n)%nat ∧
             (sr_sptr st + k ≤ length (sr_test st))%nat;
  sv_walk : take (S (sr_sptr st + k)) (sr_bffr st)
            = 0 :: walk 0 (take (sr_sptr st + k) (sr_test st));
  sv_nodup : NoDup (0 :: walk 0 (take (sr_sptr st + k) (sr_test st)));
  sv_flags : ∀ w, w ∈ walk 0 (take (sr_sptr st + k) (sr_test st)) →
                  sr_flags st !! Z.to_nat w = Some true;
  sv_seeds : Forall (gray_seed n) (sr_seeds st);
}.

(** The state at [AtValid]: the step at [sptr] is the last of the [len]
    steps, and it leads back to 0. *)
Definition closes (n : nat) (st : SearchState) : Prop :=
  S (sr_sptr st) = len n ∧
  ∃ s, sr_test st !! sr_sptr st = Some s ∧
       Z.lxor (fold_left Z.lxor (take (sr_sptr st) (sr_test st)) 0) s = 0.

(** The part of a sequence that [markForRemoval] compares: the steps from
    the third on. *)
Definition mark_key (n : nat) (s : list Z) : list Z :=
  take (len n - 2) (drop 2 s).

(** The order of the comparison: at the first difference the step of [a]
    is the smaller one. *)
Fixpoint steps_lt (a b : list Z) : Prop :=
  match a, b with
  | x :: a', y :: b' => x < y ∨ (x = y ∧ steps_lt a' b')
  | _, _ => False
  end.

(** The sequences that the pointers lead to, in the order of the
    pointers. *)
Definition pointed (memory : list (list Z)) (seqs : list nat)
    : option (list (list Z)) :=
  mapM (λ ptr, memory !! ptr) seqs.

(** The keys are in strictly ascending order. *)
Definition keys_ascend (keys : list (list Z)) : Prop :=
  ∀ i j a b, (i < j)%nat → keys !! i = Some a → keys !! j = Some b →
             steps_lt a b.


(** * Properties *)

(** ** Sequence numbers, [isLower] and the rotation formula *)

Lemma log2_pow2 (d : nat) : log2 (2 ^ Z.of_nat d) = Z.of_nat d.
Proof.
  induction d as [|d IH]; [done|].
  rewrite Nat2Z.inj_succ, Z.pow_succ_r by lia.
  assert (0 < 2 ^ Z.of_nat d) by (apply Z.pow_pos_nonneg; lia).
  destruct (2 ^ Z.of_nat d) as [|p|p] eqn:E; try lia.
  change (2 * Z.pos p) with (Z.pos p~0). simpl in *. lia.
Qed.

Lemma getSequenceNumber_loop_app n k l1 l2 acc :
  length l1 = k →
  getSequenceNumber_loop n (k + length l2) (l1 ++ l2) acc =
  getSequenceNumber_loop n (length l2) l2 (fold_left (λ a d, a * Z.of_nat n + d) l1 acc).
Proof.
  revert l1 acc. induction k as [|k IH]; intros [|x l1] acc Hl; simpl in *; try done; try lia.
  apply IH. lia.
Qed.

Lemma getSequenceNumber_loop_all n l acc :
  getSequenceNumber_loop n (length l) l acc = Some (fold_left (λ a d, a * Z.of_nat n + d) l acc).
Proof.
  revert acc. induction l as [|x l IH]; intros acc; simpl; [done|]. apply IH.
Qed.



Lemma fold_value_acc n l acc :
  fold_left (λ a d, a * Z.of_nat n + d) l acc = acc * Z.of_nat n ^ Z.of_nat (length l) + value n l.
Proof.
  unfold value. revert acc. induction l as [|x l IH]; intros acc; simpl.
  - lia.
  - rewrite IH, (IH (0 * _ + x)). rewrite Nat2Z.inj_succ, Z.pow_succ_r by lia. lia.
Qed.

Lemma value_cons n x l : value n (x :: l) = x * Z.of_nat n ^ Z.of_nat (length l) + value n l.
Proof. unfold value at 1. simpl. rewrite fold_value_acc. lia. Qed.

Lemma value_app n l1 l2 : value n (l1 ++ l2) = value n l1 * Z.of_nat n ^ Z.of_nat (length l2) + value n l2.
Proof. unfold value at 1. rewrite fold_left_app. rewrite fold_value_acc. done. Qed.

Lemma value_bounds n l : digits n l → 0 ≤ value n l < Z.of_nat n ^ Z.of_nat (length l).
Proof.
  induction 1 as [|x l Hx Hl IH].
  - unfold value; simpl. lia.
  - rewrite value_cons. simpl length. rewrite Nat2Z.inj_succ, Z.pow_succ_r by lia.
    nia.
Qed.

Lemma getSequenceNumber_value n l : length l = len n → getSequenceNumber n l = Some (value n l).
Proof. intros H. unfold getSequenceNumber. rewrite <- H. apply getSequenceNumber_loop_all. Qed.


Lemma isLower_loop_digits n k a b :
  digits n a → digits n b → length a = k → length b = k →
  isLower_loop k a b = Some (bool_decide (value n a < value n b)).
Proof.
  revert a b. induction k as [|k IH]; intros a b Ha Hb La Lb.
  - by destruct a, b.
  - destruct a as [|x a], b as [|y b]; try done.
    inversion Ha as [|? ? Hx Ha']; inversion Hb as [|? ? Hy Hb']; subst.
    simpl in La, Lb. simpl. rewrite !value_cons.
    assert (length a = length b) as Hab by lia.
    pose proof (value_bounds n a Ha'). pose proof (value_bounds n b Hb').
    rewrite Hab in *.
    destruct (Z.eqb_spec x y) as [->|Hne].
    + rewrite (IH a b) by (done || lia). f_equal. apply bool_decide_ext. lia.
    + f_equal. destruct (Z.ltb_spec x y).
      * rewrite bool_decide_eq_true_2; [done|]. nia.
      * rewrite bool_decide_eq_false_2; [done|]. nia.
Qed.

Lemma isLower_loop_masks n k a b :
  Forall (valid_mask n) a → Forall (valid_mask n) b →
  isLower_loop k a b = isLower_loop k (log2 <$> a) (log2 <$> b).
Proof.
  revert a b. induction k as [|k IH]; intros a b Ha Hb; [done|].
  destruct a as [|x a], b as [|y b]; try done.
  inversion Ha as [|? ? (dx & Hdx & ->) Ha']; inversion Hb as [|? ? (dy & Hdy & ->) Hb']; subst.
  simpl. rewrite !log2_pow2, IH by done.
  destruct (Z.eqb_spec (2 ^ Z.of_nat dx) (2 ^ Z.of_nat dy)) as [E|E].
  - apply Z.pow_inj_r in E; [|lia..]. rewrite E, Z.eqb_refl. done.
  - destruct (Z.eqb_spec (Z.of_nat dx) (Z.of_nat dy)) as [E'|E']; [by rewrite E' in E|].
    f_equal. destruct (Z.ltb_spec (Z.of_nat dx) (Z.of_nat dy)).
    + apply Z.ltb_lt. apply Z.pow_lt_mono_r; lia.
    + apply Z.ltb_ge. apply Z.pow_le_mono_r; lia.
Qed.

Lemma digits_of_masks n a : Forall (valid_mask n) a → digits n (log2 <$> a).
Proof.
  intros H. unfold digits. rewrite Forall_fmap. eapply Forall_impl; [exact H|].
  intros m (d & Hd & ->). simpl. rewrite log2_pow2. lia.
Qed.

(** C8: on step masks, [isLower beingTested original] is true exactly when
    the sequence number of [beingTested] (the base-n numeral of its digit
    form) is strictly below that of [original]; on two equal sequences it is
    false. *)
Theorem isLower_strictly_lower n (beingTested original : list Z) :
  Forall (valid_mask n) beingTested → Forall (valid_mask n) original →
  length beingTested = len n → length original = len n →
  ∃ nb no,
    getSequenceNumber n (log2 <$> beingTested) = Some nb ∧
    getSequenceNumber n (log2 <$> original) = Some no ∧
    isLower n beingTested original = Some (bool_decide (nb < no)) ∧
    isLower n original original = Some false.
Proof.
  intros Hb Ho Lb Lo.
  exists (value n (log2 <$> beingTested)), (value n (log2 <$> original)).
  rewrite !getSequenceNumber_value by (by rewrite length_fmap).
  unfold isLower. split_and!; try done.
  - rewrite (isLower_loop_masks n) by done.
    apply isLower_loop_digits; rewrite ?length_fmap; auto using digits_of_masks.
  - rewrite (isLower_loop_masks n) by done.
    rewrite (isLower_loop_digits n); rewrite ?length_fmap; auto using digits_of_masks.
    by rewrite bool_decide_eq_false_2 by lia.
Qed.


Lemma wr_Some {A} (arr : list A) i x : (i < length arr)%nat → wr arr i x = Some (<[i:=x]> arr).
Proof. intros H. unfold wr. by rewrite (proj2 (Nat.ltb_lt _ _) H). Qed.

Lemma iter_power n k (t : list Z) x :
  (1 < length t)%nat → t !! 1%nat = Some x →
  Nat.iter k (λ t, t ← t; x ← t !! 1%nat; wr t 1 (x * Z.of_nat n)) (Some t)
  = Some (<[1%nat := x * Z.of_nat n ^ Z.of_nat k]> t).
Proof.
  intros Hl Hx. induction k as [|k IH].
  - simpl. f_equal. rewrite Z.mul_1_r. symmetry. by apply list_insert_id.
  - simpl. rewrite IH. simpl. rewrite list_lookup_insert_eq by done. simpl.
    rewrite wr_Some by (by rewrite length_insert).
    rewrite list_insert_insert_eq. do 2 f_equal.
    rewrite Nat2Z.inj_succ, Z.pow_succ_r by lia. lia.
Qed.

Lemma multiplesTable_fill_spec k : ∀ i (t : list Z) M,
  (2 ≤ i)%nat → length t = (i + k)%nat → t !! 1%nat = Some M →
  multiplesTable_fill k i t
  = Some (take i t ++ ((λ j : nat, M * Z.of_nat j) <$> seq i k)).
Proof.
  induction k as [|k IH]; intros i t M Hi Hl HM; simpl.
  - rewrite app_nil_r, take_ge by lia. done.
  - rewrite HM. simpl. rewrite wr_Some by lia. simpl.
    rewrite (IH (S i) _ M); [|lia|rewrite length_insert; lia|
      rewrite list_lookup_insert_ne by lia; done].
    f_equal. rewrite (take_S_r _ _ (M * Z.of_nat i)).
    + rewrite take_insert_ge by lia. by rewrite <- app_assoc.
    + apply list_lookup_insert_eq. lia.
Qed.

Lemma make_multiplesTable_spec n :
  (2 ≤ n)%nat →
  make_multiplesTable n = Some ((λ j : nat, multiple n (Z.of_nat j)) <$> seq 0 n).
Proof.
  intros Hn. unfold make_multiplesTable.
  set (P := Z.of_nat n ^ Z.of_nat (len n)).
  rewrite wr_Some by (rewrite length_replicate; lia). cbn [mbind option_bind].
  rewrite wr_Some by (rewrite length_insert, length_replicate; lia).
  cbn [mbind option_bind].
  rewrite (iter_power _ _ _ 1);
    [|rewrite !length_insert, length_replicate; lia
     |apply list_lookup_insert_eq; rewrite length_insert, length_replicate; lia].
  cbn [mbind option_bind].
  rewrite list_lookup_insert_eq by (rewrite !length_insert, length_replicate; lia).
  cbn [mbind option_bind].
  rewrite wr_Some by (rewrite !length_insert, length_replicate; lia).
  cbn [mbind option_bind].
  rewrite (multiplesTable_fill_spec _ 2 _ (P - 1));
    [|lia|rewrite !length_insert, length_replicate; lia
     |rewrite list_lookup_insert_eq; [f_equal; unfold P; lia|
        rewrite !length_insert, length_replicate; lia]].
  f_equal. destruct n as [|[|n]]; try lia.
  simpl. unfold multiple. fold P. replace (n - 0)%nat with n by lia.
  assert (∀ l : list nat, ((λ j : nat, (P - 1) * Z.of_nat j) <$> l)
                         = ((λ j : nat, Z.of_nat j * (P - 1)) <$> l)) as E
    by (intros; apply list_fmap_ext; intros; lia).
  rewrite E. clearbody P. do 2 f_equal. lia.
Qed.

(** One rotation step on the numeral. *)
Lemma value_rotate_one n (f : Z) (rest : list Z) :
  length (f :: rest) = len n →
  value n (rest ++ [f]) = value n (f :: rest) * Z.of_nat n - multiple n f.
Proof.
  intros Hl. unfold multiple. rewrite <- Hl. clear Hl.
  rewrite value_app, (value_cons n f rest). simpl length.
  rewrite !Nat2Z.inj_succ, !Z.pow_succ_r by lia. simpl (Z.of_nat 0).
  rewrite Z.pow_0_r.
  replace (value n [f]) with f by (unfold value; simpl; lia). ring.
Qed.

Lemma multiplesTable_lookup n table (f : Z) :
  make_multiplesTable n = Some table → (2 ≤ n)%nat → 0 ≤ f < Z.of_nat n →
  table !! Z.to_nat f = Some (multiple n f).
Proof.
  intros Ht Hn Hf. rewrite make_multiplesTable_spec in Ht by done.
  injection Ht as <-. rewrite list_lookup_fmap.
  rewrite lookup_seq_lt by lia. simpl. f_equal. f_equal. lia.
Qed.


Lemma rotations_app n t c l1 l2 :
  rotations n t c (l1 ++ l2) = c' ← rotations n t c l1; rotations n t c' l2.
Proof.
  revert c. induction l1 as [|x l1 IH]; intros c; simpl; [done|].
  destruct (next_rotation n t c x); simpl; [apply IH|done].
Qed.

Lemma next_rotation_value n table (f : Z) (rest : list Z) :
  make_multiplesTable n = Some table → (2 ≤ n)%nat → 0 ≤ f < Z.of_nat n →
  length (f :: rest) = len n →
  next_rotation n table (value n (f :: rest)) f = Some (value n (rest ++ [f])).
Proof.
  intros Ht Hn Hf Hl. unfold next_rotation.
  rewrite (multiplesTable_lookup n) by done. simpl.
  by rewrite value_rotate_one.
Qed.

Lemma rotations_value n table (s : list Z) (k : nat) :
  make_multiplesTable n = Some table → (2 ≤ n)%nat → digits n s →
  length s = len n → (k ≤ len n)%nat →
  rotations n table (value n s) (take k s) = Some (value n (rotate_left k s)).
Proof.
  intros Ht Hn Hd Hl. induction k as [|k IH]; intros Hk.
  - simpl. unfold rotate_left. by rewrite drop_0, take_0, app_nil_r.
  - destruct (lookup_lt_is_Some_2 s k) as [f Hf]; [lia|].
    rewrite (take_S_r _ _ _ Hf), rotations_app, IH by lia. simpl.
    unfold rotate_left. rewrite (drop_S _ _ _ Hf), (take_S_r _ _ _ Hf).
    change ((f :: drop (S k) s) ++ take k s) with (f :: drop (S k) s ++ take k s).
    rewrite (next_rotation_value n table f (drop (S k) s ++ take k s)); try done.
    + simpl. by rewrite <- app_assoc.
    + unfold digits in Hd. rewrite Forall_lookup in Hd. by apply (Hd k).
    + simpl. rewrite length_app, length_drop, length_take. lia.
Qed.

(** C4: the table entry of a step [f] is [f * (n^(2^n) - 1)]; one update of
    the running numeral yields the sequence number of the sequence rotated
    left by one; after [k] updates, reading the steps of [s] in order, the
    running numeral is the sequence number of [s] rotated left by [k]. *)
Theorem incremental_rotation n table (s : list Z) :
  make_multiplesTable n = Some table → (2 ≤ n)%nat → digits n s →
  length s = len n →
  (∀ f, 0 ≤ f < Z.of_nat n →
     table !! Z.to_nat f
     = Some (f * (Z.of_nat n ^ Z.of_nat (2 ^ n) - 1))) ∧
  (∀ f rest N, s = f :: rest → getSequenceNumber n s = Some N →
     next_rotation n table N f = getSequenceNumber n (rest ++ [f])) ∧
  (∀ k N, (k ≤ len n)%nat → getSequenceNumber n s = Some N →
     rotations n table N (take k s) = getSequenceNumber n (rotate_left k s)).
Proof.
  intros Ht Hn Hd Hl. split_and!.
  - intros f Hf. by rewrite (multiplesTable_lookup n).
  - intros f rest N -> HN. rewrite getSequenceNumber_value in HN by done.
    injection HN as <-. inversion Hd; subst.
    rewrite (next_rotation_value n table) by done.
    rewrite getSequenceNumber_value; [done|]. rewrite length_app. simpl in *. lia.
  - intros k N Hk HN. rewrite getSequenceNumber_value in HN by done.
    injection HN as <-. rewrite (rotations_value n table) by done.
    rewrite getSequenceNumber_value; [done|].
    unfold rotate_left. rewrite length_app, length_drop, length_take. lia.
Qed.

Lemma isLower_strictly_lower_witness :
  ∃ nb no,
    getSequenceNumber 2 (log2 <$> [1; 2; 1; 2]) = Some nb ∧
    getSequenceNumber 2 (log2 <$> [2; 1; 2; 1]) = Some no ∧
    isLower 2 [1; 2; 1; 2] [2; 1; 2; 1] = Some (bool_decide (nb < no)) ∧
    isLower 2 [2; 1; 2; 1] [2; 1; 2; 1] = Some false.
Proof.
  apply (isLower_strictly_lower 2 [1; 2; 1; 2] [2; 1; 2; 1]);
    try reflexivity;
    repeat (apply Forall_cons_2;
            [first [exists 0%nat; split; [lia | reflexivity]
                   |exists 1%nat; split; [lia | reflexivity]]|]);
    apply Forall_nil_2.
Defined.

Lemma incremental_rotation_witness :
  (∀ f, 0 ≤ f < Z.of_nat 2 →
     [0; 15] !! Z.to_nat f = Some (f * (Z.of_nat 2 ^ Z.of_nat (2 ^ 2) - 1))) ∧
  (∀ f rest N, [0; 1; 0; 1] = f :: rest →
     getSequenceNumber 2 [0; 1; 0; 1] = Some N →
     next_rotation 2 [0; 15] N f = getSequenceNumber 2 (rest ++ [f])) ∧
  (∀ k N, (k ≤ len 2)%nat → getSequenceNumber 2 [0; 1; 0; 1] = Some N →
     rotations 2 [0; 15] N (take k [0; 1; 0; 1])
     = getSequenceNumber 2 (rotate_left k [0; 1; 0; 1])).
Proof.
  apply (incremental_rotation 2 [0; 15] [0; 1; 0; 1]);
    [reflexivity | lia | repeat constructor; lia | reflexivity].
Defined.

(** ** The skeleton sequence *)

(** C6 (as the code has it): for four digits the skeleton, read in digit
    form, is 0,1,0,2,0,1,0,3,0,1,0,2,0,1,0,3. *)
Theorem lowest_4_digit_form :
  (digit_form <$> make_lowest 4)
  = Some [0; 1; 0; 2; 0; 1; 0; 3; 0; 1; 0; 2; 0; 1; 0; 3].
Proof. reflexivity. Qed.

Lemma lowest_4_is_not_the_literal_of_the_spec :
  (digit_form <$> make_lowest 4)
  ≠ Some [0; 1; 0; 2; 0; 1; 0; 3; 0; 1; 0; 2; 0; 1; 0; 2].
Proof. rewrite lowest_4_digit_form. discriminate. Qed.

(** ** The outputs of [main] for four digits *)

Lemma search_run_mono n lowest ts limit fuel : ∀ l st r fuel',
  search_run n lowest ts fuel limit l st = Some r → (fuel ≤ fuel')%nat →
  search_run n lowest ts fuel' limit l st = Some r.
Proof.
  induction fuel as [|fuel IH]; intros l st r fuel' H Hle.
  - destruct l; simpl in H; try done. by destruct fuel'.
  - destruct fuel' as [|fuel']; [lia|].
    destruct l; cbn [search_run] in *; try done;
      (destruct (search_step n lowest ts limit _ st) as [[l' st']|];
       cbn [mbind option_bind] in *; [apply IH; [done|lia]|done]).
Qed.

Lemma calculateCodesWithSetStart_mono n lowest ts fuel fuel' r :
  calculateCodesWithSetStart n lowest ts fuel = Some r → (fuel ≤ fuel')%nat →
  calculateCodesWithSetStart n lowest ts fuel' = Some r.
Proof.
  unfold calculateCodesWithSetStart. intros H Hle.
  destruct (limitStepValue ts) as [limit|]; simpl in *; [|done].
  destruct (initial_state n lowest ts) as [st|]; simpl in *; [|done].
  destruct (search_run n lowest ts fuel limit AtOuterLoop st) as [st'|] eqn:E;
    simpl in *; [|done].
  by rewrite (search_run_mono _ _ _ _ _ _ _ _ fuel' E Hle).
Qed.

Lemma mapM_mono {A B} (f g : A → option B) (l : list A) r :
  (∀ x y, f x = Some y → g x = Some y) → mapM f l = Some r → mapM g l = Some r.
Proof.
  intros Hfg. revert r. induction l as [|x l IH]; intros r H; simpl in *; [done|].
  destruct (f x) as [y|] eqn:E; simpl in *; [|done].
  rewrite (Hfg _ _ E). simpl.
  destruct (mapM f l) as [ys|]; simpl in *; [|done].
  by rewrite (IH ys eq_refl).
Qed.

Lemma search_all_mono n fuel fuel' r :
  search_all n fuel = Some r → (fuel ≤ fuel')%nat → search_all n fuel' = Some r.
Proof.
  unfold search_all. intros H Hle.
  destruct (make_lowest n) as [lowest|]; cbn [mbind option_bind] in *; [|done].
  destruct (make_reduced_queue n 3) as [q3|]; cbn [mbind option_bind] in *; [|done].
  destruct (make_reduced_queue n 4) as [q4|]; cbn [mbind option_bind] in *; [|done].
  eapply mapM_mono; [|exact H]. intros ts y Hy.
  by apply (calculateCodesWithSetStart_mono _ _ _ fuel).
Qed.

Lemma main_mono n fuel fuel' r :
  main n fuel = Some r → (fuel ≤ fuel')%nat → main n fuel' = Some r.
Proof.
  unfold main. intros H Hle.
  destruct (make_queue n) as [queue|]; cbn [mbind option_bind] in *; [|done].
  destruct (make_multiplesTable n) as [mt|]; cbn [mbind option_bind] in *; [|done].
  destruct (search_all n fuel) as [found|] eqn:E; cbn [mbind option_bind] in *; [|done].
  by rewrite (search_all_mono _ _ fuel' _ E Hle).
Qed.

Lemma main_4_at_4000 : main 4 4000 = Some (11, 2688).
Proof. vm_compute. reflexivity. Qed.

(** C1 (as the code has it): compiled with [NUM_DIGITS = 4] the program finds
    11 canonical seeds in total and counts 2688 cyclic Gray codes. *)
Theorem main_4_outputs (fuel : nat) :
  (4000 ≤ fuel)%nat → main 4 fuel = Some (11, 2688).
Proof. intros H. exact (main_mono 4 4000 fuel _ main_4_at_4000 H). Qed.

Lemma main_4_outputs_witness : main 4 4500 = Some (11, 2688).
Proof. apply main_4_outputs. lia. Defined.

Lemma main_4_not_2_18 : ¬ ∃ fuel, main 4 fuel = Some (2, 18).
Proof.
  intros [fuel H].
  pose proof (main_mono 4 fuel (fuel + 4000) _ H ltac:(lia)) as H1.
  rewrite main_4_outputs in H1 by lia. discriminate.
Qed.

(** ** The table of arbitrary-precision integers *)

Lemma probe_at_0 M i0 s : (i0 < M)%nat → probe_at M i0 s 0 = i0.
Proof. intros. unfold probe_at. rewrite Nat.add_0_r. by apply Nat.mod_small. Qed.

Lemma probe_at_S M i0 s j :
  (0 < M)%nat → probe_at M ((i0 + s) mod M) s j = probe_at M i0 s (S j).
Proof.
  intros HM. unfold probe_at.
  rewrite Nat.Div0.add_mod_idemp_l. f_equal. lia.
Qed.

Lemma probe_at_lt M i0 s j : (0 < M)%nat → (probe_at M i0 s j < M)%nat.
Proof. intros. apply Nat.mod_upper_bound. lia. Qed.

(** With a stride coprime to the number of buckets every bucket is probed. *)
Lemma probe_at_surjective (M i0 s b : nat) :
  (0 < M)%nat → Z.gcd (Z.of_nat s) (Z.of_nat M) = 1 → (b < M)%nat →
  ∃ j, (j < M)%nat ∧ probe_at M i0 s j = b.
Proof.
  intros HM Hg Hb.
  destruct (Z.gcd_bezout (Z.of_nat s) (Z.of_nat M) 1 Hg) as (u & v & Huv).
  set (j := ((Z.of_nat b - Z.of_nat i0) * u) mod Z.of_nat M).
  assert (0 ≤ j < Z.of_nat M) as Hj by (apply Z.mod_pos_bound; lia).
  exists (Z.to_nat j). split; [lia|].
  unfold probe_at. apply Nat2Z.inj.
  rewrite Nat2Z.inj_mod, Nat2Z.inj_add, Nat2Z.inj_mul, Z2Nat.id by lia.
  unfold j. rewrite <- Zplus_mod_idemp_r, Zmult_mod_idemp_l, Zplus_mod_idemp_r.
  replace (Z.of_nat i0 + (Z.of_nat b - Z.of_nat i0) * u * Z.of_nat s)
    with (Z.of_nat b + (Z.of_nat i0 - Z.of_nat b) * v * Z.of_nat M) by nia.
  rewrite Z_mod_plus_full. apply Z.mod_small. lia.
Qed.

Lemma first_or_none (P : nat → Prop) `{∀ j, Decision (P j)} (m : nat) :
  (∃ j0, (j0 < m)%nat ∧ P j0 ∧ ∀ i, (i < j0)%nat → ¬ P i) ∨
  (∀ i, (i < m)%nat → ¬ P i).
Proof.
  induction m as [|m [(j0 & ? & ? & ?)|Hno]].
  - right. intros; lia.
  - left. exists j0. split_and!; auto with lia.
  - destruct (decide (P m)) as [HP|HP].
    + left. exists m. split_and!; auto with lia.
    + right. intros i Hi. destruct (decide (i = m)) as [->|]; [done|].
      apply Hno. lia.
Qed.

Lemma first_such (P : nat → Prop) `{∀ j, Decision (P j)} (m : nat) :
  (∃ j, (j < m)%nat ∧ P j) →
  ∃ j0, (j0 < m)%nat ∧ P j0 ∧ ∀ i, (i < j0)%nat → ¬ P i.
Proof.
  intros (j & Hj & HP). destruct (first_or_none P m) as [?|Hno]; [done|].
  by destruct (Hno j Hj).
Qed.

Section GMPProbing.

Variable M : nat.
Hypothesis HM : (0 < M)%nat.

Variable table : GMPHashTable.
Hypothesis Hsize : GMP_size table = M.
Hypothesis Hocc : length (GMP_occupied table) = M.
Hypothesis Hnodes : length (GMP_nodes table) = M.

Lemma occupied_bool p :
  (p < M)%nat → GMP_occupied table !! p ≠ Some false →
  GMP_occupied table !! p = Some true.
Proof using All.
  intros Hp Hn. destruct (lookup_lt_is_Some_2 (GMP_occupied table) p) as [[] E];
    [lia|done|done].
Qed.

Lemma GMPHashInsert_probe_first fuel : ∀ (s idx j : nat),
  (idx < M)%nat → (j < fuel)%nat →
  (∀ i, (i < j)%nat → GMP_occupied table !! probe_at M idx s i = Some true) →
  GMP_occupied table !! probe_at M idx s j = Some false →
  GMPHashInsert_probe fuel table s idx = Some (probe_at M idx s j).
Proof using All.
  induction fuel as [|fuel IH]; intros s idx j Hidx Hj Hbefore Hfree; [lia|].
  simpl. destruct j as [|j].
  - rewrite probe_at_0 in * by done. by rewrite Hfree.
  - pose proof (Hbefore 0%nat ltac:(lia)) as H0. rewrite probe_at_0 in H0 by done.
    rewrite H0. simpl. rewrite Hsize.
    rewrite (IH s _ j); [by rewrite probe_at_S| |lia| |].
    + apply Nat.mod_upper_bound. lia.
    + intros i Hi. rewrite probe_at_S by done. apply Hbefore. lia.
    + by rewrite probe_at_S.
Qed.

Lemma GMPHashContains_probe_first fuel key : ∀ (s idx j : nat),
  (idx < M)%nat → (j < fuel)%nat →
  (∀ i, (i < j)%nat →
     GMP_occupied table !! probe_at M idx s i = Some true ∧
     GMP_nodes table !! probe_at M idx s i ≠ Some key) →
  (GMP_occupied table !! probe_at M idx s j = Some false ∨
   GMP_nodes table !! probe_at M idx s j = Some key) →
  GMPHashContains_probe fuel table key s idx
  = GMP_occupied table !! probe_at M idx s j.
Proof using All.
  induction fuel as [|fuel IH]; intros s idx j Hidx Hj Hbefore Hstop; [lia|].
  simpl. destruct j as [|j].
  - rewrite probe_at_0 in * by done.
    destruct (lookup_lt_is_Some_2 (GMP_occupied table) idx) as [o Ho]; [lia|].
    rewrite Ho. simpl. destruct o; [|done].
    destruct Hstop as [?|Hk]; [congruence|]. rewrite Hk. simpl. by rewrite Z.eqb_refl.
  - destruct (Hbefore 0%nat ltac:(lia)) as [H0 H0']. rewrite probe_at_0 in H0, H0' by done.
    rewrite H0. simpl.
    destruct (lookup_lt_is_Some_2 (GMP_nodes table) idx) as [k Hk]; [lia|].
    rewrite Hk. simpl. destruct (Z.eqb_spec k key) as [->|Hne]; [done|].
    rewrite Hsize.
    rewrite (IH s _ j); [by rewrite probe_at_S| |lia| |].
    + apply Nat.mod_upper_bound. lia.
    + intros i Hi. rewrite !probe_at_S by done. apply Hbefore. lia.
    + by rewrite !probe_at_S.
Qed.

End GMPProbing.

Section GMPTable.

Variable n : nat.
Variable M : nat.
Hypothesis Hn : (2 ≤ n)%nat.
Hypothesis HM : (0 < M)%nat.
Hypothesis Hcoprime :
  ∀ s : nat, (1 ≤ s ≤ n - 1)%nat → Z.gcd (Z.of_nat s) (Z.of_nat M) = 1.

Lemma GMPhash1_eq key : GMPhash1 key M = Some (hash1 M key).
Proof using All.
  unfold GMPhash1, mpz_fdiv_ui, hash1.
  destruct (Z.eqb_spec (Z.of_nat M) 0); [lia|done].
Qed.

Lemma GMPhash2_eq key : GMPhash2 n key = Some (hash2 n key).
Proof using All.
  unfold GMPhash2, mpz_fdiv_ui, hash2.
  destruct (Z.eqb_spec (Z.of_nat n - 1) 0); [lia|done].
Qed.

Lemma hash1_lt key : (hash1 M key < M)%nat.
Proof using All.
  unfold hash1. pose proof (Z.mod_pos_bound key (Z.of_nat M)). lia.
Qed.

Lemma hash2_range key : (1 ≤ hash2 n key ≤ n - 1)%nat.
Proof using All.
  unfold hash2. pose proof (Z.mod_pos_bound key (Z.of_nat n - 1)). lia.
Qed.

Lemma probe_lt key j : (probe n M key j < M)%nat.
Proof using All. by apply probe_at_lt. Qed.

Lemma probe_surjective key b :
  (b < M)%nat → ∃ j, (j < M)%nat ∧ probe n M key j = b.
Proof using All.
  intros Hb. apply probe_at_surjective; [done| |done].
  apply Hcoprime, hash2_range.
Qed.

Section WithTable.

Variable table : GMPHashTable.
Hypothesis Hsize : GMP_size table = M.
Hypothesis Hocc : length (GMP_occupied table) = M.
Hypothesis Hnodes : length (GMP_nodes table) = M.

(** The first probe for [key] that finds a free bucket. *)
Lemma first_free key :
  (∃ b, GMP_occupied table !! b = Some false) →
  ∃ j, (j < M)%nat ∧
       GMP_occupied table !! probe n M key j = Some false ∧
       ∀ i, (i < j)%nat → GMP_occupied table !! probe n M key i = Some true.
Proof using All.
  intros [b Hb].
  assert (b < M)%nat as Hlt by (apply lookup_lt_Some in Hb; lia).
  destruct (probe_surjective key b Hlt) as (j & Hj & Hpj).
  destruct (first_such
              (λ i, GMP_occupied table !! probe n M key i = Some false) M)
    as (j0 & Hj0 & Hfree & Hbefore).
  { exists j. by rewrite Hpj. }
  exists j0. split_and!; [done..|]. intros i Hi.
  apply (occupied_bool M HM table Hsize Hocc Hnodes); [by apply probe_at_lt|]. by apply Hbefore.
Qed.

(** The first probe for [key] that finds a free bucket or the key. *)
Lemma first_stop key :
  (∃ b, GMP_occupied table !! b = Some false) →
  ∃ j, (j < M)%nat ∧
       (GMP_occupied table !! probe n M key j = Some false ∨
        GMP_nodes table !! probe n M key j = Some key) ∧
       ∀ i, (i < j)%nat →
         GMP_occupied table !! probe n M key i = Some true ∧
         GMP_nodes table !! probe n M key i ≠ Some key.
Proof using All.
  intros Hb. destruct (first_free key Hb) as (j & Hj & Hfree & _).
  destruct (first_such
              (λ i, GMP_occupied table !! probe n M key i = Some false ∨
                    GMP_nodes table !! probe n M key i = Some key) M)
    as (j0 & Hj0 & Hstop & Hbefore).
  { exists j. auto. }
  exists j0. split_and!; [done..|]. intros i Hi.
  specialize (Hbefore i Hi). split.
  - apply (occupied_bool M HM table Hsize Hocc Hnodes); [by apply probe_at_lt|]. tauto.
  - tauto.
Qed.

Lemma GMPHashInsert_index fuel key j :
  (j < fuel)%nat →
  GMP_occupied table !! probe n M key j = Some false →
  (∀ i, (i < j)%nat → GMP_occupied table !! probe n M key i = Some true) →
  GMPHashInsert n fuel table key
  = Some {| GMP_nodes := <[probe n M key j := key]> (GMP_nodes table);
            GMP_occupied := <[probe n M key j := true]> (GMP_occupied table);
            GMP_size := GMP_size table;
            GMP_count := wrap64 (GMP_count table + 1) |}.
Proof using All.
  intros Hj Hfree Hbefore. unfold GMPHashInsert.
  rewrite Hsize, GMPhash1_eq. cbn [mbind option_bind].
  assert ((if j is O then Some (hash1 M key)
           else GMPHashInsert_probe fuel table (hash2 n key) (hash1 M key))
          = Some (probe n M key j)) as Hidx.
  { destruct j as [|j].
    - unfold probe. by rewrite probe_at_0 by apply hash1_lt.
    - by apply (GMPHashInsert_probe_first M HM table Hsize Hocc Hnodes);
        [apply hash1_lt|lia|..]. }
  destruct j as [|j].
  - unfold probe in *. rewrite probe_at_0 in * by apply hash1_lt.
    rewrite Hfree. cbn [mbind option_bind].
    rewrite !wr_Some by (pose proof (hash1_lt key); lia). done.
  - pose proof (Hbefore 0%nat ltac:(lia)) as H0.
    unfold probe in H0. rewrite probe_at_0 in H0 by apply hash1_lt.
    rewrite H0. cbn [mbind option_bind]. rewrite GMPhash2_eq.
    cbn [mbind option_bind]. rewrite Hidx. cbn [mbind option_bind].
    rewrite !wr_Some by (pose proof (probe_lt key (S j)); lia). done.
Qed.

Lemma GMPHashContains_stop fuel key j :
  (j ≤ fuel)%nat →
  (GMP_occupied table !! probe n M key j = Some false ∨
   GMP_nodes table !! probe n M key j = Some key) →
  (∀ i, (i < j)%nat →
     GMP_occupied table !! probe n M key i = Some true ∧
     GMP_nodes table !! probe n M key i ≠ Some key) →
  GMPHashContains n fuel table key = GMP_occupied table !! probe n M key j.
Proof using All.
  intros Hj Hstop Hbefore.
  unfold probe in *.
  rewrite <- (GMPHashContains_probe_first M HM table Hsize Hocc Hnodes
                (S fuel) key (hash2 n key) (hash1 M key) j);
    [|apply hash1_lt|lia|done|done].
  unfold GMPHashContains. rewrite Hsize, GMPhash1_eq. cbn.
  destruct (GMP_occupied table !! hash1 M key) as [[]|]; cbn; [|done..].
  destruct (GMP_nodes table !! hash1 M key) as [k|]; cbn; [|done].
  destruct (k =? key); [done|]. by rewrite GMPhash2_eq, Hsize.
Qed.

End WithTable.

End GMPTable.

Lemma factZ_pos n : 0 < factZ n.
Proof. induction n; simpl factZ; lia. Qed.

Lemma factZ_mono n m : (n ≤ m)%nat → factZ n ≤ factZ m.
Proof.
  induction 1 as [|m Hle IH]; [lia|]. pose proof (factZ_pos m).
  simpl factZ. nia.
Qed.

Lemma factZ_20 n : (n ≤ 20)%nat → factZ n * 2 + 1 < 2 ^ 64.
Proof.
  intros H. pose proof (factZ_mono n 20 H) as Hle.
  assert (factZ 20 = 2432902008176640000) as E by (vm_compute; reflexivity).
  lia.
Qed.

Lemma factorial_loop_spec i : ∀ acc,
  0 ≤ acc → acc * factZ i < 2 ^ 64 → factorial_loop i acc = acc * factZ i.
Proof.
  induction i as [|i IH]; intros acc Hacc Hlt; simpl factorial_loop.
  - simpl. lia.
  - pose proof (factZ_pos i). change (factZ (S i)) with (Z.of_nat (S i) * factZ i) in *.
    destruct (Nat.ltb_spec 1 (S i)).
    + assert (wrap64 (acc * Z.of_nat (S i)) = acc * Z.of_nat (S i)) as ->.
      { unfold wrap64. apply Z.mod_small. nia. }
      rewrite IH; [lia|lia|nia].
    + assert (i = 0%nat) as -> by lia. simpl. lia.
Qed.

Lemma make_queueSize_spec n : (n ≤ 20)%nat → make_queueSize n = factZ n.
Proof.
  intros H. unfold make_queueSize. pose proof (factZ_20 n H).
  pose proof (factZ_pos n). rewrite factorial_loop_spec; lia.
Qed.

Lemma divides_factZ (s n : nat) : (1 ≤ s ≤ n)%nat → (Z.of_nat s | factZ n).
Proof.
  induction n as [|n IH]; intros Hs; [lia|].
  change (factZ (S n)) with (Z.of_nat (S n) * factZ n).
  destruct (decide (s = S n)) as [->|].
  - by apply Z.divide_mul_l.
  - apply Z.divide_mul_r, IH. lia.
Qed.

Lemma capacity_coprime (s n : nat) :
  (1 ≤ s ≤ n)%nat →
  (2 * factZ n + 1) mod Z.of_nat s = 1 mod Z.of_nat s ∧
  Z.gcd (Z.of_nat s) (2 * factZ n + 1) = 1.
Proof.
  intros Hs. destruct (divides_factZ s n Hs) as [q Hq]. split.
  - rewrite Hq. replace (2 * (q * Z.of_nat s) + 1) with (1 + 2 * q * Z.of_nat s) by lia.
    apply Z_mod_plus_full.
  - apply Z.bezout_1_gcd. exists (- 2 * q), 1. lia.
Qed.

Lemma capacity_spec n :
  (n ≤ 20)%nat →
  Z.of_nat (Z.to_nat (wrap64 (make_queueSize n * 2 + 1))) = 2 * factZ n + 1.
Proof.
  intros H. rewrite make_queueSize_spec by done.
  pose proof (factZ_20 n H). pose proof (factZ_pos n).
  unfold wrap64. rewrite Z.mod_small by lia. lia.
Qed.

(** C10: the stride [GMPhash2] is between 1 and [NUM_DIGITS - 1]; the capacity
    [2 * n! + 1] of the table of [extrapolateSeeds] is congruent to 1 modulo
    every such stride and coprime to it; the probes for a key reach every
    bucket; [GMPHashInsert] and [GMPHashContains] return whenever the table
    has a free bucket. *)
Theorem GMP_probing_terminates (n : nat) (key : Z) :
  (2 ≤ n ≤ 20)%nat →
  let M := Z.to_nat (wrap64 (make_queueSize n * 2 + 1)) in
  Z.of_nat M = 2 * factZ n + 1 ∧
  (∃ s, GMPhash2 n key = Some s ∧ (1 ≤ s ≤ n - 1)%nat) ∧
  (∀ s : nat, (1 ≤ s ≤ n - 1)%nat →
     Z.of_nat M mod Z.of_nat s = 1 mod Z.of_nat s ∧
     Z.gcd (Z.of_nat s) (Z.of_nat M) = 1) ∧
  (∀ b, (b < M)%nat → ∃ j, (j < M)%nat ∧ probe n M key j = b) ∧
  (∀ table fuel,
     GMP_size table = M → length (GMP_occupied table) = M →
     length (GMP_nodes table) = M → (M ≤ fuel)%nat →
     (∃ b, GMP_occupied table !! b = Some false) →
     is_Some (GMPHashInsert n fuel table key) ∧
     is_Some (GMPHashContains n fuel table key)).
Proof.
  intros [Hn2 Hn20] M.
  assert (Z.of_nat M = 2 * factZ n + 1) as HMeq by (by apply capacity_spec).
  assert (0 < M)%nat as HM by (pose proof (factZ_pos n); lia).
  assert (∀ s : nat, (1 ≤ s ≤ n - 1)%nat →
            Z.gcd (Z.of_nat s) (Z.of_nat M) = 1) as Hcop.
  { intros s Hs. rewrite HMeq. apply capacity_coprime. lia. }
  split_and!.
  - done.
  - exists (hash2 n key).
    split; [apply (GMPhash2_eq n M Hn2 HM Hcop)|apply (hash2_range n M Hn2 HM Hcop)].
  - intros s Hs. rewrite HMeq. apply capacity_coprime. lia.
  - intros b Hb. by apply (probe_surjective n M Hn2 HM Hcop).
  - intros table fuel Hsize Hocc Hnodes Hfuel Hfree. split.
    + destruct (first_free n M Hn2 HM Hcop table Hsize Hocc Hnodes key Hfree)
        as (j & Hj & Hjfree & Hbefore).
      rewrite (GMPHashInsert_index n M Hn2 HM Hcop table Hsize Hocc Hnodes
                 fuel key j); [done|lia|done|done].
    + destruct (first_stop n M Hn2 HM Hcop table Hsize Hocc Hnodes key Hfree)
        as (j & Hj & Hstop & Hbefore).
      rewrite (GMPHashContains_stop n M Hn2 HM Hcop table Hsize Hocc Hnodes
                 fuel key j); [|lia|done|done].
      apply lookup_lt_is_Some_2. pose proof (probe_lt n M Hn2 HM Hcop key j). lia.
Qed.

Lemma filter_replicate_false (m : nat) :
  length (filter (λ o, o = true) (replicate m false)) = 0%nat.
Proof.
  induction m as [|m IH]; [done|].
  cbn [replicate]. by rewrite filter_cons_False.
Qed.

Lemma exists_not_filtered (l : list bool) :
  (length (filter (λ o, o = true) l) < length l)%nat →
  ∃ b, l !! b = Some false.
Proof.
  induction l as [|[] l IH]; intros H.
  - simpl in H. lia.
  - rewrite filter_cons_True in H by done. simpl in H.
    destruct IH as [b Hb]; [lia|]. by exists (S b).
  - by exists 0%nat.
Qed.

Lemma filter_insert_true (l : list bool) (p : nat) :
  l !! p = Some false →
  length (filter (λ o, o = true) (<[p:=true]> l))
  = S (length (filter (λ o, o = true) l)).
Proof.
  revert p. induction l as [|o l IH]; intros [|p] H; try done.
  - injection H as ->. cbn [list_insert insert].
    rewrite filter_cons_True by done.
    rewrite (filter_cons_False _ false) by done. done.
  - cbn [list_insert insert]. cbn in H. destruct o.
    + rewrite !filter_cons_True by done. simpl. by rewrite IH.
    + rewrite !filter_cons_False by done. by rewrite IH.
Qed.

Section GMPTableInv.

Variable n : nat.
Variable M : nat.
Hypothesis Hn : (2 ≤ n)%nat.
Hypothesis HM : (0 < M)%nat.
Hypothesis HM64 : Z.of_nat M < 2 ^ 64.
Hypothesis Hcoprime :
  ∀ s : nat, (1 ≤ s ≤ n - 1)%nat → Z.gcd (Z.of_nat s) (Z.of_nat M) = 1.

Lemma TableInv_empty table :
  GMP_size table = M → length (GMP_nodes table) = M →
  TableInv n M (emptyGMPTable table) [].
Proof using All.
  intros Hsize Hnodes. split; simpl; try done.
  - by rewrite Hsize, length_replicate.
  - apply filter_replicate_false.
  - intros p Hp. apply lookup_replicate in Hp. by destruct Hp.
  - intros k Hk. by apply elem_of_nil in Hk.
Qed.

Lemma TableInv_free table keys :
  TableInv n M table keys → ∃ b, GMP_occupied table !! b = Some false.
Proof using All.
  intros [? Ho ? ? Hroom Hfilled ? ?]. apply exists_not_filtered. lia.
Qed.

Lemma GMPHashContains_spec table keys key fuel :
  TableInv n M table keys → (M ≤ fuel)%nat →
  GMPHashContains n fuel table key = Some (bool_decide (key ∈ keys)).
Proof using All.
  intros Hinv Hfuel. pose proof (TableInv_free table keys Hinv) as Hfree.
  destruct Hinv as [Hsize Hocc Hnodes Hcount Hroom Hfilled Hsound Hcomplete].
  destruct (first_stop n M Hn HM Hcoprime table Hsize Hocc Hnodes key Hfree)
    as (j & Hj & Hstop & Hbefore).
  rewrite (GMPHashContains_stop n M Hn HM Hcoprime table Hsize Hocc Hnodes
             fuel key j) by (done || lia).
  destruct (decide (key ∈ keys)) as [Hin|Hnot].
  - rewrite bool_decide_eq_true_2 by done.
    destruct (Hcomplete key Hin) as (jk & Hjk & Hok & Hnk & Hbk).
    destruct (decide (j ≤ jk)%nat) as [Hle|Hgt].
    + destruct (decide (j = jk)) as [->|]; [done|]. apply Hbk. lia.
    + destruct (Hbefore jk ltac:(lia)) as [_ Hne]. done.
  - rewrite bool_decide_eq_false_2 by done.
    destruct Hstop as [Hf|Hk]; [done|].
    destruct (GMP_occupied table !! probe n M key j) as [[]|] eqn:E; [|done|].
    + destruct (Hsound _ E) as (k & Hkin & Hk'). congruence.
    + apply lookup_ge_None in E.
      pose proof (probe_lt n M Hn HM Hcoprime key j). lia.
Qed.

Lemma GMPHashInsert_spec table keys key fuel :
  TableInv n M table keys → (M ≤ fuel)%nat → key ∉ keys →
  (S (length keys) < M)%nat →
  ∃ table', GMPHashInsert n fuel table key = Some table' ∧
            TableInv n M table' (key :: keys).
Proof using All.
  intros Hinv Hfuel Hnot Hroom'.
  pose proof (TableInv_free table keys Hinv) as Hfree.
  destruct Hinv as [Hsize Hocc Hnodes Hcount Hroom Hfilled Hsound Hcomplete].
  destruct (first_free n M Hn HM Hcoprime table Hsize Hocc Hnodes key Hfree)
    as (j & Hj & Hjfree & Hbefore).
  rewrite (GMPHashInsert_index n M Hn HM Hcoprime table Hsize Hocc Hnodes
             fuel key j) by (done || lia).
  eexists. split; [done|].
  pose proof (probe_lt n M Hn HM Hcoprime key j) as Hp.
  split; simpl.
  - done.
  - by rewrite length_insert.
  - by rewrite length_insert.
  - rewrite Hcount. unfold wrap64. rewrite Z.mod_small by lia. lia.
  - done.
  - by rewrite filter_insert_true, Hfilled.
  - intros p Hpocc. destruct (decide (p = probe n M key j)) as [->|Hne].
    + exists key. split; [apply elem_of_cons; by left|].
      apply list_lookup_insert_eq. lia.
    + rewrite list_lookup_insert_ne in Hpocc by done.
      destruct (Hsound p Hpocc) as (k & Hk & Hnk).
      exists k. split; [apply elem_of_cons; by right|].
      by rewrite list_lookup_insert_ne.
  - intros k Hk. apply elem_of_cons in Hk as [->|Hk].
    + exists j. split_and!; [done|..].
      * apply list_lookup_insert_eq. lia.
      * apply list_lookup_insert_eq. lia.
      * intros i Hi.
        destruct (decide (probe n M key j = probe n M key i)) as [E|E].
        -- rewrite E. apply list_lookup_insert_eq.
           pose proof (probe_lt n M Hn HM Hcoprime key i). lia.
        -- rewrite list_lookup_insert_ne by done. by apply Hbefore.
    + destruct (Hcomplete k Hk) as (jk & Hjk & Hok & Hnk & Hbk).
      assert (probe n M key j ≠ probe n M k jk) as Hne by congruence.
      exists jk. split_and!; [done|..].
      * by rewrite list_lookup_insert_ne.
      * by rewrite list_lookup_insert_ne.
      * intros i Hi.
        destruct (decide (probe n M key j = probe n M k i)) as [E|E].
        -- rewrite E. apply list_lookup_insert_eq.
           pose proof (probe_lt n M Hn HM Hcoprime k i). lia.
        -- rewrite list_lookup_insert_ne by done. by apply Hbk.
Qed.

End GMPTableInv.

Lemma GMP_probing_terminates_witness :
  let M := Z.to_nat (wrap64 (make_queueSize 4 * 2 + 1)) in
  Z.of_nat M = 2 * factZ 4 + 1 ∧
  (∃ s, GMPhash2 4 7 = Some s ∧ (1 ≤ s ≤ 4 - 1)%nat) ∧
  (∀ s : nat, (1 ≤ s ≤ 4 - 1)%nat →
     Z.of_nat M mod Z.of_nat s = 1 mod Z.of_nat s ∧
     Z.gcd (Z.of_nat s) (Z.of_nat M) = 1) ∧
  (∀ b, (b < M)%nat → ∃ j, (j < M)%nat ∧ probe 4 M 7 j = b) ∧
  (∀ table fuel,
     GMP_size table = M → length (GMP_occupied table) = M →
     length (GMP_nodes table) = M → (M ≤ fuel)%nat →
     (∃ b, GMP_occupied table !! b = Some false) →
     is_Some (GMPHashInsert 4 fuel table 7) ∧
     is_Some (GMPHashContains 4 fuel table 7)).
Proof. apply (GMP_probing_terminates 4 7). lia. Defined.

(** ** The permutation queue *)

Lemma overwrite_length {A} (q : list A) i l :
  (i + length l ≤ length q)%nat → length (overwrite q i l) = length q.
Proof.
  intros H. unfold overwrite. rewrite !length_app, length_take, length_drop.
  rewrite Nat.min_l by lia. lia.
Qed.

Lemma overwrite_nil {A} (q : list A) i : overwrite q i [] = q.
Proof. unfold overwrite. simpl. rewrite Nat.add_0_r. apply take_drop. Qed.

Lemma wr_overwrite {A} (q : list A) i x :
  (i < length q)%nat → wr q i x = Some (overwrite q i [x]).
Proof.
  intros H. unfold wr, overwrite. rewrite (proj2 (Nat.ltb_lt _ _) H). f_equal.
  simpl. rewrite insert_take_drop by done.
  by replace (i + 1)%nat with (S i) by lia.
Qed.

Lemma overwrite_app {A} (q : list A) i l1 l2 :
  (i + length l1 + length l2 ≤ length q)%nat →
  overwrite (overwrite q i l1) (i + length l1) l2 = overwrite q i (l1 ++ l2).
Proof.
  intros H. unfold overwrite.
  rewrite take_app_ge by (rewrite length_take; lia).
  rewrite length_take, Nat.min_l by lia.
  rewrite take_app_ge by lia.
  replace (i + length l1 - i - length l1)%nat with 0%nat by lia.
  rewrite take_0, app_nil_r.
  rewrite drop_app_ge by (rewrite length_take; lia).
  rewrite length_take, Nat.min_l by lia.
  rewrite drop_app_ge by lia.
  rewrite drop_drop, length_app, <- !app_assoc.
  by replace (i + length l1 + (i + length l1 + length l2 - i - length l1))%nat
    with (i + (length l1 + length l2))%nat by lia.
Qed.

Section QueueRefinement.

Variable conv : Z → Z.

(** The [for] loop writes the blocks above the last one. *)
Lemma addQueueSwaps_for_spec
    (recurse : nat → list (Z * Z) → list Z → option (nat * list (Z * Z)))
    (pure : list Z → list (Z * Z)) (m c : nat) (ind : list Z) :
  (∀ rec, length rec = m → length (pure rec) = c) →
  (∀ cur queue rec, length rec = m → (cur + c ≤ length queue)%nat →
     recurse cur queue rec = Some (c, overwrite queue cur (pure rec))) →
  ∀ i cur queue rec,
    (i ≤ m)%nat → (m < length ind)%nat → length rec = m →
    (cur + (i * S c + c) ≤ length queue)%nat →
    length (swap_blocks conv pure ind i rec) = (i * S c + c)%nat ∧
    ∃ st,
      addQueueSwaps_for conv recurse ind i cur queue rec = Some st ∧
      length st.2 = m ∧
      (st.1.1 + c ≤ length st.1.2)%nat ∧
      (st.1.1 + c = cur + (i * S c + c))%nat ∧
      overwrite st.1.2 st.1.1 (pure st.2)
      = overwrite queue cur (swap_blocks conv pure ind i rec).
Proof.
  intros Hlen Hrec. induction i as [|i IH]; intros cur queue rec Hi Hm Hl Hroom.
  - simpl. split; [rewrite Hlen by done; lia|].
    eexists. split; [done|]. simpl. split_and!; try done; lia.
  - cbn [addQueueSwaps_for swap_blocks].
    assert (S i * S c = S c + i * S c)%nat as E by (simpl; lia).
    rewrite E in *. generalize dependent (i * S c)%nat. intros X IH Hroom E.
    rewrite Hrec by (done || lia).
    cbn [mbind option_bind fst snd].
    destruct (lookup_lt_is_Some_2 ind (S i)) as [a Ha]; [lia|].
    destruct (lookup_lt_is_Some_2 ind i) as [b Hb]; [lia|].
    rewrite Ha, Hb. cbn [mbind option_bind].
    rewrite (nth_lookup_Some _ _ _ _ Ha), (nth_lookup_Some _ _ _ _ Hb).
    rewrite (wr_overwrite (overwrite queue cur (pure rec)))
      by (rewrite overwrite_length; rewrite ?Hlen; (done || lia)).
    cbn [mbind option_bind].
    rewrite wr_Some by lia. cbn [mbind option_bind].
    replace (cur + c)%nat with (cur + length (pure rec))%nat
      by (by rewrite Hlen).
    rewrite overwrite_app by (simpl length; rewrite Hlen by done; lia).
    destruct (IH (S (cur + length (pure rec)))
                 (overwrite queue cur (pure rec ++ [(conv a, conv b)]))
                 (<[i:=a]> rec))
      as (Hlen' & st & Hst & Hst2 & Hroom' & Hpos & Hover).
    { lia. } { done. } { by rewrite length_insert. }
    { rewrite overwrite_length; rewrite ?length_app, ?Hlen; simpl length;
        (done || lia). }
    split.
    { rewrite length_app, length_cons, Hlen', !Hlen by done. lia. }
    exists st. split; [done|]. split_and!; try done.
    + rewrite (Hlen rec Hl) in Hpos. lia.
    + rewrite Hover.
      replace (S (cur + length (pure rec)))
        with (cur + length (pure rec ++ [(conv a, conv b)]))%nat
        by (rewrite length_app; simpl; lia).
      rewrite overwrite_app.
      * by rewrite <- app_assoc.
      * rewrite length_app, Hlen', Hlen by done. simpl length. lia.
Qed.

End QueueRefinement.


Lemma fact_pred_succ m :
  (fact (S m) - 1 = m * S (fact m - 1) + (fact m - 1))%nat.
Proof.
  pose proof (lt_O_fact m). change (fact (S m)) with (fact m + m * fact m)%nat.
  replace (S (fact m - 1)) with (fact m) by lia. lia.
Qed.

Lemma addQueueSwaps_gen_spec (conv : Z → Z) (n : nat) : ∀ ind,
  length ind = n →
  length (swap_list conv n ind) = (fact n - 1)%nat ∧
  ∀ idx queue, (idx + (fact n - 1) ≤ length queue)%nat →
    addQueueSwaps_gen conv n idx queue ind
    = Some ((fact n - 1)%nat, overwrite queue idx (swap_list conv n ind)).
Proof.
  induction n as [|n IH]; intros ind Hind.
  - split; [done|]. intros idx queue _. simpl. by rewrite overwrite_nil.
  - destruct n as [|[|m]].
    + split; [done|]. intros idx queue _. simpl. by rewrite overwrite_nil.
    + destruct ind as [|a [|b [|]]]; try done.
      split; [done|]. intros idx queue Hroom. simpl in *.
      rewrite wr_overwrite by lia. done.
    + set (n' := S (S m)) in *.
      set (c := (fact n' - 1)%nat).
      assert (∀ rec, length rec = n' → length (swap_list conv n' rec) = c)
        as Hlen by (intros rec Hrec; by apply IH).
      assert (∀ cur queue rec, length rec = n' → (cur + c ≤ length queue)%nat →
                addQueueSwaps_gen conv n' cur queue rec
                = Some (c, overwrite queue cur (swap_list conv n' rec)))
        as Hrec by (intros cur queue rec Hl Hroom; by apply IH).
      pose proof (addQueueSwaps_for_spec conv (addQueueSwaps_gen conv n')
                    (swap_list conv n') n' c ind Hlen Hrec) as Hfor.
      assert (length (take n' ind) = n') as Htake
        by (rewrite length_take; lia).
      rewrite fact_pred_succ. fold c.
      split.
      * change (swap_list conv (S n') ind)
          with (swap_blocks conv (swap_list conv n') ind n' (take n' ind)).
        destruct (Hfor n' 0%nat (replicate (n' * S c + c) (0, 0)) (take n' ind))
          as [Hl _]; [lia|lia|done|rewrite length_replicate; lia|done].
      * intros idx queue Hroom.
        destruct (Hfor n' idx queue (take n' ind))
          as (_ & st & Hst & Hst2 & Hroom' & Hpos & Hover);
          [lia|lia|done|done|].
        change (addQueueSwaps_gen conv (S n') idx queue ind)
          with (if (n' <=? length ind)%nat then
                  st ← addQueueSwaps_for conv (addQueueSwaps_gen conv n') ind n'
                         idx queue (take n' ind);
                  r ← addQueueSwaps_gen conv n' st.1.1 st.1.2 st.2;
                  Some ((st.1.1 + r.1 - idx)%nat, r.2)
                else None).
        rewrite (proj2 (Nat.leb_le _ _)) by lia.
        rewrite Hst. cbn [mbind option_bind].
        rewrite Hrec by done. cbn [mbind option_bind fst snd].
        rewrite Hover. do 2 f_equal. lia.
Qed.


Lemma swap_spec (s : list Z) a b :
  swap s a b (length s) = Some (apply_swap s (a, b)).
Proof.
  induction s as [|x s IH]; [done|]. simpl. by rewrite IH.
Qed.

Lemma visit_app s l1 l2 :
  visit s (l1 ++ l2) = visit s l1 ++ visit (final s l1) l2.
Proof.
  revert s. induction l1 as [|q l1 IH]; intros s; [done|].
  simpl. by rewrite IH.
Qed.

Lemma final_in s sw : final s sw ∈ s :: visit s sw.
Proof.
  revert s. induction sw as [|q sw IH]; intros s; simpl.
  - apply elem_of_cons. by left.
  - apply elem_of_cons. right. apply IH.
Qed.

Lemma swap_one_involutive a b x : swap_one a b (swap_one a b x) = x.
Proof.
  unfold swap_one.
  destruct (Z.eqb_spec x a) as [->|Hxa].
  - destruct (Z.eqb_spec b a) as [->|Hba]; [done|]. by rewrite Z.eqb_refl.
  - destruct (Z.eqb_spec x b) as [->|Hxb].
    + by rewrite Z.eqb_refl.
    + destruct (Z.eqb_spec x a); [done|]. by destruct (Z.eqb_spec x b).
Qed.

Global Instance swap_one_inj a b : Inj (=) (=) (swap_one a b).
Proof.
  intros x y H. by rewrite <- (swap_one_involutive a b x), H, swap_one_involutive.
Qed.

Lemma swap_one_other a b x : x ≠ a → x ≠ b → swap_one a b x = x.
Proof.
  intros Ha Hb. unfold swap_one.
  destruct (Z.eqb_spec x a); [done|]. by destruct (Z.eqb_spec x b).
Qed.

Lemma swap_one_l a b : swap_one a b a = b.
Proof. unfold swap_one. by rewrite Z.eqb_refl. Qed.

Lemma swap_one_cases a b x :
  swap_one a b x = b ∨ swap_one a b x = a ∨ swap_one a b x = x.
Proof.
  unfold swap_one. destruct (x =? a); [auto|]. destruct (x =? b); auto.
Qed.

Lemma apply_swap_perm (w : list Z) a b :
  NoDup w → a ∈ w → b ∈ w → apply_swap w (a, b) ≡ₚ w.
Proof.
  intros Hnd Ha Hb. apply NoDup_Permutation; [|done|].
  - unfold apply_swap. apply NoDup_fmap_2; [apply _|done].
  - intros x. unfold apply_swap. simpl. rewrite list_elem_of_fmap. split.
    + intros (y & -> & Hy).
      destruct (swap_one_cases a b y) as [->|[->| ->]]; done.
    + intros Hx. exists (swap_one a b x). split.
      * by rewrite swap_one_involutive.
      * destruct (swap_one_cases a b x) as [->|[->| ->]]; done.
Qed.

Lemma Fixes_refl s ind : Fixes s ind s.
Proof. split; [done|auto]. Qed.

Lemma Fixes_NoDup s ind v : NoDup s → Fixes s ind v → NoDup v.
Proof. intros Hs [Hp _]. by rewrite Hp. Qed.

Lemma Fixes_trans s ind rec t v :
  rec ⊆ ind → Fixes s ind t → Fixes t rec v → Fixes s ind v.
Proof.
  intros Hsub [Hp1 Hf1] [Hp2 Hf2]. split; [by rewrite Hp2|].
  intros i x Hi Hx. apply Hf2; [by apply Hf1|]. intros Hin. apply Hx, Hsub, Hin.
Qed.

Lemma Fixes_swap s ind w a b :
  NoDup s → ind ⊆ s → a ∈ ind → b ∈ ind →
  Fixes s ind w → Fixes s ind (apply_swap w (a, b)).
Proof.
  intros Hnd Hsub Ha Hb [Hp Hf]. split.
  - rewrite apply_swap_perm; [done|by rewrite Hp|rewrite Hp; auto..].
  - intros i x Hi Hx. unfold apply_swap. rewrite list_lookup_fmap.
    rewrite (Hf i x Hi Hx). simpl. f_equal. apply swap_one_other; congruence.
Qed.

Lemma insert_delete_next (ind : list Z) (i : nat) :
  (S i < length ind)%nat →
  <[i := nth (S i) ind 0]> (delete (S i) ind) = delete i ind.
Proof.
  revert i. induction ind as [|x ind IH]; intros i Hi; [simpl in Hi; lia|].
  destruct i as [|i].
  - destruct ind as [|y ind]; [simpl in Hi; lia|]. done.
  - simpl in Hi. change (delete (S (S i)) (x :: ind)) with (x :: delete (S i) ind).
    change (nth (S (S i)) (x :: ind) 0) with (nth (S i) ind 0).
    change (<[S i := nth (S i) ind 0]> (x :: delete (S i) ind))
      with (x :: <[i := nth (S i) ind 0]> (delete (S i) ind)).
    rewrite IH by lia. done.
Qed.

Lemma NoDup_delete_notin (l : list Z) i x :
  NoDup l → l !! i = Some x → (x ∉ delete i l) ∧ NoDup (delete i l).
Proof.
  intros Hnd Hi. rewrite (delete_Permutation l i x Hi) in Hnd.
  by apply NoDup_cons in Hnd.
Qed.

Section Blocks.

Variable conv : Z → Z.
Variable m : nat.
Hypothesis Hrec : ∀ ind s,
  length ind = m → NoDup ind → NoDup s → ind ⊆ s →
  Forall (λ x, conv x = x) ind → Visits s ind (swap_list conv m ind).

Variable ind s : list Z.
Hypothesis Hlen : length ind = S m.
Hypothesis Hind : NoDup ind.
Hypothesis Hs : NoDup s.
Hypothesis Hsub : ind ⊆ s.
Hypothesis Hconv : Forall (λ x, conv x = x) ind.

(** The position in [s] of the last index. *)
Variable pos : nat.
Hypothesis Hpos : s !! pos = ind !! m.

Lemma block_visits (i : nat) (t : list Z) :
  (i ≤ m)%nat → Fixes s ind t → t !! pos = ind !! i →
  Visits t (delete i ind) (swap_list conv m (delete i ind)) ∧
  ∀ v, v ∈ t :: visit t (swap_list conv m (delete i ind)) →
       Fixes s ind v ∧ v !! pos = ind !! i.
Proof using All.
  intros Hi Ht Htpos.
  destruct (lookup_lt_is_Some_2 ind i) as [x Hx]; [lia|].
  destruct (NoDup_delete_notin ind i x Hind Hx) as [Hnotin Hnd].
  assert (Visits t (delete i ind) (swap_list conv m (delete i ind))) as HV.
  { apply Hrec.
    - rewrite length_delete by eauto. lia.
    - done.
    - by apply (Fixes_NoDup s ind).
    - intros y Hy. destruct Ht as [Hp _]. rewrite Hp.
      by apply Hsub, (list_elem_of_delete_inv _ i).
    - by apply Forall_delete. }
  split; [done|]. intros v Hv. destruct HV as [_ HF]. specialize (HF v Hv).
  split.
  - apply (Fixes_trans s ind (delete i ind) t); [|done|done].
    apply list_subseteq_delete.
  - destruct HF as [_ HF]. rewrite Hx. apply HF; [congruence|done].
Qed.

Lemma blocks_visit (i : nat) : ∀ t,
  (i ≤ m)%nat → Fixes s ind t → t !! pos = ind !! i →
  let sw := swap_blocks conv (swap_list conv m) ind i (delete i ind) in
  NoDup (t :: visit t sw) ∧
  ∀ v, v ∈ t :: visit t sw →
       Fixes s ind v ∧ ∃ j, (j ≤ i)%nat ∧ v !! pos = ind !! j.
Proof using All.
  induction i as [|i IH]; intros t Hi Ht Htpos sw.
  - destruct (block_visits 0 t Hi Ht Htpos) as [[Hnd _] Hall].
    split; [done|]. intros v Hv. destruct (Hall v Hv). eauto.
  - destruct (block_visits (S i) t Hi Ht Htpos) as [[Hnd _] Hall].
    destruct (lookup_lt_is_Some_2 ind (S i)) as [a Ha]; [lia|].
    destruct (lookup_lt_is_Some_2 ind i) as [b Hb]; [lia|].
    assert (conv a = a) as Hca
      by (rewrite Forall_lookup in Hconv; by apply (Hconv (S i))).
    assert (conv b = b) as Hcb
      by (rewrite Forall_lookup in Hconv; by apply (Hconv i)).
    set (blk := swap_list conv m (delete (S i) ind)) in *.
    set (w := final t blk).
    set (t' := apply_swap w (a, b)).
    destruct (Hall w (final_in t blk)) as [Hw Hwpos].
    assert (Fixes s ind t') as Ht'.
    { apply Fixes_swap; try done; by eapply list_elem_of_lookup_2. }
    assert (t' !! pos = ind !! i) as Ht'pos.
    { unfold t', apply_swap. rewrite list_lookup_fmap, Hwpos, Ha, Hb. simpl.
      by rewrite swap_one_l. }
    destruct (IH t' ltac:(lia) Ht' Ht'pos) as [Hnd' Hall'].
    assert (sw = blk ++ (a, b) :: swap_blocks conv (swap_list conv m) ind i
                                   (delete i ind)) as ->.
    { unfold sw. cbn [swap_blocks]. fold blk.
      rewrite (nth_lookup_Some _ _ _ _ Ha), (nth_lookup_Some _ _ _ _ Hb), Hca, Hcb.
      rewrite <- (nth_lookup_Some _ _ 0 _ Ha), insert_delete_next by lia. done. }
    rewrite visit_app. cbn [visit]. fold w. fold t'.
    change (t :: visit t blk ++ t' :: visit t' ?r)
      with ((t :: visit t blk) ++ (t' :: visit t' r)).
    split.
    + apply NoDup_app. split_and!; [done| |done].
      intros v Hv Hv'. destruct (Hall v Hv) as [_ Hp].
      destruct (Hall' v Hv') as [_ (j & Hj & Hp')].
      rewrite Hp, Ha in Hp'. symmetry in Hp'.
      pose proof (NoDup_lookup _ _ _ _ Hind Hp' Ha). lia.
    + intros v Hv. apply elem_of_app in Hv as [Hv|Hv].
      * destruct (Hall v Hv). split; [done|]. exists (S i). auto.
      * destruct (Hall' v Hv) as [? (j & ? & ?)]. split; [done|].
        exists j. split; [lia|done].
Qed.

End Blocks.

Lemma take_delete_last (l : list Z) m : length l = S m → take m l = delete m l.
Proof.
  intros Hl. rewrite delete_take_drop, (drop_ge l (S m)) by lia.
  by rewrite app_nil_r.
Qed.

Lemma swap_list_visits (conv : Z → Z) (n : nat) : ∀ ind s,
  length ind = n → NoDup ind → NoDup s → ind ⊆ s →
  Forall (λ x, conv x = x) ind → Visits s ind (swap_list conv n ind).
Proof.
  induction n as [|n IH]; intros ind s Hlen Hind Hs Hsub Hconv.
  - split; [apply NoDup_singleton|].
    intros v ->%list_elem_of_singleton. apply Fixes_refl.
  - destruct n as [|[|k]].
    + split; [apply NoDup_singleton|].
      intros v ->%list_elem_of_singleton. apply Fixes_refl.
    + destruct ind as [|a [|b [|]]]; try done.
      apply Forall_cons in Hconv as [Ha Hconv].
      apply Forall_cons in Hconv as [Hb _].
      cbn [swap_list nth visit]. rewrite Ha, Hb.
      assert (a ∈ s) as Has by (apply Hsub, elem_of_cons; by left).
      assert (b ∈ s) as Hbs
        by (apply Hsub, elem_of_cons; right; apply elem_of_cons; by left).
      assert (a ≠ b) as Hab.
      { apply NoDup_cons in Hind as [Hn _]. intros ->. apply Hn.
        apply elem_of_cons. by left. }
      split.
      * apply NoDup_cons. split; [|apply NoDup_singleton].
        intros Heq%list_elem_of_singleton.
        apply list_elem_of_lookup_1 in Has as [p Hp].
        assert (apply_swap s (a, b) !! p = Some b) as Hp'.
        { unfold apply_swap. rewrite list_lookup_fmap, Hp. simpl.
          by rewrite swap_one_l. }
        congruence.
      * intros v Hv. apply elem_of_cons in Hv as [->|Hv]; [apply Fixes_refl|].
        apply list_elem_of_singleton in Hv as ->.
        apply Fixes_swap; [done|done| | |apply Fixes_refl].
        -- apply elem_of_cons; by left.
        -- apply elem_of_cons; right; apply elem_of_cons; by left.
    + set (m := S (S k)) in *.
      destruct (lookup_lt_is_Some_2 ind m) as [x Hx]; [lia|].
      assert (x ∈ s) as Hxs by (by eapply Hsub, list_elem_of_lookup_2).
      apply list_elem_of_lookup_1 in Hxs as [pos Hpos].
      change (swap_list conv (S m) ind)
        with (swap_blocks conv (swap_list conv m) ind m (take m ind)).
      rewrite take_delete_last by done.
      destruct (blocks_visit conv m IH ind s Hlen Hind Hs Hsub Hconv pos
                  ltac:(congruence) m s ltac:(lia) (Fixes_refl s ind)
                  ltac:(congruence)) as [Hnd Hall].
      split; [done|]. intros v Hv. by destruct (Hall v Hv).
Qed.

Lemma visits_spec s sw : visits s sw = Some (s :: visit s sw).
Proof.
  revert s. induction sw as [|[a b] sw IH]; intros s; [done|].
  cbn [visits visit fst snd]. rewrite swap_spec. cbn [mbind option_bind].
  rewrite IH. done.
Qed.

Lemma length_visit s sw : length (visit s sw) = length sw.
Proof. revert s. induction sw as [|q sw IH]; intros s; simpl; auto. Qed.

Lemma length_interleave {A} (x : A) l : length (interleave x l) = S (length l).
Proof.
  induction l as [|y l IH]; [done|]. simpl. by rewrite length_fmap, IH.
Qed.

Lemma length_bind_const {A B} (f : A → list B) (l : list A) (c : nat) :
  (∀ y, y ∈ l → length (f y) = c) → length (l ≫= f) = (length l * c)%nat.
Proof.
  induction l as [|y l IH]; intros H; [done|].
  cbn [mbind list_bind]. rewrite length_app, IH, H; simpl.
  - done.
  - apply elem_of_cons; by left.
  - intros z Hz. apply H, elem_of_cons. by right.
Qed.

Lemma length_permutations {A} (l : list A) :
  length (permutations l) = fact (length l).
Proof.
  induction l as [|x l IH]; [done|].
  cbn [permutations]. rewrite (length_bind_const _ _ (S (length l))).
  - rewrite IH. simpl. lia.
  - intros y Hy. apply permutations_Permutation in Hy.
    rewrite length_interleave. f_equal. by rewrite Hy.
Qed.

Lemma NoDup_all_permutations (l : list Z) (visited : list (list Z)) :
  NoDup visited → (∀ v, v ∈ visited → v ≡ₚ l) →
  length visited = fact (length l) →
  ∀ p, p ≡ₚ l ↔ p ∈ visited.
Proof.
  intros Hnd Hall Hlen p. split; [|apply Hall].
  intros Hp.
  assert (visited ≡ₚ permutations l) as Hperm.
  { apply submseteq_length_Permutation.
    - apply NoDup_submseteq; [done|]. intros v Hv.
      apply permutations_Permutation. symmetry. by apply Hall.
    - rewrite length_permutations. lia. }
  rewrite Hperm. apply permutations_Permutation. by symmetry.
Qed.

Lemma drop_overwrite {A} (q l : list A) i :
  (i + length l = length q)%nat → drop i (overwrite q i l) = l.
Proof.
  intros H. unfold overwrite.
  rewrite drop_app_length' by (rewrite length_take; lia).
  rewrite (drop_ge q) by lia. by rewrite app_nil_r.
Qed.

Lemma identity_to_step n :
  (n ≤ 256)%nat → Forall (λ x, to_step x = x) (Z.of_nat <$> seq 0 n).
Proof.
  intros Hn. apply Forall_fmap, Forall_forall. intros i Hi.
  apply elem_of_seq in Hi. simpl. unfold to_step. apply Z.mod_small. lia.
Qed.

(** C2: for [2 <= n] the call [addQueueSwaps(n, 1, queue, [0..n-1])] of [main]
    returns [n! - 1], writes that many swap pairs (the entries 1 to
    [n! - 1] of the queue), and applying them one after another with [swap]
    to the identity visits [n!] pairwise different arrays that are exactly
    the permutations of [0..n-1]. The bound 256 is the range of [step]. *)
Theorem addQueueSwaps_visits_every_permutation (n : nat) (queue : list (Z * Z)) :
  (2 ≤ n ≤ 256)%nat → length queue = fact n →
  let identity := Z.of_nat <$> seq 0 n in
  ∃ queue' visited,
    addQueueSwaps n 1 queue identity = Some ((fact n - 1)%nat, queue') ∧
    length queue' = fact n ∧ queue' !! 0%nat = queue !! 0%nat ∧
    visits identity (drop 1 queue') = Some visited ∧
    length visited = fact n ∧ NoDup visited ∧
    ∀ p, p ≡ₚ identity ↔ p ∈ visited.
Proof.
  intros [Hn2 Hn256] Hq identity.
  assert (length identity = n) as Hid
    by (unfold identity; by rewrite length_fmap, length_seq).
  destruct (addQueueSwaps_gen_spec to_step n identity Hid) as [Hlen Hrun].
  pose proof (lt_O_fact n) as Hfact.
  set (sw := swap_list to_step n identity) in *.
  exists (overwrite queue 1 sw), (identity :: visit identity sw).
  assert (NoDup identity) as Hnd.
  { unfold identity. apply NoDup_fmap_2; [apply _|apply NoDup_seq]. }
  destruct (swap_list_visits to_step n identity identity Hid Hnd Hnd
              ltac:(done) (identity_to_step n Hn256)) as [HV1 HV2].
  split_and!.
  - apply Hrun. lia.
  - rewrite overwrite_length; lia.
  - unfold overwrite. rewrite lookup_app_l by (rewrite length_take; lia).
    rewrite lookup_take. by case_decide; [|lia].
  - rewrite drop_overwrite by lia. apply visits_spec.
  - simpl. rewrite length_visit. lia.
  - done.
  - apply NoDup_all_permutations; [done| |].
    + intros v Hv. by destruct (HV2 v Hv).
    + simpl. rewrite length_visit, Hid. lia.
Qed.

Lemma addQueueSwaps_visits_every_permutation_witness :
  let identity := Z.of_nat <$> seq 0 3 in
  ∃ queue' visited,
    addQueueSwaps 3 1 (replicate 6 (99, 99)) identity
    = Some ((fact 3 - 1)%nat, queue') ∧
    length queue' = fact 3 ∧
    queue' !! 0%nat = replicate 6 (99, 99) !! 0%nat ∧
    visits identity (drop 1 queue') = Some visited ∧
    length visited = fact 3 ∧ NoDup visited ∧
    ∀ p, p ≡ₚ identity ↔ p ∈ visited.
Proof.
  apply (addQueueSwaps_visits_every_permutation 3 (replicate 6 (99, 99)));
    [lia | reflexivity].
Defined.

(** ** The table of sequences *)

Lemma len_pos n : (0 < len n)%nat.
Proof. unfold len. induction n; simpl; lia. Qed.

Lemma seqHash_loop_mask_0 prime k : ∀ key stepPtr,
  (stepPtr + k ≤ length key)%nat →
  seqHash_loop prime 0 k key stepPtr 0 = Some 0.
Proof.
  induction k as [|k IH]; intros key stepPtr Hk; [done|].
  simpl. destruct (lookup_lt_is_Some_2 key stepPtr) as [s Hs]; [lia|].
  rewrite Hs. simpl. rewrite Z.land_0_r. apply IH. lia.
Qed.

Lemma seqHash1_mask_0 n key : length key = len n → seqHash1 n key 0 = Some 0%nat.
Proof.
  intros Hl. unfold seqHash1. rewrite seqHash_loop_mask_0 by lia. done.
Qed.

Lemma seqHash2_mask_0 n key : length key = len n → seqHash2 n key 0 = Some 1%nat.
Proof.
  intros Hl. unfold seqHash2. change (Z.shiftr 0 1) with 0.
  rewrite seqHash_loop_mask_0; [done|].
  pose proof (Nat.Div0.div_le_upper_bound (len n) 2 (len n)). lia.
Qed.

Lemma memcmp_eq_full (a b : list Z) cnt :
  length a = cnt → length b = cnt → memcmp_eq a b cnt = Some (bool_decide (a = b)).
Proof.
  intros Ha Hb. unfold memcmp_eq.
  rewrite !(proj2 (Nat.leb_le _ _)) by lia. simpl.
  by rewrite !take_ge by lia.
Qed.

Lemma seq_probe_key_one_bucket n k1 k2 fuel :
  length k1 = len n → length k2 = len n → k1 ≠ k2 →
  seq_probe_key n fuel (one_bucket_table k1) k2 1 0 = None.
Proof.
  intros H1 H2 Hne. induction fuel as [|fuel IH]; [done|].
  simpl. rewrite memcmp_eq_full by done.
  rewrite bool_decide_eq_false_2 by done. simpl. exact IH.
Qed.

(** C9 (the code at the failing input): [createSeqTable(0)] makes a table of
    one bucket; after one insertion the bucket is occupied; a search for the
    inserted key returns true, but a search for any other key probes bucket 0
    for ever: every pass of the loop reads bucket 0 (in range, occupied, with
    another key) and steps to bucket 0 again, so no amount of fuel makes
    [seqHashContains] return. *)
Theorem seqHashContains_one_bucket_never_returns n (k1 k2 : list Z) :
  length k1 = len n → length k2 = len n → k1 ≠ k2 →
  (∀ fuel, (table ← createSeqTable n 0; seqHashInsert n fuel table k1)
           = Some (one_bucket_table k1)) ∧
  (∀ fuel, seqHashContains n fuel (one_bucket_table k1) k1 = Some true) ∧
  (seqHash1 n k2 0 = Some 0%nat ∧ seqHash2 n k2 0 = Some 1%nat ∧
   Seq_occupied (one_bucket_table k1) !! 0%nat = Some true ∧
   Seq_nodes (one_bucket_table k1) !! 0%nat = Some k1 ∧
   memcmp_eq k1 k2 (len n) = Some false ∧
   seq_next (Seq_modMask (one_bucket_table k1)) 0 1 = 0%nat) ∧
  (∀ fuel, seqHashContains n fuel (one_bucket_table k1) k2 = None).
Proof.
  intros H1 H2 Hne. split_and!;
    [| |by apply seqHash1_mask_0|by apply seqHash2_mask_0|done|done
     |by rewrite memcmp_eq_full, bool_decide_eq_false_2|done|].
  - intros fuel. unfold createSeqTable. cbn [andb Z.leb Z.ltb Z.compare mbind option_bind].
    unfold seqHashInsert, resize_if_needed, over_limit.
    cbn [Seq_size Seq_count Seq_modMask Seq_occupied Seq_nodes].
    change (2 ^ 0 <? 3 * 0) with false. change (2 ^ 0 - 1) with 0.
    cbn [mbind option_bind]. cbn [Seq_size Seq_count Seq_modMask Seq_occupied Seq_nodes].
    rewrite seqHash1_mask_0 by done. cbn [mbind option_bind].
    change (Z.to_nat (2 ^ 0)) with 1%nat. cbn [replicate lookup list_lookup mbind option_bind].
    unfold seq_add. cbn [Seq_size Seq_count Seq_modMask Seq_occupied Seq_nodes].
    rewrite (proj2 (Nat.leb_le _ _)) by lia. cbn [mbind option_bind].
    rewrite take_ge by lia. done.
  - intros fuel. unfold seqHashContains, seq_find, one_bucket_table.
    cbn [Seq_size Seq_count Seq_modMask Seq_occupied Seq_nodes].
    rewrite seqHash1_mask_0 by done. cbn [mbind option_bind lookup list_lookup].
    rewrite memcmp_eq_full by done. by rewrite bool_decide_eq_true_2.
  - intros fuel. unfold seqHashContains, seq_find.
    cbn [one_bucket_table Seq_size Seq_count Seq_modMask Seq_occupied Seq_nodes].
    rewrite seqHash1_mask_0 by done. cbn [mbind option_bind lookup list_lookup].
    rewrite memcmp_eq_full by done. rewrite bool_decide_eq_false_2 by done.
    cbn [mbind option_bind]. rewrite seqHash2_mask_0 by done.
    cbn [mbind option_bind]. change (seq_next 0 0 1) with 0%nat.
    by rewrite (seq_probe_key_one_bucket n k1 k2 fuel).
Qed.

Lemma seqHashContains_one_bucket_never_returns_witness :
  (∀ fuel, (table ← createSeqTable 4 0;
            seqHashInsert 4 fuel table (replicate 16 0))
           = Some (one_bucket_table (replicate 16 0))) ∧
  (∀ fuel, seqHashContains 4 fuel (one_bucket_table (replicate 16 0))
             (replicate 16 0) = Some true) ∧
  (seqHash1 4 (replicate 16 1) 0 = Some 0%nat ∧
   seqHash2 4 (replicate 16 1) 0 = Some 1%nat ∧
   Seq_occupied (one_bucket_table (replicate 16 0)) !! 0%nat = Some true ∧
   Seq_nodes (one_bucket_table (replicate 16 0)) !! 0%nat
   = Some (replicate 16 0) ∧
   memcmp_eq (replicate 16 0) (replicate 16 1) (len 4) = Some false ∧
   seq_next (Seq_modMask (one_bucket_table (replicate 16 0))) 0 1 = 0%nat) ∧
  (∀ fuel, seqHashContains 4 fuel (one_bucket_table (replicate 16 0))
             (replicate 16 1) = None).
Proof.
  apply (seqHashContains_one_bucket_never_returns 4 (replicate 16 0)
           (replicate 16 1)); [reflexivity | reflexivity | discriminate].
Defined.

(** ** Rotations *)

Lemma rotate_left_length k (s : list Z) :
  (k ≤ length s)%nat → length (rotate_left k s) = length s.
Proof.
  intros H. unfold rotate_left. rewrite length_app, length_drop, length_take. lia.
Qed.

Lemma rotate_left_0 (s : list Z) : rotate_left 0 s = s.
Proof. unfold rotate_left. by rewrite drop_0, take_0, app_nil_r. Qed.

Lemma rotate_left_all (s : list Z) : rotate_left (length s) s = s.
Proof. unfold rotate_left. by rewrite drop_all, firstn_all. Qed.

Lemma rotate_left_add a b (s : list Z) :
  (a + b ≤ length s)%nat →
  rotate_left a (rotate_left b s) = rotate_left (b + a) s.
Proof.
  intros H. unfold rotate_left.
  rewrite drop_app_le by (rewrite length_drop; lia).
  rewrite take_app_le by (rewrite length_drop; lia).
  rewrite drop_drop, <- app_assoc. f_equal. apply take_take_drop.
Qed.

Lemma rotate_left_digits n k (s : list Z) :
  digits n s → digits n (rotate_left k s).
Proof.
  intros H. unfold rotate_left, digits in *. apply Forall_app. split.
  - by apply Forall_drop.
  - by apply Forall_take.
Qed.

Lemma rotate_left_fmap (f : Z → Z) k (s : list Z) :
  rotate_left k (f <$> s) = f <$> rotate_left k s.
Proof. unfold rotate_left. by rewrite fmap_app, fmap_drop, fmap_take. Qed.

(** Rotations repeat with every period of the sequence. *)
Lemma rotate_left_period p (s : list Z) :
  (0 < p)%nat → rotate_left p s = s → ∀ i, (i ≤ length s)%nat →
  rotate_left i s = rotate_left (i mod p) s.
Proof.
  intros Hp Hper i. induction i as [i IH] using lt_wf_ind. intros Hi.
  destruct (decide (i < p)%nat) as [Hlt|Hge].
  - by rewrite Nat.mod_small.
  - replace i with (p + (i - p))%nat at 1 by lia.
    rewrite <- rotate_left_add by lia. rewrite Hper.
    rewrite IH by lia. f_equal.
    replace i with ((i - p) + 1 * p)%nat at 2 by lia.
    by rewrite Nat.Div0.mod_add.
Qed.

(** Sequences of the same length with the same numeral are equal. *)
Lemma value_inj n (a b : list Z) :
  digits n a → digits n b → length a = length b → value n a = value n b →
  a = b.
Proof.
  revert b. induction a as [|x a IH]; intros [|y b] Ha Hb Hl Hv; try done.
  apply Forall_cons in Ha as [Hx Ha]. apply Forall_cons in Hb as [Hy Hb].
  simpl in Hl. rewrite !value_cons in Hv.
  pose proof (value_bounds n a Ha). pose proof (value_bounds n b Hb).
  assert (length a = length b) as Hab by lia. rewrite Hab in *.
  assert (x = y) as -> by nia.
  f_equal. apply IH; try done. lia.
Qed.

Lemma known_iff n keys s :
  known n keys s ↔
  ∃ i, (i < len n)%nat ∧ value n (rotate_left i s) ∈ keys.
Proof.
  unfold known, rotation_values. rewrite Exists_exists. split.
  - intros (v & Hv & Hk). apply list_elem_of_fmap in Hv as (i & -> & Hi).
    apply elem_of_seq in Hi. exists i. split; [lia|done].
  - intros (i & Hi & Hk). eexists. split; [|exact Hk].
    apply list_elem_of_fmap. exists i. split; [done|].
    apply elem_of_seq. lia.
Qed.

Section RotationLoop.

Variable n : nat.
Variable M : nat.
Hypothesis Hn : (2 ≤ n)%nat.
Hypothesis HM : (0 < M)%nat.
Hypothesis HM64 : Z.of_nat M < 2 ^ 64.
Hypothesis Hcoprime :
  ∀ s : nat, (1 ≤ s ≤ n - 1)%nat → Z.gcd (Z.of_nat s) (Z.of_nat M) = 1.
Variable mt : list Z.
Hypothesis Hmt : make_multiplesTable n = Some mt.

Lemma rotation_loop_from table keys (s : list Z) (d : nat) : ∀ j,
  TableInv n M table keys → digits n s → length s = len n →
  (j + d = len n)%nat → (0 < d)%nat →
  (∀ i, (i < j)%nat → value n (rotate_left i s) ∉ keys) →
  rotation_loop n mt table (value n s) (value n (rotate_left j s)) (drop j s)
  = Some (bool_decide (known n keys s)).
Proof using All.
  induction d as [|d IH]; intros j Hinv Hdig Hlen Hj Hd Hbefore; [lia|].
  destruct (lookup_lt_is_Some_2 s j) as [f Hf]; [lia|].
  rewrite (drop_S _ _ _ Hf). cbn [rotation_loop].
  rewrite (GMPHashContains_spec n M Hn HM HM64 Hcoprime table keys)
    by (done || (destruct Hinv; lia)).
  cbn [mbind option_bind].
  destruct (decide (value n (rotate_left j s) ∈ keys)) as [Hin|Hnot].
  - rewrite bool_decide_eq_true_2 by done.
    rewrite bool_decide_eq_true_2; [done|].
    apply known_iff. exists j. split; [lia|done].
  - rewrite bool_decide_eq_false_2 by done.
    assert (rotate_left j s = f :: drop (S j) s ++ take j s) as Hrot.
    { unfold rotate_left. by rewrite (drop_S _ _ _ Hf). }
    assert (rotate_left (S j) s = (drop (S j) s ++ take j s) ++ [f]) as Hrot'.
    { unfold rotate_left. by rewrite (take_S_r _ _ _ Hf), app_assoc. }
    rewrite Hrot.
    rewrite (next_rotation_value n mt f (drop (S j) s ++ take j s) Hmt Hn).
    + cbn [mbind option_bind]. rewrite <- Hrot'.
      destruct (Z.eqb_spec (value n (rotate_left (S j) s)) (value n s))
        as [Heq|Hne].
      * assert (rotate_left (S j) s = s) as Hper.
        { apply (value_inj n); try done.
          - by apply rotate_left_digits.
          - apply rotate_left_length. lia. }
        rewrite bool_decide_eq_false_2; [done|].
        intros (i & Hi & Hiin)%known_iff.
        rewrite (rotate_left_period (S j) s ltac:(lia) Hper i) in Hiin by lia.
        pose proof (Nat.mod_upper_bound i (S j) ltac:(lia)) as Hmod.
        destruct (decide (i mod S j = j)%nat) as [E|E].
        -- rewrite E in Hiin. done.
        -- apply (Hbefore (i mod S j)%nat); [lia|done].
      * destruct d as [|d].
        { exfalso. apply Hne. f_equal.
          replace (S j) with (length s) by lia. apply rotate_left_all. }
        apply IH; try done; [lia|lia|].
        intros i Hi. destruct (decide (i = j)) as [->|]; [done|].
        apply Hbefore. lia.
    + unfold digits in Hdig. rewrite Forall_lookup in Hdig. by apply (Hdig j).
    + rewrite <- Hrot. rewrite rotate_left_length; lia.
Qed.

Lemma rotation_loop_spec table keys (s : list Z) :
  TableInv n M table keys → digits n s → length s = len n →
  rotation_loop n mt table (value n s) (value n s) s
  = Some (bool_decide (known n keys s)).
Proof using All.
  intros Hinv Hdig Hlen.
  pose proof (rotation_loop_from table keys s (len n) 0 Hinv Hdig Hlen) as H.
  rewrite rotate_left_0, drop_0 in H. apply H; [lia|apply len_pos|intros; lia].
Qed.

End RotationLoop.

Section SwapAndRecord.

Variable n : nat.
Variable M : nat.
Hypothesis Hn : (2 ≤ n)%nat.
Hypothesis HM : (0 < M)%nat.
Hypothesis HM64 : Z.of_nat M < 2 ^ 64.
Hypothesis Hcoprime :
  ∀ s : nat, (1 ≤ s ≤ n - 1)%nat → Z.gcd (Z.of_nat s) (Z.of_nat M) = 1.
Variable mt : list Z.
Hypothesis Hmt : make_multiplesTable n = Some mt.
Variable queue : list (Z * Z).

Lemma swap_and_record_spec (st : ExtrapolateState) keys q :
  TableInv n M (ex_table st) keys →
  length (ex_localSequence st) = len n →
  queue !! ex_qPtr st = Some q →
  digits n (apply_swap (ex_localSequence st) q) →
  (S (length keys) < M)%nat →
  ∃ table,
    swap_and_record n queue mt st
    = Some {| ex_localSequence := apply_swap (ex_localSequence st) q;
              ex_table := table;
              ex_currentNextHalf := ex_currentNextHalf st;
              ex_qPtr := S (ex_qPtr st) |} ∧
    TableInv n M table
      (record n keys (apply_swap (ex_localSequence st) q)).
Proof using All.
  intros Hinv Hlen Hq Hdig Hroom. unfold swap_and_record.
  rewrite Hq. cbn [mbind option_bind]. destruct q as [a b]. cbn [fst snd].
  rewrite <- Hlen, swap_spec. cbn [mbind option_bind].
  set (s := apply_swap (ex_localSequence st) (a, b)) in *.
  assert (length s = len n) as Hls
    by (unfold s, apply_swap; by rewrite length_fmap).
  rewrite getSequenceNumber_value by done. cbn [mbind option_bind].
  rewrite (rotation_loop_spec n M Hn HM HM64 Hcoprime mt Hmt _ keys)
    by done.
  cbn [mbind option_bind]. unfold record.
  destruct (decide (known n keys s)) as [Hk|Hk].
  - rewrite bool_decide_eq_true_2 by done. cbn [mbind option_bind].
    eexists. split; [done|done].
  - rewrite bool_decide_eq_false_2 by done.
    destruct (GMPHashInsert_spec n M Hn HM HM64 Hcoprime (ex_table st) keys
                (value n s) (GMP_size (ex_table st)))
      as (table' & Hins & Hinv'); try done.
    + destruct Hinv. lia.
    + intros Hin. apply Hk, known_iff. exists 0%nat.
      split; [apply len_pos|]. by rewrite rotate_left_0.
    + rewrite Hins. cbn [mbind option_bind]. eexists. split; [done|done].
Qed.

End SwapAndRecord.


(** ** Relabelling a sequence by an arrangement of the digits *)

Lemma length_act V s : length (act V s) = length s.
Proof. unfold act. by rewrite length_fmap. Qed.

Lemma length_identity n : length (identity n) = n.
Proof. unfold identity. by rewrite length_fmap, length_seq. Qed.

Lemma nth_identity n (d : Z) :
  0 ≤ d < Z.of_nat n → nth (Z.to_nat d) (identity n) 0 = d.
Proof.
  intros Hd. apply nth_lookup_Some. unfold identity.
  rewrite list_lookup_fmap, lookup_seq_lt by lia. simpl. f_equal. lia.
Qed.

Lemma act_identity n s : digits n s → act (identity n) s = s.
Proof.
  intros Hd. unfold act. induction Hd as [|d s Hd Hs IH]; [done|].
  cbn [fmap list_fmap]. rewrite nth_identity by done. f_equal. apply IH.
Qed.

Lemma act_apply_swap n V q s :
  length V = n → digits n s →
  act (apply_swap V q) s = apply_swap (act V s) q.
Proof.
  intros HV Hd. unfold act, apply_swap. rewrite <- list_fmap_compose.
  apply Forall_fmap_ext_1. eapply Forall_impl; [exact Hd|].
  intros d Hdd. simpl in *.
  destruct (lookup_lt_is_Some_2 V (Z.to_nat d)) as [x Hx]; [lia|].
  rewrite (nth_lookup_Some _ _ _ _ Hx).
  apply nth_lookup_Some. by rewrite list_lookup_fmap, Hx.
Qed.

Lemma length_apply_swap V q : length (apply_swap V q) = length V.
Proof. unfold apply_swap. by rewrite length_fmap. Qed.

Lemma visit_act n s sw : ∀ V,
  length V = n → digits n s →
  visit (act V s) sw = (λ W, act W s) <$> visit V sw.
Proof.
  induction sw as [|q sw IH]; intros V HV Hd; [done|].
  cbn [visit fmap list_fmap]. rewrite <- (act_apply_swap n) by done.
  f_equal. apply IH; [by rewrite length_apply_swap|done].
Qed.

Lemma final_act n s sw : ∀ V,
  length V = n → digits n s →
  final (act V s) sw = act (final V sw) s.
Proof.
  unfold final. induction sw as [|q sw IH]; intros V HV Hd; [done|].
  cbn [fold_left]. rewrite <- (act_apply_swap n) by done.
  apply IH; [by rewrite length_apply_swap|done].
Qed.

Lemma act_act n U W s :
  length W = n → digits n s → act U (act W s) = act (act U W) s.
Proof.
  intros HW Hd. unfold act. rewrite <- list_fmap_compose.
  apply Forall_fmap_ext_1. eapply Forall_impl; [exact Hd|].
  intros d Hdd. simpl in *.
  destruct (lookup_lt_is_Some_2 W (Z.to_nat d)) as [x Hx]; [lia|].
  rewrite (nth_lookup_Some _ _ _ _ Hx). symmetry.
  apply nth_lookup_Some. by rewrite list_lookup_fmap, Hx.
Qed.

Lemma arrangement_length n V : arrangement n V → length V = n.
Proof. intros H. by rewrite H, length_identity. Qed.

Lemma digits_identity n : digits n (identity n).
Proof.
  unfold digits, identity. apply Forall_fmap, Forall_forall. intros i Hi.
  apply elem_of_seq in Hi. simpl. lia.
Qed.

Lemma arrangement_digits n V : arrangement n V → digits n V.
Proof. intros H. unfold digits. rewrite H. apply digits_identity. Qed.

Lemma arrangement_NoDup n V : arrangement n V → NoDup V.
Proof.
  intros H. rewrite H. unfold identity.
  apply NoDup_fmap_2; [apply _|apply NoDup_seq].
Qed.

Lemma act_on_identity n U : length U = n → act U (identity n) = U.
Proof.
  intros HU. unfold act, identity. rewrite <- list_fmap_compose.
  apply list_eq. intros i. rewrite list_lookup_fmap.
  destruct (decide (i < n)%nat) as [Hi|Hi].
  - rewrite lookup_seq_lt by done. simpl. rewrite Nat2Z.id.
    destruct (lookup_lt_is_Some_2 U i) as [x Hx]; [lia|].
    by rewrite (nth_lookup_Some _ _ _ _ Hx).
  - rewrite lookup_seq_ge by lia. simpl. symmetry. apply lookup_ge_None. lia.
Qed.

Lemma act_arrangement n U W :
  arrangement n U → arrangement n W → arrangement n (act U W).
Proof.
  intros HU HW. unfold arrangement, act. rewrite HW.
  fold (act U (identity n)). rewrite act_on_identity; [done|].
  by apply arrangement_length.
Qed.

Lemma act_digits n U s : arrangement n U → digits n s → digits n (act U s).
Proof.
  intros HU Hd. unfold digits, act. apply Forall_fmap.
  eapply Forall_impl; [exact Hd|]. intros d Hdd. cbv beta in Hdd. simpl.
  pose proof (arrangement_digits n U HU) as HUd.
  pose proof (arrangement_length n U HU) as HUl.
  destruct (lookup_lt_is_Some_2 U (Z.to_nat d)) as [x Hx]; [lia|].
  rewrite (nth_lookup_Some _ _ _ _ Hx).
  unfold digits in HUd. rewrite Forall_lookup in HUd. by apply (HUd _ _ Hx).
Qed.

Lemma act_inj n U a b :
  arrangement n U → digits n a → digits n b → act U a = act U b → a = b.
Proof.
  intros HU Ha. revert b. induction Ha as [|x a Hx Ha IH]; intros b Hb Heq.
  - destruct b; [done|]. discriminate.
  - destruct b as [|y b]; [discriminate|].
    apply Forall_cons in Hb as [Hy Hb]. unfold act in Heq. cbn in Heq.
    injection Heq as Hxy Heq.
    pose proof (arrangement_length n U HU) as HUl.
    destruct (lookup_lt_is_Some_2 U (Z.to_nat x)) as [u Hu]; [lia|].
    destruct (lookup_lt_is_Some_2 U (Z.to_nat y)) as [v Hv]; [lia|].
    rewrite (nth_lookup_Some _ _ _ _ Hu), (nth_lookup_Some _ _ _ _ Hv) in Hxy.
    subst v.
    pose proof (NoDup_lookup _ _ _ _ (arrangement_NoDup n U HU) Hu Hv).
    f_equal; [lia|]. by apply IH.
Qed.


(** ** Sequences that are rotations of each other *)

Lemma rot_equiv_iff n a b :
  rot_equiv n a b ↔ ∃ i, (i < len n)%nat ∧ b = rotate_left i a.
Proof.
  unfold rot_equiv. rewrite list_elem_of_fmap. split.
  - intros (i & -> & Hi). apply elem_of_seq in Hi. exists i. split; [lia|done].
  - intros (i & Hi & ->). exists i. split; [done|]. apply elem_of_seq. lia.
Qed.

Lemma rot_equiv_length n a b :
  length a = len n → rot_equiv n a b → length b = len n.
Proof.
  intros Ha (i & Hi & ->)%rot_equiv_iff. rewrite rotate_left_length; lia.
Qed.

Lemma rot_equiv_digits n a b : digits n a → rot_equiv n a b → digits n b.
Proof. intros Ha (i & Hi & ->)%rot_equiv_iff. by apply rotate_left_digits. Qed.

Lemma rot_equiv_refl n a : rot_equiv n a a.
Proof.
  apply rot_equiv_iff. exists 0%nat. split; [apply len_pos|].
  by rewrite rotate_left_0.
Qed.

Lemma rot_equiv_sym n a b :
  length a = len n → rot_equiv n a b → rot_equiv n b a.
Proof.
  intros Ha (i & Hi & ->)%rot_equiv_iff. apply rot_equiv_iff.
  destruct (decide (i = 0%nat)) as [->|Hne].
  - exists 0%nat. split; [apply len_pos|]. by rewrite !rotate_left_0.
  - exists (len n - i)%nat. split; [lia|].
    rewrite rotate_left_add by lia.
    replace (i + (len n - i))%nat with (length a) by lia.
    by rewrite rotate_left_all.
Qed.

Lemma rot_equiv_trans n a b c :
  length a = len n → rot_equiv n a b → rot_equiv n b c → rot_equiv n a c.
Proof.
  intros Ha (i & Hi & ->)%rot_equiv_iff (j & Hj & ->)%rot_equiv_iff.
  apply rot_equiv_iff.
  destruct (decide (i + j < len n)%nat) as [Hlt|Hge].
  - exists (i + j)%nat. split; [done|]. rewrite rotate_left_add; [done|lia].
  - exists (i + j - len n)%nat. split; [lia|].
    replace j with ((len n - i) + (i + j - len n))%nat at 1 by lia.
    rewrite <- (rotate_left_add (i + j - len n) (len n - i))
      by (rewrite rotate_left_length; lia).
    rewrite (rotate_left_add (len n - i) i) by lia.
    replace (i + (len n - i))%nat with (length a) by lia.
    by rewrite rotate_left_all.
Qed.

Lemma rot_equiv_act n U a b :
  rot_equiv n a b → rot_equiv n (act U a) (act U b).
Proof.
  intros (i & Hi & ->)%rot_equiv_iff. apply rot_equiv_iff. exists i.
  split; [done|]. unfold act. by rewrite rotate_left_fmap.
Qed.

Lemma rot_equiv_act_inv n U a b :
  arrangement n U → digits n a → digits n b →
  rot_equiv n (act U a) (act U b) → rot_equiv n a b.
Proof.
  intros HU Ha Hb (i & Hi & Heq)%rot_equiv_iff. apply rot_equiv_iff.
  exists i. split; [done|]. unfold act in Heq. rewrite rotate_left_fmap in Heq.
  apply (act_inj n U); [done|done|by apply rotate_left_digits|done].
Qed.

(** [known] in terms of sequences. *)
Lemma known_reps n (reps : list (list Z)) (s : list Z) :
  digits n s → length s = len n →
  Forall (λ R, digits n R ∧ length R = len n) reps →
  known n (value n <$> reps) s ↔ Exists (rot_equiv n s) reps.
Proof.
  intros Hd Hl Hreps. rewrite known_iff, Exists_exists. split.
  - intros (i & Hi & Hin). apply list_elem_of_fmap in Hin as (R & Hv & HR).
    exists R. split; [done|]. apply rot_equiv_iff. exists i. split; [done|].
    rewrite Forall_forall in Hreps. destruct (Hreps R HR) as [HRd HRl].
    symmetry. apply (value_inj n); try done.
    + by apply rotate_left_digits.
    + rewrite rotate_left_length; lia.
  - intros (R & HR & (i & Hi & ->)%rot_equiv_iff). exists i. split; [done|].
    apply list_elem_of_fmap. eauto.
Qed.


(** ** Counting the members of classes *)

Section ClassCountFacts.

Context {A : Type} (rel : A → A → Prop) `{∀ x y, Decision (rel x y)}.

Lemma total_members_cons x L reps :
  total_members rel (x :: L) reps = (owners rel reps x + total_members rel L reps)%nat.
Proof.
  unfold total_members, owners, members.
  induction reps as [|r reps IH]; [done|].
  cbn [fmap list_fmap sum_list sum_list_with]. rewrite IH.
  destruct (decide (rel r x)) as [Hr|Hr].
  - rewrite !filter_cons_True by done. simpl. lia.
  - rewrite !filter_cons_False by done. simpl. lia.
Qed.

Lemma total_members_nil reps : total_members rel [] reps = 0%nat.
Proof. unfold total_members, members. induction reps; simpl; auto. Qed.

Lemma total_members_cover L reps :
  (∀ x, x ∈ L → (1 ≤ owners rel reps x)%nat) →
  (length L ≤ total_members rel L reps)%nat.
Proof.
  induction L as [|x L IH]; intros Hc; [simpl; lia|].
  rewrite total_members_cons. simpl.
  pose proof (Hc x ltac:(apply elem_of_cons; by left)).
  assert (length L ≤ total_members rel L reps)%nat.
  { apply IH. intros y Hy. apply Hc, elem_of_cons. by right. }
  lia.
Qed.

Lemma total_members_disjoint L reps :
  (∀ x, x ∈ L → (owners rel reps x ≤ 1)%nat) →
  (total_members rel L reps ≤ length L)%nat.
Proof.
  induction L as [|x L IH]; intros Hc; [by rewrite total_members_nil|].
  rewrite total_members_cons. simpl.
  pose proof (Hc x ltac:(apply elem_of_cons; by left)).
  assert (total_members rel L reps ≤ length L)%nat.
  { apply IH. intros y Hy. apply Hc, elem_of_cons. by right. }
  lia.
Qed.

Lemma members_app L1 L2 r :
  members rel (L1 ++ L2) r = (members rel L1 r + members rel L2 r)%nat.
Proof. unfold members. by rewrite filter_app, length_app. Qed.

Lemma total_members_prefix L1 L2 reps :
  (total_members rel L1 reps ≤ total_members rel (L1 ++ L2) reps)%nat.
Proof.
  unfold total_members. induction reps as [|r reps IH]; [done|].
  cbn [fmap list_fmap sum_list sum_list_with]. rewrite members_app.
  unfold id in *. lia.
Qed.

Lemma total_members_const L reps m :
  (∀ r, r ∈ reps → members rel L r = m) →
  total_members rel L reps = (length reps * m)%nat.
Proof.
  unfold total_members. induction reps as [|r reps IH]; intros Hm; [done|].
  cbn [fmap list_fmap sum_list sum_list_with length].
  rewrite IH, (Hm r).
  - unfold id in *. lia.
  - apply elem_of_cons. by left.
  - intros r' Hr'. apply Hm, elem_of_cons. by right.
Qed.

Lemma owners_ge_1 reps x r : r ∈ reps → rel r x → (1 ≤ owners rel reps x)%nat.
Proof.
  intros Hr Hrel. unfold owners.
  assert (r ∈ filter (λ r, rel r x) reps) as Hin
    by (by apply list_elem_of_filter).
  destruct (filter (λ r, rel r x) reps); [by apply elem_of_nil in Hin|].
  simpl. lia.
Qed.

End ClassCountFacts.


(** ** The classes of the relabelled seeds all have the same size *)

Lemma length_filter_ext {A} (P Q : A → Prop) `{∀ x, Decision (P x)}
    `{∀ x, Decision (Q x)} (l : list A) :
  (∀ x, x ∈ l → P x ↔ Q x) → length (filter P l) = length (filter Q l).
Proof.
  induction l as [|x l IH]; intros HPQ; [done|].
  assert (length (filter P l) = length (filter Q l)) as IH'.
  { apply IH. intros y Hy. apply HPQ, elem_of_cons. by right. }
  pose proof (HPQ x ltac:(apply elem_of_cons; by left)) as Hx.
  destruct (decide (P x)) as [HP|HP].
  - rewrite !filter_cons_True by tauto. simpl. by rewrite IH'.
  - rewrite !filter_cons_False by tauto. done.
Qed.

Lemma length_filter_fmap {A B} (f : A → B) (P : B → Prop)
    `{∀ x, Decision (P x)} (l : list A) :
  length (filter P (f <$> l)) = length (filter (P ∘ f) l).
Proof.
  induction l as [|x l IH]; [done|]. cbn [fmap list_fmap].
  destruct (decide (P (f x))) as [HP|HP].
  - rewrite !filter_cons_True by done. simpl. by rewrite IH.
  - rewrite !filter_cons_False by done. done.
Qed.

Section EqualClasses.

Variable n : nat.
Variable seed : list Z.
Hypothesis Hseed : digits n seed.
Hypothesis Hlen : length seed = len n.

(** All arrangements of the digits, each once. *)
Variable VS : list (list Z).
Hypothesis HVS_NoDup : NoDup VS.
Hypothesis HVS_all : ∀ p, p ≡ₚ identity n ↔ p ∈ VS.

Lemma fmap_act_Permutation U : U ∈ VS → act U <$> VS ≡ₚ VS.
Proof using All.
  intros HU. apply HVS_all in HU.
  apply submseteq_length_Permutation; [|by rewrite length_fmap].
  apply NoDup_submseteq.
  - apply NoDup_fmap_2_strong; [|done].
    intros W W' HW HW' Heq. apply HVS_all in HW, HW'.
    apply (act_inj n U); try done; by apply arrangement_digits.
  - intros V (W & -> & HW)%list_elem_of_fmap. apply HVS_all in HW.
    apply HVS_all. by apply act_arrangement.
Qed.

Lemma members_act U :
  U ∈ VS →
  members (rot_equiv n) ((λ W, act W seed) <$> VS) (act U seed)
  = members (rot_equiv n) ((λ W, act W seed) <$> VS) seed.
Proof using All.
  intros HU. unfold members. rewrite !length_filter_fmap.
  pose proof (fmap_act_Permutation U HU) as Hperm.
  pose proof HU as HUa. apply HVS_all in HUa.
  transitivity (length (filter (rot_equiv n (act U seed) ∘ (λ W, act W seed))
                          (act U <$> VS))).
  { by rewrite Hperm. }
  rewrite length_filter_fmap. apply length_filter_ext.
  intros W HW. apply HVS_all in HW. simpl.
  rewrite <- (act_act n) by (done || by apply arrangement_length).
  split.
  - apply rot_equiv_act_inv; [done|done|].
    by apply act_digits.
  - apply rot_equiv_act.
Qed.

End EqualClasses.

(** ** The representatives chosen by the loop *)

Lemma filter_none {A} (P : A → Prop) `{∀ x, Decision (P x)} (l : list A) :
  Forall (λ x, ¬ P x) l → filter P l = [].
Proof.
  induction 1 as [|x l Hx Hl IH]; [done|]. by rewrite filter_cons_False.
Qed.

Section Greedy.

Variable n : nat.

Lemma reps_of_snoc L s : reps_of n (L ++ [s]) = record_seq n (reps_of n L) s.
Proof. unfold reps_of. by rewrite fold_left_app. Qed.

Lemma record_seq_length reps s :
  (length reps ≤ length (record_seq n reps s) ≤ S (length reps))%nat.
Proof. unfold record_seq. case_decide; simpl; lia. Qed.

Lemma reps_of_sub L R : R ∈ reps_of n L → R ∈ L.
Proof.
  induction L as [|s L IH] using rev_ind; [done|].
  rewrite reps_of_snoc. unfold record_seq. case_decide.
  - intros HR. apply elem_of_app. left. by apply IH.
  - intros [->|HR]%elem_of_cons; apply elem_of_app.
    + right. apply elem_of_cons. by left.
    + left. by apply IH.
Qed.

Lemma reps_of_wf L : Forall (wf_seq n) L → Forall (wf_seq n) (reps_of n L).
Proof.
  intros HL. rewrite Forall_forall in *. intros R HR.
  by apply HL, reps_of_sub.
Qed.

Lemma reps_of_cover L x :
  Forall (wf_seq n) L → x ∈ L → ∃ R, R ∈ reps_of n L ∧ rot_equiv n R x.
Proof.
  induction L as [|s L IH] using rev_ind; intros HL Hx.
  - by apply elem_of_nil in Hx.
  - apply Forall_app in HL as [HL Hs]. rewrite Forall_singleton in Hs.
    rewrite reps_of_snoc. unfold record_seq.
    apply elem_of_app in Hx as [Hx|Hx].
    + destruct (IH HL Hx) as (R & HR & Hrel). exists R. split; [|done].
      case_decide; [done|]. apply elem_of_cons. by right.
    + apply list_elem_of_singleton in Hx as ->.
      case_decide as Hex.
      * apply Exists_exists in Hex as (R & HR & Hrel). exists R.
        split; [done|]. apply rot_equiv_sym; [apply Hs|done].
      * exists s. split; [apply elem_of_cons; by left|apply rot_equiv_refl].
Qed.

Lemma reps_of_inequiv L : inequiv n (reps_of n L).
Proof.
  induction L as [|s L IH] using rev_ind; [done|].
  rewrite reps_of_snoc. unfold record_seq. case_decide as Hex; [done|].
  split; [|done]. apply Forall_forall. intros R HR Hrel. apply Hex.
  apply Exists_exists. eauto.
Qed.

Lemma inequiv_owners reps x :
  Forall (wf_seq n) reps → inequiv n reps →
  (owners (rot_equiv n) reps x ≤ 1)%nat.
Proof.
  unfold owners. induction reps as [|R reps IH]; intros Hwf Hin; [simpl; lia|].
  apply Forall_cons in Hwf as [[HRd HRl] Hwf]. destruct Hin as [HR Hin].
  destruct (decide (rot_equiv n R x)) as [Hrel|Hrel].
  - rewrite filter_cons_True by done.
    assert (filter (λ r, rot_equiv n r x) reps = []) as ->; [|simpl; lia].
    apply filter_none, Forall_forall. intros R' HR' Hrel'.
    rewrite Forall_forall in HR, Hwf. apply (HR R' HR').
    apply (rot_equiv_trans n R x R'); [done|done|].
    apply rot_equiv_sym; [apply (Hwf R' HR')|done].
  - rewrite filter_cons_False by done. by apply IH.
Qed.

Lemma reps_of_prefix_length L1 L2 :
  (length (reps_of n L1) ≤ length (reps_of n (L1 ++ L2)))%nat.
Proof.
  induction L2 as [|s L2 IH] using rev_ind; [by rewrite app_nil_r|].
  rewrite app_assoc, reps_of_snoc.
  pose proof (record_seq_length (reps_of n (L1 ++ L2)) s). lia.
Qed.

(** The keys in the table are the sequence numbers of the
    representatives. *)
Lemma record_keys L :
  Forall (wf_seq n) L →
  fold_left (record n) L [] = value n <$> reps_of n L.
Proof.
  induction L as [|s L IH] using rev_ind; intros HL; [done|].
  apply Forall_app in HL as [HL Hs]. rewrite Forall_singleton in Hs.
  rewrite fold_left_app, reps_of_snoc. cbn [fold_left]. rewrite IH by done.
  unfold record, record_seq.
  pose proof (known_reps n (reps_of n L) s (proj1 Hs) (proj2 Hs)
                (reps_of_wf L HL)) as Hk.
  destruct (decide (known n (value n <$> reps_of n L) s)) as [H1|H1];
    destruct (decide (Exists (rot_equiv n s) (reps_of n L))) as [H2|H2];
    try done; tauto.
Qed.

Variable PS : list (list Z).
Hypothesis HPS : Forall (wf_seq n) PS.
Variable m : nat.
Hypothesis Hm : ∀ R, R ∈ PS → members (rot_equiv n) PS R = m.

(** After [k] sequences the chosen classes hold at least [k] members. *)
Lemma prefix_bound k :
  (k ≤ length PS)%nat → (k ≤ length (reps_of n (take k PS)) * m)%nat.
Proof using All.
  intros Hk. set (L := take k PS).
  assert (Forall (wf_seq n) L) as HL by (by apply Forall_take).
  assert (length L = k) as HLk by (unfold L; rewrite length_take; lia).
  assert (length L ≤ total_members (rot_equiv n) L (reps_of n L))%nat as H1.
  { apply total_members_cover. intros x Hx.
    destruct (reps_of_cover L x HL Hx) as (R & HR & Hrel).
    by apply (owners_ge_1 _ _ _ R). }
  pose proof (total_members_prefix (rot_equiv n) L (drop k PS) (reps_of n L))
    as H2.
  replace (L ++ drop k PS) with PS in H2 by (unfold L; by rewrite take_drop).
  rewrite (total_members_const _ PS (reps_of n L) m) in H2.
  - lia.
  - intros R HR. apply Hm. apply reps_of_sub in HR.
    by apply (subseteq_take k PS).
Qed.

(** All classes together hold every processed sequence exactly once. *)
Lemma classes_total : (length (reps_of n PS) * m = length PS)%nat.
Proof using All.
  pose proof (prefix_bound (length PS) ltac:(lia)) as H1.
  rewrite firstn_all in H1.
  assert (total_members (rot_equiv n) PS (reps_of n PS) ≤ length PS)%nat as H2.
  { apply total_members_disjoint. intros x Hx.
    apply inequiv_owners; [by apply reps_of_wf|apply reps_of_inequiv]. }
  rewrite (total_members_const _ PS (reps_of n PS) m) in H2; [lia|].
  intros R HR. apply Hm. by apply reps_of_sub.
Qed.

End Greedy.


(** ** The list of halves *)

Lemma ctz_pos_spec p :
  0 ≤ ctz_pos p ∧ ∃ q, 0 < q ∧ Z.pos p = 2 ^ ctz_pos p * q.
Proof.
  induction p as [p IH|p IH|].
  - split; [done|]. exists (Z.pos p~1). split; [lia|]. simpl ctz_pos. lia.
  - destruct IH as [Hc (q & Hq & Hp)]. cbn [ctz_pos]. split; [lia|].
    exists q. split; [done|].
    rewrite Z.pow_add_r by lia. change (Z.pos p~0) with (2 * Z.pos p). lia.
  - split; [done|]. exists 1. split; [lia|]. done.
Qed.

Lemma make_halves_spec Q :
  0 < Q < 2 ^ 31 →
  ∃ (v : nat) (q : Z),
    0 < q ∧ Q = 2 ^ Z.of_nat v * q ∧ (Z.even Q = true → (1 ≤ v)%nat) ∧
    length (make_halves Q) = S v ∧
    ∀ i, (i ≤ v)%nat → make_halves Q !! i = Some (2 ^ Z.of_nat i * q).
Proof.
  intros HQ. unfold make_halves, numHalves, builtin_ctz.
  rewrite (Z.mod_small Q) by lia.
  destruct Q as [|p|p]; try lia. cbn [log2].
  destruct (ctz_pos_spec p) as [Hc (q & Hq & Hp)].
  exists (Z.to_nat (ctz_pos p)), q. rewrite Z2Nat.id by done.
  split_and!; [done|done|..].
  - intros Heven. destruct p as [p|p|]; try discriminate.
    pose proof (proj1 (ctz_pos_spec p)). cbn [ctz_pos]. lia.
  - rewrite length_fmap, length_seq. lia.
  - intros i Hi. rewrite list_lookup_fmap, lookup_seq_lt by lia. simpl.
    f_equal. rewrite Z.shiftr_div_pow2 by lia.
    replace (Z.of_nat (Z.to_nat (ctz_pos p + 1) - 1 - i))
      with (ctz_pos p - Z.of_nat i) by lia.
    rewrite Hp.
    replace (2 ^ ctz_pos p) with (2 ^ Z.of_nat i * 2 ^ (ctz_pos p - Z.of_nat i))
      by (rewrite <- Z.pow_add_r by lia; f_equal; lia).
    assert (0 < 2 ^ (ctz_pos p - Z.of_nat i)) by (apply Z.pow_pos_nonneg; lia).
    assert (0 < 2 ^ Z.of_nat i) by (apply Z.pow_pos_nonneg; lia).
    replace (2 ^ Z.of_nat i * 2 ^ (ctz_pos p - Z.of_nat i) * q)
      with (2 ^ Z.of_nat i * q * 2 ^ (ctz_pos p - Z.of_nat i)) by ring.
    rewrite Z.div_mul by lia.
    unfold to_int.
    assert (2 ^ Z.of_nat i * q < 2 ^ 31).
    { rewrite Hp in HQ.
      replace (2 ^ ctz_pos p) with (2 ^ Z.of_nat i * 2 ^ (ctz_pos p - Z.of_nat i))
        in HQ by (rewrite <- Z.pow_add_r by lia; f_equal; lia).
      nia. }
    rewrite Z.mod_small by nia. lia.
Qed.


(** ** The arithmetic of the two early exits *)

(** With [d] classes of [m] members each ([F = d * m]): a count [c] past
    the half [h] of [F] forces [m = 1]. *)
Lemma past_half_is_all (F d m c h : Z) :
  0 < F → F = d * m → c ≤ d → h < c → 2 * h = F → d = F.
Proof.
  intros HF Hdm Hc Hh H2.
  assert (0 < d) as Hd0 by nia. assert (0 < m) as Hm0 by nia.
  assert (m < 2) as Hm2 by nia. assert (m = 1) as -> by lia. lia.
Qed.

(** A count equal to a half [h], with fewer than [h] entries left after [k]
    entries, cannot grow: [d = h]. *)
Lemma cannot_double (F d m h P k : Z) :
  0 < F → F = d * m → F = P * h → 0 < P → k ≤ h * m → h ≤ d →
  F - k < h → d = h.
Proof.
  intros HF Hdm HPh HP Hk Hhd Hrem.
  assert (0 < h) as Hh0 by nia. assert (0 < d) as Hd0 by nia.
  assert (0 < m) as Hm0 by nia.
  destruct (Z.eq_dec d h) as [|Hne]; [done|]. exfalso.
  assert (1 ≤ d - h) as HD by lia.
  assert ((d - h) * m < h) as HA by nia.
  assert ((d - h) * m = h * (P - m)) as HB by nia.
  destruct (Z_le_gt_dec P m) as [Hle|Hgt].
  - assert (h * (P - m) ≤ 0) by nia. nia.
  - assert (h ≤ h * (P - m)) by nia. lia.
Qed.


(** ** The queue built by [main] *)

Lemma fact_factZ n : Z.of_nat (fact n) = factZ n.
Proof.
  induction n as [|n IH]; [done|].
  change (fact (S n)) with (fact n + n * fact n)%nat.
  change (factZ (S n)) with (Z.of_nat (S n) * factZ n). lia.
Qed.

Lemma apply_swap_same s a : apply_swap s (a, a) = s.
Proof.
  unfold apply_swap. induction s as [|x s IH]; [done|].
  cbn [fmap list_fmap fst snd]. f_equal; [|apply IH].
  unfold swap_one. destruct (Z.eqb_spec x a); congruence.
Qed.

Lemma make_queue_spec n :
  (2 ≤ n ≤ 20)%nat →
  make_queue n = Some ((99, 99) :: swap_list to_step n (identity n)).
Proof.
  intros Hn. unfold make_queue. rewrite make_queueSize_spec by lia.
  rewrite <- fact_factZ, Nat2Z.id.
  pose proof (lt_O_fact n) as Hf.
  rewrite wr_Some by (rewrite length_replicate; lia).
  cbn [mbind option_bind]. fold (identity n).
  destruct (addQueueSwaps_gen_spec to_step n (identity n) (length_identity n))
    as [Hl Hrun].
  unfold addQueueSwaps. rewrite Hrun
    by (rewrite length_insert, length_replicate; lia).
  cbn [mbind option_bind snd]. f_equal. unfold overwrite.
  rewrite Hl. rewrite drop_ge by (rewrite length_insert, length_replicate; lia).
  rewrite app_nil_r.
  destruct (fact n) as [|k]; [lia|]. done.
Qed.

(** The arrangements visited by the whole queue: all of them, each once. *)
Lemma queue_visits_all n :
  (2 ≤ n ≤ 20)%nat →
  let VS := visit (identity n) ((99, 99) :: swap_list to_step n (identity n)) in
  length VS = fact n ∧ NoDup VS ∧ ∀ p, p ≡ₚ identity n ↔ p ∈ VS.
Proof.
  intros Hn VS. unfold VS. cbn [visit]. rewrite apply_swap_same.
  destruct (addQueueSwaps_gen_spec to_step n (identity n) (length_identity n))
    as [Hl _].
  assert (NoDup (identity n)) as Hnd
    by (apply (arrangement_NoDup n); unfold arrangement; reflexivity).
  destruct (swap_list_visits to_step n (identity n) (identity n)
              (length_identity n) Hnd Hnd ltac:(done)
              (identity_to_step n ltac:(lia))) as [HV1 HV2].
  pose proof (lt_O_fact n) as Hf.
  assert (length (identity n :: visit (identity n)
                    (swap_list to_step n (identity n))) = fact n) as Hlen.
  { simpl. rewrite length_visit, Hl. lia. }
  split_and!; [done|done|].
  apply NoDup_all_permutations; [done| |by rewrite length_identity].
  intros v Hv. by destruct (HV2 v Hv).
Qed.

(** ** The run of the loop over the queue *)

Lemma visit_lookup s sw k q :
  sw !! k = Some q →
  visit s sw !! k = Some (apply_swap (final s (take k sw)) q).
Proof.
  revert s k. induction sw as [|q' sw IH]; intros s k Hk; [done|].
  destruct k as [|k].
  - injection Hk as ->. done.
  - cbn [visit lookup list_lookup]. cbn in Hk. rewrite (IH _ _ Hk). done.
Qed.

Lemma final_snoc s sw k q :
  sw !! k = Some q →
  final s (take (S k) sw) = apply_swap (final s (take k sw)) q.
Proof.
  intros Hk. rewrite (take_S_r _ _ _ Hk). unfold final.
  by rewrite fold_left_app.
Qed.

Lemma visit_take_S s sw k q :
  sw !! k = Some q →
  take (S k) (visit s sw)
  = take k (visit s sw) ++ [apply_swap (final s (take k sw)) q].
Proof. intros Hk. apply take_S_r. by apply visit_lookup. Qed.

Lemma factZ_12 n : (n ≤ 12)%nat → factZ n < 2 ^ 31.
Proof.
  intros H. pose proof (factZ_mono n 12 H) as Hle.
  assert (factZ 12 = 479001600) as E by (vm_compute; reflexivity).
  lia.
Qed.

Section ProcessedFacts.

Variable n : nat.
Hypothesis Hn : (2 ≤ n ≤ 12)%nat.
Variable seed : list Z.
Hypothesis Hseed : wf_seq n seed.

Lemma length_full_queue : length (full_queue n) = fact n.
Proof using Hn.
  unfold full_queue. cbn [length].
  destruct (addQueueSwaps_gen_spec to_step n (identity n) (length_identity n))
    as [Hl _].
  rewrite Hl. pose proof (lt_O_fact n). lia.
Qed.

Lemma length_processed : length (processed n seed) = fact n.
Proof using Hn.
  unfold processed. by rewrite length_visit, length_full_queue.
Qed.

Lemma processed_act :
  processed n seed
  = (λ W, act W seed) <$> visit (identity n) (full_queue n).
Proof using Hseed.
  unfold processed. destruct Hseed as [Hd Hl].
  rewrite <- (visit_act n) by (done || apply length_identity).
  by rewrite act_identity.
Qed.

Lemma processed_wf : Forall (wf_seq n) (processed n seed).
Proof using All.
  rewrite processed_act. apply Forall_fmap, Forall_forall. intros W HW.
  destruct (queue_visits_all n ltac:(lia)) as (_ & _ & Hall).
  apply Hall in HW. destruct Hseed as [Hd Hl]. split.
  - by apply act_digits.
  - by rewrite length_act.
Qed.

Lemma processed_members R :
  R ∈ processed n seed →
  members (rot_equiv n) (processed n seed) R
  = members (rot_equiv n) (processed n seed) seed.
Proof using All.
  rewrite processed_act. intros (U & -> & HU)%list_elem_of_fmap.
  destruct (queue_visits_all n ltac:(lia)) as (_ & Hnd & Hall).
  destruct Hseed as [Hd Hl].
  by apply (members_act n seed Hd Hl _ Hnd Hall).
Qed.

(** Every class has [class_size] members and there are [orbit_count]
    classes. *)
Lemma orbit_count_total :
  (orbit_count n seed * members (rot_equiv n) (processed n seed) seed
   = fact n)%nat.
Proof using All.
  rewrite <- length_processed. unfold orbit_count.
  apply classes_total; [apply processed_wf|apply processed_members].
Qed.

Lemma orbit_prefix_bound k :
  (k ≤ fact n)%nat →
  (k ≤ length (reps_of n (take k (processed n seed)))
       * members (rot_equiv n) (processed n seed) seed)%nat.
Proof using All.
  intros Hk. apply prefix_bound;
    [apply processed_wf|apply processed_members|by rewrite length_processed].
Qed.

Lemma orbit_prefix_le k :
  (length (reps_of n (take k (processed n seed))) ≤ orbit_count n seed)%nat.
Proof using All.
  unfold orbit_count.
  rewrite <- (take_drop k (processed n seed)) at 2.
  apply reps_of_prefix_length.
Qed.

Lemma orbit_count_le : (orbit_count n seed ≤ fact n)%nat.
Proof using All.
  pose proof orbit_count_total as H. pose proof (lt_O_fact n).
  destruct (members (rot_equiv n) (processed n seed) seed) as [|b]; nia.
Qed.

End ProcessedFacts.


(** ** The loop over the queue, with and without the early exit *)

Lemma capacity_eq n :
  (n ≤ 20)%nat → Z.to_nat (wrap64 (make_queueSize n * 2 + 1)) = capacity n.
Proof.
  intros H. apply Nat2Z.inj. rewrite capacity_spec by done.
  unfold capacity. pose proof (factZ_pos n). lia.
Qed.

Section Loop.

Variable n : nat.
Hypothesis Hn : (2 ≤ n ≤ 12)%nat.
Variable mt : list Z.
Hypothesis Hmt : make_multiplesTable n = Some mt.
Variable seed : list Z.
Hypothesis Hseed : wf_seq n seed.

Lemma capacity_pos : (0 < capacity n)%nat.
Proof. unfold capacity. pose proof (factZ_pos n). lia. Qed.

Lemma capacity_64 : Z.of_nat (capacity n) < 2 ^ 64.
Proof.
  unfold capacity. pose proof (factZ_pos n). pose proof (factZ_20 n). lia.
Qed.

Lemma capacity_coprime_all : ∀ s : nat,
  (1 ≤ s ≤ n - 1)%nat → Z.gcd (Z.of_nat s) (Z.of_nat (capacity n)) = 1.
Proof.
  intros s Hs. unfold capacity. pose proof (factZ_pos n).
  rewrite Z2Nat.id by lia. apply capacity_coprime. lia.
Qed.

Lemma capacity_fact : Z.of_nat (capacity n) = 2 * Z.of_nat (fact n) + 1.
Proof.
  unfold capacity. rewrite fact_factZ. pose proof (factZ_pos n). lia.
Qed.

Lemma Inv_count st :
  Inv n seed st → GMP_count (ex_table st) = Z.of_nat (seen_count n seed (ex_qPtr st)).
Proof.
  intros (_ & _ & HT). destruct HT as [_ _ _ Hc _ _ _ _].
  by rewrite Hc, length_fmap.
Qed.

Lemma seen_count_S k :
  (k < fact n)%nat → (seen_count n seed k ≤ seen_count n seed (S k) ≤ S (seen_count n seed k))%nat.
Proof.
  intros Hk. unfold seen_count.
  destruct (lookup_lt_is_Some_2 (processed n seed) k) as [P HP];
    [by rewrite length_processed|].
  rewrite (take_S_r _ _ _ HP), reps_of_snoc. apply record_seq_length.
Qed.

Lemma seen_count_all : seen_count n seed (fact n) = orbit_count n seed.
Proof.
  unfold seen_count, orbit_count. rewrite take_ge; [done|].
  by rewrite length_processed.
Qed.

Lemma Inv_shape st : Inv n seed st → table_shape n (ex_table st).
Proof. intros (_ & _ & HT). by destruct HT. Qed.

Lemma step_spec st :
  Inv n seed st → (ex_qPtr st < fact n)%nat →
  ∃ st1,
    swap_and_record n (full_queue n) mt st = Some st1 ∧ Inv n seed st1 ∧
    ex_qPtr st1 = S (ex_qPtr st) ∧
    ex_currentNextHalf st1 = ex_currentNextHalf st.
Proof.
  intros (Hk & Hlocal & HT) Hlt. remember (ex_qPtr st) as k eqn:Ek.
  destruct (lookup_lt_is_Some_2 (full_queue n) k) as [q Hq];
    [by rewrite length_full_queue|].
  pose proof (visit_lookup seed (full_queue n) k q Hq) as HP.
  fold (processed n seed) in HP. rewrite <- Hlocal in HP.
  pose proof (processed_wf n Hn seed Hseed) as Hwf.
  assert (wf_seq n (apply_swap (ex_localSequence st) q)) as [Hd Hl].
  { rewrite Forall_lookup in Hwf. by apply (Hwf k). }
  assert (length (ex_localSequence st) = len n) as Hll
    by (by rewrite length_apply_swap in Hl).
  pose proof (orbit_prefix_le n Hn seed Hseed k) as Hle.
  pose proof (orbit_count_le n Hn seed Hseed) as Hle'.
  pose proof (lt_O_fact n) as Hf. pose proof capacity_fact as Hcap.
  assert (full_queue n !! ex_qPtr st = Some q) as Hq' by (by rewrite <- Ek).
  destruct (swap_and_record_spec n (capacity n) ltac:(lia) capacity_pos
              capacity_64 capacity_coprime_all mt Hmt (full_queue n) st
              _ q HT Hll Hq' Hd) as (table1 & Hrun & HT1).
  { rewrite length_fmap. lia. }
  eexists. split; [exact Hrun|]. unfold Inv.
  cbn [ex_qPtr ex_localSequence ex_table ex_currentNextHalf].
  rewrite <- Ek. split; [|done]. split_and!.
  - lia.
  - rewrite Hlocal. symmetry. by apply final_snoc.
  - rewrite (take_S_r _ _ _ HP).
    rewrite <- record_keys
      by (apply Forall_app; split;
          [by apply Forall_take|by apply Forall_singleton]).
    rewrite fold_left_app. cbn [fold_left].
    rewrite record_keys by (by apply Forall_take). done.
Qed.

(** The loop without early exit ends with the number of classes. *)
Lemma naive_queue_loop_spec fuel : ∀ st,
  Inv n seed st → (fact n - ex_qPtr st < fuel)%nat →
  ∃ st', naive_queue_loop n fuel (factZ n) (full_queue n) mt st = Some st' ∧
         GMP_count (ex_table st') = Z.of_nat (orbit_count n seed) ∧
         table_shape n (ex_table st').
Proof.
  induction fuel as [|fuel IH]; intros st HI Hfuel; [lia|].
  cbn [naive_queue_loop]. pose proof (fact_factZ n) as HfZ.
  pose proof HI as (Hk & Hl & HT).
  destruct (Z.ltb_spec (Z.of_nat (ex_qPtr st)) (factZ n)) as [Hlt|Hge].
  - destruct (step_spec st HI ltac:(lia)) as (st1 & Hrun & HI1 & Hk1 & Hn1).
    rewrite Hrun. cbn [mbind option_bind]. apply IH; [done|]. rewrite Hk1. lia.
  - eexists. split; [done|]. split; [|by apply Inv_shape].
    rewrite (Inv_count st HI).
    assert (ex_qPtr st = fact n) as -> by lia. by rewrite seen_count_all.
Qed.

(** The list of halves: [factZ n] is [2 ^ v * q] and entry [i] is
    [2 ^ i * q]. *)
Variable v : nat.
Variable q : Z.
Hypothesis Hq : 0 < q.
Hypothesis HQ : factZ n = 2 ^ Z.of_nat v * q.
Hypothesis Hhalves : ∀ i, (i ≤ v)%nat →
  make_halves (factZ n) !! i = Some (2 ^ Z.of_nat i * q).

Lemma half_bounds i : (i ≤ v)%nat → 0 < 2 ^ Z.of_nat i * q ≤ factZ n.
Proof.
  intros Hi. rewrite HQ.
  assert (0 < 2 ^ Z.of_nat i) by (apply Z.pow_pos_nonneg; lia).
  assert (2 ^ Z.of_nat i ≤ 2 ^ Z.of_nat v) by (apply Z.pow_le_mono_r; lia).
  nia.
Qed.

Lemma milestones_spec st1 k :
  Inv n seed st1 → ex_qPtr st1 = S k → (k < fact n)%nat →
  (ex_currentNextHalf st1 < v)%nat →
  Z.of_nat (seen_count n seed k) ≤ 2 ^ Z.of_nat (ex_currentNextHalf st1) * q →
  ∃ r, milestones (factZ n) (make_halves (factZ n)) st1 = Some r ∧
       match r with
       | inl st2 => InvH n seed v q st2 ∧ ex_qPtr st2 = S k
       | inr st2 => GMP_count (ex_table st2) = Z.of_nat (orbit_count n seed)
                    ∧ table_shape n (ex_table st2)
       end.
Proof.
  intros HI Hk1 Hk Hiv Hc. unfold milestones.
  assert (ex_currentNextHalf st1 ≤ v)%nat as Hi by lia.
  set (i := ex_currentNextHalf st1) in *.
  set (h := 2 ^ Z.of_nat i * q) in *.
  pose proof (half_bounds i Hi) as Hh. fold h in Hh.
  pose proof (factZ_12 n ltac:(lia)) as H31.
  pose proof (Inv_count st1 HI) as Hcount. rewrite Hk1 in Hcount.
  pose proof (seen_count_S k Hk) as HS.
  pose proof (orbit_prefix_le n Hn seed Hseed (S k)) as Hle.
  fold (seen_count n seed (S k)) in Hle.
  pose proof (orbit_count_total n Hn seed Hseed) as Htot.
  pose proof (orbit_count_le n Hn seed Hseed) as Hdle.
  pose proof (orbit_prefix_bound n Hn seed Hseed (S k) ltac:(lia)) as Hpre.
  fold (seen_count n seed (S k)) in Hpre.
  set (m := members (rot_equiv n) (processed n seed) seed) in *.
  set (d := orbit_count n seed) in *.
  pose proof (fact_factZ n) as HfZ.
  rewrite (Hhalves i Hi). cbn [fmap option_fmap option_map mbind option_bind].
  fold h. unfold wrap64. rewrite !(Z.mod_small h) by lia.
  rewrite Hcount.
  destruct (Z.ltb_spec (Z.of_nat (seen_count n seed (S k))) h) as [Hlt|Hge].
  { eexists. split; [done|]. split; [|done].
    split_and!; [done|done|]. rewrite Hk1. fold i. fold h. lia. }
  destruct (Z.ltb_spec h (Z.of_nat (seen_count n seed (S k)))) as [Hgt|Hle'].
  - (* the count went past the half *)
    rewrite (Hhalves (S i)) by lia.
    cbn [fmap option_fmap option_map mbind option_bind].
    assert (2 ^ Z.of_nat (S i) * q = 2 * h) as Hh'.
    { unfold h. rewrite Nat2Z.inj_succ, Z.pow_succ_r by lia. ring. }
    pose proof (half_bounds (S i) ltac:(lia)) as HhS. rewrite Hh' in *.
    rewrite (Z.mod_small (2 * h)) by lia.
    destruct (Z.eqb_spec (2 * h) (factZ n)) as [Heq|Hne].
    + eexists. split; [done|]. split; [|exact (Inv_shape st1 HI)].
      cbn [ex_table set_count GMP_count]. symmetry. rewrite <- HfZ.
      apply (past_half_is_all (Z.of_nat (fact n)) (Z.of_nat d) (Z.of_nat m)
               (Z.of_nat (seen_count n seed (S k))) h); lia.
    + eexists. split; [done|]. cbn [ex_qPtr]. split; [|done].
      unfold InvH. cbn [ex_qPtr ex_currentNextHalf].
      split_and!; [exact HI| |rewrite Hk1, Hh'; lia].
      destruct (decide (S i = v)) as [E|E]; [|lia]. exfalso. apply Hne.
      rewrite <- Hh', E. by rewrite HQ.
  - (* the count is the half *)
    assert (Z.of_nat (seen_count n seed (S k)) = h) as Heq by lia.
    rewrite Hk1.
    rewrite (Z.mod_small (factZ n - Z.of_nat (S k))) by lia.
    destruct (Z.ltb_spec (factZ n - Z.of_nat (S k)) h) as [Hrem|Hrem].
    + eexists. split; [done|]. split; [|exact (Inv_shape st1 HI)].
      rewrite Hcount, Heq. symmetry.
      apply (cannot_double (factZ n) (Z.of_nat d) (Z.of_nat m) h
               (2 ^ (Z.of_nat v - Z.of_nat i)) (Z.of_nat (S k))); try lia.
      unfold h. rewrite Z.mul_assoc, <- Z.pow_add_r by lia.
      rewrite HQ. do 2 f_equal. lia.
    + eexists. split; [done|]. split; [|done].
      split_and!; [done|done|]. rewrite Hk1. fold i. fold h. lia.
Qed.



(** The loop of the program ends with the number of classes. *)
Lemma queue_loop_spec fuel : ∀ st,
  InvH n seed v q st → (fact n - ex_qPtr st < fuel)%nat →
  ∃ st', queue_loop n fuel (factZ n) (full_queue n) mt
           (make_halves (factZ n)) st = Some st' ∧
         GMP_count (ex_table st') = Z.of_nat (orbit_count n seed) ∧
         table_shape n (ex_table st').
Proof.
  induction fuel as [|fuel IH]; intros st (HI & Hi & Hc) Hfuel; [lia|].
  cbn [queue_loop]. pose proof (fact_factZ n) as HfZ.
  destruct HI as (Hk & Hl & HT).
  destruct (Z.ltb_spec (Z.of_nat (ex_qPtr st)) (factZ n)) as [Hlt|Hge].
  - destruct (step_spec st (conj Hk (conj Hl HT)) ltac:(lia))
      as (st1 & Hrun & HI1 & Hk1 & Hn1).
    rewrite Hrun. cbn [mbind option_bind].
    destruct (milestones_spec st1 (ex_qPtr st) HI1 Hk1 ltac:(lia)
                ltac:(by rewrite Hn1) ltac:(by rewrite Hn1))
      as (r & Hr & Hcase).
    rewrite Hr. cbn [mbind option_bind]. destruct r as [st2|st2].
    + destruct Hcase as [HI2 Hk2]. apply IH; [done|]. rewrite Hk2. lia.
    + eexists. split; [done|done].
  - eexists. split; [done|].
    split; [|by apply Inv_shape].
    rewrite (Inv_count st (conj Hk (conj Hl HT))).
    assert (ex_qPtr st = fact n) as -> by lia. by rewrite seen_count_all.
Qed.


End Loop.


(** ** The pass of [extrapolateSeeds] for one seed *)

Lemma len_half n : (1 ≤ n)%nat → (len n / 2 = half_len n)%nat.
Proof.
  intros Hn. unfold len, half_len. destruct n as [|n]; [lia|].
  replace (S n - 1)%nat with n by lia.
  rewrite Nat.pow_succ_r', Nat.mul_comm. by rewrite Nat.div_mul.
Qed.

Lemma len_double n : (1 ≤ n)%nat → (len n = half_len n + half_len n)%nat.
Proof.
  intros Hn. unfold len, half_len. destruct n as [|n]; [lia|].
  replace (S n - 1)%nat with n by lia. rewrite Nat.pow_succ_r'. lia.
Qed.

Lemma rotationallySymmetric_spec n seed :
  (1 ≤ n)%nat → length seed = len n →
  rotationallySymmetric n (take (len n) seed)
  = bool_decide (take (half_len n) seed = drop (half_len n) seed).
Proof.
  intros Hn Hl. unfold rotationallySymmetric.
  rewrite (take_ge seed (len n)) by lia. rewrite (len_half n Hn).
  rewrite (take_ge (drop _ _)); [done|].
  rewrite length_drop, Hl, (len_double n Hn). lia.
Qed.

Lemma factZ_even n : (2 ≤ n)%nat → Z.even (factZ n) = true.
Proof.
  intros Hn.
  destruct (divides_factZ 2 n ltac:(lia)) as [c Hc].
  rewrite Hc, Z.even_mul. apply orb_true_r.
Qed.

Lemma halves_exist n :
  (2 ≤ n ≤ 12)%nat →
  ∃ (v : nat) (q : Z),
    0 < q ∧ (1 ≤ v)%nat ∧ factZ n = 2 ^ Z.of_nat v * q ∧
    ∀ i, (i ≤ v)%nat → make_halves (factZ n) !! i = Some (2 ^ Z.of_nat i * q).
Proof.
  intros Hn. pose proof (factZ_pos n). pose proof (factZ_12 n ltac:(lia)).
  destruct (make_halves_spec (factZ n) ltac:(lia))
    as (v & q & Hq & HQ & Hv & _ & Hh).
  exists v, q. split_and!; try done. apply Hv, factZ_even. lia.
Qed.

Lemma fuel_enough n st : (fact n - ex_qPtr st < S (Z.to_nat (factZ n)))%nat.
Proof. rewrite <- fact_factZ, Nat2Z.id. lia. Qed.

Section Seed.

Variable n : nat.
Hypothesis Hn : (2 ≤ n ≤ 12)%nat.
Variable seed : list Z.
Hypothesis Hseed : wf_seq n seed.
Variable table : GMPHashTable.
Hypothesis Hsize :
  GMP_size table = Z.to_nat (wrap64 (make_queueSize n * 2 + 1)).
Hypothesis Hnodes : length (GMP_nodes table) = GMP_size table.
Variable mt : list Z.
Hypothesis Hmt : make_multiplesTable n = Some mt.

Lemma seed_start_Inv : Inv n seed (seed_start n table seed).
Proof using All.
  destruct Hseed as [Hd Hl]. unfold Inv, seed_start.
  cbn [ex_qPtr ex_localSequence ex_table]. split_and!.
  - lia.
  - rewrite take_0. cbn [final]. by rewrite take_ge by lia.
  - rewrite take_0. cbn [reps_of fold_left fmap list_fmap].
    rewrite capacity_eq in Hsize by lia.
    apply TableInv_empty; try done.
    + lia.
    + by apply capacity_pos.
    + by apply capacity_64.
    + by apply capacity_coprime_all.
    + by rewrite Hnodes.
Qed.

Lemma seed_start_InvH v q :
  0 < q → (1 ≤ v)%nat → InvH n seed v q (seed_start n table seed).
Proof using All.
  intros Hq Hv. split; [apply seed_start_Inv|].
  cbn [seed_start ex_currentNextHalf ex_qPtr]. split; [lia|].
  unfold seen_count. rewrite take_0. cbn. lia.
Qed.

Lemma extrapolateSeed_spec numGreyCodes :
  ∃ table1,
    extrapolateSeed n (factZ n) (full_queue n) mt (make_halves (factZ n))
      table numGreyCodes seed
    = Some (table1,
            wrap64 (numGreyCodes
                    + wrap64 (GMP_count table1
                              * Z.of_nat (if rotationallySymmetric n
                                               (take (len n) seed)
                                          then len n / 2 else len n)))) ∧
    GMP_count table1 = Z.of_nat (orbit_count n seed) ∧
    table_shape n table1.
Proof using All.
  destruct (halves_exist n Hn) as (v & q & Hq & Hv & HQ & Hh).
  destruct (queue_loop_spec n Hn mt Hmt seed Hseed v q Hq HQ Hh
              (S (Z.to_nat (factZ n))) _ (seed_start_InvH v q Hq Hv)
              (fuel_enough n _)) as (st' & Hrun & Hcount & Hshape).
  unfold extrapolateSeed. destruct Hseed as [_ Hl].
  rewrite Hl, Nat.leb_refl. cbn [mbind option_bind].
  fold (seed_start n table seed). rewrite Hrun. cbn [mbind option_bind].
  by eexists.
Qed.

Lemma extrapolateSeed_naive_spec numGreyCodes :
  ∃ table1,
    extrapolateSeed_naive n (factZ n) (full_queue n) mt table numGreyCodes seed
    = Some (table1,
            wrap64 (numGreyCodes
                    + wrap64 (GMP_count table1
                              * Z.of_nat (if rotationallySymmetric n
                                               (take (len n) seed)
                                          then len n / 2 else len n)))) ∧
    GMP_count table1 = Z.of_nat (orbit_count n seed) ∧
    table_shape n table1.
Proof using All.
  destruct (naive_queue_loop_spec n Hn mt Hmt seed Hseed
              (S (Z.to_nat (factZ n))) _ seed_start_Inv
              (fuel_enough n _)) as (st' & Hrun & Hcount & Hshape).
  unfold extrapolateSeed_naive. destruct Hseed as [_ Hl].
  rewrite Hl, Nat.leb_refl. cbn [mbind option_bind].
  rewrite Hrun. cbn [mbind option_bind].
  by eexists.
Qed.

End Seed.

Lemma orbit_count_small n seed :
  (2 ≤ n ≤ 12)%nat → wf_seq n seed →
  0 ≤ Z.of_nat (orbit_count n seed) * Z.of_nat (len n) < 2 ^ 64 ∧
  0 ≤ Z.of_nat (orbit_count n seed) * Z.of_nat (half_len n) < 2 ^ 64.
Proof.
  intros Hn Hseed. pose proof (orbit_count_le n Hn seed Hseed) as Hle.
  pose proof (factZ_12 n ltac:(lia)) as H31. rewrite <- fact_factZ in H31.
  assert (half_len n ≤ len n)%nat as Hhl by (rewrite (len_double n); lia).
  assert (len n ≤ 2 ^ 12)%nat as Hlen
    by (unfold len; apply Nat.pow_le_mono_r; lia).
  assert (Z.of_nat (len n) ≤ 2 ^ 12) as HlenZ
    by (change (2 ^ 12) with (Z.of_nat (2 ^ 12)); lia).
  assert (2 ^ 31 * 2 ^ 12 < 2 ^ 64) by done.
  nia.
Qed.

(** C3: for a seed of [2 ^ n] digits below [n], [2 ≤ n ≤ 12], the queue and
    the table of multiples of [main] exist, and on every table of the
    capacity used by [extrapolateSeeds] the pass for the seed with the
    halving milestones and the pass that processes every entry of the queue
    both return, with the same count of unique permutations (the number of
    classes of rotations among the relabellings of the seed) and the same
    total; the table returned has the capacity again, as the pass for the
    next seed needs it. *)
Theorem early_exit_matches_naive (n : nat) (seed : list Z) :
  (2 ≤ n ≤ 12)%nat → digits n seed → length seed = len n →
  let queueSize := make_queueSize n in
  ∃ queue mt,
    make_queue n = Some queue ∧ make_multiplesTable n = Some mt ∧
    ∀ table numGreyCodes,
      GMP_size table = Z.to_nat (wrap64 (queueSize * 2 + 1)) →
      length (GMP_nodes table) = GMP_size table →
      ∃ table1 table2 total,
        extrapolateSeed n queueSize queue mt (make_halves queueSize) table
          numGreyCodes seed = Some (table1, total) ∧
        extrapolateSeed_naive n queueSize queue mt table numGreyCodes seed
        = Some (table2, total) ∧
        GMP_count table1 = GMP_count table2 ∧
        GMP_count table1 = Z.of_nat (orbit_count n seed) ∧
        GMP_size table1 = GMP_size table ∧
        length (GMP_nodes table1) = GMP_size table1.
Proof.
  intros Hn Hd Hl queueSize. unfold queueSize.
  rewrite make_queueSize_spec by lia.
  exists (full_queue n), ((λ j : nat, multiple n (Z.of_nat j)) <$> seq 0 n).
  pose proof (make_multiplesTable_spec n ltac:(lia)) as Hmt.
  split; [apply make_queue_spec; lia|]. split; [done|].
  intros table total Hsize Hnodes.
  rewrite <- (make_queueSize_spec n) in Hsize by lia.
  destruct (extrapolateSeed_spec n Hn seed (conj Hd Hl) table Hsize Hnodes
              _ Hmt total) as (t1 & H1 & Hc1 & Hs1 & Hs1').
  destruct (extrapolateSeed_naive_spec n Hn seed (conj Hd Hl) table Hsize
              Hnodes _ Hmt total) as (t2 & H2 & Hc2 & _).
  rewrite capacity_eq in Hsize by lia.
  exists t1, t2. eexists. split; [exact H1|]. rewrite Hc1, <- Hc2.
  split; [exact H2|]. rewrite Hc2, Hs1, Hs1', Hsize. done.
Qed.

Lemma early_exit_matches_naive_witness :
  let seed := [0; 1; 0; 2; 0; 1; 0; 3; 0; 1; 0; 2; 0; 1; 0; 3] in
  let queueSize := make_queueSize 4 in
  ∃ queue mt,
    make_queue 4 = Some queue ∧ make_multiplesTable 4 = Some mt ∧
    ∀ table numGreyCodes,
      GMP_size table = Z.to_nat (wrap64 (queueSize * 2 + 1)) →
      length (GMP_nodes table) = GMP_size table →
      ∃ table1 table2 total,
        extrapolateSeed 4 queueSize queue mt (make_halves queueSize) table
          numGreyCodes seed = Some (table1, total) ∧
        extrapolateSeed_naive 4 queueSize queue mt table numGreyCodes seed
        = Some (table2, total) ∧
        GMP_count table1 = GMP_count table2 ∧
        GMP_count table1 = Z.of_nat (orbit_count 4 seed) ∧
        GMP_size table1 = GMP_size table ∧
        length (GMP_nodes table1) = GMP_size table1.
Proof.
  apply (early_exit_matches_naive 4
           [0; 1; 0; 2; 0; 1; 0; 3; 0; 1; 0; 2; 0; 1; 0; 3]);
    [lia | repeat constructor; lia | reflexivity].
Defined.







(** ** The whole of [extrapolateSeeds] *)

Lemma seeds_loop_matches_naive n mt seeds :
  (2 ≤ n ≤ 12)%nat → make_multiplesTable n = Some mt →
  Forall (wf_seq n) seeds →
  ∀ k ptr tableA tableB total,
    (ptr + k ≤ length seeds)%nat →
    table_shape n tableA → table_shape n tableB →
    ∃ r,
      seeds_loop n (factZ n) (full_queue n) mt (make_halves (factZ n)) seeds
        k ptr tableA total = Some r ∧
      seeds_loop_naive n (factZ n) (full_queue n) mt seeds k ptr tableB total
      = Some r.
Proof.
  intros Hn Hmt Hwf. induction k as [|k IH];
    intros ptr tableA tableB total Hk [HA HA'] [HB HB']; [by eexists|].
  cbn [seeds_loop seeds_loop_naive].
  destruct (lookup_lt_is_Some_2 seeds ptr) as [seed Hseed]; [lia|].
  rewrite Hseed. cbn [mbind option_bind].
  assert (wf_seq n seed) as Hs
    by (rewrite Forall_lookup in Hwf; by apply (Hwf ptr)).
  pose proof (capacity_eq n ltac:(lia)) as Hcap.
  destruct (extrapolateSeed_spec n Hn seed Hs tableA ltac:(congruence)
              ltac:(congruence) _ Hmt total) as (t1 & H1 & Hc1 & Hs1).
  destruct (extrapolateSeed_naive_spec n Hn seed Hs tableB ltac:(congruence)
              ltac:(congruence) _ Hmt total) as (t2 & H2 & Hc2 & Hs2).
  rewrite H1, H2. cbn [mbind option_bind fst snd]. rewrite Hc1, Hc2.
  apply IH; [lia|done|done].
Qed.

(** The whole of [extrapolateSeeds] returns what the variant without the
    early exit returns. *)
Corollary extrapolateSeeds_matches_naive n seeds k :
  (2 ≤ n ≤ 12)%nat → Forall (wf_seq n) seeds → (k ≤ length seeds)%nat →
  ∃ queue mt r,
    make_queue n = Some queue ∧ make_multiplesTable n = Some mt ∧
    extrapolateSeeds n (make_queueSize n) queue mt seeds k = Some r ∧
    extrapolateSeeds_naive n (make_queueSize n) queue mt seeds k = Some r.
Proof.
  intros Hn Hwf Hk.
  pose proof (make_multiplesTable_spec n ltac:(lia)) as Hmt.
  exists (full_queue n), ((λ j : nat, multiple n (Z.of_nat j)) <$> seq 0 n).
  assert (table_shape n
            (createGMPTable (Z.to_nat (wrap64 (make_queueSize n * 2 + 1)))))
    as Hshape.
  { rewrite capacity_eq by lia. split; [done|]. apply length_replicate. }
  destruct (seeds_loop_matches_naive n _ seeds Hn Hmt Hwf k 0 _ _ 0
              ltac:(lia) Hshape Hshape) as (r & H1 & H2).
  exists r. split; [apply make_queue_spec; lia|]. split; [done|].
  unfold extrapolateSeeds, extrapolateSeeds_naive.
  rewrite make_queueSize_spec in * by lia. done.
Qed.

Lemma wrap64_range x : 0 ≤ wrap64 x < 2 ^ 64.
Proof. unfold wrap64. apply Z.mod_pos_bound. done. Qed.

Lemma wrap64_add_l x y : wrap64 (wrap64 x + y) = wrap64 (x + y).
Proof. unfold wrap64. apply Zplus_mod_idemp_l. Qed.

Lemma seeds_loop_total n mt seeds :
  (2 ≤ n ≤ 12)%nat → make_multiplesTable n = Some mt →
  Forall (wf_seq n) seeds →
  ∀ k ptr table total,
    (ptr + k ≤ length seeds)%nat → table_shape n table →
    0 ≤ total < 2 ^ 64 →
    seeds_loop n (factZ n) (full_queue n) mt (make_halves (factZ n)) seeds
      k ptr table total
    = Some (wrap64 (total + seeds_total n (take k (drop ptr seeds)))).
Proof.
  intros Hn Hmt Hwf. induction k as [|k IH];
    intros ptr table total Hk [HA HA'] Htotal.
  { cbn [seeds_loop take seeds_total foldr]. rewrite take_0. cbn [foldr].
    unfold wrap64. rewrite Z.add_0_r, Z.mod_small by done. done. }
  cbn [seeds_loop].
  destruct (lookup_lt_is_Some_2 seeds ptr) as [seed Hseed]; [lia|].
  rewrite Hseed. cbn [mbind option_bind].
  assert (wf_seq n seed) as Hs
    by (rewrite Forall_lookup in Hwf; by apply (Hwf ptr)).
  pose proof (capacity_eq n ltac:(lia)) as Hcap.
  destruct (extrapolateSeed_spec n Hn seed Hs table ltac:(congruence)
              ltac:(congruence) _ Hmt total) as (t1 & H1 & Hc1 & Hs1).
  rewrite H1. cbn [mbind option_bind fst snd].
  rewrite rotationallySymmetric_spec by (lia || apply Hs).
  rewrite (len_half n) by lia. rewrite Hc1. fold (seed_total n seed).
  destruct (orbit_count_small n seed Hn Hs) as [Hfull Hhalf].
  assert (0 ≤ seed_total n seed < 2 ^ 64) as Hsmall
    by (unfold seed_total; by destruct (bool_decide _)).
  rewrite (IH (S ptr) t1) by (lia || done || apply wrap64_range).
  rewrite (drop_S _ _ _ Hseed). cbn [take seeds_total foldr].
  fold (seeds_total n (take k (drop (S ptr) seeds))).
  unfold wrap64 at 3. rewrite (Z.mod_small (seed_total n seed)) by done.
  rewrite wrap64_add_l. f_equal. f_equal. lia.
Qed.

(** X23: for 2 to 12 digits, [extrapolateSeeds] over a list of sequences of
    [len] digits returns, and its result is the sum, over the seeds, of the
    number of classes of relabellings of the seed up to rotation times the
    number of rotations ([len], or [len / 2] for a seed whose two halves
    are the same), modulo [2 ^ 64]: the table that is emptied and used
    again for every seed carries nothing from one seed to the next. *)
Corollary extrapolateSeeds_total n seeds :
  (2 ≤ n ≤ 12)%nat → Forall (wf_seq n) seeds →
  ∃ queue mt,
    make_queue n = Some queue ∧ make_multiplesTable n = Some mt ∧
    extrapolateSeeds n (make_queueSize n) queue mt seeds (length seeds)
    = Some (wrap64 (seeds_total n seeds)).
Proof.
  intros Hn Hwf.
  pose proof (make_multiplesTable_spec n ltac:(lia)) as Hmt.
  exists (full_queue n), ((λ j : nat, multiple n (Z.of_nat j)) <$> seq 0 n).
  split; [apply make_queue_spec; lia|]. split; [done|].
  unfold extrapolateSeeds. rewrite make_queueSize_spec by lia.
  rewrite (seeds_loop_total n _ seeds Hn Hmt Hwf); [|lia| |done].
  - by rewrite drop_0, firstn_all.
  - rewrite <- (make_queueSize_spec n), capacity_eq by lia.
    split; [done|]. apply length_replicate.
Qed.

Lemma extrapolateSeeds_total_witness :
  let seeds := [[0; 1; 0; 2; 0; 1; 0; 3; 0; 1; 0; 2; 0; 1; 0; 3];
                [0; 1; 0; 2; 1; 0; 1; 3; 2; 1; 2; 0; 1; 2; 1; 3]] in
  ∃ queue mt,
    make_queue 4 = Some queue ∧ make_multiplesTable 4 = Some mt ∧
    extrapolateSeeds 4 (make_queueSize 4) queue mt seeds (length seeds)
    = Some (wrap64 (seeds_total 4 seeds)).
Proof.
  apply (extrapolateSeeds_total 4
           [[0; 1; 0; 2; 0; 1; 0; 3; 0; 1; 0; 2; 0; 1; 0; 3];
            [0; 1; 0; 2; 1; 0; 1; 3; 2; 1; 2; 0; 1; 2; 1; 3]]);
    [lia|].
  repeat (apply Forall_cons_2;
          [split; [repeat constructor; lia | reflexivity]|]).
  apply Forall_nil_2.
Defined.

(** ** More on the table of sequence numbers *)

Section GMPTableMore.

Variable n : nat.
Variable M : nat.
Hypothesis Hn : (2 ≤ n)%nat.
Hypothesis HM : (0 < M)%nat.
Hypothesis HM64 : Z.of_nat M < 2 ^ 64.
Hypothesis Hcoprime :
  ∀ s : nat, (1 ≤ s ≤ n - 1)%nat → Z.gcd (Z.of_nat s) (Z.of_nat M) = 1.

(** An insertion needs no absent key: a key that is there already is
    stored once more. *)
Lemma GMPHashInsert_again table keys key fuel :
  TableInv n M table keys → (M ≤ fuel)%nat →
  (S (length keys) < M)%nat →
  ∃ table', GMPHashInsert n fuel table key = Some table' ∧
            TableInv n M table' (key :: keys).
Proof using All.
  intros Hinv Hfuel Hroom'.
  pose proof (TableInv_free n M Hn HM HM64 Hcoprime table keys Hinv) as Hfree.
  destruct Hinv as [Hsize Hocc Hnodes Hcount Hroom Hfilled Hsound Hcomplete].
  destruct (first_free n M Hn HM Hcoprime table Hsize Hocc Hnodes key Hfree)
    as (j & Hj & Hjfree & Hbefore).
  rewrite (GMPHashInsert_index n M Hn HM Hcoprime table Hsize Hocc Hnodes
             fuel key j) by (done || lia).
  eexists. split; [done|].
  pose proof (probe_lt n M Hn HM Hcoprime key j) as Hp.
  split; simpl.
  - done.
  - by rewrite length_insert.
  - by rewrite length_insert.
  - rewrite Hcount. unfold wrap64. rewrite Z.mod_small by lia. lia.
  - done.
  - by rewrite filter_insert_true, Hfilled.
  - intros p Hpocc. destruct (decide (p = probe n M key j)) as [->|Hne].
    + exists key. split; [apply elem_of_cons; by left|].
      apply list_lookup_insert_eq. lia.
    + rewrite list_lookup_insert_ne in Hpocc by done.
      destruct (Hsound p Hpocc) as (k & Hk & Hnk).
      exists k. split; [apply elem_of_cons; by right|].
      by rewrite list_lookup_insert_ne.
  - intros k Hk.
    assert (∀ jk, GMP_occupied table !! probe n M k jk = Some true →
                  probe n M key j ≠ probe n M k jk) as Hfresh by congruence.
    destruct (decide (k ∈ keys)) as [Hin|Hnotin].
    + destruct (Hcomplete k Hin) as (jk & Hjk & Hok & Hnk & Hbk).
      exists jk. split_and!; [done|..].
      * rewrite list_lookup_insert_ne; [done|]. by apply Hfresh.
      * rewrite list_lookup_insert_ne; [done|]. by apply Hfresh.
      * intros i Hi. rewrite list_lookup_insert_ne; [by apply Hbk|].
        apply Hfresh. by apply Hbk.
    + apply elem_of_cons in Hk as [->|Hk]; [|done].
      exists j. split_and!; [done|..].
      * apply list_lookup_insert_eq. lia.
      * apply list_lookup_insert_eq. lia.
      * intros i Hi. rewrite list_lookup_insert_ne; [by apply Hbefore|].
        apply Hfresh. by apply Hbefore.
Qed.

Lemma GMPHashInsert_all_spec fuel : ∀ keys table keys0,
  TableInv n M table keys0 → (M ≤ fuel)%nat →
  (length keys + length keys0 < M)%nat →
  ∃ table', GMPHashInsert_all n fuel table keys = Some table' ∧
            TableInv n M table' (reverse keys ++ keys0).
Proof using All.
  induction keys as [|key keys IH]; intros table keys0 Hinv Hfuel Hroom.
  - by exists table.
  - cbn [GMPHashInsert_all length] in *.
    destruct (GMPHashInsert_again table keys0 key fuel Hinv Hfuel ltac:(lia))
      as (t1 & H1 & Hinv1).
    rewrite H1. cbn [mbind option_bind].
    destruct (IH t1 (key :: keys0) Hinv1 Hfuel ltac:(simpl; lia))
      as (t2 & H2 & Hinv2).
    exists t2. split; [done|]. by rewrite reverse_cons, <- app_assoc.
Qed.

End GMPTableMore.

(** X1: on a table of [M] buckets, where [M] is coprime to every stride of
    [GMPhash2], emptied by [emptyGMPTable] (or fresh from [createGMPTable]):
    after the insertion of fewer than [M] keys, repeated or not, the count is
    the number of insertions, the size is kept, and [GMPHashContains] returns
    true for the inserted keys and false for every other key. *)
Theorem GMPHashInsert_then_Contains (n M fuel : nat) (table : GMPHashTable)
    (keys : list Z) :
  (2 ≤ n)%nat → (0 < M)%nat → Z.of_nat M < 2 ^ 64 →
  (∀ s : nat, (1 ≤ s ≤ n - 1)%nat → Z.gcd (Z.of_nat s) (Z.of_nat M) = 1) →
  GMP_size table = M → length (GMP_nodes table) = M →
  (length keys < M)%nat → (M ≤ fuel)%nat →
  createGMPTable M = emptyGMPTable (createGMPTable M) ∧
  ∃ table',
    GMPHashInsert_all n fuel (emptyGMPTable table) keys = Some table' ∧
    GMP_count table' = Z.of_nat (length keys) ∧
    GMP_size table' = M ∧
    ∀ key, GMPHashContains n fuel table' key
           = Some (bool_decide (key ∈ keys)).
Proof.
  intros Hn HM HM64 Hco Hsize Hnodes Hlen Hfuel. split; [done|].
  pose proof (TableInv_empty n M Hn HM HM64 Hco table Hsize Hnodes) as H0.
  destruct (GMPHashInsert_all_spec n M Hn HM HM64 Hco fuel keys _ [] H0 Hfuel
              ltac:(simpl; lia)) as (t & Hrun & Hinv).
  exists t. split; [done|]. rewrite app_nil_r in Hinv.
  pose proof Hinv as [Hs _ _ Hc _ _ _ _].
  split; [by rewrite Hc, length_reverse|]. split; [done|].
  intros key.
  rewrite (GMPHashContains_spec n M Hn HM HM64 Hco t _ key fuel Hinv Hfuel).
  f_equal. apply bool_decide_ext. by rewrite elem_of_reverse.
Qed.

Lemma GMPHashInsert_then_Contains_witness :
  createGMPTable 49 = emptyGMPTable (createGMPTable 49) ∧
  ∃ table',
    GMPHashInsert_all 4 49 (emptyGMPTable (createGMPTable 49))
      [5; 54; 5; 103] = Some table' ∧
    GMP_count table' = Z.of_nat (length [5; 54; 5; 103]) ∧
    GMP_size table' = 49%nat ∧
    ∀ key, GMPHashContains 4 49 table' key
           = Some (bool_decide (key ∈ [5; 54; 5; 103])).
Proof.
  apply (GMPHashInsert_then_Contains 4 49 49 (createGMPTable 49)
           [5; 54; 5; 103]);
    try (vm_compute; lia); try reflexivity; try lia.
  intros s Hs.
  assert (s = 1 ∨ s = 2 ∨ s = 3)%nat as Hcases by lia.
  destruct Hcases as [E|[E|E]]; rewrite E; reflexivity.
Defined.

(** All probes of a table without a free bucket find an occupied bucket. *)
Lemma GMPHashInsert_probe_full (table : GMPHashTable) (s : nat) fuel :
  ∀ idx,
  (∀ p, (p < GMP_size table)%nat → GMP_occupied table !! p = Some true) →
  (idx < GMP_size table)%nat →
  GMPHashInsert_probe fuel table s idx = None.
Proof.
  induction fuel as [|fuel IH]; intros idx Hfull Hidx; [done|].
  cbn [GMPHashInsert_probe]. rewrite (Hfull idx Hidx).
  cbn [mbind option_bind]. apply IH; [done|].
  apply Nat.mod_upper_bound. lia.
Qed.

Lemma GMPHashContains_probe_full (table : GMPHashTable) (key : Z) (s : nat)
    fuel : ∀ idx,
  (∀ p, (p < GMP_size table)%nat →
        GMP_occupied table !! p = Some true ∧
        ∃ k, GMP_nodes table !! p = Some k ∧ k ≠ key) →
  (idx < GMP_size table)%nat →
  GMPHashContains_probe fuel table key s idx = None.
Proof.
  induction fuel as [|fuel IH]; intros idx Hfull Hidx; [done|].
  cbn [GMPHashContains_probe].
  destruct (Hfull idx Hidx) as (Ho & k & Hk & Hne).
  rewrite Ho. cbn [mbind option_bind]. rewrite Hk. cbn [mbind option_bind].
  rewrite (proj2 (Z.eqb_neq k key) Hne). apply IH; [done|].
  apply Nat.mod_upper_bound. lia.
Qed.

(** X2: the table has no guard for a full table. When every bucket is
    occupied, every probe of [GMPHashInsert] is in range and finds an
    occupied bucket, so the insertion does not return; nor does
    [GMPHashContains] for a key that is in no bucket. *)
Theorem GMPHashTable_full_never_returns (n : nat) (table : GMPHashTable)
    (key : Z) :
  (2 ≤ n)%nat → (0 < GMP_size table)%nat →
  (∀ p, (p < GMP_size table)%nat →
        GMP_occupied table !! p = Some true ∧
        ∃ k, GMP_nodes table !! p = Some k) →
  (∃ idx s, GMPhash1 key (GMP_size table) = Some idx ∧
            GMPhash2 n key = Some s ∧
            ∀ j, GMP_occupied table
                   !! ((idx + j * s) mod GMP_size table)%nat = Some true) ∧
  (∀ fuel, GMPHashInsert n fuel table key = None) ∧
  ((∀ p, GMP_nodes table !! p ≠ Some key) →
   ∀ fuel, GMPHashContains n fuel table key = None).
Proof.
  intros Hn HM Hfull.
  assert (GMPhash1 key (GMP_size table)
          = Some (hash1 (GMP_size table) key)) as H1.
  { unfold GMPhash1, mpz_fdiv_ui, hash1.
    destruct (Z.eqb_spec (Z.of_nat (GMP_size table)) 0); [lia|done]. }
  assert (GMPhash2 n key = Some (hash2 n key)) as H2.
  { unfold GMPhash2, mpz_fdiv_ui, hash2.
    destruct (Z.eqb_spec (Z.of_nat n - 1) 0); [lia|done]. }
  assert (hash1 (GMP_size table) key < GMP_size table)%nat as Hlt.
  { unfold hash1.
    pose proof (Z.mod_pos_bound key (Z.of_nat (GMP_size table))). lia. }
  split_and!.
  - exists (hash1 (GMP_size table) key), (hash2 n key).
    split; [done|]. split; [done|]. intros j.
    apply Hfull, Nat.mod_upper_bound. lia.
  - intros fuel. unfold GMPHashInsert. rewrite H1. cbn [mbind option_bind].
    rewrite (proj1 (Hfull _ Hlt)). cbn [mbind option_bind]. rewrite H2.
    cbn [mbind option_bind].
    rewrite GMPHashInsert_probe_full; [done| |done].
    intros p Hp. by apply Hfull.
  - intros Habsent fuel. unfold GMPHashContains. rewrite H1.
    cbn [mbind option_bind]. destruct (Hfull _ Hlt) as (Ho & k & Hk).
    rewrite Ho. cbn [mbind option_bind]. rewrite Hk. cbn [mbind option_bind].
    assert (k ≠ key) as Hne by (intros ->; by apply (Habsent _ Hk)).
    rewrite (proj2 (Z.eqb_neq k key) Hne), H2. cbn [mbind option_bind].
    apply GMPHashContains_probe_full; [|apply Nat.mod_upper_bound; lia].
    intros p Hp. destruct (Hfull p Hp) as (Hop & kp & Hkp).
    split; [done|]. exists kp. split; [done|].
    intros ->. by apply (Habsent _ Hkp).
Qed.

Lemma GMPHashTable_full_never_returns_witness :
  let table := {| GMP_nodes := [3; 4; 5]; GMP_occupied := [true; true; true];
                  GMP_size := 3; GMP_count := 3 |} in
  (∃ idx s, GMPhash1 7 (GMP_size table) = Some idx ∧
            GMPhash2 4 7 = Some s ∧
            ∀ j, GMP_occupied table
                   !! ((idx + j * s) mod GMP_size table)%nat = Some true) ∧
  (∀ fuel, GMPHashInsert 4 fuel table 7 = None) ∧
  ((∀ p, GMP_nodes table !! p ≠ Some 7) →
   ∀ fuel, GMPHashContains 4 fuel table 7 = None).
Proof.
  apply (GMPHashTable_full_never_returns 4
           {| GMP_nodes := [3; 4; 5]; GMP_occupied := [true; true; true];
              GMP_size := 3; GMP_count := 3 |} 7); [lia|simpl; lia|].
  intros p Hp. simpl in Hp.
  assert (p = 0 ∨ p = 1 ∨ p = 2)%nat as Hcases by lia.
  destruct Hcases as [E|[E|E]]; rewrite E; simpl; eauto.
Defined.

(** ** [swap] and [swapMasks] *)

Lemma swap_prefix (seq : list Z) a b limit :
  (limit ≤ length seq)%nat →
  swap seq a b limit
  = Some ((swap_one a b <$> take limit seq) ++ drop limit seq).
Proof.
  revert seq. induction limit as [|limit IH]; intros seq Hl.
  - by destruct seq.
  - destruct seq as [|x seq]; [simpl in Hl; lia|].
    cbn [swap]. rewrite IH by (simpl in Hl; lia). done.
Qed.

Lemma swap_short (seq : list Z) a b limit :
  (length seq < limit)%nat → swap seq a b limit = None.
Proof.
  revert seq. induction limit as [|limit IH]; intros seq Hl; [lia|].
  destruct seq as [|x seq]; [done|].
  cbn [swap]. rewrite IH by (simpl in Hl; lia). done.
Qed.

Lemma swap_one_comm a b x : swap_one a b x = swap_one b a x.
Proof.
  unfold swap_one.
  destruct (Z.eqb_spec x a) as [Ha|Ha], (Z.eqb_spec x b) as [Hb|Hb];
    congruence.
Qed.

Lemma swap_one_same a x : swap_one a a x = x.
Proof. unfold swap_one. by destruct (Z.eqb_spec x a) as [->|]. Qed.

(** X3: [swap] (and [swapMasks], which has the same body) rewrites the first
    [limit] entries and leaves the rest as it is; it keeps the length; a
    second call with the same pair restores the array; the order of the
    pair does not matter and a pair of equal steps changes nothing. A
    [limit] beyond the array is a read out of bounds. *)
Theorem swap_restores (seq : list Z) (a b : Z) (limit : nat) :
  ((limit ≤ length seq)%nat →
   ∃ seq', swap seq a b limit = Some seq' ∧
           swapMasks seq a b limit = Some seq' ∧
           length seq' = length seq ∧
           take limit seq' = swap_one a b <$> take limit seq ∧
           drop limit seq' = drop limit seq ∧
           swap seq' a b limit = Some seq ∧
           swap seq b a limit = Some seq' ∧
           (a = b → seq' = seq)) ∧
  ((length seq < limit)%nat → swap seq a b limit = None).
Proof.
  split; [|apply swap_short]. intros Hl.
  rewrite (swap_prefix seq a b limit Hl). eexists. split; [done|].
  split; [by apply swap_prefix|].
  assert (length (swap_one a b <$> take limit seq) = limit) as Hlen
    by (rewrite length_fmap, length_take; lia).
  split_and!.
  - rewrite length_app, length_fmap, length_take, length_drop. lia.
  - by rewrite take_app_length'.
  - by rewrite drop_app_length'.
  - rewrite swap_prefix
      by (rewrite length_app, length_fmap, length_take, length_drop; lia).
    rewrite take_app_length', drop_app_length' by done.
    rewrite <- list_fmap_compose.
    rewrite (list_fmap_ext _ id (take limit seq));
      [|intros i x _; apply swap_one_involutive].
    by rewrite list_fmap_id, take_drop.
  - rewrite swap_prefix by done. do 2 f_equal.
    apply list_fmap_ext. intros i x _. apply swap_one_comm.
  - intros ->. rewrite (list_fmap_ext _ id (take limit seq));
      [|intros i x _; apply swap_one_same].
    by rewrite list_fmap_id, take_drop.
Qed.

Lemma log2_inj_pow2 (d e : nat) :
  (2 ^ Z.of_nat d =? 2 ^ Z.of_nat e) = (Z.of_nat d =? Z.of_nat e).
Proof.
  destruct (Z.eqb_spec (Z.of_nat d) (Z.of_nat e)) as [E|E].
  - rewrite E. apply Z.eqb_refl.
  - apply Z.eqb_neq. intros H. apply E.
    by rewrite <- (log2_pow2 d), <- (log2_pow2 e), H.
Qed.

Lemma swap_one_log2 n (a b : nat) m :
  valid_mask n m →
  log2 (swap_one (2 ^ Z.of_nat a) (2 ^ Z.of_nat b) m)
  = swap_one (Z.of_nat a) (Z.of_nat b) (log2 m).
Proof.
  intros (d & Hd & ->). unfold swap_one.
  rewrite !log2_inj_pow2, log2_pow2.
  destruct (Z.of_nat d =? Z.of_nat a); [by rewrite log2_pow2|].
  destruct (Z.of_nat d =? Z.of_nat b); by rewrite log2_pow2.
Qed.

Lemma swap_one_valid n (a b : nat) m :
  (a < n)%nat → (b < n)%nat → valid_mask n m →
  valid_mask n (swap_one (2 ^ Z.of_nat a) (2 ^ Z.of_nat b) m).
Proof.
  intros Ha Hb Hm. unfold swap_one.
  destruct (m =? 2 ^ Z.of_nat a); [by exists b|].
  destruct (m =? 2 ^ Z.of_nat b); [by exists a|done].
Qed.

(** X4: the search works on step masks ([1 << digit]) and the extrapolation
    on digits. [swapMasks] with the masks of two digits, read in digit form,
    is [swap] with the two digits on the digit form of the array; the result
    holds step masks again. *)
Theorem swapMasks_digit_form (n : nat) (masks : list Z) (a b : nat)
    (limit : nat) :
  Forall (valid_mask n) masks → (a < n)%nat → (b < n)%nat →
  (limit ≤ length masks)%nat →
  ∃ masks',
    swapMasks masks (2 ^ Z.of_nat a) (2 ^ Z.of_nat b) limit = Some masks' ∧
    Forall (valid_mask n) masks' ∧
    swap (digit_form masks) (Z.of_nat a) (Z.of_nat b) limit
    = Some (digit_form masks').
Proof.
  intros Hm Ha Hb Hl. unfold swapMasks, digit_form.
  rewrite swap_prefix by done. eexists. split; [done|]. split.
  - apply Forall_app. split.
    + apply Forall_fmap. eapply Forall_impl; [by apply Forall_take|].
      intros m Hv. by apply swap_one_valid.
    + by apply Forall_drop.
  - rewrite swap_prefix by (by rewrite length_fmap).
    rewrite fmap_app, <- fmap_drop, <- fmap_take, <- !list_fmap_compose.
    do 2 f_equal. apply Forall_fmap_ext.
    eapply Forall_impl; [by apply Forall_take|].
    intros m Hv. cbn. symmetry. by apply (swap_one_log2 n).
Qed.

Lemma swapMasks_digit_form_witness :
  ∃ masks',
    swapMasks [1; 2; 1; 4; 1; 2; 1; 4] (2 ^ Z.of_nat 0) (2 ^ Z.of_nat 2) 8
    = Some masks' ∧
    Forall (valid_mask 3) masks' ∧
    swap (digit_form [1; 2; 1; 4; 1; 2; 1; 4]) (Z.of_nat 0) (Z.of_nat 2) 8
    = Some (digit_form masks').
Proof.
  apply (swapMasks_digit_form 3 [1; 2; 1; 4; 1; 2; 1; 4] 0 2 8);
    [|lia|lia|simpl; lia].
  repeat (apply Forall_cons_2;
          [first [exists 0%nat; split; [lia | reflexivity]
                 |exists 1%nat; split; [lia | reflexivity]
                 |exists 2%nat; split; [lia | reflexivity]]|]);
    apply Forall_nil_2.
Defined.

(** ** Sequence numbers *)

Lemma getSequenceNumber_loop_short n k l acc :
  (length l < k)%nat → getSequenceNumber_loop n k l acc = None.
Proof.
  revert l acc. induction k as [|k IH]; intros l acc Hl; [lia|].
  destruct l as [|x l]; [done|]. cbn [getSequenceNumber_loop].
  apply IH. simpl in Hl. lia.
Qed.

(** X5: [getSequenceNumber] reads the first [len] steps (fewer are a read
    out of bounds) as a numeral of base [NUM_DIGITS]. On sequences of digits
    below [NUM_DIGITS] the number is below [NUM_DIGITS ^ len], and two
    sequences have the same number only if they are the same sequence: the
    table of numbers in [extrapolateSeeds] is a table of sequences. *)
Theorem getSequenceNumber_injective (n : nat) (a b rest : list Z) :
  digits n a → digits n b → length a = len n → length b = len n →
  ∃ Na Nb,
    getSequenceNumber n a = Some Na ∧ getSequenceNumber n b = Some Nb ∧
    Na = value n a ∧
    0 ≤ Na < Z.of_nat n ^ Z.of_nat (len n) ∧
    (Na = Nb ↔ a = b) ∧
    getSequenceNumber n (a ++ rest) = Some Na ∧
    (∀ short, (length short < len n)%nat → getSequenceNumber n short = None).
Proof.
  intros Ha Hb La Lb. exists (value n a), (value n b).
  rewrite !getSequenceNumber_value by done.
  pose proof (value_bounds n a Ha) as Hbound. rewrite La in Hbound.
  split; [done|]. split; [done|]. split; [done|]. split; [done|].
  split; [|split].
  - split; [|by intros ->]. apply value_inj; try done. congruence.
  - unfold getSequenceNumber, value. rewrite <- La. generalize 0.
    clear. induction a as [|x a IH]; intros acc.
    + by destruct rest.
    + cbn [length getSequenceNumber_loop app fold_left]. apply IH.
  - intros short Hs. by apply getSequenceNumber_loop_short.
Qed.

Lemma getSequenceNumber_injective_witness :
  ∃ Na Nb,
    getSequenceNumber 2 [0; 1; 0; 1] = Some Na ∧
    getSequenceNumber 2 [1; 0; 1; 0] = Some Nb ∧
    Na = value 2 [0; 1; 0; 1] ∧
    0 ≤ Na < Z.of_nat 2 ^ Z.of_nat (len 2) ∧
    (Na = Nb ↔ [0; 1; 0; 1] = [1; 0; 1; 0]) ∧
    getSequenceNumber 2 ([0; 1; 0; 1] ++ [7; 7]) = Some Na ∧
    (∀ short, (length short < len 2)%nat → getSequenceNumber 2 short = None).
Proof.
  apply (getSequenceNumber_injective 2 [0; 1; 0; 1] [1; 0; 1; 0] [7; 7]);
    try reflexivity; repeat constructor; lia.
Defined.

(** ** ThreadSequenceCheckers.c *)

Section Relabel.

Variable f : Z → Z.
Hypothesis f_inj : ∀ x y, f x = f y → x = y.

Lemma at_off_fmap a p off : at_off (f <$> a) p off = f <$> at_off a p off.
Proof.
  unfold at_off. destruct (_ <? 0); [done|]. apply list_lookup_fmap.
Qed.

Lemma same_fmap a p i j : same (f <$> a) p i j = same a p i j.
Proof using f_inj.
  unfold same. rewrite !at_off_fmap.
  destruct (at_off a p i) as [x|]; [|done].
  destruct (at_off a p j) as [y|]; [|done].
  cbn. f_equal. destruct (Z.eqb_spec x y) as [->|Hne].
  - apply Z.eqb_refl.
  - apply Z.eqb_neq. intros E. by apply Hne, f_inj.
Qed.

Lemma differ_fmap a p i j : differ (f <$> a) p i j = differ a p i j.
Proof using f_inj. unfold differ. by rewrite same_fmap. Qed.

End Relabel.

(** X6: the nine checkers compare steps with each other only, so an
    injective renaming of the steps of the array does not change what a
    checker returns (a read out of bounds included); [swapMasks] over the
    whole array with any pair is such a renaming. *)
Theorem checkers_ignore_relabelling (f : Z → Z) (a : list Z) (p : nat)
    (x y : Z) :
  (∀ u v, f u = f v → u = v) →
  (checkStepsIn01020 (f <$> a) p = checkStepsIn01020 a p ∧
   checkStepsIn01021 (f <$> a) p = checkStepsIn01021 a p ∧
   checkStepsIn01023 (f <$> a) p = checkStepsIn01023 a p ∧
   checkStepsIn0120 (f <$> a) p = checkStepsIn0120 a p ∧
   checkStepsIn0123 (f <$> a) p = checkStepsIn0123 a p ∧
   checkStepsForLower01021 (f <$> a) p = checkStepsForLower01021 a p ∧
   checkStepsForLower01023 (f <$> a) p = checkStepsForLower01023 a p ∧
   checkStepsForLower0120 (f <$> a) p = checkStepsForLower0120 a p ∧
   checkStepsForLower0123 (f <$> a) p = checkStepsForLower0123 a p) ∧
  ∃ a', swapMasks a x y (length a) = Some a' ∧
        checkStepsIn01020 a' p = checkStepsIn01020 a p ∧
        checkStepsIn01021 a' p = checkStepsIn01021 a p ∧
        checkStepsIn01023 a' p = checkStepsIn01023 a p ∧
        checkStepsIn0120 a' p = checkStepsIn0120 a p ∧
        checkStepsIn0123 a' p = checkStepsIn0123 a p ∧
        checkStepsForLower01021 a' p = checkStepsForLower01021 a p ∧
        checkStepsForLower01023 a' p = checkStepsForLower01023 a p ∧
        checkStepsForLower0120 a' p = checkStepsForLower0120 a p ∧
        checkStepsForLower0123 a' p = checkStepsForLower0123 a p.
Proof.
  intros Hinj.
  assert (∀ g : Z → Z, (∀ u v, g u = g v → u = v) →
    checkStepsIn01020 (g <$> a) p = checkStepsIn01020 a p ∧
    checkStepsIn01021 (g <$> a) p = checkStepsIn01021 a p ∧
    checkStepsIn01023 (g <$> a) p = checkStepsIn01023 a p ∧
    checkStepsIn0120 (g <$> a) p = checkStepsIn0120 a p ∧
    checkStepsIn0123 (g <$> a) p = checkStepsIn0123 a p ∧
    checkStepsForLower01021 (g <$> a) p = checkStepsForLower01021 a p ∧
    checkStepsForLower01023 (g <$> a) p = checkStepsForLower01023 a p ∧
    checkStepsForLower0120 (g <$> a) p = checkStepsForLower0120 a p ∧
    checkStepsForLower0123 (g <$> a) p = checkStepsForLower0123 a p) as Hall.
  { intros g Hg.
    unfold checkStepsIn01020, checkStepsIn01021, checkStepsIn01023,
      checkStepsIn0120, checkStepsIn0123, checkStepsForLower01021,
      checkStepsForLower01023, checkStepsForLower0120,
      checkStepsForLower0123.
    by rewrite ?(differ_fmap g Hg), ?(same_fmap g Hg). }
  split; [by apply Hall|].
  exists (swap_one x y <$> a). split; [apply swap_spec|].
  apply Hall. intros u v E.
  by rewrite <- (swap_one_involutive x y u), E, swap_one_involutive.
Qed.

Lemma checkers_ignore_relabelling_witness :
  let a := [1; 2; 1; 4; 1; 2; 8; 2] in
  let f := Z.mul 2 in
  (checkStepsIn01020 (f <$> a) 0 = checkStepsIn01020 a 0 ∧
   checkStepsIn01021 (f <$> a) 0 = checkStepsIn01021 a 0 ∧
   checkStepsIn01023 (f <$> a) 0 = checkStepsIn01023 a 0 ∧
   checkStepsIn0120 (f <$> a) 0 = checkStepsIn0120 a 0 ∧
   checkStepsIn0123 (f <$> a) 0 = checkStepsIn0123 a 0 ∧
   checkStepsForLower01021 (f <$> a) 0 = checkStepsForLower01021 a 0 ∧
   checkStepsForLower01023 (f <$> a) 0 = checkStepsForLower01023 a 0 ∧
   checkStepsForLower0120 (f <$> a) 0 = checkStepsForLower0120 a 0 ∧
   checkStepsForLower0123 (f <$> a) 0 = checkStepsForLower0123 a 0) ∧
  ∃ a', swapMasks a 1 4 (length a) = Some a' ∧
        checkStepsIn01020 a' 0 = checkStepsIn01020 a 0 ∧
        checkStepsIn01021 a' 0 = checkStepsIn01021 a 0 ∧
        checkStepsIn01023 a' 0 = checkStepsIn01023 a 0 ∧
        checkStepsIn0120 a' 0 = checkStepsIn0120 a 0 ∧
        checkStepsIn0123 a' 0 = checkStepsIn0123 a 0 ∧
        checkStepsForLower01021 a' 0 = checkStepsForLower01021 a 0 ∧
        checkStepsForLower01023 a' 0 = checkStepsForLower01023 a 0 ∧
        checkStepsForLower0120 a' 0 = checkStepsForLower0120 a 0 ∧
        checkStepsForLower0123 a' 0 = checkStepsForLower0123 a 0.
Proof.
  apply (checkers_ignore_relabelling (Z.mul 2) [1; 2; 1; 4; 1; 2; 8; 2] 0
           1 4).
  intros u v. lia.
Defined.

(** X7: what a thread skips as belonging to a lower thread is what the
    lower threads accept. Looking back from the last step of a window,
    [checkStepsForLower01021] is [checkStepsIn01020] on the window,
    [checkStepsForLower01023] is [checkStepsIn01020 || checkStepsIn01021],
    [checkStepsForLower0123] is "the first and the third step are the same"
    or [checkStepsIn0120], and [checkStepsForLower0120] is "the first and
    the third step are the same", which for a window of five steps in the
    array is the disjunction of the three checkers of the 010 threads. *)
Theorem checkStepsForLower_is_lower_In (a : list Z) (p : nat) :
  checkStepsForLower01021 a (p + 4) = checkStepsIn01020 a p ∧
  checkStepsForLower01023 a (p + 4)
  = or_else (checkStepsIn01020 a p) (checkStepsIn01021 a p) ∧
  checkStepsForLower0123 a (p + 3)
  = or_else (same a p 0 2) (checkStepsIn0120 a p) ∧
  checkStepsForLower0120 a (p + 2) = same a p 0 2 ∧
  ((p + 4 < length a)%nat →
   same a p 0 2
   = or_else (checkStepsIn01020 a p)
       (or_else (checkStepsIn01021 a p) (checkStepsIn01023 a p))).
Proof.
  assert (∀ (k : nat) (i i' : Z), i' = i + Z.of_nat k → 0 ≤ i' →
            at_off a (p + k) i = at_off a p i') as Hoff.
  { intros k i i' -> Hi. unfold at_off.
    rewrite !(proj2 (Z.ltb_ge _ _)) by lia. f_equal. lia. }
  assert (∀ (k : nat) (i j i' j' : Z),
            i' = i + Z.of_nat k → j' = j + Z.of_nat k → 0 ≤ i' → 0 ≤ j' →
            same a (p + k) i j = same a p i' j') as Hsame.
  { intros k i j i' j' Hi Hj Hi' Hj'. unfold same.
    by rewrite (Hoff k i i'), (Hoff k j j'). }
  assert (∀ i j, same a p i j = same a p j i) as Hsym.
  { intros i j. unfold same.
    destruct (at_off a p i) as [x|], (at_off a p j) as [y|]; try done.
    cbn. by rewrite Z.eqb_sym. }
  split_and!.
  - unfold checkStepsForLower01021, checkStepsIn01020.
    by rewrite (Hsame 4%nat (-4) (-2) 0 2), (Hsame 4%nat (-2) 0 2 4) by lia.
  - unfold checkStepsForLower01023, checkStepsIn01020, checkStepsIn01021.
    rewrite (Hsame 4%nat (-4) (-2) 0 2), (Hsame 4%nat 0 (-4) 4 0),
      (Hsame 4%nat 0 (-3) 4 1) by lia.
    rewrite (Hsym 4 0), (Hsym 4 1).
    unfold same, and_then, or_else.
    destruct (at_off a p 0) as [x0|]; [|done].
    destruct (at_off a p 2) as [x2|]; [|done]. cbn.
    destruct (Z.eqb_spec x0 x2) as [->|Hne]; [|done].
    destruct (at_off a p 4) as [x4|]; [|done]. cbn.
    destruct (x2 =? x4); [done|]. by destruct (at_off a p 1).
  - unfold checkStepsForLower0123, checkStepsIn0120.
    by rewrite (Hsame 3%nat (-3) (-1) 0 2), (Hsame 3%nat (-3) 0 0 3) by lia.
  - unfold checkStepsForLower0120.
    by rewrite (Hsame 2%nat (-2) 0 0 2) by lia.
  - intros Hp.
    unfold checkStepsIn01020, checkStepsIn01021, checkStepsIn01023, differ,
      same, and_then, or_else, at_off.
    rewrite !(proj2 (Z.ltb_ge _ _)) by lia.
    destruct (lookup_lt_is_Some_2 a (Z.to_nat (Z.of_nat p + 0)) ltac:(lia))
      as [x0 ->].
    destruct (lookup_lt_is_Some_2 a (Z.to_nat (Z.of_nat p + 1)) ltac:(lia))
      as [x1 ->].
    destruct (lookup_lt_is_Some_2 a (Z.to_nat (Z.of_nat p + 2)) ltac:(lia))
      as [x2 ->].
    destruct (lookup_lt_is_Some_2 a (Z.to_nat (Z.of_nat p + 4)) ltac:(lia))
      as [x4 ->].
    cbn. destruct (Z.eqb_spec x0 x2) as [->|Hne]; [|done]. cbn.
    destruct (x2 =? x4) eqn:E24; [done|]. cbn.
    destruct (x1 =? x4) eqn:E14; [done|]. cbn.
    by rewrite (Z.eqb_sym x4 x2), E24, (Z.eqb_sym x4 x1), E14.
Qed.

(** X8: a window of steps is accepted by at most one thread. When the first
    two steps of the window differ and the third and fourth differ (as
    neighbouring steps of a Gray code do), no two of the five
    [checkStepsIn] functions return true on it. *)
Theorem checkStepsIn_exclusive (a : list Z) (p : nat) (x0 x1 x2 x3 : Z) :
  a !! p = Some x0 → a !! (p + 1)%nat = Some x1 →
  a !! (p + 2)%nat = Some x2 → a !! (p + 3)%nat = Some x3 →
  x0 ≠ x1 → x2 ≠ x3 →
  let accepted :=
    [checkStepsIn01020 a p; checkStepsIn01021 a p; checkStepsIn01023 a p;
     checkStepsIn0120 a p; checkStepsIn0123 a p] in
  (length (filter (λ r, r = Some true) accepted) ≤ 1)%nat.
Proof.
  intros H0 H1 H2 H3 H01 H23 accepted. unfold accepted.
  unfold checkStepsIn01020, checkStepsIn01021, checkStepsIn01023,
    checkStepsIn0120, checkStepsIn0123, differ, same, and_then, or_else,
    at_off.
  rewrite !(proj2 (Z.ltb_ge _ _)) by lia.
  replace (Z.to_nat (Z.of_nat p + 0)) with p by lia.
  replace (Z.to_nat (Z.of_nat p + 1)) with (p + 1)%nat by lia.
  replace (Z.to_nat (Z.of_nat p + 2)) with (p + 2)%nat by lia.
  replace (Z.to_nat (Z.of_nat p + 3)) with (p + 3)%nat by lia.
  replace (Z.to_nat (Z.of_nat p + 4)) with (p + 4)%nat by lia.
  rewrite H0, H1, H2, H3. cbn [mbind option_bind fmap option_fmap option_map].
  destruct (a !! (p + 4)%nat) as [x4|];
    cbn [mbind option_bind fmap option_fmap option_map];
    repeat match goal with
           | |- context [?u =? ?v] =>
               destruct (Z.eqb_spec u v);
               cbn [mbind option_bind fmap option_fmap option_map negb]
           end;
    try congruence; vm_compute; lia.
Qed.

Lemma checkStepsIn_exclusive_witness :
  let a := [1; 2; 4; 1; 8; 1] in
  let accepted :=
    [checkStepsIn01020 a 0; checkStepsIn01021 a 0; checkStepsIn01023 a 0;
     checkStepsIn0120 a 0; checkStepsIn0123 a 0] in
  (length (filter (λ r, r = Some true) accepted) ≤ 1)%nat.
Proof.
  apply (checkStepsIn_exclusive [1; 2; 4; 1; 8; 1] 0 1 2 4 1);
    try reflexivity; lia.
Defined.

(** ** The reduced queues of [main] *)

Lemma mask_indices_length n k : length (mask_indices n k) = (n - k)%nat.
Proof. unfold mask_indices. by rewrite length_fmap, length_seq. Qed.

Lemma mask_indices_NoDup n k : NoDup (mask_indices n k).
Proof.
  unfold mask_indices. apply NoDup_fmap_2_strong; [|apply NoDup_seq].
  intros i j Hi Hj E. apply elem_of_seq in Hi, Hj.
  apply (f_equal log2) in E. rewrite !log2_pow2 in E. lia.
Qed.

Lemma mask_indices_to_mask n k :
  (n ≤ 16)%nat → Forall (λ x, to_mask x = x) (mask_indices n k).
Proof.
  intros Hn. apply Forall_fmap, Forall_forall. intros i Hi.
  apply elem_of_seq in Hi. cbn. unfold to_mask. apply Z.mod_small.
  split; [apply Z.pow_nonneg; lia|].
  change 65536 with (2 ^ 16). apply Z.pow_lt_mono_r; lia.
Qed.

Lemma mask_indices_valid n k : Forall (valid_mask n) (mask_indices n k).
Proof.
  apply Forall_fmap, Forall_forall. intros i Hi.
  apply elem_of_seq in Hi. cbn. exists (n - 1 - i)%nat. split; [lia|done].
Qed.

(** X9: the queues [queueMinus3] ([k = 3]) and [queueMinus4] ([k = 4]) that
    [main] builds with [addQueueSwapsMasks] for the masks of the digits [k]
    to [NUM_DIGITS - 1]: the queue has [(NUM_DIGITS - k)!] entries, the
    first is the swap of 99 with 99, and the other swaps, applied one after
    another with [swapMasks], take the array of these masks through all its
    arrangements, each once. With fewer than two such digits the queue is
    the entry (99, 99) alone. The bound 16 is the width of [stepMask]. *)
Theorem reduced_queue_visits (n k : nat) :
  (n ≤ 16)%nat →
  let masks := mask_indices n k in
  ∃ queue visited,
    make_reduced_queue n k = Some (factZ (n - k), queue) ∧
    length queue = fact (n - k) ∧ queue !! 0%nat = Some (99, 99) ∧
    ((n ≤ k + 1)%nat → queue = [(99, 99)]) ∧
    Forall (valid_mask n) masks ∧ length masks = (n - k)%nat ∧
    visits masks (drop 1 queue) = Some visited ∧
    length visited = fact (n - k) ∧ NoDup visited ∧
    ∀ p, p ≡ₚ masks ↔ p ∈ visited.
Proof.
  intros Hn masks. unfold make_reduced_queue.
  pose proof (factZ_mono (n - k) 20 ltac:(lia)) as Hle.
  assert (factZ 20 = 2432902008176640000) as E20 by (vm_compute; reflexivity).
  pose proof (factZ_pos (n - k)) as Hpos.
  rewrite factorial_loop_spec by lia. rewrite Z.mul_1_l.
  clear E20 Hle.
  rewrite <- fact_factZ, Nat2Z.id. pose proof (lt_O_fact (n - k)) as Hf.
  rewrite wr_Some by (rewrite length_replicate; lia).
  cbn [mbind option_bind].
  set (queue0 := <[0%nat := (99, 99)]> (replicate (fact (n - k)) (0, 0))).
  assert (length queue0 = fact (n - k)) as Hq0
    by (unfold queue0; by rewrite length_insert, length_replicate).
  assert (queue0 !! 0%nat = Some (99, 99)) as Hq00
    by (unfold queue0; apply list_lookup_insert_eq;
        rewrite length_replicate; lia).
  pose proof (mask_indices_length n k) as Hlen. fold masks in Hlen.
  pose proof (mask_indices_NoDup n k) as Hnd. fold masks in Hnd.
  destruct (addQueueSwaps_gen_spec to_mask (n - k) masks Hlen)
    as [Hsl Hrun].
  destruct (swap_list_visits to_mask (n - k) masks masks Hlen Hnd Hnd
              ltac:(done) (mask_indices_to_mask n k Hn)) as [HV1 HV2].
  set (sw := swap_list to_mask (n - k) masks) in *.
  assert (∀ p, p ≡ₚ masks ↔ p ∈ masks :: visit masks sw) as Hall.
  { apply NoDup_all_permutations; [done| |].
    - intros v Hv. by destruct (HV2 v Hv).
    - simpl. rewrite length_visit, Hsl, Hlen. lia. }
  destruct (Nat.ltb_spec (k + 1) n) as [Hbig|Hsmall].
  - unfold addQueueSwapsMasks. fold masks. rewrite Hrun by lia.
    cbn [mbind option_bind snd].
    exists (overwrite queue0 1 sw), (masks :: visit masks sw).
    split_and!; try done; try apply mask_indices_valid; try (intros; lia).
    + rewrite overwrite_length; lia.
    + unfold overwrite. rewrite lookup_app_l by (rewrite length_take; lia).
      rewrite lookup_take. case_decide; [done|lia].
    + rewrite drop_overwrite by lia. apply visits_spec.
    + simpl. rewrite length_visit. lia.
  - assert (sw = []) as Hsw.
    { unfold sw. destruct (n - k)%nat as [|[|m]] eqn:E; [done|done|lia]. }
    assert (fact (n - k) = 1%nat) as Hf1.
    { destruct (n - k)%nat as [|[|m]] eqn:E; [done|done|lia]. }
    assert (queue0 = [(99, 99)]) as Hq1.
    { unfold queue0. by rewrite Hf1. }
    rewrite Hsw in *. exists queue0, [masks].
    split_and!; try done; try apply mask_indices_valid.
    by rewrite Hq1.
Qed.

Lemma reduced_queue_visits_witness :
  let masks := mask_indices 6 3 in
  ∃ queue visited,
    make_reduced_queue 6 3 = Some (factZ (6 - 3), queue) ∧
    length queue = fact (6 - 3) ∧ queue !! 0%nat = Some (99, 99) ∧
    ((6 ≤ 3 + 1)%nat → queue = [(99, 99)]) ∧
    Forall (valid_mask 6) masks ∧ length masks = (6 - 3)%nat ∧
    visits masks (drop 1 queue) = Some visited ∧
    length visited = fact (6 - 3) ∧ NoDup visited ∧
    ∀ p, p ≡ₚ masks ↔ p ∈ visited.
Proof. apply (reduced_queue_visits 6 3). lia. Defined.

(** ** The skeleton sequence for every number of digits *)

Lemma length_ruler i : length (ruler i) = (2 ^ i - 1)%nat.
Proof.
  induction i as [|i IH]; [done|]. cbn [ruler].
  rewrite !length_app, IH. cbn [length]. rewrite Nat.pow_succ_r'.
  assert (0 < 2 ^ i)%nat by (apply Nat.neq_0_lt_0, Nat.pow_nonzero; lia). lia.
Qed.

Lemma pow2_pos (i : nat) : (0 < 2 ^ i)%nat.
Proof. apply Nat.neq_0_lt_0, Nat.pow_nonzero. lia. Qed.

Lemma lowest_rounds_spec n k : ∀ i,
  (i + k ≤ n)%nat → (n ≤ 15)%nat →
  lowest_rounds k
    (ruler i ++ [2 ^ Z.of_nat i] ++ replicate (2 ^ n - 2 ^ i) 0, (2 ^ i)%nat)
  = Some (ruler (i + k) ++ [2 ^ Z.of_nat (i + k)]
            ++ replicate (2 ^ n - 2 ^ (i + k)) 0, (2 ^ (i + k))%nat).
Proof.
  induction k as [|k IH]; intros i Hik Hn.
  - by rewrite Nat.add_0_r.
  - cbn [lowest_rounds]. unfold lowest_round at 1.
    pose proof (pow2_pos i) as Hi. pose proof (length_ruler i) as Hr.
    assert (2 ^ S i ≤ 2 ^ n)%nat as Hle by (apply Nat.pow_le_mono_r; lia).
    rewrite Nat.pow_succ_r' in Hle.
    set (R := ruler i ++ [2 ^ Z.of_nat i]).
    assert (length R = (2 ^ i)%nat) as HR
      by (unfold R; rewrite length_app, Hr; simpl; lia).
    replace (ruler i ++ [2 ^ Z.of_nat i] ++ replicate (2 ^ n - 2 ^ i) 0)
      with (R ++ replicate (2 ^ n - 2 ^ i) 0)
      by (unfold R; by rewrite <- app_assoc).
    unfold memcpy.
    rewrite length_app, length_replicate, HR.
    rewrite !(proj2 (Nat.leb_le _ _)) by lia. cbn [andb mbind option_bind].
    rewrite drop_0, !take_app_length' by done.
    rewrite (drop_app_ge R) by (rewrite HR; lia). rewrite HR.
    rewrite drop_replicate.
    assert (2 ^ S i = 2 ^ i + 2 ^ i)%nat as HSi
      by (rewrite Nat.pow_succ_r'; lia).
    replace (2 ^ n - 2 ^ i - (2 ^ i + 2 ^ i - 2 ^ i))%nat
      with (2 ^ n - 2 ^ S i)%nat by lia.
    assert ((R ++ R ++ replicate (2 ^ n - 2 ^ S i) 0)
              !! (2 ^ i + 2 ^ i - 1)%nat = Some (2 ^ Z.of_nat i)) as Hx.
    { rewrite lookup_app_r by lia. rewrite lookup_app_l by lia.
      rewrite HR. unfold R. rewrite lookup_app_r by lia. rewrite Hr.
      replace (2 ^ i + 2 ^ i - 1 - 2 ^ i - (2 ^ i - 1))%nat with 0%nat by lia.
      done. }
    rewrite Hx. cbn [mbind option_bind].
    rewrite wr_Some
      by (rewrite !length_app, length_replicate, HR; lia).
    cbn [mbind option_bind].
    assert (shl_mask (2 ^ Z.of_nat i) = 2 ^ Z.of_nat (S i)) as Hshl.
    { unfold shl_mask. rewrite Nat2Z.inj_succ, Z.pow_succ_r by lia.
      rewrite Z.mul_comm. apply Z.mod_small.
      split; [apply Z.mul_nonneg_nonneg; [lia|apply Z.pow_nonneg; lia]|].
      change 65536 with (2 * 2 ^ 15).
      assert (2 ^ Z.of_nat i ≤ 2 ^ 14) by (apply Z.pow_le_mono_r; lia). lia. }
    rewrite Hshl.
    assert (<[(2 ^ i + 2 ^ i - 1)%nat := 2 ^ Z.of_nat (S i)]>
              (R ++ R ++ replicate (2 ^ n - 2 ^ S i) 0)
            = ruler (S i) ++ [2 ^ Z.of_nat (S i)]
                ++ replicate (2 ^ n - 2 ^ S i) 0) as Hins.
    { rewrite insert_app_r_alt by lia. rewrite insert_app_l by lia.
      rewrite HR. unfold R at 2. rewrite insert_app_r_alt by lia.
      rewrite Hr.
      replace (2 ^ i + 2 ^ i - 1 - 2 ^ i - (2 ^ i - 1))%nat with 0%nat by lia.
      cbn [ruler list_insert insert]. unfold R.
      by rewrite <- !app_assoc. }
    rewrite Hins.
    replace (S (2 ^ i + 2 ^ i - 1)) with (2 ^ S i)%nat
      by (rewrite Nat.pow_succ_r'; lia).
    rewrite (IH (S i)) by lia.
    by replace (S i + k)%nat with (i + S k)%nat by lia.
Qed.

Lemma make_lowest_ruler n :
  (1 ≤ n ≤ 15)%nat →
  make_lowest n = Some (ruler n ++ [2 ^ (Z.of_nat n - 1)]).
Proof.
  intros Hn. unfold make_lowest, len.
  pose proof (pow2_pos n) as Hp. pose proof (length_ruler n) as Hr.
  rewrite wr_Some by (rewrite length_replicate; lia).
  cbn [mbind option_bind].
  assert (<[0%nat := 1]> (replicate (2 ^ n) 0)
          = ruler 0 ++ [2 ^ Z.of_nat 0] ++ replicate (2 ^ n - 1) 0) as ->.
  { cbn [ruler app]. destruct (2 ^ n)%nat as [|m] eqn:E; [lia|].
    cbn. by rewrite Nat.sub_0_r. }
  pose proof (lowest_rounds_spec n n 0 ltac:(lia) ltac:(lia)) as Hrounds.
  change (2 ^ 0)%nat with 1%nat in Hrounds.
  change (0 + n)%nat with n in Hrounds. rewrite Hrounds.
  rewrite Nat.sub_diag. cbn [replicate mbind option_bind fst].
  rewrite app_nil_r.
  rewrite lookup_app_r by lia. rewrite Hr, Nat.sub_diag.
  cbn [lookup list_lookup mbind option_bind].
  rewrite wr_Some by (rewrite length_app, Hr; simpl; lia).
  rewrite insert_app_r_alt by lia. rewrite Hr, Nat.sub_diag.
  cbn [list_insert insert]. do 3 f_equal.
  rewrite Z.shiftr_div_pow2 by lia.
  replace (Z.of_nat n) with (Z.succ (Z.of_nat n - 1)) at 1 by lia.
  rewrite Z.pow_succ_r by lia. rewrite Z.mul_comm.
  change (2 ^ 1) with 2. by rewrite Z.div_mul.
Qed.

(** ** The skeleton sequence is a cyclic Gray code *)

(** The value after all the steps. *)
Lemma walk_app v a b :
  walk v (a ++ b) = walk v a ++ walk (fold_left Z.lxor a v) b.
Proof.
  revert v. induction a as [|m a IH]; intros v; [done|].
  cbn [app walk fold_left]. by rewrite IH.
Qed.

Lemma walk_lxor v u s : walk (Z.lxor v u) s = Z.lxor v <$> walk u s.
Proof.
  revert u. induction s as [|m s IH]; intros u; [done|].
  cbn [walk fmap list_fmap]. rewrite !Z.lxor_assoc. by rewrite IH.
Qed.

Lemma fold_lxor v s : fold_left Z.lxor s v = Z.lxor v (fold_left Z.lxor s 0).
Proof.
  revert v. induction s as [|m s IH]; intros v.
  - cbn. by rewrite Z.lxor_0_r.
  - cbn [fold_left]. rewrite (IH (Z.lxor v m)), (IH (Z.lxor 0 m)).
    rewrite Z.lxor_0_l. by rewrite Z.lxor_assoc.
Qed.

Lemma length_walk v s : length (walk v s) = length s.
Proof. revert v. induction s as [|m s IH]; intros v; simpl; auto. Qed.

Lemma lxor_below (i : nat) a b :
  0 ≤ a < 2 ^ Z.of_nat i → 0 ≤ b < 2 ^ Z.of_nat i →
  0 ≤ Z.lxor a b < 2 ^ Z.of_nat i.
Proof.
  intros Ha Hb. split; [apply Z.lxor_nonneg; lia|].
  destruct (Z.eq_dec (Z.lxor a b) 0) as [->|Hne]; [lia|].
  assert (0 < Z.lxor a b) as Hpos
    by (pose proof (proj2 (Z.lxor_nonneg a b) ltac:(lia)); lia).
  apply Z.log2_lt_pow2; [done|].
  pose proof (Z.log2_lxor a b ltac:(lia) ltac:(lia)) as Hlog.
  assert (∀ c, 0 ≤ c < 2 ^ Z.of_nat i → c ≠ 0 → Z.log2 c < Z.of_nat i)
    as Hl by (intros c Hc Hc0; apply Z.log2_lt_pow2; lia).
  destruct (Z.eq_dec a 0) as [->|Ha0].
  - rewrite Z.lxor_0_l in *. by apply Hl.
  - destruct (Z.eq_dec b 0) as [->|Hb0].
    + rewrite Z.lxor_0_r in *. by apply Hl.
    + pose proof (Hl a Ha Ha0). pose proof (Hl b Hb Hb0). lia.
Qed.

Lemma lxor_pow2_add (i : nat) a :
  0 ≤ a < 2 ^ Z.of_nat i → Z.lxor a (2 ^ Z.of_nat i) = a + 2 ^ Z.of_nat i.
Proof.
  intros Ha. symmetry. apply Z.add_nocarry_lxor.
  apply Z.bits_inj'. intros j Hj. rewrite Z.land_spec, Z.bits_0.
  rewrite Z.pow2_bits_eqb by lia.
  destruct (Z.eqb_spec (Z.of_nat i) j) as [<-|]; [|apply andb_false_r].
  rewrite andb_true_r.
  destruct (Z.eq_dec a 0) as [->|Ha0]; [apply Z.bits_0|].
  apply Z.bits_above_log2; [lia|]. apply Z.log2_lt_pow2; lia.
Qed.

Lemma ruler_valid i n : (i ≤ n)%nat → Forall (valid_mask n) (ruler i).
Proof.
  induction i as [|i IH]; intros Hi; [apply Forall_nil_2|].
  cbn [ruler]. rewrite !Forall_app. split_and!.
  - apply IH. lia.
  - apply Forall_singleton. exists i. split; [lia|done].
  - apply IH. lia.
Qed.

(** The values reached by the steps of [ruler i], with the value 0 at the
    start: different from each other, below [2 ^ i], and the last of them
    is the mask of the highest digit. *)
Lemma ruler_walk i :
  NoDup (0 :: walk 0 (ruler i)) ∧
  Forall (λ w, 0 ≤ w < 2 ^ Z.of_nat i) (0 :: walk 0 (ruler i)) ∧
  fold_left Z.lxor (ruler i) 0
  = match i with O => 0 | S i' => 2 ^ Z.of_nat i' end.
Proof.
  induction i as [|i (Hnd & Hlt & Hend)].
  - split_and!; [apply NoDup_singleton|by apply Forall_singleton|done].
  - set (W := walk 0 (ruler i)) in *.
    set (e := fold_left Z.lxor (ruler i) 0) in *.
    assert (0 ≤ e < 2 ^ Z.of_nat i) as He.
    { rewrite Hend. destruct i as [|i']; [simpl; lia|].
      split; [apply Z.pow_nonneg; lia|]. apply Z.pow_lt_mono_r; lia. }
    set (c := Z.lxor e (2 ^ Z.of_nat i)).
    assert (0 :: walk 0 (ruler (S i)) = (0 :: W) ++ (Z.lxor c <$> (0 :: W)))
      as Hwalk.
    { cbn [ruler]. rewrite walk_app. fold W e. cbn [app walk].
      fold c. cbn [fmap list_fmap]. rewrite Z.lxor_0_r.
      rewrite <- (Z.lxor_0_r c) at 2. by rewrite walk_lxor. }
    assert (∀ w, 0 ≤ w < 2 ^ Z.of_nat i →
                 Z.lxor c w = Z.lxor e w + 2 ^ Z.of_nat i ∧
                 0 ≤ Z.lxor e w < 2 ^ Z.of_nat i) as Hc.
    { intros w Hw. pose proof (lxor_below i e w He Hw) as Hew.
      split; [|done]. unfold c.
      rewrite Z.lxor_assoc, (Z.lxor_comm (2 ^ Z.of_nat i) w), <- Z.lxor_assoc.
      by apply lxor_pow2_add. }
    rewrite Hwalk. split_and!.
    + apply NoDup_app. split_and!; [done| |].
      * intros x Hx (w & -> & Hw)%list_elem_of_fmap.
        rewrite Forall_forall in Hlt.
        pose proof (Hlt _ Hx). destruct (Hc w (Hlt _ Hw)). lia.
      * apply NoDup_fmap_2; [|done]. intros x y Hxy.
        apply (f_equal (Z.lxor c)) in Hxy.
        by rewrite <- !Z.lxor_assoc, Z.lxor_nilpotent, !Z.lxor_0_l in Hxy.
    + rewrite Nat2Z.inj_succ, Z.pow_succ_r by lia.
      apply Forall_app. split.
      * eapply Forall_impl; [exact Hlt|]. intros w Hw. cbn in Hw. lia.
      * apply Forall_fmap. eapply Forall_impl; [exact Hlt|].
        intros w Hw. cbn in *. destruct (Hc w Hw). lia.
    + cbn [ruler]. rewrite !fold_left_app. fold e. cbn [fold_left].
      rewrite fold_lxor. fold e c. unfold c.
      rewrite (Z.lxor_comm e), Z.lxor_assoc, Z.lxor_nilpotent.
      apply Z.lxor_0_r.
Qed.

(** X10: for every number of digits from 1 to 15, the array [lowest] that
    [main] builds by doubling is the binary reflected Gray code
    ([ruler n], closed by the mask of the highest digit), and it is a cyclic
    Gray code: [2 ^ n] step masks whose running XOR from 0 takes [2 ^ n]
    different values and ends at 0. (With 16 digits the doubling overflows
    the 16 bits of [stepMask].) *)
Theorem lowest_is_gray_cycle (n : nat) :
  (1 ≤ n ≤ 15)%nat →
  ∃ lowest,
    make_lowest n = Some lowest ∧
    lowest = ruler n ++ [2 ^ (Z.of_nat n - 1)] ∧
    gray_cycle n lowest.
Proof.
  intros Hn. exists (ruler n ++ [2 ^ (Z.of_nat n - 1)]).
  split; [by apply make_lowest_ruler|]. split; [done|].
  destruct (ruler_walk n) as (Hnd & Hlt & Hend).
  destruct n as [|n']; [lia|].
  replace (Z.of_nat (S n') - 1) with (Z.of_nat n') by lia.
  pose proof (length_ruler (S n')) as Hr. pose proof (pow2_pos (S n')) as Hp.
  unfold gray_cycle. rewrite walk_app. cbn [walk].
  rewrite Hend, Z.lxor_nilpotent. split_and!.
  - rewrite length_app, Hr. unfold len. cbn [length]. lia.
  - apply Forall_app. split; [by apply ruler_valid|].
    apply Forall_singleton. exists n'. split; [lia|done].
  - apply NoDup_cons in Hnd as [Hnot Hnd]. apply NoDup_app.
    split_and!; [done| |apply NoDup_singleton].
    intros x Hx ->%list_elem_of_singleton. done.
  - apply last_snoc.
Qed.

Lemma lowest_is_gray_cycle_witness :
  ∃ lowest,
    make_lowest 5 = Some lowest ∧
    lowest = ruler 5 ++ [2 ^ (Z.of_nat 5 - 1)] ∧
    gray_cycle 5 lowest.
Proof. apply (lowest_is_gray_cycle 5). lia. Defined.

(** ** The rotation loop of [extrapolateSeeds] *)

(** X11: the [do ... while] loop over the rotations in [extrapolateSeeds],
    run on a table that holds the keys inserted before: it returns (within
    [len] rotations), and it reports "not unique" exactly when the sequence
    number of one of the [len] rotations of the sequence is among the
    keys. *)
Theorem rotation_loop_finds_rotation (n M fuel : nat) (table : GMPHashTable)
    (mt keys s : list Z) :
  (2 ≤ n)%nat → (0 < M)%nat → Z.of_nat M < 2 ^ 64 →
  (∀ d : nat, (1 ≤ d ≤ n - 1)%nat → Z.gcd (Z.of_nat d) (Z.of_nat M) = 1) →
  GMP_size table = M → length (GMP_nodes table) = M →
  (length keys < M)%nat → (M ≤ fuel)%nat →
  make_multiplesTable n = Some mt → digits n s → length s = len n →
  ∃ table' N,
    GMPHashInsert_all n fuel (emptyGMPTable table) keys = Some table' ∧
    getSequenceNumber n s = Some N ∧
    rotation_loop n mt table' N N s = Some (bool_decide (known n keys s)) ∧
    (known n keys s ↔
     ∃ i N', (i < len n)%nat ∧
             getSequenceNumber n (rotate_left i s) = Some N' ∧ N' ∈ keys).
Proof.
  intros Hn HM HM64 Hco Hsize Hnodes Hlen Hfuel Hmt Hd Hl.
  pose proof (TableInv_empty n M Hn HM HM64 Hco table Hsize Hnodes) as H0.
  destruct (GMPHashInsert_all_spec n M Hn HM HM64 Hco fuel keys _ [] H0 Hfuel
              ltac:(simpl; lia)) as (t & Hrun & Hinv).
  rewrite app_nil_r in Hinv.
  exists t, (value n s). split; [done|].
  split; [by apply getSequenceNumber_value|].
  assert (∀ i, (i < len n)%nat →
            getSequenceNumber n (rotate_left i s)
            = Some (value n (rotate_left i s))) as Hrot.
  { intros i Hi. apply getSequenceNumber_value.
    rewrite rotate_left_length; lia. }
  assert (known n (reverse keys) s ↔ known n keys s) as Hrev.
  { rewrite !known_iff. by setoid_rewrite elem_of_reverse. }
  split.
  - rewrite (rotation_loop_spec n M Hn HM HM64 Hco mt Hmt t (reverse keys))
      by done.
    f_equal. by apply bool_decide_ext.
  - rewrite known_iff. split.
    + intros (i & Hi & Hin). exists i, (value n (rotate_left i s)).
      split; [done|]. split; [by apply Hrot|done].
    + intros (i & N' & Hi & HN & Hin). exists i. split; [done|].
      rewrite (Hrot i Hi) in HN. by injection HN as ->.
Qed.

Lemma rotation_loop_finds_rotation_witness :
  ∃ table' N,
    GMPHashInsert_all 2 5 (emptyGMPTable (createGMPTable 5)) [10]
    = Some table' ∧
    getSequenceNumber 2 [0; 1; 0; 1] = Some N ∧
    rotation_loop 2 [0; 15] table' N N [0; 1; 0; 1]
    = Some (bool_decide (known 2 [10] [0; 1; 0; 1])) ∧
    (known 2 [10] [0; 1; 0; 1] ↔
     ∃ i N', (i < len 2)%nat ∧
             getSequenceNumber 2 (rotate_left i [0; 1; 0; 1]) = Some N' ∧
             N' ∈ [10]).
Proof.
  apply (rotation_loop_finds_rotation 2 5 5 (createGMPTable 5) [0; 15] [10]
           [0; 1; 0; 1]); try reflexivity; try lia.
  - intros d Hd. assert (d = 1)%nat as -> by lia. reflexivity.
  - simpl. lia.
  - repeat constructor; lia.
Defined.

(** ** The tables built in [main] *)

(** X12: the table of multiples that [main] builds for the rotation
    formula: for at least two digits it has one entry per digit [f], which
    is [f * (NUM_DIGITS ^ len - 1)]; with fewer than two digits the
    initialisation of entry 1 is a write outside the table. *)
Theorem multiplesTable_entries (n : nat) :
  ((2 ≤ n)%nat →
   ∃ mt, make_multiplesTable n = Some mt ∧ length mt = n ∧
         ∀ f : nat, (f < n)%nat →
           mt !! f
           = Some (Z.of_nat f * (Z.of_nat n ^ Z.of_nat (len n) - 1))) ∧
  ((n < 2)%nat → make_multiplesTable n = None).
Proof.
  split.
  - intros Hn. eexists. split; [by apply make_multiplesTable_spec|].
    split; [by rewrite length_fmap, length_seq|].
    intros f Hf. rewrite list_lookup_fmap, lookup_seq_lt by done. done.
  - intros Hn. unfold make_multiplesTable.
    destruct n as [|[|n]]; [done|done|lia].
Qed.

Lemma ctz_pos_odd p :
  ∃ q, Z.odd q = true ∧ 0 < q ∧ Z.pos p = 2 ^ ctz_pos p * q.
Proof.
  induction p as [p IH|p IH|].
  - exists (Z.pos p~1). split; [done|]. split; [lia|]. cbn [ctz_pos]. lia.
  - destruct IH as (q & Hodd & Hq & Hp). exists q. split; [done|].
    split; [done|]. cbn [ctz_pos].
    pose proof (proj1 (ctz_pos_spec p)).
    rewrite Z.pow_add_r by lia. change (Z.pos p~0) with (2 * Z.pos p). lia.
  - exists 1. done.
Qed.

(** X13: the array [halves] of [extrapolateSeeds] for a queue size below
    [2 ^ 31] (the range of its [int] entries): it starts with the odd part
    of the queue size, every entry is twice the entry before, and the last
    entry is the queue size itself. *)
Theorem make_halves_doubles (queueSize : Z) :
  0 < queueSize < 2 ^ 31 →
  let halves := make_halves queueSize in
  (∃ q, head halves = Some q ∧ Z.odd q = true ∧ 0 < q) ∧
  (∀ i x y, halves !! i = Some x → halves !! S i = Some y → y = 2 * x) ∧
  last halves = Some queueSize ∧
  length halves = numHalves queueSize.
Proof.
  intros HQ halves.
  destruct (make_halves_spec queueSize HQ) as (v & q & Hq & HQq & _ & Hl & Hh).
  fold halves in Hl, Hh. split_and!.
  - exists q. rewrite head_lookup, (Hh 0%nat) by lia.
    split; [f_equal; simpl; lia|]. split; [|done].
    destruct queueSize as [|p|p]; try lia.
    destruct (ctz_pos_odd p) as (q' & Hodd & Hq' & Hp).
    destruct (ctz_pos_spec p) as [Hc _].
    assert (v = Z.to_nat (ctz_pos p)) as Hv.
    { unfold halves, make_halves in Hl. rewrite length_fmap, length_seq in Hl.
      unfold numHalves, builtin_ctz in Hl.
      rewrite Z.mod_small in Hl by lia. cbn [log2] in Hl. lia. }
    assert (q = q') as ->; [|done].
    rewrite Hv, Z2Nat.id in HQq by done.
    assert (0 < 2 ^ ctz_pos p) by (apply Z.pow_pos_nonneg; lia). nia.
  - intros i x y Hx Hy.
    assert (S i ≤ v)%nat as Hi by (apply lookup_lt_Some in Hy; lia).
    rewrite (Hh i) in Hx by lia. rewrite (Hh (S i)) in Hy by lia.
    injection Hx as <-. injection Hy as <-.
    rewrite Nat2Z.inj_succ, Z.pow_succ_r by lia. ring.
  - rewrite last_lookup, Hl. cbn [pred]. rewrite (Hh v) by lia.
    by rewrite HQq.
  - unfold halves, make_halves. by rewrite length_fmap, length_seq.
Qed.

Lemma make_halves_doubles_witness :
  let halves := make_halves 24 in
  (∃ q, head halves = Some q ∧ Z.odd q = true ∧ 0 < q) ∧
  (∀ i x y, halves !! i = Some x → halves !! S i = Some y → y = 2 * x) ∧
  last halves = Some 24 ∧
  length halves = numHalves 24.
Proof. apply (make_halves_doubles 24). lia. Defined.

(** ** The count of unique permutations *)

(** X14: the count of unique permutations that the pass of
    [extrapolateSeeds] for a seed returns is a divisor of [n!]: it is [n!]
    divided by the number of relabellings of the seed (among the [n!] that
    the queue visits) that are rotations of the seed. *)
Theorem unique_count_divides_factorial (n : nat) (seed : list Z) :
  (2 ≤ n ≤ 12)%nat → digits n seed → length seed = len n →
  let queueSize := make_queueSize n in
  ∃ queue mt,
    make_queue n = Some queue ∧ make_multiplesTable n = Some mt ∧
    ∀ table numGreyCodes,
      GMP_size table = Z.to_nat (wrap64 (queueSize * 2 + 1)) →
      length (GMP_nodes table) = GMP_size table →
      ∃ table1 total,
        extrapolateSeed n queueSize queue mt (make_halves queueSize) table
          numGreyCodes seed = Some (table1, total) ∧
        1 ≤ GMP_count table1 ≤ queueSize ∧
        (GMP_count table1 | queueSize) ∧
        GMP_count table1
        * Z.of_nat (length (filter (rot_equiv n seed) (processed n seed)))
        = queueSize.
Proof.
  intros Hn Hd Hl queueSize. unfold queueSize.
  rewrite make_queueSize_spec by lia.
  exists (full_queue n), ((λ j : nat, multiple n (Z.of_nat j)) <$> seq 0 n).
  pose proof (make_multiplesTable_spec n ltac:(lia)) as Hmt.
  split; [apply make_queue_spec; lia|]. split; [done|].
  intros table total Hsize Hnodes.
  rewrite <- (make_queueSize_spec n) in Hsize by lia.
  destruct (extrapolateSeed_spec n Hn seed (conj Hd Hl) table Hsize Hnodes
              _ Hmt total) as (t1 & H1 & Hc1 & _).
  exists t1. eexists. split; [exact H1|].
  pose proof (orbit_count_total n Hn seed (conj Hd Hl)) as Htot.
  unfold members in Htot.
  set (m := length (filter (rot_equiv n seed) (processed n seed))) in *.
  pose proof (fact_factZ n) as HfZ. pose proof (lt_O_fact n) as Hf.
  rewrite Hc1, <- HfZ.
  assert (Z.of_nat (orbit_count n seed) * Z.of_nat m = Z.of_nat (fact n))
    as HZ by lia.
  assert (1 ≤ Z.of_nat m) as Hm by nia.
  assert (1 ≤ Z.of_nat (orbit_count n seed)) as Hc by nia.
  split_and!; [done|nia| |done].
  exists (Z.of_nat m). lia.
Qed.

Lemma unique_count_divides_factorial_witness :
  let seed := [0; 1; 0; 2; 0; 1; 0; 3; 0; 1; 0; 2; 0; 1; 0; 3] in
  let queueSize := make_queueSize 4 in
  ∃ queue mt,
    make_queue 4 = Some queue ∧ make_multiplesTable 4 = Some mt ∧
    ∀ table numGreyCodes,
      GMP_size table = Z.to_nat (wrap64 (queueSize * 2 + 1)) →
      length (GMP_nodes table) = GMP_size table →
      ∃ table1 total,
        extrapolateSeed 4 queueSize queue mt (make_halves queueSize) table
          numGreyCodes seed = Some (table1, total) ∧
        1 ≤ GMP_count table1 ≤ queueSize ∧
        (GMP_count table1 | queueSize) ∧
        GMP_count table1
        * Z.of_nat (length (filter (rot_equiv 4 seed) (processed 4 seed)))
        = queueSize.
Proof.
  apply (unique_count_divides_factorial 4
           [0; 1; 0; 2; 0; 1; 0; 3; 0; 1; 0; 2; 0; 1; 0; 3]);
    [lia | repeat constructor; lia | reflexivity].
Defined.

(** ** Hashes and probes of the table of sequences *)

Lemma pow2_nat_Z (e : nat) : Z.of_nat (2 ^ e) = 2 ^ Z.of_nat e.
Proof. by rewrite Nat2Z.inj_pow. Qed.

Lemma pow2_nat_pos (e : nat) : (0 < 2 ^ e)%nat.
Proof. apply Nat.neq_0_lt_0, Nat.pow_nonzero. lia. Qed.

Lemma land_mask (x : Z) (e : nat) :
  Z.land x (2 ^ Z.of_nat e - 1) = x mod 2 ^ Z.of_nat e.
Proof.
  rewrite <- Z.land_ones by lia. f_equal.
  rewrite Z.ones_equiv. lia.
Qed.

Lemma wrap64_mask (x : Z) (e : nat) :
  (e ≤ 64)%nat →
  Z.land (wrap64 x) (2 ^ Z.of_nat e - 1) = x mod 2 ^ Z.of_nat e.
Proof.
  intros He. rewrite land_mask. unfold wrap64.
  apply Z.mod_mod_divide.
  exists (2 ^ (64 - Z.of_nat e)).
  rewrite <- Z.pow_add_r by lia. f_equal. lia.
Qed.

Lemma seqHash_loop_range prime (e : nat) k : ∀ key stepPtr hash,
  (e ≤ 64)%nat → (stepPtr + k ≤ length key)%nat →
  0 ≤ hash < 2 ^ Z.of_nat e →
  ∃ h, seqHash_loop prime (2 ^ Z.of_nat e - 1) k key stepPtr hash = Some h ∧
       0 ≤ h < 2 ^ Z.of_nat e.
Proof.
  induction k as [|k IH]; intros key stepPtr hash He Hk Hh.
  - by exists hash.
  - cbn [seqHash_loop].
    destruct (lookup_lt_is_Some_2 key stepPtr) as [s Hs]; [lia|].
    rewrite Hs. cbn [mbind option_bind]. apply IH; [done|lia|].
    rewrite wrap64_mask by done. apply Z.mod_pos_bound.
    apply Z.pow_pos_nonneg; lia.
Qed.

Lemma seqHash_loop_prefix prime mask k : ∀ key1 key2 stepPtr hash,
  take (stepPtr + k) key1 = take (stepPtr + k) key2 →
  seqHash_loop prime mask k key1 stepPtr hash
  = seqHash_loop prime mask k key2 stepPtr hash.
Proof.
  induction k as [|k IH]; intros key1 key2 stepPtr hash Ht; [done|].
  cbn [seqHash_loop].
  assert (key1 !! stepPtr = key2 !! stepPtr) as ->.
  { rewrite <- (lookup_take_lt key1 (stepPtr + S k)) by lia.
    rewrite <- (lookup_take_lt key2 (stepPtr + S k)) by lia. by rewrite Ht. }
  destruct (key2 !! stepPtr) as [s|]; [|done]. cbn [mbind option_bind].
  apply IH. by replace (S stepPtr + k)%nat with (stepPtr + S k)%nat by lia.
Qed.

Section SeqHashes.

Variable n : nat.
Variable e : nat.
Hypothesis He : (1 ≤ e ≤ 63)%nat.

Lemma len_half_le : (len n / 2 + (len n - len n / 2) = len n)%nat.
Proof using All.
  pose proof (Nat.Div0.div_le_upper_bound (len n) 2 (len n) ltac:(lia)). lia.
Qed.

Lemma seqHash1_range key :
  (len n ≤ length key)%nat →
  ∃ h, seqHash1 n key (2 ^ Z.of_nat e - 1) = Some h ∧ (h < 2 ^ e)%nat.
Proof using All.
  intros Hk. unfold seqHash1.
  destruct (seqHash_loop_range 5 e (len n) key 0 0) as (h & -> & Hh);
    [lia|lia| |].
  { split; [done|]. apply Z.pow_pos_nonneg; lia. }
  exists (Z.to_nat h). split; [done|].
  apply Nat2Z.inj_lt. rewrite pow2_nat_Z. lia.
Qed.

Lemma seqHash2_odd key :
  (len n ≤ length key)%nat →
  ∃ s, seqHash2 n key (2 ^ Z.of_nat e - 1) = Some s ∧
       Z.odd (Z.of_nat s) = true.
Proof using All.
  intros Hk. unfold seqHash2.
  assert (Z.shiftr (2 ^ Z.of_nat e - 1) 1 = 2 ^ Z.of_nat (e - 1) - 1) as ->.
  { rewrite Z.shiftr_div_pow2 by lia. change (2 ^ 1) with 2.
    replace (Z.of_nat e) with (Z.succ (Z.of_nat (e - 1))) by lia.
    rewrite Z.pow_succ_r by lia.
    assert (0 < 2 ^ Z.of_nat (e - 1)) by (apply Z.pow_pos_nonneg; lia).
    symmetry. apply Z.div_unique with 1; lia. }
  pose proof len_half_le as Hhalf.
  destruct (seqHash_loop_range 7 (e - 1) (len n - len n / 2) key
              (len n / 2) 0) as (h & -> & Hh); [lia|lia| |].
  { split; [done|]. apply Z.pow_pos_nonneg; lia. }
  cbn [mbind option_bind]. eexists. split; [done|].
  assert (2 ^ Z.of_nat (e - 1) ≤ 2 ^ 62) as Hle
    by (apply Z.pow_le_mono_r; lia).
  assert (Z.land h 1 = h mod 2) as Hland.
  { change 1 with (2 ^ Z.of_nat 1 - 1). by rewrite land_mask. }
  rewrite Hland. pose proof (Z.mod_pos_bound h 2 ltac:(lia)) as Hm.
  unfold wrap64. rewrite Z.mod_small by lia. rewrite Z2Nat.id by lia.
  rewrite Zmod_odd. destruct (Z.odd h) eqn:Eo; rewrite !Z.odd_add, Eo; done.
Qed.

Lemma odd_coprime_pow2 (s : nat) :
  Z.odd (Z.of_nat s) = true → Z.gcd (Z.of_nat s) (Z.of_nat (2 ^ e)) = 1.
Proof using All.
  intros Hodd. rewrite pow2_nat_Z. apply Z.bezout_1_gcd.
  destruct (Zodd_ex _ (proj1 (Zodd_bool_iff _) Hodd)) as [c Hc].
  clear He. induction e as [|e' (u & v & IH)].
  - exists 0, 1. simpl. lia.
  - exists (u * Z.of_nat s - c * 2 * u + v * 2 ^ Z.of_nat e'), (- (v * c)).
    rewrite Nat2Z.inj_succ, Z.pow_succ_r by lia.
    transitivity ((u * Z.of_nat s + v * 2 ^ Z.of_nat e')
                  * (Z.of_nat s - 2 * c)); [ring|].
    rewrite IH. lia.
Qed.

Lemma seq_next_mod (idx s : nat) :
  seq_next (2 ^ Z.of_nat e - 1) idx s = ((idx + s) mod 2 ^ e)%nat.
Proof using All.
  unfold seq_next. rewrite wrap64_mask by lia.
  apply Nat2Z.inj. rewrite Nat2Z.inj_mod, pow2_nat_Z, Nat2Z.inj_add.
  apply Z2Nat.id, Z.mod_pos_bound, Z.pow_pos_nonneg; lia.
Qed.

Lemma seq_probe_free_first (occupied : list bool) (s : nat) fuel :
  ∀ idx j,
  (idx < 2 ^ e)%nat → (j < fuel)%nat →
  (∀ i, (i < j)%nat → occupied !! probe_at (2 ^ e) idx s i = Some true) →
  occupied !! probe_at (2 ^ e) idx s j = Some false →
  seq_probe_free fuel occupied (2 ^ Z.of_nat e - 1) s idx
  = Some (probe_at (2 ^ e) idx s j).
Proof using All.
  pose proof (pow2_nat_pos e) as HM.
  induction fuel as [|fuel IH]; intros idx j Hidx Hj Hbefore Hfree; [lia|].
  cbn [seq_probe_free]. destruct j as [|j].
  - rewrite probe_at_0 in * by done. by rewrite Hfree.
  - pose proof (Hbefore 0%nat ltac:(lia)) as H0.
    rewrite probe_at_0 in H0 by done. rewrite H0. cbn [mbind option_bind].
    rewrite seq_next_mod. rewrite <- probe_at_S by done.
    apply IH; [by apply Nat.mod_upper_bound; lia|lia| |].
    + intros i Hi. rewrite probe_at_S by done. apply Hbefore. lia.
    + by rewrite probe_at_S.
Qed.

Lemma seq_probe_key_first (table : SeqHashTable) (key : list Z) (s : nat)
    fuel : ∀ idx j,
  Seq_modMask table = 2 ^ Z.of_nat e - 1 →
  (idx < 2 ^ e)%nat → (j < fuel)%nat →
  (∀ i, (i < j)%nat →
     Seq_occupied table !! probe_at (2 ^ e) idx s i = Some true ∧
     ∃ node, Seq_nodes table !! probe_at (2 ^ e) idx s i = Some node ∧
             memcmp_eq node key (len n) = Some false) →
  (Seq_occupied table !! probe_at (2 ^ e) idx s j = Some false ∨
   (Seq_occupied table !! probe_at (2 ^ e) idx s j = Some true ∧
    ∃ node, Seq_nodes table !! probe_at (2 ^ e) idx s j = Some node ∧
            memcmp_eq node key (len n) = Some true)) →
  seq_probe_key n fuel table key s idx
  = Some (if Seq_occupied table !! probe_at (2 ^ e) idx s j is Some true
          then inr () else inl (probe_at (2 ^ e) idx s j)).
Proof using All.
  pose proof (pow2_nat_pos e) as HM.
  induction fuel as [|fuel IH]; intros idx j Hmask Hidx Hj Hbefore Hstop;
    [lia|].
  cbn [seq_probe_key]. destruct j as [|j].
  - rewrite probe_at_0 in * by done.
    destruct Hstop as [Hfree|(Hocc & node & Hnode & Hsame)].
    + by rewrite Hfree.
    + rewrite Hocc. cbn [mbind option_bind]. rewrite Hnode.
      cbn [mbind option_bind]. by rewrite Hsame.
  - destruct (Hbefore 0%nat ltac:(lia)) as (H0 & node & Hnode & Hdiff).
    rewrite probe_at_0 in H0, Hnode by done. rewrite H0.
    cbn [mbind option_bind]. rewrite Hnode. cbn [mbind option_bind].
    rewrite Hdiff. cbn [mbind option_bind].
    rewrite Hmask, seq_next_mod. rewrite <- (probe_at_S _ idx s j) by done.
    apply IH; [done|by apply Nat.mod_upper_bound; lia|lia| |].
    + intros i Hi. rewrite probe_at_S by done. apply Hbefore. lia.
    + by rewrite probe_at_S.
Qed.

End SeqHashes.

(** ** The arrays of the table *)

Section SeqArraysFacts.

Variable n : nat.
Variable e : nat.
Hypothesis He : (1 ≤ e ≤ 63)%nat.

Lemma seq_probe_take key j :
  seq_probe n e (take (len n) key) j = seq_probe n e key j.
Proof using All.
  unfold seq_probe, seqHash1, seqHash2. pose proof (len_half_le n e He) as Hh.
  rewrite (seqHash_loop_prefix 5 _ (len n) (take (len n) key) key)
    by (by rewrite take_take, Nat.min_id).
  rewrite (seqHash_loop_prefix 7 _ _ (take (len n) key) key); [done|].
  rewrite Hh. by rewrite take_take, Nat.min_id.
Qed.

Section WithKey.

Variable key : list Z.
Hypothesis Hkey : (len n ≤ length key)%nat.

Lemma seq_hashes :
  ∃ h1 h2,
    seqHash1 n key (2 ^ Z.of_nat e - 1) = Some h1 ∧
    seqHash2 n key (2 ^ Z.of_nat e - 1) = Some h2 ∧
    (h1 < 2 ^ e)%nat ∧ Z.gcd (Z.of_nat h2) (Z.of_nat (2 ^ e)) = 1 ∧
    ∀ j, seq_probe n e key j = probe_at (2 ^ e) h1 h2 j.
Proof using All.
  destruct (seqHash1_range n e He key Hkey) as (h1 & H1 & Hlt).
  destruct (seqHash2_odd n e He key Hkey) as (h2 & H2 & Hodd).
  exists h1, h2. split_and!; try done.
  - by apply (odd_coprime_pow2 n e He).
  - intros j. unfold seq_probe. by rewrite H1, H2.
Qed.

Lemma seq_probe_lt j : (seq_probe n e key j < 2 ^ e)%nat.
Proof. apply probe_at_lt, pow2_nat_pos. Qed.

Lemma seq_probe_surjective b :
  (b < 2 ^ e)%nat → ∃ j, (j < 2 ^ e)%nat ∧ seq_probe n e key j = b.
Proof using All.
  intros Hb. destruct seq_hashes as (h1 & h2 & _ & _ & _ & Hg & Hp).
  destruct (probe_at_surjective (2 ^ e) h1 h2 b (pow2_nat_pos e) Hg Hb)
    as (j & Hj & Hpj).
  exists j. by rewrite Hp.
Qed.

Variable nodes : list (list Z).
Variable occupied : list bool.
Hypothesis Hnodes : length nodes = (2 ^ e)%nat.
Hypothesis Hocc : length occupied = (2 ^ e)%nat.

Lemma seq_occupied_bool p :
  (p < 2 ^ e)%nat → occupied !! p ≠ Some false → occupied !! p = Some true.
Proof using All.
  intros Hp Hn.
  destruct (lookup_lt_is_Some_2 occupied p) as [[] E]; [lia|done|done].
Qed.

(** The first probe for [key] that finds a free bucket. *)
Lemma seq_first_free :
  (∃ b, occupied !! b = Some false) →
  ∃ j, (j < 2 ^ e)%nat ∧
       occupied !! seq_probe n e key j = Some false ∧
       ∀ i, (i < j)%nat → occupied !! seq_probe n e key i = Some true.
Proof using All.
  intros [b Hb].
  assert (b < 2 ^ e)%nat as Hlt by (apply lookup_lt_Some in Hb; lia).
  destruct (seq_probe_surjective b Hlt) as (j & Hj & Hpj).
  destruct (first_such (λ j, occupied !! seq_probe n e key j = Some false)
              (2 ^ e)) as (j0 & Hj0 & Hfree & Hbefore).
  { exists j. by rewrite Hpj. }
  exists j0. split_and!; [done|done|].
  intros i Hi. apply seq_occupied_bool; [apply seq_probe_lt|].
  apply Hbefore, Hi.
Qed.

(** What the code that looks for a free bucket computes: the first hash,
    and the probing loop when the first bucket is occupied. *)
Lemma seq_free_slot fuel :
  (∃ b, occupied !! b = Some false) → (2 ^ e ≤ fuel)%nat →
  ∃ j h1 h2,
    (j < 2 ^ e)%nat ∧
    occupied !! seq_probe n e key j = Some false ∧
    (∀ i, (i < j)%nat → occupied !! seq_probe n e key i = Some true) ∧
    seqHash1 n key (2 ^ Z.of_nat e - 1) = Some h1 ∧
    (h1 < 2 ^ e)%nat ∧
    (occupied !! h1 = Some false → seq_probe n e key j = h1) ∧
    (occupied !! h1 = Some true →
     seqHash2 n key (2 ^ Z.of_nat e - 1) = Some h2 ∧
     seq_probe_free fuel occupied (2 ^ Z.of_nat e - 1) h2
       (seq_next (2 ^ Z.of_nat e - 1) h1 h2)
     = Some (seq_probe n e key j)).
Proof using All.
  intros Hfree Hfuel.
  destruct (seq_first_free Hfree) as (j & Hj & Hjfree & Hbefore).
  destruct seq_hashes as (h1 & h2 & H1 & H2 & Hlt & Hg & Hp).
  pose proof (pow2_nat_pos e) as HM.
  exists j, h1, h2. split_and!; try done.
  - intros H0. destruct j as [|j].
    + by rewrite Hp, probe_at_0.
    + pose proof (Hbefore 0%nat ltac:(lia)) as Hb0.
      rewrite Hp, probe_at_0 in Hb0 by done. congruence.
  - intros H0. split; [done|]. destruct j as [|j].
    { rewrite Hp, probe_at_0 in Hjfree by done. congruence. }
    rewrite (seq_next_mod n e He). rewrite Hp, <- probe_at_S by done.
    apply (seq_probe_free_first n e He);
      [apply Nat.mod_upper_bound; lia|lia|..].
    + intros i Hi. rewrite probe_at_S, <- Hp by done. apply Hbefore. lia.
    + by rewrite probe_at_S, <- Hp.
Qed.

End WithKey.

End SeqArraysFacts.

Section SeqArraysInv.

Variable n : nat.
Variable e : nat.
Hypothesis He : (1 ≤ e ≤ 63)%nat.

Lemma SeqArrays_empty :
  SeqArrays n e (replicate (2 ^ e) (replicate (len n) 0))
    (replicate (2 ^ e) false) [].
Proof using All.
  split.
  - apply length_replicate.
  - apply length_replicate.
  - apply filter_replicate_false.
  - apply Forall_replicate, length_replicate.
  - intros p Hp. apply lookup_replicate in Hp. by destruct Hp.
  - intros k Hk. by apply elem_of_nil in Hk.
Qed.

Lemma SeqArrays_free nodes occupied keys :
  SeqArrays n e nodes occupied keys → (length keys < 2 ^ e)%nat →
  ∃ b, occupied !! b = Some false.
Proof using All.
  intros [_ Ho Hf _ _ _] Hroom. apply exists_not_filtered. lia.
Qed.

Lemma SeqArrays_ext nodes occupied keys keys' :
  SeqArrays n e nodes occupied keys →
  (∀ k, k ∈ keys ↔ k ∈ keys') → length keys = length keys' →
  SeqArrays n e nodes occupied keys'.
Proof using All.
  intros [Hn Ho Hf Hs Hsound Hcomplete] Hiff Hlen. split; try done.
  - by rewrite <- Hlen.
  - intros p Hp. destruct (Hsound p Hp) as (k & Hk & Hnk).
    exists k. split; [by apply Hiff|done].
  - intros k Hk. apply Hcomplete. by apply Hiff.
Qed.

Lemma SeqArrays_key_length nodes occupied keys k :
  SeqArrays n e nodes occupied keys → k ∈ keys → length k = len n.
Proof using All.
  intros [_ _ _ Hs _ Hcomplete] Hk.
  destruct (Hcomplete k Hk) as (j & _ & _ & Hnode & _).
  rewrite Forall_lookup in Hs. by apply (Hs _ _ Hnode).
Qed.

(** A key stored in the first free bucket of its probes. *)
Lemma SeqArrays_add nodes occupied keys key j :
  SeqArrays n e nodes occupied keys → (len n ≤ length key)%nat →
  occupied !! seq_probe n e key j = Some false →
  (∀ i, (i < j)%nat → occupied !! seq_probe n e key i = Some true) →
  (j < 2 ^ e)%nat →
  SeqArrays n e (<[seq_probe n e key j := take (len n) key]> nodes)
    (<[seq_probe n e key j := true]> occupied) (take (len n) key :: keys).
Proof using All.
  intros [Hn Ho Hf Hs Hsound Hcomplete] Hkey Hjfree Hbefore Hj.
  pose proof (seq_probe_lt n e key j) as Hp.
  assert (∀ k jk, occupied !! seq_probe n e k jk = Some true →
                  seq_probe n e key j ≠ seq_probe n e k jk) as Hfresh
    by congruence.
  split.
  - by rewrite length_insert.
  - by rewrite length_insert.
  - cbn [length]. by rewrite filter_insert_true, Hf.
  - apply Forall_insert; [done|]. rewrite length_take. lia.
  - intros p Hpocc. destruct (decide (p = seq_probe n e key j)) as [->|Hne].
    + exists (take (len n) key). split; [apply elem_of_cons; by left|].
      apply list_lookup_insert_eq. lia.
    + rewrite list_lookup_insert_ne in Hpocc by done.
      destruct (Hsound p Hpocc) as (k & Hk & Hnk).
      exists k. split; [apply elem_of_cons; by right|].
      by rewrite list_lookup_insert_ne.
  - intros k Hk. destruct (decide (k ∈ keys)) as [Hin|Hnotin].
    + destruct (Hcomplete k Hin) as (jk & Hjk & Hok & Hnk & Hbk).
      exists jk. split_and!; [done|..].
      * rewrite list_lookup_insert_ne; [done|]. by apply Hfresh.
      * rewrite list_lookup_insert_ne; [done|]. by apply Hfresh.
      * intros i Hi. rewrite list_lookup_insert_ne; [by apply Hbk|].
        apply Hfresh. by apply Hbk.
    + apply elem_of_cons in Hk as [->|Hk]; [|done].
      exists j. rewrite !seq_probe_take by done. split_and!; [done|..].
      * apply list_lookup_insert_eq. lia.
      * apply list_lookup_insert_eq. lia.
      * intros i Hi. rewrite seq_probe_take by done.
        rewrite list_lookup_insert_ne; [by apply Hbefore|].
        apply Hfresh. by apply Hbefore.
Qed.

Lemma memcmp_eq_node node key :
  length node = len n → (len n ≤ length key)%nat →
  memcmp_eq node key (len n)
  = Some (bool_decide (node = take (len n) key)).
Proof using All.
  intros Hnode Hkey. unfold memcmp_eq.
  rewrite !(proj2 (Nat.leb_le _ _)) by lia. cbn [andb].
  by rewrite (take_ge node) by lia.
Qed.

(** The search for a key: found when it is among the keys, and the first
    free bucket of its probes otherwise. *)
Lemma seq_find_spec (table : SeqHashTable) keys key fuel :
  Seq_modMask table = 2 ^ Z.of_nat e - 1 →
  SeqArrays n e (Seq_nodes table) (Seq_occupied table) keys →
  (length keys < 2 ^ e)%nat → (len n ≤ length key)%nat →
  (2 ^ e ≤ fuel)%nat →
  (take (len n) key ∈ keys → seq_find n fuel table key = Some (inr ())) ∧
  (take (len n) key ∉ keys →
   ∃ j, (j < 2 ^ e)%nat ∧
        Seq_occupied table !! seq_probe n e key j = Some false ∧
        (∀ i, (i < j)%nat →
              Seq_occupied table !! seq_probe n e key i = Some true) ∧
        seq_find n fuel table key = Some (inl (seq_probe n e key j))).
Proof using All.
  intros Hmask Harr Hroom Hkey Hfuel.
  pose proof (SeqArrays_free _ _ _ Harr Hroom) as Hfree.
  pose proof Harr as [Hn Ho Hf Hs Hsound Hcomplete].
  destruct (seq_hashes n e He key Hkey)
    as (h1 & h2 & H1 & H2 & Hlt & Hg & Hp).
  pose proof (pow2_nat_pos e) as HM.
  set (stop := λ j,
         Seq_occupied table !! seq_probe n e key j = Some false ∨
         Seq_nodes table !! seq_probe n e key j = Some (take (len n) key)).
  assert (∃ j0, (j0 < 2 ^ e)%nat ∧ stop j0 ∧ ∀ i, (i < j0)%nat → ¬ stop i)
    as (j0 & Hj0 & Hstop & Hbefore).
  { destruct (seq_first_free n e He key Hkey _ _ Hn Ho Hfree)
      as (j & Hj & Hjfree & _).
    apply (first_such stop). exists j. split; [done|]. by left. }
  assert (∀ i, (i < j0)%nat →
     Seq_occupied table !! seq_probe n e key i = Some true ∧
     ∃ node, Seq_nodes table !! seq_probe n e key i = Some node ∧
             memcmp_eq node key (len n) = Some false) as Hbefore'.
  { intros i Hi. pose proof (Hbefore i Hi) as Hns. unfold stop in Hns.
    pose proof (seq_probe_lt n e key i) as Hpi.
    assert (Seq_occupied table !! seq_probe n e key i = Some true) as Hoi.
    { apply (seq_occupied_bool n e He key Hkey (Seq_nodes table)
               (Seq_occupied table) Hn Ho); [done|]. tauto. }
    split; [done|].
    destruct (lookup_lt_is_Some_2 (Seq_nodes table) (seq_probe n e key i))
      as [node Hnode]; [lia|].
    exists node. split; [done|].
    rewrite memcmp_eq_node; [|by apply (Forall_lookup_1 _ _ _ _ Hs Hnode)
                             |done].
    rewrite bool_decide_eq_false_2; [done|]. intros ->. tauto. }
  assert (seq_find n fuel table key
          = Some (if Seq_occupied table !! seq_probe n e key j0 is Some true
                  then inr () else inl (seq_probe n e key j0))) as Hfind.
  { unfold seq_find. rewrite Hmask, H1. cbn [mbind option_bind].
    assert (stop j0 →
      Seq_occupied table !! seq_probe n e key j0 = Some false ∨
      (Seq_occupied table !! seq_probe n e key j0 = Some true ∧
       ∃ node, Seq_nodes table !! seq_probe n e key j0 = Some node ∧
               memcmp_eq node key (len n) = Some true)) as Hcase.
    { intros [Hfr|Hnd]; [by left|].
      destruct (Seq_occupied table !! seq_probe n e key j0)
        as [[]|] eqn:Eo.
      - right. split; [done|]. eexists. split; [exact Hnd|].
        rewrite memcmp_eq_node;
          [by rewrite bool_decide_eq_true_2
          |by apply (Forall_lookup_1 _ _ _ _ Hs Hnd)|done].
      - by left.
      - apply lookup_ge_None in Eo.
        pose proof (seq_probe_lt n e key j0). lia. }
    destruct j0 as [|j0].
    - rewrite Hp, probe_at_0 in * by done.
      destruct (Hcase Hstop) as [Hfr|(Hoc & node & Hnd & Hsame)].
      + by rewrite Hfr.
      + rewrite Hoc. cbn [mbind option_bind]. rewrite Hnd.
        cbn [mbind option_bind]. by rewrite Hsame.
    - destruct (Hbefore' 0%nat ltac:(lia)) as (Ho0 & node & Hnd & Hdiff).
      rewrite Hp, probe_at_0 in Ho0, Hnd by done.
      rewrite Ho0. cbn [mbind option_bind]. rewrite Hnd.
      cbn [mbind option_bind]. rewrite Hdiff, H2. cbn [mbind option_bind].
      rewrite (seq_next_mod n e He).
      rewrite (seq_probe_key_first n e He table key h2 fuel
                 ((h1 + h2) mod 2 ^ e) j0 Hmask);
        [by rewrite probe_at_S, <- Hp
        |apply Nat.mod_upper_bound; lia|lia|..].
      + intros i Hi. rewrite probe_at_S, <- Hp by done.
        apply Hbefore'. lia.
      + rewrite probe_at_S, <- Hp by done. by apply Hcase. }
  split.
  - intros Hin. rewrite Hfind.
    destruct (Hcomplete _ Hin) as (jk & Hjk & Hok & Hnk & Hbk).
    rewrite seq_probe_take in Hok, Hnk by done.
    assert (stop jk) as Hsk by (by right).
    assert (j0 ≤ jk)%nat as Hle
      by (destruct (decide (j0 ≤ jk)%nat); [done|];
          exfalso; apply (Hbefore jk); [lia|done]).
    assert (Seq_occupied table !! seq_probe n e key j0 = Some true) as ->.
    { destruct (decide (j0 = jk)) as [->|]; [done|].
      specialize (Hbk j0 ltac:(lia)). by rewrite seq_probe_take in Hbk. }
    done.
  - intros Hnot. exists j0.
    assert (Seq_occupied table !! seq_probe n e key j0 = Some false) as Hfr.
    { destruct Hstop as [Hfr|Hnd]; [done|].
      destruct (Seq_occupied table !! seq_probe n e key j0)
        as [[]|] eqn:Eo; [|done|].
      - destruct (Hsound _ Eo) as (k & Hk & Hnk). congruence.
      - apply lookup_ge_None in Eo.
        pose proof (seq_probe_lt n e key j0). lia. }
    split_and!; [done|done| |by rewrite Hfind, Hfr].
    intros i Hi. by destruct (Hbefore' i Hi).
Qed.

End SeqArraysInv.

(** ** The rehash of [resizeTable] *)

Lemma next_occupied_spec (l : list bool) : ∀ (b k : nat),
  l !! k = Some true → (∀ i, (i < k)%nat → l !! i = Some false) →
  next_occupied l b = Some (b + k)%nat.
Proof.
  induction l as [|o l IH]; intros b k Hk Hbefore; [done|].
  destruct k as [|k].
  - injection Hk as ->. cbn [next_occupied]. by rewrite Nat.add_0_r.
  - pose proof (Hbefore 0%nat ltac:(lia)) as H0. injection H0 as ->.
    cbn [next_occupied]. rewrite (IH (S b) k); [f_equal; lia|done|].
    intros i Hi. apply (Hbefore (S i)). lia.
Qed.

(** The number of occupied buckets from the index [p] on. *)
Lemma trues_from_first (l : list bool) :
  (0 < length (filter (λ o, o = true) l))%nat →
  ∃ k, l !! k = Some true ∧ (∀ i, (i < k)%nat → l !! i = Some false) ∧
       length (filter (λ o, o = true) l)
       = S (length (filter (λ o, o = true) (drop (S k) l))).
Proof.
  induction l as [|o l IH]; intros Hpos; [simpl in Hpos; lia|].
  destruct o.
  - exists 0%nat. split; [done|]. split; [intros; lia|].
    by rewrite filter_cons_True.
  - rewrite filter_cons_False in Hpos by done.
    destruct (IH Hpos) as (k & Hk & Hbefore & Hcount).
    exists (S k). split; [done|]. split.
    + intros [|i] Hi; [done|]. apply Hbefore. lia.
    + by rewrite filter_cons_False.
Qed.

Lemma no_trues (l : list bool) p :
  length (filter (λ o, o = true) l) = 0%nat → l !! p ≠ Some true.
Proof.
  revert p. induction l as [|o l IH]; intros p H0 Hp; [done|].
  destruct o.
  - by rewrite filter_cons_True in H0.
  - rewrite filter_cons_False in H0 by done.
    destruct p as [|p]; [done|]. by apply (IH p).
Qed.

Section Rehash.

Variable n : nat.
Variable e : nat.
Hypothesis He : (1 ≤ e ≤ 60)%nat.

(** The old table. *)
Variable table : SeqHashTable.
Variable keys : list (list Z).
Hypothesis Harr : SeqArrays n e (Seq_nodes table) (Seq_occupied table) keys.

Variable fuel : nat.
Hypothesis Hfuel : (2 ^ (e + 3) ≤ fuel)%nat.

Lemma rehash_loop_spec rehashesLeft : ∀ occPtr newBuckets newOccupied done,
  length (filter (λ o, o = true) (drop occPtr (Seq_occupied table)))
  = rehashesLeft →
  SeqArrays n (e + 3) newBuckets newOccupied done →
  (length done + rehashesLeft = length keys)%nat →
  (∀ k, k ∈ done ↔
        ∃ p, (p < occPtr)%nat ∧ Seq_occupied table !! p = Some true ∧
             Seq_nodes table !! p = Some k) →
  ∃ newBuckets' newOccupied' done',
    rehash_loop n fuel rehashesLeft table (2 ^ Z.of_nat (e + 3) - 1) occPtr
      newBuckets newOccupied = Some (newBuckets', newOccupied') ∧
    SeqArrays n (e + 3) newBuckets' newOccupied' done' ∧
    length done' = length keys ∧ ∀ k, k ∈ done' ↔ k ∈ keys.
Proof using All.
  pose proof Harr as [Hn Ho Hf Hs Hsound Hcomplete].
  assert (2 ^ e < 2 ^ (e + 3))%nat as Hgrow
    by (apply Nat.pow_lt_mono_r; lia).
  assert (length keys ≤ 2 ^ e)%nat as Hkeys.
  { rewrite <- Hf, <- Ho. apply length_filter. }
  induction rehashesLeft as [|r IH];
    intros occPtr newB newO done Hleft Hnew Hlen Hdone.
  - exists newB, newO, done. split; [done|]. split; [done|].
    split; [lia|]. intros k. rewrite Hdone. split.
    + intros (p & _ & Hp & Hk). destruct (Hsound p Hp) as (k' & Hk' & Hnk').
      congruence.
    + intros Hk. destruct (Hcomplete k Hk) as (j & _ & Hoj & Hnj & _).
      exists (seq_probe n e k j). split; [|done].
      destruct (decide (seq_probe n e k j < occPtr)%nat); [done|]. exfalso.
      apply (no_trues _ (seq_probe n e k j - occPtr)%nat Hleft).
      rewrite lookup_drop. rewrite <- Hoj. f_equal. lia.
  - cbn [rehash_loop].
    destruct (trues_from_first (drop occPtr (Seq_occupied table))
                ltac:(lia)) as (k & Hk & Hbefore & Hcount).
    rewrite (next_occupied_spec _ occPtr k Hk Hbefore).
    cbn [mbind option_bind]. rewrite lookup_drop in Hk.
    destruct (Hsound _ Hk) as (being & Hbeing & Hnode).
    rewrite Hnode. cbn [mbind option_bind].
    pose proof (SeqArrays_key_length n e ltac:(lia) _ _ _ _ Harr Hbeing) as Hblen.
    pose proof Hnew as [Hn' Ho' Hf' Hs' _ _].
    assert (∃ b, newO !! b = Some false) as Hfree.
    { apply (SeqArrays_free n (e + 3) ltac:(lia) newB newO done Hnew). lia. }
    destruct (seq_free_slot n (e + 3) ltac:(lia) being ltac:(lia) newB newO
                Hn' Ho' fuel Hfree Hfuel)
      as (j & h1 & h2 & Hj & Hjfree & Hjbefore & H1 & Hlt & Hfirst & Hprobe).
    rewrite H1. cbn [mbind option_bind].
    destruct (lookup_lt_is_Some_2 newO h1 ltac:(lia)) as [o Ho1].
    rewrite Ho1. cbn [mbind option_bind].
    assert ((if o then
               doubleHash ← seqHash2 n being (2 ^ Z.of_nat (e + 3) - 1);
               seq_probe_free fuel newO (2 ^ Z.of_nat (e + 3) - 1) doubleHash
                 (seq_next (2 ^ Z.of_nat (e + 3) - 1) h1 doubleHash)
             else Some h1) = Some (seq_probe n (e + 3) being j)) as ->.
    { destruct o.
      - destruct (Hprobe Ho1) as [E1 E2]. rewrite E1. exact E2.
      - by rewrite (Hfirst Ho1). }
    cbn [mbind option_bind].
    pose proof (seq_probe_lt n (e + 3) being j) as Hidx.
    rewrite !wr_Some by lia. cbn [mbind option_bind].
    pose proof (SeqArrays_add n (e + 3) ltac:(lia) newB newO done being j
                  Hnew ltac:(lia) Hjfree Hjbefore Hj) as Hnew'.
    rewrite (take_ge being) in * by lia.
    apply (IH (S (occPtr + k)) _ _ (being :: done)).
    + rewrite drop_drop in Hcount.
      replace (occPtr + S k)%nat with (S (occPtr + k)) in Hcount by lia.
      lia.
    + done.
    + cbn [length]. lia.
    + intros k'. rewrite elem_of_cons, Hdone. split.
      * intros [->|(p & Hp & Hop & Hnp)].
        -- exists (occPtr + k)%nat. split; [lia|done].
        -- exists p. split; [lia|done].
      * intros (p & Hp & Hop & Hnp).
        destruct (decide (p < occPtr)%nat) as [Hlt'|Hge].
        -- right. exists p. done.
        -- destruct (decide (p = occPtr + k)%nat) as [->|Hne].
           ++ left. congruence.
           ++ exfalso. specialize (Hbefore (p - occPtr)%nat ltac:(lia)).
              rewrite lookup_drop in Hbefore.
              replace (occPtr + (p - occPtr))%nat with p in Hbefore by lia.
              congruence.
Qed.

End Rehash.

(** ** The operations on the table *)

Section SeqTable.

Variable n : nat.

Lemma pow2_ge_2 (e : nat) : (1 ≤ e)%nat → 2 ≤ 2 ^ Z.of_nat e.
Proof.
  intros He. change 2 with (2 ^ 1) at 1.
  apply Z.pow_le_mono_r; lia.
Qed.

Lemma SeqInv_room e table keys :
  (1 ≤ e)%nat → SeqInv n e table keys → (length keys < 2 ^ e)%nat.
Proof.
  intros He [_ _ _ Hload _]. pose proof (pow2_ge_2 e He).
  pose proof (pow2_nat_Z e). lia.
Qed.

Lemma createSeqTable_inv (e : nat) :
  (1 ≤ e < 31)%nat →
  ∃ table, createSeqTable n (Z.of_nat e) = Some table ∧ SeqInv n e table [].
Proof.
  intros He. unfold createSeqTable.
  replace ((0 <=? Z.of_nat e) && (Z.of_nat e <? 31)) with true
    by (symmetry; apply andb_true_iff; lia).
  eexists. split; [done|].
  pose proof (pow2_ge_2 e ltac:(lia)).
  split; cbn [Seq_size Seq_modMask Seq_count Seq_nodes Seq_occupied length];
    try done; try lia.
  rewrite <- pow2_nat_Z, Nat2Z.id. apply SeqArrays_empty. lia.
Qed.

Lemma resizeTable_spec e table keys fuel :
  (1 ≤ e ≤ 60)%nat → SeqInv n e table keys → (2 ^ (e + 3) ≤ fuel)%nat →
  ∃ table', resizeTable n fuel table = Some table' ∧
            SeqInv n (e + 3) table' keys ∧
            3 * Z.of_nat (length keys) ≤ 2 ^ Z.of_nat (e + 3).
Proof.
  intros He Hinv Hfuel. pose proof Hinv as [Hsize Hmask Hcount Hload Harr].
  pose proof (pow2_ge_2 e ltac:(lia)) as H2.
  assert (2 ^ Z.of_nat (e + 3) = 2 ^ Z.of_nat e * 8) as Hpow.
  { rewrite Nat2Z.inj_add, Z.pow_add_r by lia. done. }
  assert (2 ^ Z.of_nat (e + 3) < 2 ^ 64) as Hlt64
    by (apply Z.pow_lt_mono_r; lia).
  assert (wrap64 (Seq_size table * 8) = 2 ^ Z.of_nat (e + 3)) as Hwrap.
  { rewrite Hsize, <- Hpow. unfold wrap64. apply Z.mod_small. lia. }
  unfold resizeTable. rewrite Hwrap, Hcount, Nat2Z.id.
  rewrite <- pow2_nat_Z, Nat2Z.id, pow2_nat_Z.
  pose proof Harr as [_ _ Hfilled _ _ _].
  destruct (rehash_loop_spec n e He table keys Harr fuel Hfuel (length keys)
              0%nat (replicate (2 ^ (e + 3)) (replicate (len n) 0))
              (replicate (2 ^ (e + 3)) false) [])
    as (newB & newO & done & Hloop & Hnew & Hlen & Hiff).
  - by rewrite drop_0.
  - apply SeqArrays_empty. lia.
  - done.
  - intros k. split; [by intros ?%elem_of_nil|]. intros (p & Hp & _). lia.
  - rewrite Hloop. cbn [mbind option_bind]. eexists. split; [done|].
    split; [|lia].
    split; cbn [Seq_size Seq_modMask Seq_count Seq_nodes Seq_occupied fst snd];
      try done; try lia.
    by apply (SeqArrays_ext n (e + 3) ltac:(lia) _ _ done keys).
Qed.

Lemma resize_if_needed_spec e table keys fuel :
  (1 ≤ e ≤ 60)%nat → SeqInv n e table keys → (2 ^ (e + 3) ≤ fuel)%nat →
  ∃ e' table', resize_if_needed n fuel table = Some table' ∧
               SeqInv n e' table' keys ∧ (e' = e ∨ e' = (e + 3)%nat ∧ 2 ^ Z.of_nat e < 3 * Z.of_nat (length keys)) ∧
               3 * Z.of_nat (length keys) ≤ 2 ^ Z.of_nat e'.
Proof.
  intros He Hinv Hfuel. unfold resize_if_needed, over_limit.
  pose proof Hinv as [Hsize _ Hcount _ _]. rewrite Hsize, Hcount.
  destruct (Z.ltb_spec (2 ^ Z.of_nat e) (3 * Z.of_nat (length keys))).
  - destruct (resizeTable_spec e table keys fuel He Hinv Hfuel)
      as (table' & Hres & Hinv' & Hload').
    exists (e + 3)%nat, table'. split_and!; try done. right. lia.
  - exists e, table. split_and!; try done; try lia; by left.
Qed.

Lemma seq_add_spec e table keys key j :
  (1 ≤ e ≤ 63)%nat → SeqInv n e table keys →
  3 * Z.of_nat (length keys) ≤ 2 ^ Z.of_nat e →
  (len n ≤ length key)%nat → (j < 2 ^ e)%nat →
  Seq_occupied table !! seq_probe n e key j = Some false →
  (∀ i, (i < j)%nat → Seq_occupied table !! seq_probe n e key i = Some true) →
  ∃ table', seq_add n table (seq_probe n e key j) key = Some table' ∧
            SeqInv n e table' (take (len n) key :: keys).
Proof.
  intros He [Hsize Hmask Hcount Hload Harr] Hload' Hkey Hj Hfree Hbefore.
  pose proof Harr as [Hn Ho _ _ _ _].
  pose proof (seq_probe_lt n e key j) as Hidx.
  unfold seq_add. rewrite (proj2 (Nat.leb_le _ _) Hkey).
  cbn [mbind option_bind]. rewrite !wr_Some by lia.
  cbn [mbind option_bind]. eexists. split; [done|].
  assert (2 ^ Z.of_nat e < 2 ^ 64) by (apply Z.pow_lt_mono_r; lia).
  split; cbn [Seq_size Seq_modMask Seq_count Seq_nodes Seq_occupied length];
    try done.
  - rewrite Hcount. unfold wrap64. rewrite Z.mod_small; lia.
  - lia.
  - by apply SeqArrays_add.
Qed.

Lemma seqHashInsert_spec e table keys key fuel :
  (1 ≤ e ≤ 60)%nat → SeqInv n e table keys → (len n ≤ length key)%nat →
  (2 ^ (e + 3) ≤ fuel)%nat →
  ∃ e' table', seqHashInsert n fuel table key = Some table' ∧
               SeqInv n e' table' (take (len n) key :: keys) ∧
               (e' = e ∨ e' = (e + 3)%nat ∧ 2 ^ Z.of_nat e < 3 * Z.of_nat (length keys)).
Proof.
  intros He Hinv Hkey Hfuel. unfold seqHashInsert.
  destruct (resize_if_needed_spec e table keys fuel He Hinv Hfuel)
    as (e' & table1 & -> & Hinv1 & He' & Hload1).
  cbn [mbind option_bind].
  pose proof Hinv1 as [_ Hmask _ _ Harr]. pose proof Harr as [Hn Ho _ _ _ _].
  assert (e ≤ e' ≤ e + 3)%nat as Hee by lia.
  assert (2 ^ e' ≤ fuel)%nat as Hfuel'.
  { etrans; [|exact Hfuel]. apply Nat.pow_le_mono_r; lia. }
  assert (∃ b, Seq_occupied table1 !! b = Some false) as Hfree.
  { apply (SeqArrays_free n e' ltac:(lia) _ _ keys Harr).
    apply (SeqInv_room e' table1); [lia|done]. }
  destruct (seq_free_slot n e' ltac:(lia) key Hkey _ _ Hn Ho fuel Hfree Hfuel')
    as (j & h1 & h2 & Hj & Hjfree & Hjbefore & H1 & Hlt & Hfirst & Hprobe).
  rewrite Hmask, H1. cbn [mbind option_bind].
  destruct (lookup_lt_is_Some_2 (Seq_occupied table1) h1 ltac:(lia))
    as [o Ho1].
  rewrite Ho1. cbn [mbind option_bind].
  assert ((if o then
             doubleHash ← seqHash2 n key (2 ^ Z.of_nat e' - 1);
             seq_probe_free fuel (Seq_occupied table1) (2 ^ Z.of_nat e' - 1)
               doubleHash (seq_next (2 ^ Z.of_nat e' - 1) h1 doubleHash)
           else Some h1) = Some (seq_probe n e' key j)) as ->.
  { destruct o.
    - destruct (Hprobe Ho1) as [E1 E2]. rewrite E1. exact E2.
    - by rewrite (Hfirst Ho1). }
  cbn [mbind option_bind].
  destruct (seq_add_spec e' table1 keys key j ltac:(lia) Hinv1 Hload1 Hkey Hj
              Hjfree Hjbefore) as (table' & Hadd & Hinv').
  exists e', table'. done.
Qed.

Lemma seqHashInsertIfNotContains_spec e table keys key fuel :
  (1 ≤ e ≤ 60)%nat → SeqInv n e table keys → (len n ≤ length key)%nat →
  (2 ^ (e + 3) ≤ fuel)%nat →
  ∃ e' table', (e' = e ∨ e' = (e + 3)%nat ∧ 2 ^ Z.of_nat e < 3 * Z.of_nat (length keys)) ∧
    seqHashInsertIfNotContains n fuel table key
    = Some (table', negb (bool_decide (take (len n) key ∈ keys))) ∧
    SeqInv n e' table'
      (if bool_decide (take (len n) key ∈ keys) then keys
       else take (len n) key :: keys).
Proof.
  intros He Hinv Hkey Hfuel. unfold seqHashInsertIfNotContains.
  destruct (resize_if_needed_spec e table keys fuel He Hinv Hfuel)
    as (e' & table1 & -> & Hinv1 & He' & Hload1).
  cbn [mbind option_bind].
  pose proof Hinv1 as [_ Hmask _ _ Harr].
  assert (e ≤ e' ≤ e + 3)%nat as Hee by lia.
  assert (2 ^ e' ≤ fuel)%nat as Hfuel'.
  { etrans; [|exact Hfuel]. apply Nat.pow_le_mono_r; lia. }
  destruct (seq_find_spec n e' ltac:(lia) table1 keys key fuel Hmask Harr
              (SeqInv_room e' table1 keys ltac:(lia) Hinv1) Hkey Hfuel')
    as [Hfound Habsent].
  exists e'. case_bool_decide as Hin.
  - rewrite (Hfound Hin). cbn [mbind option_bind negb]. by exists table1.
  - destruct (Habsent Hin) as (j & Hj & Hjfree & Hjbefore & ->).
    cbn [mbind option_bind].
    destruct (seq_add_spec e' table1 keys key j ltac:(lia) Hinv1 Hload1 Hkey
                Hj Hjfree Hjbefore) as (table' & -> & Hinv').
    cbn [mbind option_bind negb]. by exists table'.
Qed.

Lemma seqHashContains_spec e table keys key fuel :
  (1 ≤ e ≤ 63)%nat → SeqInv n e table keys → (len n ≤ length key)%nat →
  (2 ^ e ≤ fuel)%nat →
  seqHashContains n fuel table key
  = Some (bool_decide (take (len n) key ∈ keys)).
Proof.
  intros He Hinv Hkey Hfuel. unfold seqHashContains.
  pose proof Hinv as [_ Hmask _ _ Harr].
  destruct (seq_find_spec n e He table keys key fuel Hmask Harr
              (SeqInv_room e table keys ltac:(lia) Hinv) Hkey Hfuel)
    as [Hfound Habsent].
  case_bool_decide as Hin.
  - by rewrite (Hfound Hin).
  - by destruct (Habsent Hin) as (j & _ & _ & _ & ->).
Qed.

End SeqTable.

Section SeqCalls.

Variable n : nat.
Variable fuel : nat.
Variable B : Z.
Hypothesis HB : B ≤ 2 ^ 60.
Hypothesis Hfuel : B * 8 ≤ Z.of_nat fuel.

Lemma seq_calls_spec calls : ∀ e table keys,
  (1 ≤ e)%nat → SeqInv n e table keys → 2 ^ Z.of_nat e ≤ B →
  24 * (Z.of_nat (length keys) + Z.of_nat (length calls)) ≤ B →
  Forall (λ c, (len n ≤ length (call_key c))%nat) calls →
  ∃ e' table',
    seq_calls n fuel table calls
    = Some (table', (calls_expected n keys calls).2) ∧
    (e ≤ e')%nat ∧ 2 ^ Z.of_nat e' ≤ B ∧
    SeqInv n e' table' (calls_expected n keys calls).1.
Proof using All.
  assert (∀ e : nat, 2 ^ Z.of_nat e ≤ B → (e ≤ 60)%nat ∧ (2 ^ (e + 3) ≤ fuel)%nat)
    as Hexp.
  { intros e HeB. split.
    - destruct (decide (e ≤ 60)%nat); [done|]. exfalso.
      assert (2 ^ 60 < 2 ^ Z.of_nat e) by (apply Z.pow_lt_mono_r; lia). lia.
    - apply Nat2Z.inj_le. rewrite pow2_nat_Z, Nat2Z.inj_add, Z.pow_add_r by lia.
      change (2 ^ Z.of_nat 3) with 8. lia. }
  assert (∀ e e' (keys : list (list Z)),
            2 ^ Z.of_nat e ≤ B → 24 * Z.of_nat (length keys) ≤ B →
            e' = e ∨ e' = (e + 3)%nat ∧
                     2 ^ Z.of_nat e < 3 * Z.of_nat (length keys) →
            (e ≤ e')%nat ∧ 2 ^ Z.of_nat e' ≤ B) as Hgrow.
  { intros e e' keys HeB Hk [->|[-> Hlt]]; [done|]. split; [lia|].
    rewrite Nat2Z.inj_add, Z.pow_add_r by lia.
    change (2 ^ Z.of_nat 3) with 8. lia. }
  induction calls as [|c calls IH]; intros e table keys He Hinv HeB Hcalls Hkeys.
  - exists e, table. done.
  - apply Forall_cons in Hkeys as [Hkey Hkeys]. cbn [length] in Hcalls.
    destruct (Hexp e HeB) as [He60 Hf].
    destruct c as [key|key|key]; cbn [call_key] in Hkey;
      cbn [seq_calls calls_expected].
    + destruct (seqHashInsert_spec n e table keys key fuel ltac:(lia) Hinv
                  Hkey Hf) as (e1 & table1 & -> & Hinv1 & He1).
      cbn [mbind option_bind].
      destruct (Hgrow e e1 keys HeB ltac:(lia) He1) as [Hle1 HB1].
      destruct (IH e1 table1 (take (len n) key :: keys) ltac:(lia) Hinv1 HB1
                  ltac:(cbn [length]; lia) Hkeys)
        as (e' & table' & Hrun & He' & HB' & Hinv').
      exists e', table'. split_and!; try done. lia.
    + destruct (seqHashInsertIfNotContains_spec n e table keys key fuel
                  ltac:(lia) Hinv Hkey Hf) as (e1 & table1 & He1 & -> & Hinv1).
      cbn [mbind option_bind fst snd].
      destruct (Hgrow e e1 keys HeB ltac:(lia) He1) as [Hle1 HB1].
      destruct (IH e1 table1 _ ltac:(lia) Hinv1 HB1
                  ltac:(case_bool_decide; cbn [length]; lia) Hkeys)
        as (e' & table' & -> & He' & HB' & Hinv').
      cbn [mbind option_bind fst snd].
      exists e', table'. split_and!; try done. lia.
    + rewrite (seqHashContains_spec n e table keys key fuel ltac:(lia) Hinv
                 Hkey).
      2:{ etrans; [|exact Hf]. apply Nat.pow_le_mono_r; lia. }
      cbn [mbind option_bind].
      destruct (IH e table keys He Hinv HeB ltac:(lia) Hkeys)
        as (e' & table' & -> & He' & HB' & Hinv').
      cbn [mbind option_bind fst snd].
      exists e', table'. done.
Qed.

End SeqCalls.

(** X15: on a table made by [createSeqTable] with an exponent from 1 to 30,
    every sequence of calls of [seqHashInsert], [seqHashInsertIfNotContains]
    and [seqHashContains] returns: [seqHashContains] gives true exactly for a
    key whose first [len n] steps were stored before,
    [seqHashInsertIfNotContains] gives true exactly when it stores the key,
    and [count] is the number of stored copies, through every resize. *)
Theorem seq_table_calls_agree (n e fuel : nat) (calls : list SeqCall) :
  (1 ≤ e < 31)%nat →
  Forall (λ c, (len n ≤ length (call_key c))%nat) calls →
  Z.of_nat (length calls) < 2 ^ 53 →
  (8 * 2 ^ e ≤ fuel)%nat → (192 * length calls ≤ fuel)%nat →
  ∃ table0 table,
    createSeqTable n (Z.of_nat e) = Some table0 ∧
    seq_calls n fuel table0 calls
    = Some (table, (calls_expected n [] calls).2) ∧
    Seq_count table = Z.of_nat (length (calls_expected n [] calls).1) ∧
    Z.of_nat (length (Seq_nodes table)) = Seq_size table.
Proof.
  intros He Hkeys Hcalls Hf1 Hf2.
  destruct (createSeqTable_inv n e He) as (table0 & Hcreate & Hinv0).
  assert (2 ^ Z.of_nat e ≤ 2 ^ 30) as He30 by (apply Z.pow_le_mono_r; lia).
  pose proof (pow2_nat_Z e) as Hpow.
  destruct (seq_calls_spec n fuel
              (Z.max (2 ^ Z.of_nat e) (24 * Z.of_nat (length calls)))
              ltac:(lia) ltac:(lia) calls e table0 [] ltac:(lia) Hinv0
              ltac:(lia) ltac:(cbn [length]; lia) Hkeys)
    as (e' & table & Hrun & _ & _ & [Hsize _ Hcount _ [Hnodes _ _ _ _ _]]).
  exists table0, table. split_and!; try done.
  rewrite Hnodes, Hsize. apply pow2_nat_Z.
Qed.

Lemma seq_table_calls_agree_witness :
  ∃ table0 table,
    createSeqTable 4 1 = Some table0 ∧
    seq_calls 4 1536 table0
      [CallInsertIfNotContains (replicate 16 1); CallContains (replicate 16 2);
       CallInsert (replicate 16 2); CallInsertIfNotContains (replicate 16 2);
       CallInsert (replicate 16 3 ++ [9]); CallContains (replicate 16 3);
       CallInsert (replicate 16 3); CallContains (replicate 16 1)]
    = Some (table, [true; false; false; true; true]) ∧
    Seq_count table = 4 ∧
    Z.of_nat (length (Seq_nodes table)) = Seq_size table.
Proof.
  apply (seq_table_calls_agree 4 1 1536
    [CallInsertIfNotContains (replicate 16 1); CallContains (replicate 16 2);
     CallInsert (replicate 16 2); CallInsertIfNotContains (replicate 16 2);
     CallInsert (replicate 16 3 ++ [9]); CallContains (replicate 16 3);
     CallInsert (replicate 16 3); CallContains (replicate 16 1)]).
  - lia.
  - repeat constructor; vm_compute; lia.
  - vm_compute. reflexivity.
  - vm_compute. lia.
  - vm_compute. lia.
Defined.

(** X16: a table reached by such calls can be resized once more:
    [resizeTable] returns a table of eight times the buckets with the same
    [count], and [seqHashContains] answers every key as it did before. *)
Theorem resizeTable_keeps_contents (n e fuel : nat) (calls : list SeqCall)
    (table0 table : SeqHashTable) (results : list bool) :
  (1 ≤ e < 31)%nat →
  Forall (λ c, (len n ≤ length (call_key c))%nat) calls →
  Z.of_nat (length calls) < 2 ^ 53 →
  (8 * 2 ^ e ≤ fuel)%nat → (192 * length calls ≤ fuel)%nat →
  createSeqTable n (Z.of_nat e) = Some table0 →
  seq_calls n fuel table0 calls = Some (table, results) →
  ∃ table',
    resizeTable n fuel table = Some table' ∧
    Seq_size table' = 8 * Seq_size table ∧
    Seq_count table' = Seq_count table ∧
    ∀ key, (len n ≤ length key)%nat →
      seqHashContains n fuel table' key = seqHashContains n fuel table key.
Proof.
  intros He Hkeys Hcalls Hf1 Hf2 Hcreate Hrun.
  destruct (createSeqTable_inv n e He) as (table0' & Hcreate' & Hinv0).
  assert (table0' = table0) as -> by congruence.
  assert (2 ^ Z.of_nat e ≤ 2 ^ 30) as He30 by (apply Z.pow_le_mono_r; lia).
  pose proof (pow2_nat_Z e) as Hpow.
  destruct (seq_calls_spec n fuel
              (Z.max (2 ^ Z.of_nat e) (24 * Z.of_nat (length calls)))
              ltac:(lia) ltac:(lia) calls e table0 [] ltac:(lia) Hinv0
              ltac:(lia) ltac:(cbn [length]; lia) Hkeys)
    as (e' & table1 & Hrun' & He' & HB' & Hinv).
  assert (table1 = table) as -> by congruence.
  assert (e' ≤ 60)%nat as He60.
  { destruct (decide (e' ≤ 60)%nat); [done|]. exfalso.
    assert (2 ^ 60 < 2 ^ Z.of_nat e') by (apply Z.pow_lt_mono_r; lia). lia. }
  assert (2 ^ (e' + 3) ≤ fuel)%nat as Hfuel.
  { apply Nat2Z.inj_le. rewrite pow2_nat_Z, Nat2Z.inj_add, Z.pow_add_r by lia.
    change (2 ^ Z.of_nat 3) with 8. lia. }
  destruct (resizeTable_spec n e' table _ fuel ltac:(lia) Hinv Hfuel)
    as (table' & Hres & Hinv' & _).
  exists table'. split; [done|].
  pose proof Hinv as [Hsize _ Hcount _ _].
  pose proof Hinv' as [Hsize' _ Hcount' _ _].
  split_and!.
  - rewrite Hsize, Hsize', Nat2Z.inj_add, Z.pow_add_r by lia.
    change (2 ^ Z.of_nat 3) with 8. lia.
  - congruence.
  - intros key Hkey.
    rewrite (seqHashContains_spec n (e' + 3) table' _ key fuel ltac:(lia)
               Hinv' Hkey Hfuel).
    rewrite (seqHashContains_spec n e' table _ key fuel ltac:(lia) Hinv Hkey);
      [done|].
    etrans; [|exact Hfuel]. apply Nat.pow_le_mono_r; lia.
Qed.

Lemma resizeTable_keeps_contents_witness :
  ∃ table',
    resizeTable 4 384
      {| Seq_nodes := [replicate 16 1; replicate 16 0];
         Seq_occupied := [true; false];
         Seq_size := 2; Seq_count := 1; Seq_modMask := 1 |} = Some table' ∧
    Seq_size table' = 8 * 2 ∧ Seq_count table' = 1 ∧
    ∀ key, (len 4 ≤ length key)%nat →
      seqHashContains 4 384 table' key
      = seqHashContains 4 384
          {| Seq_nodes := [replicate 16 1; replicate 16 0];
             Seq_occupied := [true; false];
             Seq_size := 2; Seq_count := 1; Seq_modMask := 1 |} key.
Proof.
  apply (resizeTable_keeps_contents 4 1 384
           [CallInsert (replicate 16 1); CallContains (replicate 16 1)]
           {| Seq_nodes := [replicate 16 0; replicate 16 0];
              Seq_occupied := [false; false];
              Seq_size := 2; Seq_count := 0; Seq_modMask := 1 |}
           {| Seq_nodes := [replicate 16 1; replicate 16 0];
              Seq_occupied := [true; false];
              Seq_size := 2; Seq_count := 1; Seq_modMask := 1 |} [true]).
  - lia.
  - repeat constructor; vm_compute; lia.
  - vm_compute. reflexivity.
  - vm_compute. lia.
  - vm_compute. lia.
  - vm_compute. reflexivity.
  - vm_compute. reflexivity.
Defined.

Lemma seq_next_iter (e h1 h2 j : nat) :
  (e ≤ 64)%nat → (h1 < 2 ^ e)%nat →
  Nat.iter j (λ index, seq_next (2 ^ Z.of_nat e - 1) index h2) h1
  = probe_at (2 ^ e) h1 h2 j.
Proof.
  intros He Hh. induction j as [|j IH].
  - cbn [Nat.iter]. unfold probe_at. rewrite Nat.mul_0_l, Nat.add_0_r.
    symmetry. by apply Nat.mod_small.
  - rewrite Nat.iter_succ, IH. unfold seq_next.
    rewrite wrap64_mask by lia. unfold probe_at.
    pose proof (pow2_nat_pos e).
    apply Nat2Z.inj. rewrite Z2Nat.id
      by (apply Z.mod_pos_bound, Z.pow_pos_nonneg; lia).
    rewrite <- pow2_nat_Z, <- Nat2Z.inj_add, <- Nat2Z.inj_mod. f_equal.
    rewrite Nat.Div0.add_mod_idemp_l. f_equal. lia.
Qed.

(** X17: in a table of [2 ^ e] buckets, [e] from 1 to 63, the stride
    [seqHash2] of a key is odd, and the probes of the key, from
    [seqHash1] on in steps of [seqHash2] under the mask, reach every
    bucket within [2 ^ e] steps. *)
Theorem seq_probes_reach_every_bucket (n e : nat) (key : list Z) (b : nat) :
  (1 ≤ e ≤ 63)%nat → (len n ≤ length key)%nat → (b < 2 ^ e)%nat →
  ∃ h1 h2 j,
    seqHash1 n key (2 ^ Z.of_nat e - 1) = Some h1 ∧
    seqHash2 n key (2 ^ Z.of_nat e - 1) = Some h2 ∧
    (h1 < 2 ^ e)%nat ∧ Nat.odd h2 = true ∧ (j < 2 ^ e)%nat ∧
    Nat.iter j (λ index, seq_next (2 ^ Z.of_nat e - 1) index h2) h1 = b.
Proof.
  intros He Hkey Hb.
  destruct (seqHash1_range n e He key Hkey) as (h1 & H1 & Hlt).
  destruct (seqHash2_odd n e He key Hkey) as (h2 & H2 & Hodd).
  destruct (probe_at_surjective (2 ^ e) h1 h2 b (pow2_nat_pos e)
              (odd_coprime_pow2 n e He _ Hodd) Hb) as (j & Hj & Hpj).
  exists h1, h2, j. split_and!; try done.
  - rewrite <- Hodd. clear.
    rewrite <- (Nat2Z.id h2) at 1.
    destruct (Z.of_nat h2) as [|p|p] eqn:E; try done; try lia.
    rewrite Z2Nat.inj_pos. destruct p; try done.
    + rewrite Pos2Nat.inj_xI. rewrite Nat.odd_succ, Nat.even_mul. done.
    + rewrite Pos2Nat.inj_xO. rewrite Nat.odd_mul. done.
  - rewrite seq_next_iter by lia. done.
Qed.

Lemma seq_probes_reach_every_bucket_witness :
  ∃ h1 h2 j,
    seqHash1 4 [1; 2; 4; 8; 1; 2; 4; 1; 8; 4; 2; 1; 4; 2; 8; 4] (2 ^ 3 - 1)
    = Some h1 ∧
    seqHash2 4 [1; 2; 4; 8; 1; 2; 4; 1; 8; 4; 2; 1; 4; 2; 8; 4] (2 ^ 3 - 1)
    = Some h2 ∧
    (h1 < 2 ^ 3)%nat ∧ Nat.odd h2 = true ∧ (j < 2 ^ 3)%nat ∧
    Nat.iter j (λ index, seq_next (2 ^ 3 - 1) index h2) h1 = 6%nat.
Proof.
  apply (seq_probes_reach_every_bucket 4 3
           [1; 2; 4; 8; 1; 2; 4; 1; 8; 4; 2; 1; 4; 2; 8; 4] 6).
  - lia.
  - vm_compute. lia.
  - vm_compute. lia.
Defined.

(** ** Walks *)

Lemma walk_snoc v l s :
  walk v (l ++ [s]) = walk v l ++ [Z.lxor (fold_left Z.lxor l v) s].
Proof. by rewrite walk_app. Qed.

Lemma walk_take v l k : walk v (take k l) = take k (walk v l).
Proof.
  revert v k. induction l as [|m l IH]; intros v [|k]; try done.
  cbn [take walk]. by rewrite IH.
Qed.

Lemma last_walk v l : last (v :: walk v l) = Some (fold_left Z.lxor l v).
Proof.
  revert v. induction l as [|m l IH]; intros v; [done|].
  cbn [walk fold_left]. rewrite last_cons_cons. apply IH.
Qed.

Lemma walk_nonneg v l :
  0 ≤ v → Forall (λ m, 0 ≤ m) l → Forall (λ w, 0 ≤ w) (walk v l).
Proof.
  intros Hv Hl. revert v Hv. induction Hl as [|m l Hm Hl IH]; intros v Hv.
  - constructor.
  - cbn [walk]. constructor; [|apply IH]; apply Z.lxor_nonneg; lia.
Qed.

Lemma valid_mask_nonneg n m : valid_mask n m → 0 ≤ m.
Proof. intros (d & _ & ->). apply Z.pow_nonneg. lia. Qed.

Lemma valid_masks_take_nonneg n (test : list Z) d :
  Forall (valid_mask n) (take (len n) test) → (d ≤ len n)%nat →
  Forall (λ m, 0 ≤ m) (take d test).
Proof.
  intros Hv Hd. replace (take d test) with (take d (take (len n) test))
    by (rewrite take_take; f_equal; lia).
  apply Forall_take. eapply Forall_impl; [exact Hv|].
  intros m. apply valid_mask_nonneg.
Qed.

Lemma NoDup_take_prefix {A} (l : list A) k : NoDup l → NoDup (take k l).
Proof.
  intros H. rewrite <- (take_drop k l) in H. by apply NoDup_app in H as [? _].
Qed.

(** ** The invariant of the search *)

Section SearchInvariant.

Variable n : nat.
Hypothesis Hn : (n ≤ 16)%nat.

Lemma unflag_inv k st st' :
  SearchInv n (S k) st → unflag st = Some st' → SearchInv n k st'.
Proof using All.
  destruct st as [test bffr flags sptr bptr seeds].
  intros [Hvalid Hbffr Hbptr [Hd1 Hd2] Hwalk Hnodup Hflags Hseeds];
    cbn [sr_test sr_bffr sr_flags sr_sptr sr_bptr sr_seeds] in *.
  unfold unflag. cbn [sr_test sr_bffr sr_flags sr_sptr sr_bptr sr_seeds].
  subst bptr. intros Hun.
  destruct (bffr !! (sptr + S k)%nat) as [v|] eqn:Hv; [|done].
  cbn [mbind option_bind] in Hun.
  destruct (wr flags (Z.to_nat v) false) as [flags'|] eqn:Hwr; [|done].
  cbn [mbind option_bind] in Hun. injection Hun as <-.
  unfold wr in Hwr. destruct (Z.to_nat v <? length flags)%nat; [|done].
  injection Hwr as <-.
  set (L := 0 :: walk 0 (take (sptr + S k) test)) in *.
  assert (take (S (sptr + k)) L = 0 :: walk 0 (take (sptr + k) test)) as HL.
  { unfold L. cbn [take]. f_equal. rewrite <- walk_take, take_take.
    do 2 f_equal. lia. }
  assert (L !! (sptr + S k)%nat = Some v) as HLv.
  { rewrite <- Hwalk. rewrite lookup_take_lt by lia. done. }
  assert (Forall (λ w, 0 ≤ w) L) as Hpos.
  { unfold L. constructor; [done|]. apply walk_nonneg; [done|].
    by apply (valid_masks_take_nonneg n). }
  split; cbn [sr_test sr_bffr sr_flags sr_sptr sr_bptr sr_seeds];
    try done.
  - clear - Hd1 Hd2. lia.
  - rewrite <- HL, <- Hwalk, take_take. f_equal. lia.
  - rewrite <- HL. by apply NoDup_take_prefix.
  - intros w Hw.
    assert (walk 0 (take (sptr + k) test)
            = take (sptr + k) (walk 0 (take (sptr + S k) test))) as Heq.
    { rewrite <- walk_take, take_take. do 2 f_equal. lia. }
    rewrite Heq in Hw. apply elem_of_take in Hw as (i & Hi & Hilt).
    assert (walk 0 (take (sptr + S k) test) !! (sptr + k)%nat = Some v)
      as Hv'.
    { assert (L !! S (sptr + k) = Some v) as HLv'
        by (rewrite <- HLv; f_equal; lia).
      exact HLv'. }
    unfold L in Hnodup, Hpos. apply NoDup_cons in Hnodup as [_ Hnodup].
    apply Forall_cons in Hpos as [_ Hpos].
    assert (w ≠ v) as Hne.
    { intros ->. pose proof (NoDup_lookup _ _ _ _ Hnodup Hi Hv'). lia. }
    rewrite Forall_lookup in Hpos.
    pose proof (Hpos _ _ Hi). pose proof (Hpos _ _ Hv').
    rewrite list_lookup_insert_ne by lia.
    apply Hflags. by apply list_elem_of_lookup_2 in Hi.
Qed.

Lemma sptr_back_inv j k st st' :
  SearchInv n k st → sptr_back j st = Some st' → SearchInv n (k + j) st'.
Proof using All.
  destruct st as [test bffr flags sptr bptr seeds].
  intros [Hvalid Hbffr Hbptr [Hd1 Hd2] Hwalk Hnodup Hflags Hseeds];
    cbn [sr_test sr_bffr sr_flags sr_sptr sr_bptr sr_seeds] in *.
  unfold sptr_back. cbn [sr_test sr_bffr sr_flags sr_sptr sr_bptr sr_seeds].
  destruct (Nat.leb_spec j sptr); [|done]. intros [= <-].
  replace (sptr + k)%nat with (sptr - j + (k + j))%nat in * by lia.
  split; cbn [sr_test sr_bffr sr_flags sr_sptr sr_bptr sr_seeds]; done.
Qed.

(** [bptr[0] = bptr[-1] ^ sptr[0]] writes the value that the next step
    reaches, one entry beyond the part of the buffer that the invariant
    speaks of. *)
Lemma next_value_inv st st1 v :
  SearchInv n 0 st → next_value st = Some (st1, v) →
  SearchInv n 0 st1 ∧
  sr_test st1 = sr_test st ∧ sr_sptr st1 = sr_sptr st ∧
  sr_seeds st1 = sr_seeds st ∧ sr_flags st1 = sr_flags st ∧
  sr_bptr st1 = sr_bptr st ∧
  sr_bffr st1 !! S (sr_sptr st) = Some v ∧
  (sr_sptr st < len n)%nat ∧
  ∃ s, sr_test st !! sr_sptr st = Some s ∧
       v = Z.lxor (fold_left Z.lxor (take (sr_sptr st) (sr_test st)) 0) s.
Proof using All.
  destruct st as [test bffr flags sptr bptr seeds].
  intros [Hvalid Hbffr Hbptr [Hd1 Hd2] Hwalk Hnodup Hflags Hseeds];
    cbn [sr_test sr_bffr sr_flags sr_sptr sr_bptr sr_seeds] in *.
  rewrite Nat.add_0_r in *. subst bptr.
  unfold next_value. cbn [sr_test sr_bffr sr_flags sr_sptr sr_bptr sr_seeds].
  intros Hnext.
  destruct (bffr !! sptr) as [p|] eqn:Hp; [|done].
  destruct (test !! sptr) as [s|] eqn:Hs; [|done].
  cbn [mbind option_bind] in Hnext.
  destruct (wr bffr (S sptr) (Z.lxor p s)) as [bffr'|] eqn:Hwr; [|done].
  cbn [mbind option_bind] in Hnext. injection Hnext as <- <-.
  unfold wr in Hwr. destruct (Nat.ltb_spec (S sptr) (length bffr)); [|done].
  injection Hwr as <-.
  assert (p = fold_left Z.lxor (take sptr test) 0) as ->.
  { pose proof (last_walk 0 (take sptr test)) as Hlast.
    rewrite <- Hwalk in Hlast. rewrite last_lookup in Hlast.
    rewrite length_take in Hlast.
    replace (Init.Nat.pred (S sptr `min` length bffr)) with sptr in Hlast
      by lia.
    rewrite lookup_take_lt in Hlast by lia. congruence. }
  cbn [sr_test sr_bffr sr_flags sr_sptr sr_bptr sr_seeds].
  split_and!; try done;
    [|by rewrite list_lookup_insert_eq|lia|by exists s].
  split; cbn [sr_test sr_bffr sr_flags sr_sptr sr_bptr sr_seeds];
    rewrite ?Nat.add_0_r; try done.
  - by rewrite length_insert.
  - by rewrite take_insert_ge.
Qed.

(** [flags[bptr[0]] = true; sptr++; bptr++] for a value that was not
    reached before. *)
Lemma mark_and_advance_inv st v st2 s :
  SearchInv n 0 st → (sr_sptr st < len n)%nat →
  sr_test st !! sr_sptr st = Some s →
  sr_bffr st !! S (sr_sptr st) = Some v →
  v = Z.lxor (fold_left Z.lxor (take (sr_sptr st) (sr_test st)) 0) s →
  v ∉ 0 :: walk 0 (take (sr_sptr st) (sr_test st)) →
  mark_and_advance st v = Some st2 →
  SearchInv n 0 st2 ∧ sr_test st2 = sr_test st ∧
  sr_sptr st2 = S (sr_sptr st) ∧ sr_seeds st2 = sr_seeds st.
Proof using All.
  destruct st as [test bffr flags sptr bptr seeds].
  intros [Hvalid Hbffr Hbptr [Hd1 Hd2] Hwalk Hnodup Hflags Hseeds];
    cbn [sr_test sr_bffr sr_flags sr_sptr sr_bptr sr_seeds] in *.
  rewrite Nat.add_0_r in *. subst bptr.
  intros Hlt Hs Hv Hveq Hnew. unfold mark_and_advance.
  cbn [sr_test sr_bffr sr_flags sr_sptr sr_bptr sr_seeds].
  destruct (wr flags (Z.to_nat v) true) as [flags'|] eqn:Hwr; [|done].
  cbn [mbind option_bind]. intros [= <-].
  unfold wr in Hwr.
  destruct (Nat.ltb_spec (Z.to_nat v) (length flags)); [|done].
  injection Hwr as <-.
  cbn [sr_test sr_bffr sr_flags sr_sptr sr_bptr sr_seeds].
  assert (walk 0 (take (S sptr) test) = walk 0 (take sptr test) ++ [v])
    as Hsnoc.
  { rewrite (take_S_r _ _ _ Hs), walk_snoc. by rewrite Hveq. }
  assert (Forall (λ w, 0 ≤ w) (walk 0 (take (S sptr) test))) as Hpos.
  { apply walk_nonneg; [done|].
    apply (valid_masks_take_nonneg n); [done|lia]. }
  split_and!; try done.
  split; cbn [sr_test sr_bffr sr_flags sr_sptr sr_bptr sr_seeds];
    rewrite ?Nat.add_0_r; try done.
  - split; [lia|]. apply lookup_lt_Some in Hs. lia.
  - rewrite (take_S_r _ _ _ Hv), Hwalk, Hsnoc. done.
  - rewrite Hsnoc. rewrite app_comm_cons.
    apply NoDup_app. split; [done|]. split; [|apply NoDup_singleton].
    intros x Hx ->%list_elem_of_singleton. done.
  - intros w Hw. rewrite Hsnoc in Hw, Hpos.
    apply elem_of_app in Hw as [Hw|Hw];
      [|apply list_elem_of_singleton in Hw as ->].
    + destruct (decide (w = v)) as [->|Hne].
      * by rewrite list_lookup_insert_eq.
      * apply Forall_app in Hpos as [Hpos1 Hpos2].
        rewrite Forall_forall in Hpos1. pose proof (Hpos1 _ Hw).
        rewrite Forall_singleton in Hpos2.
        rewrite list_lookup_insert_ne by lia. by apply Hflags.
    + by rewrite list_lookup_insert_eq.
Qed.

Lemma shl_mask_valid x :
  valid_mask n x → Z.land x (LAST_DIGIT_STEP n) = 0 →
  valid_mask n (shl_mask x).
Proof using All.
  intros (d & Hd & ->) Hland. unfold LAST_DIGIT_STEP in Hland.
  assert (S d < n)%nat as Hd'.
  { destruct (decide (S d = n)) as [<-|]; [|lia]. exfalso.
    replace (Z.of_nat (S d) - 1) with (Z.of_nat d) in Hland by lia.
    rewrite Z.land_diag in Hland.
    assert (0 < 2 ^ Z.of_nat d) by (apply Z.pow_pos_nonneg; lia). lia. }
  exists (S d). split; [done|]. unfold shl_mask.
  rewrite Nat2Z.inj_succ, Z.pow_succ_r by lia.
  assert (0 < 2 ^ Z.of_nat d) by (apply Z.pow_pos_nonneg; lia).
  assert (2 ^ Z.of_nat d ≤ 2 ^ 14) by (apply Z.pow_le_mono_r; lia).
  rewrite Z.mod_small; lia.
Qed.

Lemma set_test_inv test bffr flags sptr bptr seeds test' :
  SearchInv n 0 {| sr_test := test; sr_bffr := bffr; sr_flags := flags;
                   sr_sptr := sptr; sr_bptr := bptr; sr_seeds := seeds |} →
  take sptr test' = take sptr test →
  Forall (valid_mask n) (take (len n) test') →
  (sptr ≤ length test')%nat →
  SearchInv n 0 {| sr_test := test'; sr_bffr := bffr; sr_flags := flags;
                   sr_sptr := sptr; sr_bptr := bptr; sr_seeds := seeds |}.
Proof using All.
  intros [Hvalid Hbffr Hbptr [Hd1 Hd2] Hwalk Hnodup Hflags Hseeds] Htake
    Hvalid' Hlen;
    cbn [sr_test sr_bffr sr_flags sr_sptr sr_bptr sr_seeds] in *.
  rewrite Nat.add_0_r in *.
  split; cbn [sr_test sr_bffr sr_flags sr_sptr sr_bptr sr_seeds];
    rewrite ?Nat.add_0_r, ?Htake; done.
Qed.

(** The sequence that is stored at [AtValid] is a cyclic Gray code. *)
Lemma closes_gray_seed st :
  SearchInv n 0 st → closes n st → (len n ≤ length (sr_test st))%nat →
  gray_seed n (log2 <$> take (len n) (sr_test st)).
Proof using All.
  intros [Hvalid Hbffr Hbptr [Hd1 Hd2] Hwalk Hnodup Hflags Hseeds]
    [Hlast (s & Hs & Hzero)] Hlen.
  rewrite Nat.add_0_r in *.
  exists (take (len n) (sr_test st)). split; [|done].
  assert (walk 0 (take (len n) (sr_test st))
          = walk 0 (take (sr_sptr st) (sr_test st)) ++ [0]) as Hsnoc.
  { rewrite <- Hlast, (take_S_r _ _ _ Hs), walk_snoc. by rewrite Hzero. }
  split_and!.
  - rewrite length_take. lia.
  - done.
  - rewrite Hsnoc. apply NoDup_cons in Hnodup as [Hnot Hnodup].
    apply NoDup_app. split; [done|]. split; [|apply NoDup_singleton].
    intros x Hx Hx0. apply list_elem_of_singleton in Hx0 as ->. done.
  - rewrite Hsnoc. apply last_snoc.
Qed.

Variable lowest : list Z.
Variable threadStruct : CodeSearchThreadStruct.
Hypothesis Hlowest : Forall (valid_mask n) lowest.

Lemma search_step_inv limit l st l' st' :
  SearchInv n 0 st → (l = AtValid → closes n st) →
  search_step n lowest threadStruct limit l st = Some (l', st') →
  SearchInv n 0 st' ∧ (l' = AtValid → closes n st').
Proof using All.
  intros Hinv Hcl Hstep. destruct l; cbn [search_step] in Hstep.
  - (* AtOuterLoop *)
    destruct (numSetSteps threadStruct); [done|].
    destruct (sr_test st !! _); [|done]. cbn [mbind option_bind] in Hstep.
    destruct (_ =? _); injection Hstep as <- <-; done.
  - (* AtDescend *)
    destruct (match cs_checkStepsLower threadStruct with
              | Some check => check (sr_test st) (sr_sptr st)
              | None => Some false
              end) as [c|]; [|done].
    cbn [mbind option_bind] in Hstep.
    destruct c; [injection Hstep as <- <-; done|].
    destruct (next_value st) as [[st1 v]|] eqn:Hnext; [|done].
    cbn [mbind option_bind] in Hstep.
    destruct (next_value_inv st st1 v Hinv Hnext)
      as (Hinv1 & Htest & Hsptr & Hseeds & Hflags & Hbptr & Hv & Hlt
          & s & Hs & Hveq).
    destruct (Z.eqb_spec v 0) as [Hv0|Hv0].
    + destruct (Nat.ltb_spec (sr_bptr st1) (len n)) as [Hb|Hb];
        injection Hstep as <- <-; [done|].
      split; [done|]. intros _. pose proof (sv_bptr _ _ _ Hinv1) as Hb1.
      rewrite Nat.add_0_r in Hb1.
      split; [lia|]. exists s. rewrite Htest, Hsptr. split; [done|].
      congruence.
    + destruct (sr_flags st1 !! Z.to_nat v) as [f|] eqn:Hf; [|done].
      cbn [mbind option_bind] in Hstep.
      destruct f; [injection Hstep as <- <-; done|].
      destruct (mark_and_advance st1 v) as [st2|] eqn:Hmark; [|done].
      cbn [mbind option_bind] in Hstep. injection Hstep as <- <-.
      split; [|done].
      apply (mark_and_advance_inv st1 v st2 s); try done.
      * by rewrite Hsptr.
      * by rewrite Htest, Hsptr.
      * by rewrite Hsptr.
      * by rewrite Htest, Hsptr.
      * rewrite Htest, Hsptr. intros [Hin|Hin]%elem_of_cons; [done|].
        pose proof (sv_flags _ _ _ Hinv v) as Hfl.
        rewrite Nat.add_0_r in Hfl. specialize (Hfl Hin). congruence.
  - (* AtValid *)
    specialize (Hcl eq_refl).
    destruct (match cs_checkStepsLower threadStruct with
              | Some check => _
              | None => Some false
              end) as [c|]; [|done].
    cbn [mbind option_bind] in Hstep.
    destruct c; [injection Hstep as <- <-; done|].
    destruct (has_lower_permutation _ _ _) as [lower|]; [|done].
    cbn [mbind option_bind] in Hstep.
    destruct lower; [injection Hstep as <- <-; done|].
    destruct (Nat.leb_spec (len n) (length (sr_test st))) as [Hlen|];
      [|done].
    injection Hstep as <- <-. split; [|done].
    pose proof (closes_gray_seed st Hinv Hcl Hlen) as Hseed.
    destruct Hinv as [Hvalid Hbffr Hbptr Hd Hwalk Hnodup Hflags Hseeds].
    split; cbn [sr_test sr_bffr sr_flags sr_sptr sr_bptr sr_seeds];
      try done.
    apply Forall_app. split; [done|]. by apply Forall_singleton.
  - (* AtSkipAdding *)
    destruct (sptr_back 3 st) as [st1|] eqn:H1; [|done].
    cbn [mbind option_bind] in Hstep.
    destruct (unflag st1) as [st2|] eqn:H2; [|done].
    cbn [mbind option_bind] in Hstep.
    destruct (unflag st2) as [st3|] eqn:H3; [|done].
    cbn [mbind option_bind] in Hstep.
    destruct (unflag st3) as [st4|] eqn:H4; [|done].
    cbn [mbind option_bind] in Hstep. injection Hstep as <- <-.
    split; [|done].
    apply (unflag_inv 0 st3); [|done]. apply (unflag_inv 1 st2); [|done].
    apply (unflag_inv 2 st1); [|done].
    by apply (sptr_back_inv 3 0 st).
  - (* AtIncrement *)
    destruct (sr_test st !! sr_sptr st) as [x|] eqn:Hx; [|done].
    cbn [mbind option_bind] in Hstep.
    destruct (Z.eqb_spec (Z.land x (LAST_DIGIT_STEP n)) 0) as [Hland|_].
    + destruct (wr (sr_test st) (sr_sptr st) (shl_mask x)) as [test1|]
        eqn:Hwr; [|done].
      cbn [mbind option_bind] in Hstep.
      unfold wr in Hwr.
      destruct (Nat.ltb_spec (sr_sptr st) (length (sr_test st))); [|done].
      injection Hwr as <-.
      destruct st as [test bffr flags sptr bptr seeds];
        cbn [sr_test sr_bffr sr_flags sr_sptr sr_bptr sr_seeds] in *.
      destruct sptr as [|prev]; [done|].
      destruct (<[S prev:=shl_mask x]> test !! prev) as [p|]; [|done].
      cbn [mbind option_bind] in Hstep.
      assert (Forall (valid_mask n)
                (take (len n) (<[S prev:=shl_mask x]> test))) as Hvalid1.
      { pose proof (sv_valid _ _ _ Hinv) as Hvalid.
        cbn [sr_test] in Hvalid.
        destruct (decide (S prev < len n)%nat) as [Hlt|Hge].
        - rewrite take_insert_lt by done. apply Forall_insert; [done|].
          apply shl_mask_valid; [|done].
          rewrite Forall_lookup in Hvalid. apply (Hvalid (S prev)).
          by rewrite lookup_take_lt.
        - rewrite take_insert_ge by lia. done. }
      destruct (shl_mask x =? p).
      * injection Hstep as <- <-. split; [|done].
        apply (set_test_inv test); try done.
        -- by rewrite take_insert_ge.
        -- rewrite length_insert. lia.
      * destruct (Nat.leb_spec (S (S prev)) (len n)) as [Hle|]; [|done].
        destruct (memcpy _ _ _ _ _) as [test2|] eqn:Hcpy; [|done].
        cbn [mbind option_bind] in Hstep. injection Hstep as <- <-.
        split; [|done].
        unfold memcpy in Hcpy.
        destruct (_ && _) eqn:Hguard; [|done]. injection Hcpy as <-.
        apply andb_true_iff in Hguard as [Hg1 Hg2].
        apply Nat.leb_le in Hg1, Hg2. rewrite length_insert in Hg1.
        rewrite drop_0.
        apply (set_test_inv test); try done.
        -- rewrite take_app_le by (rewrite length_take, length_insert; lia).
           rewrite take_take, Nat.min_l by lia. by rewrite take_insert_ge by lia.
        -- rewrite app_assoc.
           rewrite take_app_length'.
           2:{ rewrite length_app, !length_take, length_insert. lia. }
           apply Forall_app. split.
           ++ replace (take (S (S prev)) (<[S prev:=shl_mask x]> test))
                with (take (S (S prev))
                        (take (len n) (<[S prev:=shl_mask x]> test)))
                by (rewrite take_take; f_equal; lia).
              by apply Forall_take.
           ++ by apply Forall_take.
        -- rewrite !length_app, !length_take, length_drop, length_insert.
           lia.
    + destruct (sptr_back 1 st) as [st1|] eqn:H1; [|done].
      cbn [mbind option_bind] in Hstep.
      destruct (unflag st1) as [st2|] eqn:H2; [|done].
      cbn [mbind option_bind] in Hstep. injection Hstep as <- <-.
      split; [|done].
      apply (unflag_inv 0 st1); [|done]. by apply (sptr_back_inv 1 0 st).
  - done.
Qed.

Lemma search_run_inv limit fuel : ∀ l st st',
  SearchInv n 0 st → (l = AtValid → closes n st) →
  search_run n lowest threadStruct fuel limit l st = Some st' →
  SearchInv n 0 st'.
Proof using All.
  induction fuel as [|fuel IH]; intros l st st' Hinv Hcl Hrun.
  - destruct l; try done. by injection Hrun as <-.
  - assert (l = AtReturn ∨ l ≠ AtReturn) as [->|Hl]
      by (destruct l; by (left + right)).
    { by injection Hrun as <-. }
    assert (search_run n lowest threadStruct (S fuel) limit l st
            = r ← search_step n lowest threadStruct limit l st;
              search_run n lowest threadStruct fuel limit r.1 r.2) as Heq
      by (by destruct l).
    rewrite Heq in Hrun.
    destruct (search_step n lowest threadStruct limit l st) as [[l1 st1]|]
      eqn:Hstep; [|done].
    cbn [mbind option_bind fst snd] in Hrun.
    destruct (search_step_inv limit l st l1 st1 Hinv Hcl Hstep)
      as [Hinv1 Hcl1].
    by apply (IH l1 st1).
Qed.

Hypothesis Hcount : (cs_count threadStruct ≤ len n)%nat.
Hypothesis Hset_valid :
  Forall (valid_mask n) (take (cs_count threadStruct)
                           (cs_setSteps threadStruct)).
Hypothesis Hset_walk :
  NoDup (0 :: walk 0 (take (cs_count threadStruct)
                        (cs_setSteps threadStruct))).

Lemma set_start_loop_inv fuel : ∀ st st',
  SearchInv n 0 st →
  take (cs_count threadStruct) (sr_test st)
  = take (cs_count threadStruct) (cs_setSteps threadStruct) →
  set_start_loop threadStruct fuel st = Some st' →
  SearchInv n 0 st'.
Proof using All.
  induction fuel as [|fuel IH]; intros st st' Hinv Htest Hloop; [done|].
  cbn [set_start_loop] in Hloop. unfold numSetSteps in Hloop.
  destruct (Nat.ltb_spec (sr_sptr st) (cs_count threadStruct)) as [Hlt|Hge].
  2:{ by injection Hloop as <-. }
  destruct (next_value st) as [[st1 v]|] eqn:Hnext; [|done].
  cbn [mbind option_bind fst snd] in Hloop.
  destruct (mark_and_advance st1 v) as [st2|] eqn:Hmark; [|done].
  cbn [mbind option_bind] in Hloop.
  destruct (next_value_inv st st1 v Hinv Hnext)
    as (Hinv1 & Htest1 & Hsptr & Hseeds & Hflags & Hbptr & Hv & Hlt'
        & s & Hs & Hveq).
  destruct (mark_and_advance_inv st1 v st2 s Hinv1) as (Hinv2 & Htest2 & _);
    try done.
  - by rewrite Hsptr.
  - by rewrite Htest1, Hsptr.
  - by rewrite Hsptr.
  - by rewrite Htest1, Hsptr.
  - rewrite Htest1, Hsptr.
    assert (0 :: walk 0 (take (sr_sptr st) (sr_test st)) ++ [v]
            = take (S (S (sr_sptr st)))
                (0 :: walk 0 (take (cs_count threadStruct)
                                (cs_setSteps threadStruct)))) as Heq.
    { rewrite <- Htest. cbn [take]. f_equal.
      rewrite <- walk_take, take_take, Nat.min_l by lia.
      rewrite (take_S_r _ _ _ Hs), walk_snoc. by rewrite Hveq. }
    pose proof (NoDup_take_prefix _ (S (S (sr_sptr st))) Hset_walk) as Hnd.
    rewrite <- Heq in Hnd. rewrite app_comm_cons in Hnd.
    apply NoDup_app in Hnd as (_ & Hnot & _).
    intros Hin. apply (Hnot v Hin). apply list_elem_of_here.
  - apply (IH st2 st'); [done| |done]. by rewrite Htest2, Htest1.
Qed.

Lemma initial_state_inv st :
  initial_state n lowest threadStruct = Some st → SearchInv n 0 st.
Proof using All.
  unfold initial_state, numSetSteps. intros Hinit.
  destruct (memcpy (replicate _ 0) 0 _ 0 _) as [t1|] eqn:H1; [|done].
  cbn [mbind option_bind] in Hinit.
  destruct (memcpy t1 _ lowest 0 _) as [t2|] eqn:H2; [|done].
  cbn [mbind option_bind] in Hinit.
  destruct (memcpy t2 _ _ 0 _) as [t3|] eqn:H3; [|done].
  cbn [mbind option_bind] in Hinit.
  unfold memcpy in H1, H2, H3.
  destruct (_ && _) eqn:G1 in H1; [|done]. injection H1 as H1.
  destruct (_ && _) eqn:G2 in H2; [|done]. injection H2 as H2.
  destruct (_ && _) eqn:G3 in H3; [|done]. injection H3 as H3.
  apply andb_true_iff in G1 as [G1a G1b], G2 as [G2a G2b], G3 as [G3a G3b].
  apply Nat.leb_le in G1a, G1b, G2a, G2b, G3a, G3b.
  rewrite drop_0 in *. cbn [take app] in H1.
  rewrite length_replicate in G1a.
  set (c := cs_count threadStruct) in *.
  assert (length t1 = (len n + cs_stepsBack threadStruct)%nat) as Hl1.
  { rewrite <- H1, length_app, length_take, length_drop, length_replicate.
    lia. }
  assert (take c t1 = take c (cs_setSteps threadStruct)) as Ht1.
  { rewrite <- H1. rewrite take_app_length'; [done|].
    rewrite length_take. lia. }
  assert (length t2 = (len n + cs_stepsBack threadStruct)%nat) as Hl2.
  { rewrite <- H2, !length_app, !length_take, length_drop. lia. }
  assert (take (len n) t2 = take c t1 ++ take (len n - c) lowest) as Ht2.
  { rewrite <- H2, app_assoc. rewrite take_app_length'; [done|].
    rewrite length_app, !length_take. lia. }
  assert (take (len n) t3 = take (len n) t2) as Ht3.
  { rewrite <- H3. rewrite take_app_length'; [done|].
    rewrite length_take. lia. }
  apply (set_start_loop_inv _ _ st) in Hinit; [done| |].
  - split; cbn [sr_test sr_bffr sr_flags sr_sptr sr_bptr sr_seeds]; try done.
    + rewrite Ht3, Ht2, Ht1. apply Forall_app. split; [done|].
      by apply Forall_take.
    + by rewrite length_replicate.
    + split; lia.
    + apply NoDup_singleton.
    + intros w Hw. by apply elem_of_nil in Hw.
  - cbn [sr_test]. fold c. rewrite <- Ht1.
    replace (take c t3) with (take c (take (len n) t3))
      by (rewrite take_take; f_equal; lia).
    rewrite Ht3, Ht2. rewrite take_app_length'; [done|].
    rewrite length_take. lia.
Qed.

End SearchInvariant.

(** ** The seeds of a search thread *)

Lemma pow2_digit_form n masks :
  Forall (valid_mask n) masks →
  (λ d, 2 ^ d) <$> digit_form masks = masks.
Proof.
  intros H. unfold digit_form. rewrite <- list_fmap_compose.
  rewrite <- (list_fmap_id masks) at 2. apply Forall_fmap_ext.
  eapply Forall_impl; [exact H|].
  intros m (d & Hd & ->). cbn. by rewrite log2_pow2.
Qed.

Lemma gray_seed_explicit n seed :
  gray_seed n seed →
  wf_seq n seed ∧ gray_cycle n ((λ d, 2 ^ d) <$> seed).
Proof.
  intros (masks & Hg & ->). pose proof Hg as (Hlen & Hvalid & _).
  rewrite (pow2_digit_form n) by done. split; [|done]. split.
  - by apply digits_of_masks.
  - unfold digit_form. by rewrite length_fmap.
Qed.

Lemma stored_seeds_gray n lowest threadStruct fuel seeds :
  (n ≤ 16)%nat → Forall (valid_mask n) lowest →
  (cs_count threadStruct ≤ len n)%nat →
  Forall (valid_mask n)
    (take (cs_count threadStruct) (cs_setSteps threadStruct)) →
  NoDup (0 :: walk 0 (take (cs_count threadStruct)
                        (cs_setSteps threadStruct))) →
  calculateCodesWithSetStart n lowest threadStruct fuel = Some seeds →
  Forall (gray_seed n) seeds.
Proof.
  intros Hn Hlowest Hcount Hvalid Hwalk Hrun.
  unfold calculateCodesWithSetStart in Hrun.
  destruct (limitStepValue threadStruct) as [limit|]; [|done].
  cbn [mbind option_bind] in Hrun.
  destruct (initial_state n lowest threadStruct) as [st0|] eqn:Hinit;
    [|done].
  cbn [mbind option_bind] in Hrun.
  destruct (search_run n lowest threadStruct fuel limit AtOuterLoop st0)
    as [st|] eqn:Hsearch; [|done].
  cbn [mbind option_bind] in Hrun. injection Hrun as <-.
  pose proof (initial_state_inv n Hn lowest threadStruct Hlowest Hcount
                Hvalid Hwalk st0 Hinit) as Hinv0.
  pose proof (search_run_inv n Hn lowest threadStruct Hlowest limit fuel
                AtOuterLoop st0 st Hinv0 ltac:(done) Hsearch) as Hinv.
  exact (sv_seeds _ _ _ Hinv).
Qed.

(** X18: whatever the checkers of the thread return, every sequence that
    [calculateCodesWithSetStart] stores as a seed is a cyclic Gray code in
    digit form: [len] digits below [NUM_DIGITS] whose step masks, XORed one
    after another from 0, reach [len] different values and end at 0. The
    thread's set steps are to be step masks that reach different values,
    and [lowest] is to hold step masks. *)
Theorem stored_seeds_are_gray_cycles (n : nat) (lowest : list Z)
    (threadStruct : CodeSearchThreadStruct) (fuel : nat)
    (seeds : list (list Z)) :
  (n ≤ 16)%nat → Forall (valid_mask n) lowest →
  (cs_count threadStruct ≤ len n)%nat →
  Forall (valid_mask n)
    (take (cs_count threadStruct) (cs_setSteps threadStruct)) →
  NoDup (0 :: walk 0 (take (cs_count threadStruct)
                        (cs_setSteps threadStruct))) →
  calculateCodesWithSetStart n lowest threadStruct fuel = Some seeds →
  Forall (λ seed, wf_seq n seed ∧ gray_cycle n ((λ d, 2 ^ d) <$> seed))
    seeds.
Proof.
  intros Hn Hlowest Hcount Hvalid Hwalk Hrun.
  pose proof (stored_seeds_gray n lowest threadStruct fuel seeds Hn Hlowest
                Hcount Hvalid Hwalk Hrun) as Hgray.
  eapply Forall_impl; [exact Hgray|].
  intros seed. apply gray_seed_explicit.
Qed.

Lemma stored_seeds_are_gray_cycles_witness :
  Forall (λ seed, wf_seq 4 seed ∧ gray_cycle 4 ((λ d, 2 ^ d) <$> seed))
    [[0; 1; 0; 2; 1; 0; 1; 3; 0; 1; 0; 2; 1; 0; 1; 3];
     [0; 1; 0; 2; 1; 0; 1; 3; 0; 2; 0; 1; 2; 0; 2; 3];
     [0; 1; 0; 2; 1; 0; 1; 3; 2; 1; 2; 0; 1; 2; 1; 3]].
Proof.
  apply (stored_seeds_are_gray_cycles 4
           [1; 2; 1; 4; 1; 2; 1; 8; 1; 2; 1; 4; 1; 2; 1; 8]
           {| cs_count := 5; cs_setSteps := set_steps 4 [1; 2; 1; 4; 2];
              cs_checkStepsLower := Some checkStepsForLower01021;
              cs_stepsBack := 4; cs_checkStepsIn := checkStepsIn01021;
              cs_queueStepPointer := [(99, 99)]; cs_queueLen := 1 |}
           4000).
  - lia.
  - repeat (apply Forall_cons_2;
            [first [exists 0%nat; split; [lia | reflexivity]
                   |exists 1%nat; split; [lia | reflexivity]
                   |exists 2%nat; split; [lia | reflexivity]
                   |exists 3%nat; split; [lia | reflexivity]]|]);
      apply Forall_nil_2.
  - vm_compute. lia.
  - repeat (apply Forall_cons_2;
            [first [exists 0%nat; split; [lia | reflexivity]
                   |exists 1%nat; split; [lia | reflexivity]
                   |exists 2%nat; split; [lia | reflexivity]
                   |exists 3%nat; split; [lia | reflexivity]]|]);
      apply Forall_nil_2.
  - apply (bool_decide_unpack (NoDup _)). vm_compute. exact I.
  - vm_compute. reflexivity.
Defined.

(** ** The five threads of [main] *)

Lemma threadVals_ok n queueMinus3 queueMinus4 :
  (4 ≤ n)%nat →
  Forall (λ t, (cs_count t ≤ len n)%nat ∧
               Forall (valid_mask n) (take (cs_count t) (cs_setSteps t)) ∧
               NoDup (0 :: walk 0 (take (cs_count t) (cs_setSteps t))))
    (threadVals n queueMinus3 queueMinus4).
Proof.
  intros Hn.
  assert (16 ≤ len n)%nat as Hlen.
  { unfold len. change 16%nat with (2 ^ 4)%nat.
    apply Nat.pow_le_mono_r; lia. }
  assert (∀ d : nat, (d < 4)%nat → valid_mask n (2 ^ Z.of_nat d)) as Hmask.
  { intros d Hd. exists d. split; [lia|done]. }
  pose proof (Hmask 0%nat ltac:(lia)) as H1.
  pose proof (Hmask 1%nat ltac:(lia)) as H2.
  pose proof (Hmask 2%nat ltac:(lia)) as H4.
  pose proof (Hmask 3%nat ltac:(lia)) as H8.
  change (2 ^ Z.of_nat 0) with 1 in H1. change (2 ^ Z.of_nat 1) with 2 in H2.
  change (2 ^ Z.of_nat 2) with 4 in H4. change (2 ^ Z.of_nat 3) with 8 in H8.
  unfold threadVals, set_steps.
  repeat apply Forall_cons_2; try apply Forall_nil_2;
    cbn [cs_count cs_setSteps take app];
    (split; [lia|]); (split; [repeat constructor; done|]);
    apply (bool_decide_unpack (NoDup _)); vm_compute; exact I.
Qed.

Lemma search_all_gray n fuel found :
  (4 ≤ n ≤ 15)%nat → search_all n fuel = Some found →
  length found = 5%nat ∧ Forall (Forall (gray_seed n)) found.
Proof.
  intros Hn Hall. unfold search_all in Hall.
  rewrite make_lowest_ruler in Hall by lia.
  cbn [mbind option_bind] in Hall.
  destruct (make_reduced_queue n 3) as [q3|]; [|done].
  destruct (make_reduced_queue n 4) as [q4|]; [|done].
  cbn [mbind option_bind] in Hall.
  apply mapM_Some in Hall.
  split.
  - by rewrite <- (Forall2_length _ _ _ Hall).
  - pose proof (threadVals_ok n q3 q4 ltac:(lia)) as Hok.
    induction Hall as [|t seeds ts found Hrun Hall IH]; [constructor|].
    apply Forall_cons in Hok as [(Hcount & Hvalid & Hwalk) Hok].
    constructor; [|by apply IH].
    apply (stored_seeds_gray n (ruler n ++ [2 ^ (Z.of_nat n - 1)]) t fuel
             seeds); try done; [lia|].
    apply Forall_app. split; [apply ruler_valid; lia|].
    apply Forall_singleton. exists (n - 1)%nat. split; [lia|].
    f_equal. lia.
Qed.

(** X19: for 4 to 15 digits, [main] starts five search threads, and every
    seed that one of them stores is a cyclic Gray code in digit form. *)
Theorem search_all_seeds_are_gray_cycles (n fuel : nat)
    (found : list (list (list Z))) :
  (4 ≤ n ≤ 15)%nat → search_all n fuel = Some found →
  length found = 5%nat ∧
  Forall (Forall (λ seed, wf_seq n seed ∧
                          gray_cycle n ((λ d, 2 ^ d) <$> seed))) found.
Proof.
  intros Hn Hall.
  destruct (search_all_gray n fuel found Hn Hall) as [Hlen Hgray].
  split; [done|].
  eapply Forall_impl; [exact Hgray|]. intros seeds Hseeds.
  eapply Forall_impl; [exact Hseeds|]. intros seed.
  apply gray_seed_explicit.
Qed.

Lemma search_all_seeds_are_gray_cycles_witness :
  ∃ found,
    search_all 4 4000 = Some found ∧ length found = 5%nat ∧
    Forall (Forall (λ seed, wf_seq 4 seed ∧
                            gray_cycle 4 ((λ d, 2 ^ d) <$> seed))) found.
Proof.
  eexists. split; [vm_compute; reflexivity|].
  apply (search_all_seeds_are_gray_cycles 4 4000); [lia|].
  vm_compute. reflexivity.
Defined.

(** ** The totals of [main] *)

Lemma wrap64_add_r x y : wrap64 (x + wrap64 y) = wrap64 (x + y).
Proof. unfold wrap64. apply Zplus_mod_idemp_r. Qed.

Lemma seeds_total_app n a b :
  seeds_total n (a ++ b) = seeds_total n a + seeds_total n b.
Proof.
  induction a as [|s a IH]; [done|].
  cbn [app]. unfold seeds_total in *. cbn [foldr]. rewrite IH. lia.
Qed.

Lemma seeds_total_split n q seeds :
  seeds_total n seeds
  = seeds_total n (take q seeds) + seeds_total n (drop q seeds).
Proof. by rewrite <- seeds_total_app, take_drop. Qed.

Lemma extrapolateSeeds_take n mt seeds k :
  (2 ≤ n ≤ 12)%nat → make_multiplesTable n = Some mt →
  Forall (wf_seq n) seeds → (k ≤ length seeds)%nat →
  extrapolateSeeds n (factZ n) (full_queue n) mt seeds k
  = Some (wrap64 (seeds_total n (take k seeds))).
Proof.
  intros Hn Hmt Hwf Hk. unfold extrapolateSeeds.
  rewrite (seeds_loop_total n mt seeds Hn Hmt Hwf); [|lia| |done].
  - by rewrite drop_0.
  - rewrite <- (make_queueSize_spec n), capacity_eq by lia.
    split; [done|]. apply length_replicate.
Qed.

Lemma stage3_spec n mt seeds total :
  (2 ≤ n ≤ 12)%nat → make_multiplesTable n = Some mt →
  Forall (wf_seq n) seeds →
  stage3 n (factZ n) (full_queue n) mt seeds (length seeds / 4) 4 0 total
  = Some (wrap64 (total + seeds_total n seeds)).
Proof.
  intros Hn Hmt Hwf. set (q := (length seeds / 4)%nat).
  assert (4 * q ≤ length seeds)%nat as Hq
    by (unfold q; apply Nat.Div0.mul_div_le).
  cbn [stage3 Nat.eqb].
  rewrite !(extrapolateSeeds_take n mt) by
    (done || (by apply Forall_drop) || (rewrite length_drop; lia)).
  cbn [mbind option_bind].
  repeat (rewrite ?wrap64_add_r, ?wrap64_add_l, <- ?Z.add_assoc).
  do 2 f_equal.
  rewrite (take_ge (drop (q * 3) seeds)) by (rewrite length_drop; lia).
  replace (q * 0)%nat with 0%nat by lia. rewrite drop_0.
  replace (q * 1)%nat with q by lia.
  replace (q * 2)%nat with (q + q)%nat by lia.
  replace (q * 3)%nat with (q + (q + q))%nat by lia.
  rewrite (seeds_total_split n q seeds).
  rewrite (seeds_total_split n q (drop q seeds)).
  rewrite (seeds_total_split n q (drop q (drop q seeds))).
  rewrite !drop_drop, (Nat.add_assoc q q q). done.
Qed.

Lemma stage2_spec n mt f0 f1 f2 f3 f4 :
  (2 ≤ n ≤ 12)%nat → make_multiplesTable n = Some mt →
  Forall (Forall (wf_seq n)) [f1; f2; f3; f4] →
  stage2 n (factZ n) (full_queue n) mt [f0; f1; f2; f3; f4] 4 4 (0, 0)
  = Some (wrap64 (Z.of_nat (length (f1 ++ f2 ++ f3 ++ f4))),
          wrap64 (seeds_total n (f1 ++ f2 ++ f3 ++ f4))).
Proof.
  intros Hn Hmt Hwf.
  apply Forall_cons in Hwf as [H1 Hwf]. apply Forall_cons in Hwf as [H2 Hwf].
  apply Forall_cons in Hwf as [H3 Hwf]. apply Forall_cons in Hwf as [H4 _].
  cbn [stage2 lookup list_lookup Nat.sub mbind option_bind fst snd].
  rewrite !(extrapolateSeeds_take n mt) by done.
  cbn [mbind option_bind fst snd]. rewrite !firstn_all.
  repeat (rewrite ?wrap64_add_r, ?wrap64_add_l, <- ?Z.add_assoc).
  rewrite !length_app, !seeds_total_app. do 2 f_equal; f_equal; lia.
Qed.

(** X20: for 4 to 12 digits, once the five search threads have returned,
    [main] returns: the first number it prints is the number of seeds the
    threads found, the second is the sum, over all these seeds, of the
    number of classes of relabellings of the seed up to rotation times the
    number of rotations ([len], or [len / 2] for a seed whose two halves
    are the same), both modulo [2 ^ 64]. No seed is lost or counted twice
    by the split of the first thread's seeds over four extrapolation
    threads. *)
Theorem main_counts_every_seed (n fuel : nat) (found : list (list (list Z))) :
  (4 ≤ n ≤ 12)%nat → search_all n fuel = Some found →
  main n fuel
  = Some (wrap64 (Z.of_nat (length (concat found))),
          wrap64 (seeds_total n (concat found))).
Proof.
  intros Hn Hall.
  destruct (search_all_gray n fuel found ltac:(lia) Hall) as [Hlen Hgray].
  assert (Forall (Forall (wf_seq n)) found) as Hwf.
  { eapply Forall_impl; [exact Hgray|]. intros seeds Hseeds.
    eapply Forall_impl; [exact Hseeds|]. intros seed Hseed.
    by apply gray_seed_explicit. }
  destruct found as [|f0 [|f1 [|f2 [|f3 [|f4 [|]]]]]]; try done.
  apply Forall_cons in Hwf as [H0 Hwf].
  unfold main. rewrite Hall, make_queueSize_spec by lia.
  rewrite make_queue_spec by lia. fold (full_queue n).
  rewrite (make_multiplesTable_spec n) by lia.
  cbn [mbind option_bind].
  rewrite (stage2_spec n) by (done || lia || apply make_multiplesTable_spec; lia).
  cbn [mbind option_bind lookup list_lookup fst snd].
  rewrite (stage3_spec n) by (done || lia || apply make_multiplesTable_spec; lia).
  cbn [mbind option_bind concat]. rewrite app_nil_r.
  repeat (rewrite ?wrap64_add_r, ?wrap64_add_l, <- ?Z.add_assoc).
  rewrite (length_app f0), (seeds_total_app n f0).
  rewrite Nat2Z.inj_add.
  f_equal. f_equal; f_equal; lia.
Qed.

Lemma main_counts_every_seed_witness :
  ∃ found,
    search_all 4 4000 = Some found ∧
    main 4 4000
    = Some (wrap64 (Z.of_nat (length (concat found))),
            wrap64 (seeds_total 4 (concat found))).
Proof.
  eexists. split; [vm_compute; reflexivity|].
  apply (main_counts_every_seed 4 4000); [lia|].
  vm_compute. reflexivity.
Defined.

(** ** [markForRemoval] *)

Lemma steps_lt_irrefl a : ¬ steps_lt a a.
Proof.
  induction a as [|x a IH]; [by intros []|].
  cbn. intros [?|[_ ?]]; [lia|done].
Qed.

Lemma steps_lt_trans a : ∀ b c, steps_lt a b → steps_lt b c → steps_lt a c.
Proof.
  induction a as [|x a IH]; intros [|y b] [|z c]; try done. cbn.
  intros [Hxy|[-> Hab]] [Hyz|[-> Hbc]]; try (left; lia).
  right. split; [done|]. by apply (IH b).
Qed.

Lemma markForRemoval_compare_spec r : ∀ a b,
  (1 ≤ r)%nat → (r ≤ length a)%nat → (r ≤ length b)%nat →
  (take r a = take r b ∧ markForRemoval_compare r a b = Some None) ∨
  (steps_lt (take r a) (take r b) ∧
   markForRemoval_compare r a b = Some (Some false)) ∨
  (steps_lt (take r b) (take r a) ∧
   markForRemoval_compare r a b = Some (Some true)).
Proof.
  induction r as [|r IH]; intros [|x a] [|y b] Hr Ha Hb;
    cbn [length] in *; try lia.
  cbn [markForRemoval_compare take steps_lt].
  destruct (Z.eqb_spec x y) as [->|Hne].
  - destruct r as [|r].
    + left. by rewrite !take_0.
    + replace (S (S r) <=? 1)%nat with false by done.
      replace (S (S r) - 1)%nat with (S r) by lia.
      destruct (IH a b) as [[Heq ->]|[[Hlt ->]|[Hgt ->]]]; try lia.
      * left. by rewrite Heq.
      * right. left. split; [|done]. by right.
      * right. right. split; [|done]. by right.
  - destruct (Z.ltb_spec y x).
    + right. right. split; [|done]. by left.
    + right. left. split; [|done]. left. lia.
Qed.

Section MarkForRemoval.

Variable n : nat.
Variable memory : list (list Z).
Variable seqs : list nat.
Variable ss : list (list Z).
Variable seqToMark : list Z.
Hypothesis Hn : (2 ≤ n)%nat.
Hypothesis Hptr : pointed memory seqs = Some ss.
Hypothesis Hlen : Forall (λ s, (len n ≤ length s)%nat) ss.
Hypothesis Hmark : (len n ≤ length seqToMark)%nat.
Hypothesis Hasc : keys_ascend (mark_key n <$> ss).
Hypothesis Hint : Z.of_nat (length seqs) < 2 ^ 31.

Lemma len_ge_4 : (4 ≤ len n)%nat.
Proof using Hn.
  unfold len. change 4%nat with (2 ^ 2)%nat. by apply Nat.pow_le_mono_r.
Qed.

Lemma pointed_lookup i :
  (i < length seqs)%nat →
  ∃ ptr s, seqs !! i = Some ptr ∧ ss !! i = Some s ∧
           memory !! ptr = Some s ∧ (len n ≤ length s)%nat.
Proof using Hptr Hlen.
  intros Hi. unfold pointed in Hptr. apply mapM_Some in Hptr.
  destruct (lookup_lt_is_Some_2 seqs i Hi) as [ptr Hp].
  destruct (Forall2_lookup_l _ _ _ _ _ Hptr Hp) as (s & Hs & Hm).
  exists ptr, s. split_and!; try done.
  rewrite Forall_lookup in Hlen. by apply (Hlen i).
Qed.

Lemma markForRemoval_loop_spec fuel : ∀ low size,
  0 ≤ low → size < Z.of_nat (length seqs) → low ≤ size + 1 →
  (∀ i s, Z.of_nat i < low → ss !! i = Some s →
          steps_lt (mark_key n s) (mark_key n seqToMark)) →
  (∀ i s, size < Z.of_nat i → ss !! i = Some s →
          steps_lt (mark_key n seqToMark) (mark_key n s)) →
  size - low + 1 < Z.of_nat fuel →
  (∃ i ptr s,
     seqs !! i = Some ptr ∧ memory !! ptr = Some s ∧
     mark_key n s = mark_key n seqToMark ∧
     markForRemoval_loop n fuel memory seqs low size seqToMark
     = Some (<[ptr := <[0%nat := 1]> s]> memory, true)) ∨
  ((∀ s, s ∈ ss → mark_key n s ≠ mark_key n seqToMark) ∧
   markForRemoval_loop n fuel memory seqs low size seqToMark
   = Some (memory, false)).
Proof using All.
  pose proof len_ge_4 as H4.
  assert (length ss = length seqs) as Hss.
  { unfold pointed in Hptr. apply mapM_Some in Hptr.
    symmetry. by apply (Forall2_length _ _ _ Hptr). }
  induction fuel as [|fuel IH]; intros low size Hlow Hsize Hle Hbelow Habove
    Hfuel; [lia|].
  cbn [markForRemoval_loop].
  destruct (Z.leb_spec low size) as [Hls|Hls].
  2:{ right. split; [|done]. intros s Hs Heq.
      apply list_elem_of_lookup in Hs as [i Hi].
      destruct (decide (Z.of_nat i < low)) as [Hi1|Hi1].
      - specialize (Hbelow i s Hi1 Hi). rewrite Heq in Hbelow.
        by apply steps_lt_irrefl in Hbelow.
      - specialize (Habove i s ltac:(lia) Hi). rewrite Heq in Habove.
        by apply steps_lt_irrefl in Habove. }
  set (mid := low + Z.shiftr (size - low) 1).
  assert (low ≤ mid ≤ size) as Hmid.
  { unfold mid. rewrite Z.shiftr_div_pow2 by lia. change (2 ^ 1) with 2.
    pose proof (Z.div_pos (size - low) 2 ltac:(lia) ltac:(lia)).
    pose proof (Z.div_le_upper_bound (size - low) 2 (size - low)
                  ltac:(lia) ltac:(lia)). lia. }
  destruct (Z.leb_spec 0 mid) as [_|]; [|lia].
  destruct (pointed_lookup (Z.to_nat mid) ltac:(lia))
    as (ptr & s & Hp & Hs & Hm & Hslen).
  rewrite Hp. cbn [mbind option_bind]. rewrite Hm. cbn [mbind option_bind].
  destruct (markForRemoval_compare_spec (len n - 2) (drop 2 seqToMark)
              (drop 2 s) ltac:(lia) ltac:(rewrite length_drop; lia)
              ltac:(rewrite length_drop; lia))
    as [[Heq ->]|[[Hlt ->]|[Hgt ->]]]; cbn [mbind option_bind].
  - left. exists (Z.to_nat mid), ptr, s. split_and!; try done.
    rewrite (wr_Some s) by lia. cbn [mbind option_bind].
    rewrite wr_Some by (by apply lookup_lt_Some in Hm). done.
  - apply IH; try lia.
    + intros i s' Hi Hs'. apply (Hbelow i); [lia|done].
    + intros i s' Hi Hs'.
      destruct (decide (i = Z.to_nat mid)) as [->|Hne].
      * assert (s' = s) as -> by congruence. exact Hlt.
      * apply (steps_lt_trans _ (mark_key n s)); [exact Hlt|].
        apply (Hasc (Z.to_nat mid) i); [lia| |];
          by rewrite list_lookup_fmap, ?Hs, ?Hs'.
  - destruct (Z.ltb_spec (mid + 1) (2 ^ 31)) as [_|]; [|lia].
    apply IH; try lia.
    + intros i s' Hi Hs'.
      destruct (decide (i = Z.to_nat mid)) as [->|Hne].
      * assert (s' = s) as -> by congruence. exact Hgt.
      * apply (steps_lt_trans _ (mark_key n s)); [|exact Hgt].
        apply (Hasc i (Z.to_nat mid)); [lia| |];
          by rewrite list_lookup_fmap, ?Hs, ?Hs'.
    + intros i s' Hi Hs'. apply (Habove i); [lia|done].
Qed.

End MarkForRemoval.

(** X21: [markForRemoval] on pointers to sequences whose steps from the
    third on are in strictly ascending order, called with the index of the
    last pointer as [size]: it returns; it returns true exactly when one of
    the sequences agrees with [seqToMark] from the third step on, and then
    the first step of that sequence, and nothing else, is set to 1; when it
    returns false the memory is unchanged. *)
Theorem markForRemoval_finds (n fuel : nat) (memory : list (list Z))
    (seqs : list nat) (ss : list (list Z)) (seqToMark : list Z) :
  (2 ≤ n)%nat → pointed memory seqs = Some ss →
  Forall (λ s, (len n ≤ length s)%nat) ss →
  (len n ≤ length seqToMark)%nat →
  keys_ascend (mark_key n <$> ss) →
  Z.of_nat (length seqs) < 2 ^ 31 → (length seqs < fuel)%nat →
  (∃ i ptr s,
     seqs !! i = Some ptr ∧ memory !! ptr = Some s ∧
     mark_key n s = mark_key n seqToMark ∧
     markForRemoval n fuel memory seqs (Z.of_nat (length seqs) - 1) seqToMark
     = Some (<[ptr := <[0%nat := 1]> s]> memory, true)) ∨
  ((∀ s, s ∈ ss → mark_key n s ≠ mark_key n seqToMark) ∧
   markForRemoval n fuel memory seqs (Z.of_nat (length seqs) - 1) seqToMark
   = Some (memory, false)).
Proof.
  intros Hn Hptr Hlen Hmark Hasc Hint Hfuel. unfold markForRemoval.
  apply (markForRemoval_loop_spec n memory seqs ss seqToMark); try done;
    try lia.
  intros i s Hi Hs. apply lookup_lt_Some in Hs.
  unfold pointed in Hptr. apply mapM_Some in Hptr.
  pose proof (Forall2_length _ _ _ Hptr). lia.
Qed.

Lemma markForRemoval_finds_witness :
  let memory := [[1; 0; 2; 1]; [0; 1; 0; 1]; [0; 1; 1; 0]] in
  (∃ i ptr s,
     [1; 2; 0]%nat !! i = Some ptr ∧ memory !! ptr = Some s ∧
     mark_key 2 s = mark_key 2 [3; 3; 1; 0] ∧
     markForRemoval 2 4 memory [1; 2; 0]%nat (Z.of_nat 3 - 1) [3; 3; 1; 0]
     = Some (<[ptr := <[0%nat := 1]> s]> memory, true)) ∨
  ((∀ s, s ∈ [[0; 1; 0; 1]; [0; 1; 1; 0]; [1; 0; 2; 1]] →
         mark_key 2 s ≠ mark_key 2 [3; 3; 1; 0]) ∧
   markForRemoval 2 4 memory [1; 2; 0]%nat (Z.of_nat 3 - 1) [3; 3; 1; 0]
   = Some (memory, false)).
Proof.
  apply (markForRemoval_finds 2 4 [[1; 0; 2; 1]; [0; 1; 0; 1]; [0; 1; 1; 0]]
           [1; 2; 0]%nat [[0; 1; 0; 1]; [0; 1; 1; 0]; [1; 0; 2; 1]]
           [3; 3; 1; 0]).
  - lia.
  - reflexivity.
  - repeat constructor; vm_compute; lia.
  - vm_compute; first [lia | reflexivity].
  - intros i j a b Hij Hi Hj.
    destruct i as [|[|[|i]]]; destruct j as [|[|[|j]]];
      try lia; try discriminate;
      injection Hi as <-; injection Hj as <-; vm_compute;
      first [left; reflexivity | right; split; [reflexivity|left; reflexivity]].
  - vm_compute; first [lia | reflexivity].
  - vm_compute; first [lia | reflexivity].
Defined.

Lemma markForRemoval_loop_above n memory seqs ss seqToMark :
  (2 ≤ n)%nat → pointed memory seqs = Some ss →
  Forall (λ s, (len n ≤ length s)%nat) ss →
  (len n ≤ length seqToMark)%nat →
  (∀ s, s ∈ ss → steps_lt (mark_key n s) (mark_key n seqToMark)) →
  Z.of_nat (length seqs) < 2 ^ 31 - 1 →
  ∀ d low, (d = length seqs - low)%nat → (low ≤ length seqs)%nat →
    ∃ k, (k ≤ d)%nat ∧
      ∀ fuel, markForRemoval_loop n (k + fuel) memory seqs (Z.of_nat low)
                (Z.of_nat (length seqs)) seqToMark
              = markForRemoval_loop n fuel memory seqs
                  (Z.of_nat (length seqs)) (Z.of_nat (length seqs))
                  seqToMark.
Proof.
  intros Hn Hptr Hlen Hmark Hbelow Hint.
  pose proof (len_ge_4 n Hn) as H4.
  induction d as [d IH] using lt_wf_ind. intros low Hd Hlow.
  destruct (decide (low = length seqs)) as [->|Hne].
  { exists 0%nat. split; [lia|done]. }
  set (m := Z.of_nat (length seqs)).
  set (mid := Z.of_nat low + Z.shiftr (m - Z.of_nat low) 1).
  assert (Z.of_nat low ≤ mid < m) as Hmid.
  { unfold mid. rewrite Z.shiftr_div_pow2 by lia. change (2 ^ 1) with 2.
    pose proof (Z.div_pos (m - Z.of_nat low) 2 ltac:(lia) ltac:(lia)).
    pose proof (Z.div_lt (m - Z.of_nat low) 2 ltac:(lia) ltac:(lia)). lia. }
  destruct (IH (length seqs - Z.to_nat (mid + 1))%nat ltac:(lia)
              (Z.to_nat (mid + 1)) eq_refl ltac:(lia)) as (k & Hk & Hrun).
  exists (S k). split; [lia|]. intros fuel.
  cbn [Nat.add markForRemoval_loop]. fold m. fold mid.
  destruct (Z.leb_spec (Z.of_nat low) m) as [_|]; [|lia].
  destruct (Z.leb_spec 0 mid) as [_|]; [|lia].
  destruct (pointed_lookup n memory seqs ss Hptr Hlen (Z.to_nat mid)
              ltac:(lia)) as (ptr & s & Hp & Hs & Hm & Hslen).
  rewrite Hp. cbn [mbind option_bind]. rewrite Hm. cbn [mbind option_bind].
  destruct (markForRemoval_compare_spec (len n - 2) (drop 2 seqToMark)
              (drop 2 s) ltac:(lia) ltac:(rewrite length_drop; lia)
              ltac:(rewrite length_drop; lia))
    as [[Heq _]|[[Hlt _]|[Hgt ->]]].
  - exfalso. apply list_elem_of_lookup_2 in Hs.
    specialize (Hbelow s Hs). unfold mark_key in Hbelow.
    rewrite Heq in Hbelow. by apply steps_lt_irrefl in Hbelow.
  - exfalso. apply list_elem_of_lookup_2 in Hs.
    specialize (Hbelow s Hs).
    apply (steps_lt_irrefl (mark_key n s)).
    by apply (steps_lt_trans _ (mark_key n seqToMark)).
  - cbn [mbind option_bind].
    destruct (Z.ltb_spec (mid + 1) (2 ^ 31)) as [_|]; [|lia].
    rewrite <- Hrun. by rewrite Z2Nat.id by lia.
Qed.

(** X22: the parameter [size] is used as the index of the last pointer
    (the loop runs while [low <= size]). Called with the number of pointers
    instead, for a sequence that is above every sequence of the list, the
    search narrows to [low = size] and reads [seqs[size]], one entry beyond
    the list: it does not return a value. *)
Theorem markForRemoval_reads_beyond_the_list (n : nat)
    (memory : list (list Z)) (seqs : list nat) (ss : list (list Z))
    (seqToMark : list Z) :
  (2 ≤ n)%nat → pointed memory seqs = Some ss →
  Forall (λ s, (len n ≤ length s)%nat) ss →
  (len n ≤ length seqToMark)%nat →
  (∀ s, s ∈ ss → steps_lt (mark_key n s) (mark_key n seqToMark)) →
  Z.of_nat (length seqs) < 2 ^ 31 - 1 →
  let size := Z.of_nat (length seqs) in
  (∃ k, (k ≤ length seqs)%nat ∧
     ∀ fuel, markForRemoval n (k + fuel) memory seqs size seqToMark
             = markForRemoval_loop n fuel memory seqs size size seqToMark) ∧
  seqs !! Z.to_nat (size + Z.shiftr (size - size) 1) = None ∧
  ∀ fuel, markForRemoval n fuel memory seqs size seqToMark = None.
Proof.
  intros Hn Hptr Hlen Hmark Hbelow Hint size.
  destruct (markForRemoval_loop_above n memory seqs ss seqToMark Hn Hptr Hlen
              Hmark Hbelow Hint (length seqs) 0%nat ltac:(lia) ltac:(lia))
    as (k & Hk & Hrun).
  assert (seqs !! Z.to_nat (size + Z.shiftr (size - size) 1) = None) as Hout.
  { rewrite Z.sub_diag. change (Z.shiftr 0 1) with 0.
    rewrite Z.add_0_r. unfold size. rewrite Nat2Z.id.
    by apply lookup_ge_None_2. }
  assert (∀ fuel, markForRemoval_loop n fuel memory seqs size size seqToMark
                  = None) as Hend.
  { intros [|fuel]; [done|]. cbn [markForRemoval_loop].
    rewrite Z.leb_refl, Hout.
    by destruct (0 <=? size + Z.shiftr (size - size) 1). }
  split_and!.
  - exists k. split; [done|]. intros fuel. unfold markForRemoval.
    exact (Hrun fuel).
  - done.
  - intros fuel. destruct (decide (k ≤ fuel)%nat) as [Hle|Hgt].
    + destruct (Nat.le_exists_sub k fuel Hle) as (f & -> & _).
      rewrite (Nat.add_comm f k). unfold markForRemoval.
      rewrite <- (Hend f). exact (Hrun f).
    + destruct (markForRemoval n fuel memory seqs size seqToMark)
        as [r|] eqn:Hr; [|done]. exfalso.
      assert (∀ f f' low sz r,
                markForRemoval_loop n f memory seqs low sz seqToMark = Some r →
                (f ≤ f')%nat →
                markForRemoval_loop n f' memory seqs low sz seqToMark
                = Some r) as Hmono.
      { clear. induction f as [|f IH]; intros f' low sz r Hf Hle; [done|].
        destruct f' as [|f']; [lia|]. cbn [markForRemoval_loop] in *.
        destruct (low <=? sz); [|done].
        destruct (if 0 <=? _ then _ else _) as [ptr|]; [|done].
        cbn [mbind option_bind] in *.
        destruct (memory !! ptr) as [s|]; [|done].
        cbn [mbind option_bind] in *.
        destruct (markForRemoval_compare _ _ _) as [[[|]|]|]; try done.
        - destruct (_ <? _); [|done]. apply IH; [done|lia].
        - apply IH; [done|lia]. }
      pose proof (Hmono fuel (k + 0)%nat 0 size r Hr ltac:(lia)) as Hk0.
      pose proof (Hrun 0%nat) as Hk1. cbn [markForRemoval_loop] in Hk1.
      change (Z.of_nat 0) with 0 in Hk1. unfold size in Hk0. congruence.
Qed.

Lemma markForRemoval_reads_beyond_the_list_witness :
  let memory := [[1; 0; 2; 1]; [0; 1; 0; 1]; [0; 1; 1; 0]] in
  let size := Z.of_nat (length [1; 2; 0]%nat) in
  (∃ k, (k ≤ length [1; 2; 0]%nat)%nat ∧
     ∀ fuel, markForRemoval 2 (k + fuel) memory [1; 2; 0]%nat size
               [0; 0; 2; 2]
             = markForRemoval_loop 2 fuel memory [1; 2; 0]%nat size size
                 [0; 0; 2; 2]) ∧
  [1; 2; 0]%nat !! Z.to_nat (size + Z.shiftr (size - size) 1) = None ∧
  ∀ fuel, markForRemoval 2 fuel memory [1; 2; 0]%nat size [0; 0; 2; 2]
          = None.
Proof.
  apply (markForRemoval_reads_beyond_the_list 2
           [[1; 0; 2; 1]; [0; 1; 0; 1]; [0; 1; 1; 0]] [1; 2; 0]%nat
           [[0; 1; 0; 1]; [0; 1; 1; 0]; [1; 0; 2; 1]] [0; 0; 2; 2]).
  - lia.
  - reflexivity.
  - repeat constructor; vm_compute; lia.
  - vm_compute; first [lia | reflexivity].
  - intros s Hs. repeat (apply elem_of_cons in Hs as [->|Hs]);
      [..|by apply elem_of_nil in Hs]; vm_compute;
      first [left; reflexivity | right; split; [reflexivity|left; reflexivity]].
  - vm_compute; first [lia | reflexivity].
Defined.

